(** * radmc3dPy.image: visibilities, closure phases, PSF convolution, masks

    A shallow embedding of the numerical core of [radmc3dPy/image.py]
    ([getPSF], [radmc3dImage.getVisibility], [radmc3dImage.getClosurePhase],
    [radmc3dImage.imConv], [cmask], [radmc3dImage.readImage] for formatted
    and for binary files, [radmc3dImage.getMomentMap], the data array of
    [radmc3dImage.writeFits] and the command line of [makeImage]) together
    with the part of numpy these functions rely on.

    Conventions of the embedding:
    - Python/numpy [float64] values are idealised as real numbers ([R]);
      rounding, infinities and NaN are outside the model.  Division is the
      total division of the reals: a call in which Python divides a float by
      zero ([ZeroDivisionError]) or numpy produces [inf] or [nan] is outside
      the model.
    - A numpy array is a shape and an index function ([ndarray]); numpy's
      indexing, broadcasting and assignment rules are written out on shapes
      and raise the exception numpy raises.
    - Python exceptions are the [Err] results of an error monad.
    - Objects that Python shares by reference (the image-cube object, its
      arrays, the [fwhm] list) live in a store ([heap]); [deepcopy] and the
      array-producing statements allocate in it. *)

From Stdlib Require Import Reals Lra Lia ZArith.
From stdpp Require Import base option list strings gmap.

Set Default Proof Using "Type".
Open Scope R_scope.

(** ** Python exceptions and the error monad *)

Inductive pyerr : Set :=
  | IndexError       (* index out of range, too many indices *)
  | ValueError       (* shapes that cannot be broadcast *)
  | TypeError        (* arithmetic on [None], call with unusable arguments *)
  | AttributeError   (* attribute not found on the instance or its class *)
  | StoreFault.      (* dangling reference: cannot arise from Python code *)

Inductive result (A : Type) : Type :=
  | Ok (a : A)
  | Err (e : pyerr).
Arguments Ok {A} a.
Arguments Err {A} e.

Global Instance result_ret : MRet result := fun A a => Ok a.
Global Instance result_bind : MBind result := fun A B k m =>
  match m with
  | Ok a => k a
  | Err e => Err e
  end.

Definition of_option {A} (e : pyerr) (o : option A) : result A :=
  match o with
  | Some a => Ok a
  | None => Err e
  end.

(** [for i in range(n): s = body(i, s)], stopping at the first exception. *)
Fixpoint for_each {S} (body : nat -> S -> result S) (l : list nat) (s : S)
  : result S :=
  match l with
  | [] => Ok s
  | i :: l' => s' ← body i s; for_each body l' s'
  end.

Definition for_range {S} (n : nat) (body : nat -> S -> result S) (s : S)
  : result S :=
  for_each body (seq 0 n) s.

(** ** Complex numbers (Python [complex], numpy [complex64]/[complex128]) *)

Definition C : Type := R * R.

Definition Cre (z : C) : R := fst z.
Definition Cim (z : C) : R := snd z.
Definition RtoC (x : R) : C := (x, 0).
Definition C0 : C := (0, 0).
Definition imu : C := (0, 1).
Definition Cadd (a b : C) : C := (Cre a + Cre b, Cim a + Cim b).
Definition Cmul (a b : C) : C :=
  (Cre a * Cre b - Cim a * Cim b, Cre a * Cim b + Cim a * Cre b).
Definition Cscale (a : C) (k : R) : C := (Cre a * k, Cim a * k).
Definition Cconj (a : C) : C := (Cre a, - Cim a).
Definition Cabs (a : C) : R := sqrt (Cre a * Cre a + Cim a * Cim a).
(** [exp(i*t)] *)
Definition Ccis (t : R) : C := (cos t, sin t).

(** ** numpy arrays *)

Record ndarray (A : Type) : Type := NdArray {
  shape : list nat;
  at_ : list nat -> A
}.
Arguments NdArray {A} shape at_.
Arguments shape {A} _.
Arguments at_ {A} _ _.

Definition ndim {A} (a : ndarray A) : nat := length (shape a).

(** [idx] addresses an element of an array of shape [shp]. *)
Fixpoint in_bounds (idx shp : list nat) : bool :=
  match idx, shp with
  | [], [] => true
  | i :: idx', n :: shp' => (i <? n)%nat && in_bounds idx' shp'
  | _, _ => false
  end.

(** [numpy.full(shp, v)]; [zeros(shp)] is [full 0 shp]. *)
Definition full {A} (v : A) (shp : list nat) : ndarray A :=
  NdArray shp (fun _ => v).

(** [array(l)] for a flat Python list, [array(ll)] for a list of rows. *)
Definition array1 (l : list R) : ndarray R :=
  NdArray [length l] (fun idx =>
    match idx with
    | [i] => nth i l 0
    | _ => 0
    end).

Definition array2 (ncol : nat) (ll : list (list R)) : ndarray R :=
  NdArray [length ll; ncol] (fun idx =>
    match idx with
    | [i; j] => nth j (nth i ll []) 0
    | _ => 0
    end).

(** [arange(n, dtype=float64)] *)
Definition arange (n : nat) : ndarray R :=
  NdArray [n] (fun idx =>
    match idx with
    | [i] => INR i
    | _ => 0
    end).

(** Element-wise application of a scalar function (a ufunc, or an operation
    with a Python scalar, which never changes the shape). *)
Definition nd_map {A B} (f : A -> B) (a : ndarray A) : ndarray B :=
  NdArray (shape a) (fun idx => f (at_ a idx)).

(** [a.shape[k]]: [IndexError] (tuple index out of range) when [k >= ndim]. *)
Definition shape_at {A} (a : ndarray A) (k : nat) : result nat :=
  of_option IndexError (shape a !! k).

(** [len(a)]: [TypeError] for an array without axes. *)
Definition len_ {A} (a : ndarray A) : result nat :=
  match shape a with
  | n :: _ => Ok n
  | [] => Err TypeError
  end.

(** [a[i0, i1, ...]] with one integer per axis: a scalar read.  (The source
    reads scalars only from arrays it subscripts on every axis: coordinate and
    wavelength axes are one-dimensional, result arrays are subscripted in
    full.) *)
Definition item {A} (a : ndarray A) (idx : list nat) : result A :=
  if in_bounds idx (shape a) then Ok (at_ a idx) else Err IndexError.

(** One entry of a subscript: [:] , an integer, or a one-dimensional boolean
    array of [n] entries. *)
Inductive sub : Type :=
  | All
  | At (i : nat)
  | Mask (n : nat) (m : nat -> bool).

(** Shape selected by a basic subscript ([:] and integers only); trailing
    axes that the subscript does not mention are kept whole. *)
Fixpoint sub_shape (items : list sub) (shp : list nat) : result (list nat) :=
  match items, shp with
  | [], _ => Ok shp
  | _ :: _, [] => Err IndexError
  | All :: items', n :: shp' =>
      s ← sub_shape items' shp'; Ok (n :: s)
  | At i :: items', n :: shp' =>
      if (i <? n)%nat then sub_shape items' shp' else Err IndexError
  | Mask _ _ :: _, _ :: _ => Err IndexError
  end.

(** Index into the whole array of element [idx] of the selection. *)
Fixpoint sub_index (items : list sub) (idx : list nat) : list nat :=
  match items with
  | [] => idx
  | At i :: items' => i :: sub_index items' idx
  | _ :: items' =>
      match idx with
      | j :: idx' => j :: sub_index items' idx'
      | [] => 0%nat :: sub_index items' []
      end
  end.

(** [a[items]] as a read: a view of the selected elements. *)
Definition getitem {A} (a : ndarray A) (items : list sub)
  : result (ndarray A) :=
  s ← sub_shape items (shape a);
  Ok (NdArray s (fun idx => at_ a (sub_index items idx))).

(** *** Broadcasting *)

Definition bdim (a b : nat) : option nat :=
  if (a =? b)%nat then Some a
  else if (a =? 1)%nat then Some b
  else if (b =? 1)%nat then Some a
  else None.

(** Shapes are aligned on their last axis: the recursion runs over the
    reversed shapes. *)
Fixpoint bshape_rev (s1 s2 : list nat) : option (list nat) :=
  match s1, s2 with
  | [], s => Some s
  | s, [] => Some s
  | a :: s1', b :: s2' =>
      match bdim a b, bshape_rev s1' s2' with
      | Some d, Some r => Some (d :: r)
      | _, _ => None
      end
  end.

Definition broadcast_shapes (s1 s2 : list nat) : option (list nat) :=
  match bshape_rev (rev s1) (rev s2) with
  | Some r => Some (rev r)
  | None => None
  end.

(** Index into an operand of shape [s] for element [idx] of the broadcast
    result: the trailing [length s] axes, axes of extent 1 pinned to 0. *)
Definition bproj (s : list nat) (idx : list nat) : list nat :=
  zip_with (fun d i => if (d =? 1)%nat then 0%nat else i)
           s (drop (length idx - length s) idx).

(** Binary element-wise operation on two arrays. *)
Definition nd_zip {A B D} (f : A -> B -> D) (a : ndarray A) (b : ndarray B)
  : result (ndarray D) :=
  match broadcast_shapes (shape a) (shape b) with
  | Some s =>
      Ok (NdArray s (fun idx =>
            f (at_ a (bproj (shape a) idx)) (at_ b (bproj (shape b) idx))))
  | None => Err ValueError
  end.

(** Sum of all elements, [a.sum()]. *)
Fixpoint sum_upto {A} (add : A -> A -> A) (zero : A) (n : nat) (f : nat -> A)
  : A :=
  match n with
  | O => zero
  | S n' => add (sum_upto add zero n' f) (f n')
  end.

Fixpoint sum_over {A} (add : A -> A -> A) (zero : A) (shp : list nat)
  (f : list nat -> A) : A :=
  match shp with
  | [] => f []
  | n :: shp' =>
      sum_upto add zero n (fun i => sum_over add zero shp' (fun idx => f (i :: idx)))
  end.

Definition nd_sum (a : ndarray R) : R := sum_over Rplus 0 (shape a) (at_ a).
Definition nd_sumC (a : ndarray C) : C := sum_over Cadd C0 (shape a) (at_ a).

(** [a.sum(0)]: sum along the first axis. *)
Definition nd_sum0 (a : ndarray R) : result (ndarray R) :=
  match shape a with
  | n :: s => Ok (NdArray s (fun idx => sum_upto Rplus 0 n (fun i => at_ a (i :: idx))))
  | [] => Err ValueError
  end.

(** *** Assignment *)

(** Does [idx] fall in the part of the array selected by [items]? *)
Fixpoint sub_selects (items : list sub) (idx : list nat) : bool :=
  match items, idx with
  | [], _ => true
  | All :: items', _ :: idx' => sub_selects items' idx'
  | At i :: items', j :: idx' => (i =? j)%nat && sub_selects items' idx'
  | Mask _ m :: items', j :: idx' => m j && sub_selects items' idx'
  | _ :: _, [] => false
  end.

(** Position within the selection of the selected element [idx]. *)
Fixpoint sub_position (items : list sub) (idx : list nat) : list nat :=
  match items, idx with
  | [], _ => idx
  | At _ :: items', _ :: idx' => sub_position items' idx'
  | _ :: items', j :: idx' => j :: sub_position items' idx'
  | _ :: _, [] => []
  end.

(** numpy drops leading axes of extent 1 from a value that has more axes
    than the target of the assignment. *)
Fixpoint strip_leading_ones (extra : nat) (s : list nat) : list nat :=
  match extra, s with
  | S e, 1%nat :: s' => strip_leading_ones e s'
  | _, _ => s
  end.

Definition assignable (vshape tshape : list nat) : bool :=
  let vs := strip_leading_ones (length vshape - length tshape) vshape in
  (length vs <=? length tshape)%nat &&
  match broadcast_shapes vs tshape with
  | Some s => bool_decide (s = tshape)
  | None => false
  end.

(** [a[items] = v] for an array value [v] and a basic subscript. *)
Definition setitem {A} (a : ndarray A) (items : list sub) (v : ndarray A)
  : result (ndarray A) :=
  t ← sub_shape items (shape a);
  if assignable (shape v) t then
    let vs := strip_leading_ones (length (shape v) - length t) (shape v) in
    let pad := repeat 0%nat (length (shape v) - length vs) in
    Ok (NdArray (shape a) (fun idx =>
          if in_bounds idx (shape a) && sub_selects items idx
          then at_ v (pad ++ bproj vs (sub_position items idx))
          else at_ a idx))
  else Err ValueError.

(** Shape check of a subscript that may hold integers, [:] and boolean
    masks, for an assignment of a scalar. *)
Fixpoint sub_fits (items : list sub) (shp : list nat) : bool :=
  match items, shp with
  | [], _ => true
  | _ :: _, [] => false
  | All :: items', _ :: shp' => sub_fits items' shp'
  | At i :: items', n :: shp' => (i <? n)%nat && sub_fits items' shp'
  | Mask k _ :: items', n :: shp' => (k =? n)%nat && sub_fits items' shp'
  end.

(** [a[items] = x] for a scalar [x]. *)
Definition setitem_scalar {A} (a : ndarray A) (items : list sub) (x : A)
  : result (ndarray A) :=
  if sub_fits items (shape a) then
    Ok (NdArray (shape a) (fun idx =>
          if in_bounds idx (shape a) && sub_selects items idx
          then x else at_ a idx))
  else Err IndexError.

(** [a[items] = g(a[items])] for an element-wise [g]: the selected elements
    are replaced in place. *)
Definition modify {A} (a : ndarray A) (items : list sub) (g : A -> A)
  : result (ndarray A) :=
  if sub_fits items (shape a) then
    Ok (NdArray (shape a) (fun idx =>
          if in_bounds idx (shape a) && sub_selects items idx
          then g (at_ a idx) else at_ a idx))
  else Err IndexError.

(** The boolean array [a <cmp> c] of a one-dimensional array, as a subscript.
    (Boolean subscripts of other ranks do not occur: the arrays compared in
    the source are rows.) *)
Definition mask_of (p : R -> bool) (a : ndarray R) : result sub :=
  match shape a with
  | [n] => Ok (Mask n (fun j => p (at_ a [j])))
  | _ => Err IndexError
  end.

(** Number of selected entries of a mask, [a[mask].shape[0]]. *)
Definition mask_count (s : sub) : nat :=
  match s with
  | Mask n m => length (filter (fun j => m j = true) (seq 0 n))
  | _ => 0
  end.

(** *** numpy.fft *)

Definition Csum (n : nat) (f : nat -> C) : C := sum_upto Cadd C0 n f.

(** Two-dimensional discrete Fourier sum with sign [sg] in the exponent. *)
Definition dft2 (sg : R) (n1 n2 : nat) (f : nat -> nat -> C) (k1 k2 : nat) : C :=
  Csum n1 (fun j1 => Csum n2 (fun j2 =>
    Cmul (f j1 j2)
         (Ccis (sg * 2 * PI * (INR k1 * INR j1 / INR n1 + INR k2 * INR j2 / INR n2))))).

(** Splits an index (or a shape) into its leading part and its last two
    entries. *)
Definition split_last2 (idx : list nat) : option (list nat * nat * nat) :=
  match rev idx with
  | k2 :: k1 :: p => Some (rev p, k1, k2)
  | _ => None
  end.

(** [fft.fft2(a)]: transform over the last two axes ([axes=(-2,-1)]). *)
Definition fft2 (a : ndarray C) : result (ndarray C) :=
  match split_last2 (shape a) with
  | Some (_, n1, n2) =>
      Ok (NdArray (shape a) (fun idx =>
            match split_last2 idx with
            | Some (p, k1, k2) =>
                dft2 (-1) n1 n2 (fun j1 j2 => at_ a (p ++ [j1; j2])) k1 k2
            | None => C0
            end))
  | None => Err ValueError
  end.

(** [fft.ifft2(a)] *)
Definition ifft2 (a : ndarray C) : result (ndarray C) :=
  match split_last2 (shape a) with
  | Some (_, n1, n2) =>
      Ok (NdArray (shape a) (fun idx =>
            match split_last2 idx with
            | Some (p, k1, k2) =>
                Cscale (dft2 1 n1 n2 (fun j1 j2 => at_ a (p ++ [j1; j2])) k1 k2)
                       (/ (INR n1 * INR n2))
            | None => C0
            end))
  | None => Err ValueError
  end.

(** [fft.ifftshift(a)]: every axis of extent [n] is rolled by [-(n/2)]. *)
Definition ifftshift {A} (a : ndarray A) : ndarray A :=
  NdArray (shape a) (fun idx =>
    at_ a (zip_with (fun n i => ((i + n / 2) mod n)%nat) (shape a) idx)).

(** ** Python's float [%] with a positive modulus *)

Definition pymod (a m : R) : R := a - IZR (Int_part (a / m)) * m.

Global Instance Rlt_decision (a b : R) : Decision (a < b) := Rlt_dec a b.
Global Instance Rle_decision (a b : R) : Decision (a <= b) := Rle_dec a b.
Global Instance Rgt_decision (a b : R) : Decision (a > b) := Rgt_dec a b.

Definition Rltb (a b : R) : bool := bool_decide (a < b).
Definition Rleb (a b : R) : bool := bool_decide (a <= b).

(** ** Data model *)

(** The data attributes of a [radmc3dImage] instance, as values.  [im_x] and
    [im_y] are the attributes [x] and [y]. *)
Record ImageCube : Type := {
  image : ndarray R;
  imageJyppix : ndarray R;
  im_x : ndarray R;
  im_y : ndarray R;
  nx : nat;
  ny : nat;
  sizepix_x : R;
  sizepix_y : R;
  nfreq : nat;
  freq : ndarray R;
  nwav : nat;
  wav : ndarray R;
  stokes : bool
}.

(** The dictionary returned by [getPSF]. *)
Record PSF : Type := {
  psf : ndarray R;
  psf_x : ndarray R;
  psf_y : ndarray R
}.

(** The dictionary returned by [getVisibility]. *)
Record VisRes : Type := {
  v_bl : ndarray R;
  v_pa : ndarray R;
  v_nbl : nat;
  v_wav : ndarray R;
  v_nwav : nat;
  v_u : ndarray R;
  v_v : ndarray R;
  v_vis : ndarray C;
  v_amp : ndarray R;
  v_phase : ndarray R
}.

Definition set_u (r : VisRes) (a : ndarray R) : VisRes :=
  {| v_bl := v_bl r; v_pa := v_pa r; v_nbl := v_nbl r; v_wav := v_wav r;
     v_nwav := v_nwav r; v_u := a; v_v := v_v r; v_vis := v_vis r;
     v_amp := v_amp r; v_phase := v_phase r |}.
Definition set_v (r : VisRes) (a : ndarray R) : VisRes :=
  {| v_bl := v_bl r; v_pa := v_pa r; v_nbl := v_nbl r; v_wav := v_wav r;
     v_nwav := v_nwav r; v_u := v_u r; v_v := a; v_vis := v_vis r;
     v_amp := v_amp r; v_phase := v_phase r |}.
Definition set_vis (r : VisRes) (a : ndarray C) : VisRes :=
  {| v_bl := v_bl r; v_pa := v_pa r; v_nbl := v_nbl r; v_wav := v_wav r;
     v_nwav := v_nwav r; v_u := v_u r; v_v := v_v r; v_vis := a;
     v_amp := v_amp r; v_phase := v_phase r |}.
Definition set_amp (r : VisRes) (a : ndarray R) : VisRes :=
  {| v_bl := v_bl r; v_pa := v_pa r; v_nbl := v_nbl r; v_wav := v_wav r;
     v_nwav := v_nwav r; v_u := v_u r; v_v := v_v r; v_vis := v_vis r;
     v_amp := a; v_phase := v_phase r |}.
Definition set_phase (r : VisRes) (a : ndarray R) : VisRes :=
  {| v_bl := v_bl r; v_pa := v_pa r; v_nbl := v_nbl r; v_wav := v_wav r;
     v_nwav := v_nwav r; v_u := v_u r; v_v := v_v r; v_vis := v_vis r;
     v_amp := v_amp r; v_phase := a |}.

(** The dictionary returned by [getClosurePhase]. *)
Record ClosureRes : Type := {
  c_bl : ndarray R;
  c_pa : ndarray R;
  c_ntri : nat;
  c_nbl : nat;
  c_nwav : nat;
  c_wav : ndarray R;
  c_u : ndarray R;
  c_v : ndarray R;
  c_vis : ndarray C;
  c_amp : ndarray R;
  c_phase : ndarray R;
  c_cp : ndarray R
}.

(** ** getPSF *)

(** The nested loop of [getPSF] that fills [psf] before it is normalised. *)
Definition psf_kernel (nx ny : nat) (x y : ndarray R)
    (sigmax sigmay sin_pa cos_pa : R) : result (ndarray R) :=
  for_range nx (fun ix psf =>
    for_range ny (fun iy psf =>
      xi ← item x [ix];
      yi ← item y [iy];
      let xx := cos_pa * xi - sin_pa * yi in
      let yy := sin_pa * xi + cos_pa * yi in
      setitem_scalar psf [At ix; At iy]
        (exp (-0.5 * xx * xx / sigmax / sigmax - 0.5 * yy * yy / sigmay / sigmay)))
    psf)
  (full 0 [nx; ny]).

Definition psf_sigma (fw : R) : R := fw / (2.0 * sqrt (2.0 * ln 2)).
Definition psf_norm (sigmax sigmay : R) : R := 1 / (2 * PI * sigmax * sigmay).

Definition getPSF (nx ny : nat) (fwhm : list R) (pa : option R)
    (pscale : option (R * R)) : result PSF :=
  let '(dx, dy) := match pscale with
                   | Some (dx, dy) => (dx, dy)
                   | None => (1, 1)
                   end in
  let x := nd_map (fun a => (a - INR (nx / 2)) * dx) (arange nx) in
  let y := nd_map (fun a => (a - INR (ny / 2)) * dy) (arange ny) in
  f0 ← of_option IndexError (fwhm !! 0%nat);
  let sigmax := psf_sigma f0 in
  f1 ← of_option IndexError (fwhm !! 1%nat);
  let sigmay := psf_sigma f1 in
  let norm := psf_norm sigmax sigmay in
  pa ← of_option TypeError pa;
  let sin_pa := sin (pa / 180 * PI - PI / 2) in
  let cos_pa := cos (pa / 180 * PI - PI / 2) in
  k ← psf_kernel nx ny x y sigmax sigmay sin_pa cos_pa;
  let psf := nd_map (fun a => a / norm) k in
  Ok {| psf := psf; psf_x := x; psf_y := y |}.

(** ** radmc3dImage.getVisibility *)

(** [a / 1.496e13 / dpc / 3600. / 180.*pi] *)
Definition sky_angle (dpc : R) (a : R) : R :=
  a / 1.496e13 / dpc / 3600 / 180 * PI.

(** One pass of the loop over [il]: the contribution of image row [il]. *)
Definition vis_row (self : ImageCube) (l m : ndarray R) (dl dm : R)
    (ibl iwav : nat) (r : VisRes) (il : nat) (dum : C) : result C :=
  uu ← item (v_u r) [ibl; iwav];
  li ← item l [il];
  vv ← item (v_v r) [ibl; iwav];
  let phase := nd_map (fun mj => 2 * PI * (uu * li + vv * mj)) m in
  let w := nd_map (fun p => Cadd (RtoC (cos p)) (Cmul imu (RtoC (- sin p)))) phase in
  row ← getitem (image self) [At il; All; At iwav];
  prod ← nd_zip Cmul (nd_map RtoC row) w;
  Ok (Cadd dum (Cscale (Cscale (nd_sumC prod) dl) dm)).

(** Lines 235-239: what is stored for baseline [ibl] and wavelength [iwav]
    once the sum [dum] is known. *)
Definition vis_store (ibl iwav : nat) (dum : C) (r : VisRes) : result VisRes :=
  vis ← setitem_scalar (v_vis r) [At ibl; At iwav] dum;
  let r := set_vis r vis in
  amp ← setitem_scalar (v_amp r) [At ibl; At iwav]
          (sqrt (Cabs (Cmul dum (Cconj dum))));
  let r := set_amp r amp in
  a ← item (v_amp r) [ibl; iwav];
  phase ← setitem_scalar (v_phase r) [At ibl; At iwav] (acos (Cre dum / a));
  let r := set_phase r phase in
  if Rltb (Cim dum) 0 then
    p ← item (v_phase r) [ibl; iwav];
    phase ← setitem_scalar (v_phase r) [At ibl; At iwav] (2 * PI - p);
    Ok (set_phase r phase)
  else Ok r.

(** The body of the loop over [ibl]. *)
Definition vis_baseline (self : ImageCube) (l m : ndarray R) (dl dm : R)
    (iwav ibl : nat) (r : VisRes) : result VisRes :=
  _ ← shape_at (image self) 1;
  nl ← len_ l;
  dum ← for_range nl (vis_row self l m dl dm ibl iwav r) C0;
  vis_store ibl iwav dum r.

(** [res['bl'] * f(res['pa']) * 1e6 / self.wav[iwav]] for [f] the cosine or
    the sine. *)
Definition spatial_frequency (f : R -> R) (self : ImageCube) (r : VisRes)
    (iwav : nat) : result (ndarray R) :=
  b ← nd_zip Rmult (v_bl r) (nd_map f (v_pa r));
  w ← item (wav self) [iwav];
  Ok (nd_map (fun a => a * 1e6 / w) b).

(** The body of the loop over [iwav]. *)
Definition vis_wavelength (self : ImageCube) (l m : ndarray R) (dl dm : R)
    (iwav : nat) (r : VisRes) : result VisRes :=
  u ← spatial_frequency cos self r iwav;
  u ← setitem (v_u r) [All; At iwav] u;
  let r := set_u r u in
  v ← spatial_frequency sin self r iwav;
  v ← setitem (v_v r) [All; At iwav] v;
  let r := set_v r v in
  for_range (v_nbl r) (vis_baseline self l m dl dm iwav) r.

Definition getVisibility (self : ImageCube) (bl pa : ndarray R)
    (dpc : option R) : result VisRes :=
  nbl ← shape_at bl 0;
  let res :=
    {| v_bl := bl; v_pa := pa; v_nbl := nbl;
       v_wav := wav self; v_nwav := nwav self;
       v_u := full 0 [nbl; nwav self];
       v_v := full 0 [nbl; nwav self];
       v_vis := full C0 [nbl; nwav self];
       v_amp := full 0 [nbl; nwav self];
       v_phase := full 0 [nbl; nwav self] |} in
  d ← of_option TypeError dpc;
  let l := nd_map (sky_angle d) (im_x self) in
  let m := nd_map (sky_angle d) (im_y self) in
  l1 ← item l [1%nat];
  l0 ← item l [0%nat];
  let dl := l1 - l0 in
  m1 ← item m [1%nat];
  m0 ← item m [0%nat];
  let dm := m1 - m0 in
  for_range (v_nwav res) (vis_wavelength self l m dl dm) res.

(** ** radmc3dImage.getClosurePhase *)

(** Names bound on a [radmc3dImage] instance: the attributes set by
    [__init__] and the methods of the class. *)
Definition radmc3dImage_attributes : list string :=
  ["image"; "imageJyppix"; "x"; "y"; "nx"; "ny"; "sizepix_x"; "sizepix_y";
   "nfreq"; "freq"; "nwav"; "wav"; "stokes"; "psf"; "fwhm"; "pa"; "dpc";
   "__init__"; "getClosurePhase"; "getVisibility"; "writeFits";
   "plotMomentMap"; "getMomentMap"; "readImage"; "imConv"]%string.

Definition visibility_routine : Type :=
  ImageCube -> ndarray R -> ndarray R -> option R -> result VisRes.

(** [self.<name>] used as the visibility routine.  A name that is not bound
    raises [AttributeError] when it is looked up; of the bound names only
    [getVisibility] is a visibility routine (calls through the other
    attributes are not modelled and reported as [TypeError]). *)
Definition radmc3dImage_getattr (name : string) : result visibility_routine :=
  if bool_decide (name = "getVisibility"%string) then Ok getVisibility
  else if bool_decide (name ∈ radmc3dImage_attributes) then Err TypeError
  else Err AttributeError.

(** Lines 152-160: what one pass of the loop over [itri] stores, given the
    dictionary [dum] that the visibility call returned. *)
Definition closure_store (itri : nat) (dum : VisRes) (res : ClosureRes)
  : result ClosureRes :=
  u ← setitem (c_u res) [At itri; All; All] (v_u dum);
  v ← setitem (c_v res) [At itri; All; All] (v_v dum);
  vis ← setitem (c_vis res) [At itri; All; All] (v_vis dum);
  amp ← setitem (c_amp res) [At itri; All; All] (v_amp dum);
  phase ← setitem (c_phase res) [At itri; All; All] (v_phase dum);
  s ← nd_sum0 (v_phase dum);
  cp ← setitem (c_cp res) [At itri; All]
         (nd_map (fun a => pymod (a / PI * 180) 360) s);
  row ← getitem cp [At itri; All];
  ii ← mask_of (fun a => Rltb 180 a) row;
  cp ← (if (0 <? mask_count ii)%nat
        then modify cp [At itri; ii] (fun a => a - 360)
        else Ok cp);
  Ok {| c_bl := c_bl res; c_pa := c_pa res; c_ntri := c_ntri res;
        c_nbl := c_nbl res; c_nwav := c_nwav res; c_wav := c_wav res;
        c_u := u; c_v := v; c_vis := vis; c_amp := amp; c_phase := phase;
        c_cp := cp |}.

(** The body of the loop over [itri]; [name] is the attribute through which
    the visibility routine is called. *)
Definition closure_triangle (name : string) (self : ImageCube)
    (dpc : option R) (itri : nat) (res : ClosureRes) : result ClosureRes :=
  f ← radmc3dImage_getattr name;
  tbl ← getitem (c_bl res) [At itri; All];
  tpa ← getitem (c_pa res) [At itri; All];
  dum ← f self tbl tpa dpc;
  closure_store itri dum res.

(** [getClosurePhase] with the visibility routine called through the
    attribute [name]. *)
Definition getClosurePhase_via (name : string) (self : ImageCube)
    (bl pa : ndarray R) (dpc : option R) : result ClosureRes :=
  ntri ← shape_at bl 0;
  let res :=
    {| c_bl := bl; c_pa := pa; c_ntri := ntri; c_nbl := 3;
       c_nwav := nwav self; c_wav := wav self;
       c_u := full 0 [ntri; 3%nat; nwav self];
       c_v := full 0 [ntri; 3%nat; nwav self];
       c_vis := full C0 [ntri; 3%nat; nwav self];
       c_amp := full 0 [ntri; 3%nat; nwav self];
       c_phase := full 0 [ntri; 3%nat; nwav self];
       c_cp := full 0 [ntri; nwav self] |} in
  d ← of_option TypeError dpc;
  let l := nd_map (sky_angle d) (im_x self) in
  let m := nd_map (sky_angle d) (im_y self) in
  l1 ← item l [1%nat];
  l0 ← item l [0%nat];
  m1 ← item m [1%nat];
  m0 ← item m [0%nat];
  for_range (c_ntri res) (closure_triangle name self dpc) res.

(** The method as written: line 151 calls [self.get_visibility]. *)
Definition getClosurePhase : ImageCube -> ndarray R -> ndarray R -> option R
    -> result ClosureRes :=
  getClosurePhase_via "get_visibility".

(** ** The object store *)

Definition loc : Type := positive.

(** A [radmc3dImage] instance: array- and list-valued attributes are
    references, numbers and flags are stored in place. *)
Record radmc3dImage : Type := {
  o_image : loc;
  o_imageJyppix : loc;
  o_x : loc;
  o_y : loc;
  o_nx : nat;
  o_ny : nat;
  o_sizepix_x : R;
  o_sizepix_y : R;
  o_nfreq : nat;
  o_freq : loc;
  o_nwav : nat;
  o_wav : loc;
  o_stokes : bool;
  o_psf : loc;
  o_fwhm : loc;
  o_pa : option R;
  o_dpc : R
}.

Inductive pyobj : Type :=
  | ObjArray (a : ndarray R)       (* a numpy array of floats *)
  | ObjList (l : list R)           (* a Python list of floats *)
  | ObjDict                        (* the empty dictionary [{}] *)
  | ObjImage (o : radmc3dImage).

Abbreviation heap := (gmap loc pyobj).

Definition alloc (v : pyobj) (h : heap) : loc * heap :=
  let l := fresh (dom h) in (l, <[l := v]> h).

Definition read_array (h : heap) (l : loc) : result (ndarray R) :=
  match h !! l with
  | Some (ObjArray a) => Ok a
  | Some _ => Err TypeError
  | None => Err StoreFault
  end.

Definition read_list (h : heap) (l : loc) : result (list R) :=
  match h !! l with
  | Some (ObjList a) => Ok a
  | Some _ => Err TypeError
  | None => Err StoreFault
  end.

Definition read_image (h : heap) (l : loc) : result radmc3dImage :=
  match h !! l with
  | Some (ObjImage o) => Ok o
  | Some _ => Err AttributeError
  | None => Err StoreFault
  end.

(** The data attributes of the instance at [l], read through the store. *)
Definition cube_value (h : heap) (l : loc) : result ImageCube :=
  o ← read_image h l;
  im ← read_array h (o_image o);
  jy ← read_array h (o_imageJyppix o);
  x ← read_array h (o_x o);
  y ← read_array h (o_y o);
  fr ← read_array h (o_freq o);
  wv ← read_array h (o_wav o);
  Ok {| image := im; imageJyppix := jy; im_x := x; im_y := y;
        nx := o_nx o; ny := o_ny o;
        sizepix_x := o_sizepix_x o; sizepix_y := o_sizepix_y o;
        nfreq := o_nfreq o; freq := fr; nwav := o_nwav o; wav := wv;
        stokes := o_stokes o |}.

(** *** copy.deepcopy *)

(** Copies the object a reference points to, unless the memo already holds
    its copy (references that alias in the source alias in the copy). *)
Definition copy_ref (l : loc) (st : gmap loc loc * heap)
  : result (loc * (gmap loc loc * heap)) :=
  match st.1 !! l with
  | Some l' => Ok (l', st)
  | None =>
      match st.2 !! l with
      | Some (ObjImage _) => Err TypeError
      | Some v =>
          let '(l', h') := alloc v st.2 in
          Ok (l', (<[l := l']> st.1, h'))
      | None => Err StoreFault
      end
  end.

(** [deepcopy(self)] for a [radmc3dImage] instance.  (Which fresh address
    each copy receives is immaterial.) *)
Definition deepcopy (self : loc) (h : heap) : result (loc * heap) :=
  o ← read_image h self;
  '(l_image, st) ← copy_ref (o_image o) (∅, h);
  '(l_jy, st) ← copy_ref (o_imageJyppix o) st;
  '(l_x, st) ← copy_ref (o_x o) st;
  '(l_y, st) ← copy_ref (o_y o) st;
  '(l_freq, st) ← copy_ref (o_freq o) st;
  '(l_wav, st) ← copy_ref (o_wav o) st;
  '(l_psf, st) ← copy_ref (o_psf o) st;
  '(l_fwhm, st) ← copy_ref (o_fwhm o) st;
  Ok (alloc (ObjImage
        {| o_image := l_image; o_imageJyppix := l_jy; o_x := l_x; o_y := l_y;
           o_nx := o_nx o; o_ny := o_ny o;
           o_sizepix_x := o_sizepix_x o; o_sizepix_y := o_sizepix_y o;
           o_nfreq := o_nfreq o; o_freq := l_freq;
           o_nwav := o_nwav o; o_wav := l_wav; o_stokes := o_stokes o;
           o_psf := l_psf; o_fwhm := l_fwhm;
           o_pa := o_pa o; o_dpc := o_dpc o |}) st.2).

(** ** radmc3dImage.imConv *)

(** [abs(fft.ifftshift(fft.ifft2(f_psf * fft.fft2(imag))))] *)
Definition convolve_plane (f_psf : ndarray C) (imag : ndarray R)
  : result (ndarray R) :=
  f_imag ← fft2 (nd_map RtoC imag);
  f_cimag ← nd_zip Cmul f_psf f_imag;
  g ← ifft2 f_cimag;
  Ok (nd_map Cabs (ifftshift g)).

(** The three branches that fill [cimage]. *)
Definition convolve_cube (h : heap) (o : radmc3dImage) (f_psf : ndarray C)
  : result (ndarray R) :=
  if o_stokes o then
    if (o_nfreq o =? 1)%nat then
      for_range 4 (fun istokes cimage =>
        img ← read_array h (o_image o);
        imag ← getitem img [All; All; At istokes];
        p ← convolve_plane f_psf imag;
        setitem cimage [All; All; At istokes] p)
      (full 0 [o_nx o; o_ny o; 4%nat])
    else
      for_range (o_nfreq o) (fun ifreq cimage =>
        for_range 4 (fun istokes cimage =>
          img ← read_array h (o_image o);
          imag ← getitem img [All; All; At istokes; At ifreq];
          p ← convolve_plane f_psf imag;
          setitem cimage [All; All; At istokes; At ifreq] p)
        cimage)
      (full 0 [o_nx o; o_ny o; 4%nat; o_nfreq o])
  else
    for_range (o_nfreq o) (fun ifreq cimage =>
      img ← read_array h (o_image o);
      imag ← getitem img [All; All; At ifreq];
      p ← convolve_plane f_psf imag;
      setitem cimage [All; All; At ifreq] p)
    (full 0 [o_nx o; o_ny o; o_nfreq o]).

Definition au_cm : R := 1.496e13.
Definition pc_cm : R := 3.0857200e+18.

(** [res.sizepix_x * res.sizepix_y / (dpc*pc)**2. / (fwhm[0] * fwhm[1] * pi / (4.*log(2.)))] *)
Definition beam_factor (sx sy dpc f0 f1 : R) : R :=
  sx * sy / (dpc * pc_cm) ^ 2 / (f0 * f1 * PI / (4 * ln 2)).

Definition imConv (self : loc) (fwhm : loc) (pa : option R) (dpc : R)
    (h : heap) : result (loc * heap) :=
  o ← read_image h self;
  let dx := o_sizepix_x o / au_cm / dpc in
  let dy := o_sizepix_y o / au_cm / dpc in
  fw ← read_list h fwhm;
  dum ← getPSF (o_nx o) (o_ny o) fw pa (Some (dx, dy));
  let psf := psf dum in
  f_psf ← fft2 (nd_map RtoC psf);
  cimage ← convolve_cube h o f_psf;
  '(res, h) ← deepcopy self h;
  r ← read_image h res;
  fw ← read_list h fwhm;
  f0 ← of_option IndexError (fw !! 0%nat);
  f1 ← of_option IndexError (fw !! 1%nat);
  let conv := beam_factor (o_sizepix_x r) (o_sizepix_y r) dpc f0 f1 in
  let new_image := nd_map (fun a => a * conv) cimage in
  let '(l_image, h) := alloc (ObjArray new_image) h in
  let '(l_jy, h) := alloc (ObjArray (nd_map (fun a => a * 1e23) new_image)) h in
  let '(l_psf, h) := alloc (ObjArray psf) h in
  Ok (res,
      <[res := ObjImage
          {| o_image := l_image; o_imageJyppix := l_jy;
             o_x := o_x r; o_y := o_y r; o_nx := o_nx r; o_ny := o_ny r;
             o_sizepix_x := o_sizepix_x r; o_sizepix_y := o_sizepix_y r;
             o_nfreq := o_nfreq r; o_freq := o_freq r;
             o_nwav := o_nwav r; o_wav := o_wav r; o_stokes := o_stokes r;
             o_psf := l_psf; o_fwhm := fwhm; o_pa := pa; o_dpc := dpc |}]> h).

(** ** cmask *)

(** One pass of either loop over [ix]: [items ii] is the subscript
    [ix, ii, :] or [ix, ii]. *)
Definition cmask_row (im : radmc3dImage) (res : radmc3dImage) (crad : R)
    (tail : list sub) (ix : nat) (h : heap) : result heap :=
  y ← read_array h (o_y im);
  x ← read_array h (o_x im);
  xi ← item x [ix];
  let r := nd_map (fun yj => sqrt (yj ^ 2 + xi ^ 2)) y in
  ii ← mask_of (fun a => Rleb a crad) r;
  img ← read_array h (o_image res);
  img' ← setitem_scalar img (At ix :: ii :: tail) 0;
  Ok (<[o_image res := ObjArray img']> h).

(** The radius of the mask in cm (lines 1218-1223). *)
Definition mask_radius (rad : R) (au arcsec : bool) (dpc : option R)
    (sizepix_x : R) : result R :=
  if au then Ok (rad * 1.496e+13)
  else if arcsec then
    d ← of_option TypeError dpc; Ok (rad * 1.496e13 * d)
  else Ok (rad * sizepix_x).

(** The result is [None] (after an error message is printed) when both [au]
    and [arcsec] are set. *)
Definition cmask (im : loc) (rad : R) (au arcsec : bool) (dpc : option R)
    (h : heap) : result (option loc * heap) :=
  if au && arcsec then Ok (None, h)
  else
    o ← read_image h im;
    crad ← mask_radius rad au arcsec dpc (o_sizepix_x o);
    '(res, h) ← deepcopy im h;
    r ← read_image h res;
    h ← (if negb (o_nfreq o =? 1)%nat
         then for_range (o_nx o) (cmask_row o r crad [All]) h
         else for_range (o_nx o) (cmask_row o r crad []) h);
    Ok (Some res, h).

(** ** radmc3dImage.readImage (formatted ASCII input, [binary=False]) *)

(** The format number on the first line of the file: 1 (total intensity) or
    3 (Stokes I, Q, U, V).  Files with another format number are not
    modelled. *)
Inductive iformat : Set := Intensity | StokesIQUV.

(** The content of an image file after tokenisation: the header values, the
    wavelength lines and the pixel lines (blank separator lines dropped), each
    pixel line split into its numbers. *)
Record ImageFile : Type := {
  f_iformat : iformat;
  f_nx : nat;
  f_ny : nat;
  f_nfreq : nat;
  f_sizepix_x : R;
  f_sizepix_y : R;
  f_wav : list R;
  f_pixels : list (list R)
}.

(** The pixel line read for [(iwav, ix, iy)]: lines are consumed in the
    order of the loops.  The total-intensity reader passes the line to
    [float], which raises [ValueError] on the empty string that [readline]
    returns at the end of the file. *)
Definition pixel_line (f : ImageFile) (iwav ix iy : nat) : result (list R) :=
  of_option ValueError (f_pixels f !! ((iwav * f_nx f + ix) * f_ny f + iy)%nat).

Definition read_intensity (f : ImageFile) : result (ndarray R) :=
  for_range (f_nfreq f) (fun iwav img =>
    for_range (f_nx f) (fun ix img =>
      for_range (f_ny f) (fun iy img =>
        ln ← pixel_line f iwav ix iy;
        match ln with
        | [a] => setitem_scalar img [At ix; At iy; At iwav] a
        | _ => Err ValueError
        end) img) img)
  (full 0 [f_nx f; f_ny f; f_nfreq f]).

(** [rfile.readline().split()] for the line of [(iwav, ix, iy)], as the
    Stokes reader has it: at the end of the file [readline] returns the
    empty string, which splits into no token, and the subscript [dum[0]]
    raises [IndexError]. *)
Definition split_line (f : ImageFile) (iwav ix iy : nat) : list R :=
  match f_pixels f !! ((iwav * f_nx f + ix) * f_ny f + iy)%nat with
  | Some l => l
  | None => []
  end.

Definition read_stokes (f : ImageFile) : result (ndarray R) :=
  for_range (f_nfreq f) (fun iwav img =>
    for_range (f_nx f) (fun ix img =>
      for_range (f_ny f) (fun iy img =>
        let dum := split_line f iwav ix iy in
        d0 ← of_option IndexError (dum !! 0%nat);
        img ← setitem_scalar img [At ix; At iy; At 0%nat; At iwav] d0;
        d1 ← of_option IndexError (dum !! 1%nat);
        img ← setitem_scalar img [At ix; At iy; At 1%nat; At iwav] d1;
        d2 ← of_option IndexError (dum !! 2%nat);
        img ← setitem_scalar img [At ix; At iy; At 2%nat; At iwav] d2;
        d3 ← of_option IndexError (dum !! 3%nat);
        setitem_scalar img [At ix; At iy; At 3%nat; At iwav] d3) img) img)
  (full 0 [f_nx f; f_ny f; 4%nat; f_nfreq f]).

Definition readImage (f : ImageFile) : result ImageCube :=
  let nwav := f_nfreq f in
  wv ← (if (nwav <=? length (f_wav f))%nat
        then Ok (array1 (take nwav (f_wav f))) else Err ValueError);
  let fr := nd_map (fun w => 2.99792458e10 / w * 1e4) wv in
  img ← match f_iformat f with
        | Intensity => read_intensity f
        | StokesIQUV => read_stokes f
        end;
  let conv := f_sizepix_x f * f_sizepix_y f / 3.08572e18 ^ 2 * 1e23 in
  Ok {| image := img;
        imageJyppix := nd_map (fun a => a * conv) img;
        im_x := nd_map (fun a => (a + 0.5 - INR (f_nx f / 2)) * f_sizepix_x f)
                       (arange (f_nx f));
        im_y := nd_map (fun a => (a + 0.5 - INR (f_ny f / 2)) * f_sizepix_y f)
                       (arange (f_ny f));
        nx := f_nx f; ny := f_ny f;
        sizepix_x := f_sizepix_x f; sizepix_y := f_sizepix_y f;
        nfreq := f_nfreq f; freq := fr; nwav := nwav; wav := wv;
        stokes := match f_iformat f with
                  | Intensity => false
                  | StokesIQUV => true
                  end |}.

(** The module-level [readImage]: a new instance ([psf = {}], [fwhm = []],
    [pa = 0], [dpc = 0]) on which the method is run; its arrays are placed in
    the store. *)
Definition load_image (f : ImageFile) (h : heap) : result (loc * heap) :=
  c ← readImage f;
  let '(l_psf, h) := alloc ObjDict h in
  let '(l_fwhm, h) := alloc (ObjList []) h in
  let '(l_wav, h) := alloc (ObjArray (wav c)) h in
  let '(l_freq, h) := alloc (ObjArray (freq c)) h in
  let '(l_image, h) := alloc (ObjArray (image c)) h in
  let '(l_jy, h) := alloc (ObjArray (imageJyppix c)) h in
  let '(l_x, h) := alloc (ObjArray (im_x c)) h in
  let '(l_y, h) := alloc (ObjArray (im_y c)) h in
  Ok (alloc (ObjImage
        {| o_image := l_image; o_imageJyppix := l_jy; o_x := l_x; o_y := l_y;
           o_nx := nx c; o_ny := ny c;
           o_sizepix_x := sizepix_x c; o_sizepix_y := sizepix_y c;
           o_nfreq := nfreq c; o_freq := l_freq;
           o_nwav := nwav c; o_wav := l_wav; o_stokes := stokes c;
           o_psf := l_psf; o_fwhm := l_fwhm;
           o_pa := Some 0; o_dpc := 0 |}) h).

(** ** Layout of a loaded cube *)

(** What [readImage] establishes about the arrays of a cube. *)
Record loader_layout (c : ImageCube) : Prop := {
  lay_image : shape (image c) =
              if stokes c then [nx c; ny c; 4%nat; nfreq c]
              else [nx c; ny c; nfreq c];
  lay_x : shape (im_x c) = [nx c];
  lay_y : shape (im_y c) = [ny c];
  lay_wav : shape (wav c) = [nwav c];
  lay_nwav : nwav c = nfreq c
}.

(** ** Shapes of the result dictionaries *)

(** The arrays of a [getVisibility] result for [nbl] baselines and [nwav]
    wavelengths. *)
Record vis_shaped (nbl nwav : nat) (r : VisRes) : Prop := {
  vs_u : shape (v_u r) = [nbl; nwav];
  vs_v : shape (v_v r) = [nbl; nwav];
  vs_vis : shape (v_vis r) = [nbl; nwav];
  vs_amp : shape (v_amp r) = [nbl; nwav];
  vs_phase : shape (v_phase r) = [nbl; nwav]
}.

(** The arrays that [getClosurePhase] allocates for [ntri] triangles. *)
Record closure_shaped (ntri nwav : nat) (r : ClosureRes) : Prop := {
  cs_u : shape (c_u r) = [ntri; 3%nat; nwav];
  cs_v : shape (c_v r) = [ntri; 3%nat; nwav];
  cs_vis : shape (c_vis r) = [ntri; 3%nat; nwav];
  cs_amp : shape (c_amp r) = [ntri; 3%nat; nwav];
  cs_phase : shape (c_phase r) = [ntri; 3%nat; nwav];
  cs_cp : shape (c_cp r) = [ntri; nwav]
}.

(** ** The closure phase in the words of the specification *)

(** The sum of the three phases in degrees, modulo 360, with 360 subtracted
    from a value that exceeds 180. *)
Definition spec_closure_phase (p0 p1 p2 : R) : R :=
  let d := pymod ((p0 + p1 + p2) / PI * 180) 360 in
  if bool_decide (d > 180) then d - 360 else d.

(** ** Auxiliary definitions for the statements *)

(** The value [psf_kernel] stores at pixel [(ix, iy)]. *)
Definition gauss (x y : ndarray R) (sigmax sigmay sin_pa cos_pa : R)
    (ix iy : nat) : R :=
  let xi := at_ x [ix] in
  let yi := at_ y [iy] in
  let xx := cos_pa * xi - sin_pa * yi in
  let yy := sin_pa * xi + cos_pa * yi in
  exp (-0.5 * xx * xx / sigmax / sigmax - 0.5 * yy * yy / sigmay / sigmay).

(** A triangle whose three phases add up to 200 degrees at its only
    wavelength, and the arrays of a result for one triangle. *)
Definition dum_200 : VisRes :=
  {| v_bl := full 0 [3%nat]; v_pa := full 0 [3%nat]; v_nbl := 3;
     v_wav := full 1 [1%nat]; v_nwav := 1;
     v_u := full 0 [3%nat; 1%nat]; v_v := full 0 [3%nat; 1%nat];
     v_vis := full C0 [3%nat; 1%nat]; v_amp := full 0 [3%nat; 1%nat];
     v_phase := NdArray [3%nat; 1%nat] (fun idx =>
                  match idx with
                  | [O; _] => 200 * PI / 180
                  | _ => 0
                  end) |}.

Definition res_empty : ClosureRes :=
  {| c_bl := full 0 [1%nat; 3%nat]; c_pa := full 0 [1%nat; 3%nat];
     c_ntri := 1; c_nbl := 3; c_nwav := 1; c_wav := full 1 [1%nat];
     c_u := full 0 [1%nat; 3%nat; 1%nat]; c_v := full 0 [1%nat; 3%nat; 1%nat];
     c_vis := full C0 [1%nat; 3%nat; 1%nat];
     c_amp := full 0 [1%nat; 3%nat; 1%nat];
     c_phase := full 0 [1%nat; 3%nat; 1%nat];
     c_cp := full 0 [1%nat; 1%nat] |}.

(** The factor [cterm + imu*sterm] for a phase [p], that is [exp(-i*p)]. *)
Definition phase_factor (p : R) : C :=
  Cadd (RtoC (cos p)) (Cmul imu (RtoC (- sin p))).

(** The double sum that [getVisibility] accumulates for the spatial
    frequency [(uu, vv)] and channel [iwav] of a three-axis image: the sum
    over rows [il] of [(image[il,:,iwav] * exp(-2*pi*i*(uu*l[il] + vv*m))).sum()
    * dl * dm]. *)
Definition dft_sum (self : ImageCube) (l m : ndarray R) (dl dm : R)
    (uu vv : R) (iwav : nat) : C :=
  sum_upto Cadd C0 (nx self) (fun il =>
    Cscale (Cscale
      (sum_upto Cadd C0 (ny self) (fun j =>
         Cmul (RtoC (at_ (image self) [il; j; iwav]))
              (phase_factor (2 * PI * (uu * at_ l [il] + vv * at_ m [j])))))
      dl) dm).

(** The total flux of channel [iwav]: the sum over the pixels of the image
    values, times [dl] times [dm]. *)
Definition total_flux (self : ImageCube) (dl dm : R) (iwav : nat) : R :=
  sum_upto Rplus 0 (nx self) (fun il =>
    sum_upto Rplus 0 (ny self) (fun j => at_ (image self) [il; j; iwav]))
  * dl * dm.

(** The amplitude and the phase stored for a visibility [z]. *)
Definition amp_of (z : C) : R := sqrt (Cabs (Cmul z (Cconj z))).

Definition phase_of (z : C) (a : R) : R :=
  if Rltb (Cim z) 0 then 2 * PI - acos (Cre z / a) else acos (Cre z / a).

(** Amplitude and phase stored at [(ibl, iwav)] agree with the visibility
    stored there. *)
Definition point_rel (r : VisRes) (ibl iwav : nat) : Prop :=
  at_ (v_amp r) [ibl; iwav] = amp_of (at_ (v_vis r) [ibl; iwav]) /\
  at_ (v_phase r) [ibl; iwav] =
    phase_of (at_ (v_vis r) [ibl; iwav]) (amp_of (at_ (v_vis r) [ibl; iwav])).

(** The entry of a position-angle array of [k] entries that numpy pairs with
    baseline [i]: a single entry is broadcast to every baseline. *)
Definition pa_index (k i : nat) : nat := if (k =? 1)%nat then 0%nat else i.

(** ** Concrete cubes *)

(** A loaded total-intensity cube with [nx = ny = 4], one wavelength [w],
    [sizepix_x = sizepix_y = 1e12] and the value 1.0 in every pixel. *)
Definition uniform_cube (w : R) : ImageCube :=
  {| image := full 1 [4%nat; 4%nat; 1%nat];
     imageJyppix := full (1 * (1e12 * 1e12 / 3.08572e18 ^ 2 * 1e23))
                      [4%nat; 4%nat; 1%nat];
     im_x := nd_map (fun a => (a + 0.5 - INR (4 / 2)) * 1e12) (arange 4);
     im_y := nd_map (fun a => (a + 0.5 - INR (4 / 2)) * 1e12) (arange 4);
     nx := 4; ny := 4; sizepix_x := 1e12; sizepix_y := 1e12;
     nfreq := 1; freq := nd_map (fun w => 2.99792458e10 / w * 1e4) (array1 [w]);
     nwav := 1; wav := array1 [w]; stokes := false |}.


(** A loaded total-intensity cube that is one pixel wide ([nx = 1],
    [ny = 2]), with one wavelength and the value 1.0 in both pixels. *)
Definition column_cube : ImageCube :=
  {| image := full 1 [1%nat; 2%nat; 1%nat];
     imageJyppix := full (1 * (1 * 1 / 3.08572e18 ^ 2 * 1e23))
                      [1%nat; 2%nat; 1%nat];
     im_x := nd_map (fun a => (a + 0.5 - INR (1 / 2)) * 1) (arange 1);
     im_y := nd_map (fun a => (a + 0.5 - INR (2 / 2)) * 1) (arange 2);
     nx := 1; ny := 2; sizepix_x := 1; sizepix_y := 1;
     nfreq := 1; freq := nd_map (fun w => 2.99792458e10 / w * 1e4) (array1 [1]);
     nwav := 1; wav := array1 [1]; stokes := false |}.


(** ** Auxiliary definitions on the store *)

(** State of a running [deepcopy] of an object of store [h0]: the store only
    grows, and the memo maps to copies that are new and hold the value of
    the object they copy. *)
Definition copy_inv (h0 : heap) (st : gmap loc loc * heap) : Prop :=
  h0 ⊆ st.2 /\
  forall l l', st.1 !! l = Some l' ->
    (l' ∉ dom h0) /\ is_Some (st.2 !! l') /\
    forall v, h0 !! l = Some v -> st.2 !! l' = Some v.

(** The attributes of an instance point to objects of the expected kind. *)
Record image_ok (h : heap) (o : radmc3dImage) : Prop := {
  ok_image : exists a, h !! o_image o = Some (ObjArray a);
  ok_jy : exists a, h !! o_imageJyppix o = Some (ObjArray a);
  ok_x : exists a, h !! o_x o = Some (ObjArray a);
  ok_y : exists a, h !! o_y o = Some (ObjArray a);
  ok_freq : exists a, h !! o_freq o = Some (ObjArray a);
  ok_wav : exists a, h !! o_wav o = Some (ObjArray a);
  ok_psf : h !! o_psf o = Some ObjDict \/ exists a, h !! o_psf o = Some (ObjArray a);
  ok_fwhm : exists l, h !! o_fwhm o = Some (ObjList l)
}.

(** The objects a derived cube is made of: the instance and everything its
    attributes refer to. *)
Definition cube_locs (res : loc) (o : radmc3dImage) : list loc :=
  [res; o_image o; o_imageJyppix o; o_x o; o_y o; o_freq o; o_wav o;
   o_psf o; o_fwhm o].

(** The numbers and flags of two instances agree. *)
Definition same_scalars (o o' : radmc3dImage) : Prop :=
  o_nx o' = o_nx o /\ o_ny o' = o_ny o /\
  o_sizepix_x o' = o_sizepix_x o /\ o_sizepix_y o' = o_sizepix_y o /\
  o_nfreq o' = o_nfreq o /\ o_nwav o' = o_nwav o /\ o_stokes o' = o_stokes o.


(** The attributes of an instance that hold references. *)
Definition ref_fields : list (radmc3dImage -> loc) :=
  [o_image; o_imageJyppix; o_x; o_y; o_freq; o_wav; o_psf; o_fwhm].


(** The objects that hold the data attributes of the instance at [self]. *)
Definition source_locs (self : loc) (o : radmc3dImage) : list loc :=
  [self; o_image o; o_imageJyppix o; o_x o; o_y o; o_freq o; o_wav o].


(** ** Concrete image files *)

(** A total-intensity file: 4 x 4 pixels, one wavelength, pixel size 1e12,
    every pixel 1.0. *)
Definition uniform_file : ImageFile :=
  {| f_iformat := Intensity; f_nx := 4; f_ny := 4; f_nfreq := 1;
     f_sizepix_x := 1e12; f_sizepix_y := 1e12; f_wav := [1];
     f_pixels := repeat [1] 16 |}.

(** A Stokes file: 2 x 2 pixels, one wavelength, (I, Q, U, V) = (1, 0, 0, 0)
    in every pixel. *)
Definition stokes_file : ImageFile :=
  {| f_iformat := StokesIQUV; f_nx := 2; f_ny := 2; f_nfreq := 1;
     f_sizepix_x := 1e12; f_sizepix_y := 1e12; f_wav := [1];
     f_pixels := repeat [1; 0; 0; 0] 4 |}.

(** [im = readImage(file); fwhm = [fx, fy]] in an empty store. *)
Definition load_scene (f : ImageFile) (fx fy : R) : result (loc * loc * heap) :=
  '(im, h) ← load_image f ∅;
  let '(fwhm, h) := alloc (ObjList [fx; fy]) h in
  Ok (im, fwhm, h).

(** ** radmc3dImage.getMomentMap *)

Global Instance Req_decision (a b : R) : Decision (a = b) := Req_dec_T a b.

(** [a[:, :, 1:]]: the third axis without its first entry. *)
Definition tail_axis2 {A} (a : ndarray A) : result (ndarray A) :=
  match shape a with
  | n1 :: n2 :: n3 :: rest =>
      Ok (NdArray (n1 :: n2 :: (n3 - 1)%nat :: rest)
            (fun idx =>
               match idx with
               | i :: j :: k :: r => at_ a (i :: j :: S k :: r)
               | _ => at_ a idx
               end))
  | _ => Err IndexError
  end.

(** [a[:, :, :-1]]: the third axis without its last entry. *)
Definition init_axis2 {A} (a : ndarray A) : result (ndarray A) :=
  match shape a with
  | n1 :: n2 :: n3 :: rest => Ok (NdArray (n1 :: n2 :: (n3 - 1)%nat :: rest) (at_ a))
  | _ => Err IndexError
  end.

(** [a.sum(2)]: sum along the third axis. *)
Definition nd_sum2 (a : ndarray R) : result (ndarray R) :=
  match shape a with
  | n1 :: n2 :: n3 :: rest =>
      Ok (NdArray (n1 :: n2 :: rest)
            (fun idx =>
               match idx with
               | i :: j :: r => sum_upto Rplus 0 n3 (fun k => at_ a (i :: j :: k :: r))
               | _ => 0
               end))
  | _ => Err ValueError
  end.

(** The rest frequency the computation uses (lines 555-561): [nu0] when it
    is given, else the frequency of the rest wavelength [wav0] (in micron);
    [None] when neither is given. *)
Definition rest_frequency (nu0 wav0 : R) : option R :=
  if bool_decide (nu0 = 0) then
    if bool_decide (wav0 = 0) then None
    else Some (2.99792458e10 / wav0 * 1e4)
  else Some nu0.

(** The loop that fills [vmap] (lines 574-576). *)
Definition velocity_map (self : ImageCube) (v : ndarray R) : result (ndarray R) :=
  for_range (nfreq self) (fun ifreq vmap =>
    vi ← item v [ifreq];
    setitem_scalar vmap [All; All; At ifreq] vi)
  (full 0 [nx self; ny self; nfreq self]).

(** [getMomentMap]; the result is [None] (after an error message is printed)
    when no rest frequency is given or the image does not have three axes.
    [moment] is a non-negative integer. *)
Definition getMomentMap (self : ImageCube) (moment : nat) (nu0 wav0 : R)
  : result (option (ndarray R)) :=
  match rest_frequency nu0 wav0 with
  | None => Ok None
  | Some nu0 =>
      if negb (ndim (image self) =? 3)%nat then Ok None
      else
        let v := nd_map (fun f => 2.99792458e10 * (nu0 - f) / nu0 / 1e5)
                        (freq self) in
        vmap ← velocity_map self v;
        y ← nd_zip Rmult (image self) (nd_map (fun a => a ^ moment) vmap);
        v1 ← tail_axis2 vmap;
        v0 ← init_axis2 vmap;
        dv ← nd_zip Rminus v1 v0;
        y1 ← tail_axis2 y;
        y0 ← init_axis2 y;
        sy ← nd_zip Rplus y1 y0;
        p ← nd_zip Rmult dv sy;
        m ← nd_sum2 (nd_map (fun a => a * 0.5) p);
        Ok (Some m)
  end.

(** The velocity of channel [k] in km/s for the rest frequency [nu0]. *)
Definition channel_velocity (self : ImageCube) (nu0 : R) (k : nat) : R :=
  2.99792458e10 * (nu0 - at_ (freq self) [k]) / nu0 / 1e5.

(** The trapezoidal sum over the channels that [getMomentMap] returns for
    pixel [(ix, iy)]. *)
Definition moment_sum (self : ImageCube) (moment : nat) (nu0 : R)
    (ix iy : nat) : R :=
  sum_upto Rplus 0 (nfreq self - 1) (fun k =>
    (channel_velocity self nu0 (S k) - channel_velocity self nu0 k) *
    (at_ (image self) [ix; iy; S k] * channel_velocity self nu0 (S k) ^ moment +
     at_ (image self) [ix; iy; k] * channel_velocity self nu0 k ^ moment) * 0.5).

(** A total-intensity cube of one pixel and two channels, with intensities
    1 and 3 at the frequencies 2 Hz and 1 Hz. *)
Definition two_channel_cube : ImageCube :=
  {| image := NdArray [1%nat; 1%nat; 2%nat]
                (fun idx => match idx with
                            | [_; _; O] => 1
                            | _ => 3
                            end);
     imageJyppix := full 0 [1%nat; 1%nat; 2%nat];
     im_x := array1 [0]; im_y := array1 [0];
     nx := 1; ny := 1; sizepix_x := 1; sizepix_y := 1;
     nfreq := 2; freq := array1 [2; 1];
     nwav := 2; wav := array1 [1; 2]; stokes := false |}.

(** ** Well-formed image files *)

(** Position in [f_pixels] of the line read for [(iwav, ix, iy)]. *)
Definition line_no (f : ImageFile) (iwav ix iy : nat) : nat :=
  ((iwav * f_nx f + ix) * f_ny f + iy)%nat.

(** A total-intensity file that [readImage] reads to its end: it has the
    [nfreq] wavelength lines and every pixel line the loops reach holds one
    number. *)
Definition intensity_file_ok (f : ImageFile) : Prop :=
  (f_nfreq f <= length (f_wav f))%nat /\
  forall iwav ix iy, (iwav < f_nfreq f)%nat -> (ix < f_nx f)%nat ->
    (iy < f_ny f)%nat ->
    exists a, f_pixels f !! line_no f iwav ix iy = Some [a].

(** The same for a Stokes file: every pixel line holds at least four
    numbers. *)
Definition stokes_file_ok (f : ImageFile) : Prop :=
  (f_nfreq f <= length (f_wav f))%nat /\
  forall iwav ix iy, (iwav < f_nfreq f)%nat -> (ix < f_nx f)%nat ->
    (iy < f_ny f)%nat ->
    exists a b c d rest,
      f_pixels f !! line_no f iwav ix iy = Some (a :: b :: c :: d :: rest).

(** [(w, x, y)] comes before [(iwav, ix, iy)] in the order of the loops. *)
Definition read_before (w x y iwav ix iy : nat) : Prop :=
  (w < iwav)%nat \/ (w = iwav /\ (x < ix)%nat) \/
  (w = iwav /\ x = ix /\ (y < iy)%nat).

(** State of the total-intensity reader before it reads the line of
    [(iwav, ix, iy)]: the pixels read so far hold the numbers of their
    lines. *)
Definition intensity_read (f : ImageFile) (iwav ix iy : nat) (img : ndarray R)
  : Prop :=
  shape img = [f_nx f; f_ny f; f_nfreq f] /\
  forall w x y, (w < f_nfreq f)%nat -> (x < f_nx f)%nat -> (y < f_ny f)%nat ->
    read_before w x y iwav ix iy ->
    f_pixels f !! line_no f w x y = Some [at_ img [x; y; w]].

(** The same for the Stokes reader: the four planes of a pixel hold the
    first four numbers of its line. *)
Definition stokes_read (f : ImageFile) (iwav ix iy : nat) (img : ndarray R)
  : Prop :=
  shape img = [f_nx f; f_ny f; 4%nat; f_nfreq f] /\
  forall w x y, (w < f_nfreq f)%nat -> (x < f_nx f)%nat -> (y < f_ny f)%nat ->
    read_before w x y iwav ix iy ->
    exists rest,
      f_pixels f !! line_no f w x y =
      Some (at_ img [x; y; 0%nat; w] :: at_ img [x; y; 1%nat; w] ::
            at_ img [x; y; 2%nat; w] :: at_ img [x; y; 3%nat; w] :: rest).

(** A total-intensity file that ends after its first pixel line. *)
Definition truncated_file : ImageFile :=
  {| f_iformat := Intensity; f_nx := 2; f_ny := 1; f_nfreq := 1;
     f_sizepix_x := 1; f_sizepix_y := 1; f_wav := [1];
     f_pixels := [[1]] |}.

(** ** radmc3dImage.readImage (binary input, [binary=True]) *)

(** Position in the flat sequence of element [idx] of an array of shape
    [shp] stored in C order. *)
Fixpoint ravel (idx shp : list nat) (acc : nat) : nat :=
  match idx, shp with
  | i :: idx', n :: shp' => ravel idx' shp' (acc * n + i)
  | _, _ => acc
  end.

(** [reshape(l, shp)] of a one-dimensional array: [ValueError] when the
    number of elements does not fit. *)
Definition reshape (l : list R) (shp : list nat) : result (ndarray R) :=
  if (length l =? foldr Nat.mul 1%nat shp)%nat then
    Ok (NdArray shp (fun idx => nth (ravel idx shp 0) l 0))
  else Err ValueError.

Definition swap_entries {A} (i j : nat) (l : list A) : list A :=
  match l !! i, l !! j with
  | Some a, Some b => <[i := b]> (<[j := a]> l)
  | _, _ => l
  end.

(** [swapaxes(a, i, j)] *)
Definition swapaxes {A} (a : ndarray A) (i j : nat) : result (ndarray A) :=
  if (i <? ndim a)%nat && (j <? ndim a)%nat then
    Ok (NdArray (swap_entries i j (shape a))
          (fun idx => at_ a (swap_entries i j idx)))
  else Err ValueError.

(** The content of a binary image file: four integer words (format number,
    [nx], [ny], [nfreq]) followed by float64 words.  [b_words] holds the
    words after the fourth, so that [dum[4 + k]] of the source is
    [b_words !! k].  As for formatted files, format numbers other than 1 and
    3 are not modelled. *)
Record BinaryFile : Type := {
  b_iformat : iformat;
  b_nx : nat;
  b_ny : nat;
  b_nfreq : nat;
  b_words : list R
}.

Definition readImage_binary (f : BinaryFile) : result ImageCube :=
  let nfreq := b_nfreq f in
  sizepix_x ← of_option IndexError (b_words f !! 0%nat);
  sizepix_y ← of_option IndexError (b_words f !! 1%nat);
  let wv := array1 (take nfreq (drop 2 (b_words f))) in
  let fr := nd_map (fun w => 2.99792458e10 / w * 1e4) wv in
  let data := drop (2 + nfreq) (b_words f) in
  img ← match b_iformat f with
        | Intensity =>
            a ← reshape data [nfreq; b_ny f; b_nx f];
            a ← swapaxes a 0 2;
            swapaxes a 0 1
        | StokesIQUV =>
            a ← reshape data [nfreq; 4%nat; b_ny f; b_nx f];
            a ← swapaxes a 0 2;
            swapaxes a 1 3
        end;
  let conv := sizepix_x * sizepix_y / 3.08572e18 ^ 2 * 1e23 in
  Ok {| image := img;
        imageJyppix := nd_map (fun a => a * conv) img;
        im_x := nd_map (fun a => (a + 0.5 - INR (b_nx f / 2)) * sizepix_x)
                       (arange (b_nx f));
        im_y := nd_map (fun a => (a + 0.5 - INR (b_ny f / 2)) * sizepix_y)
                       (arange (b_ny f));
        nx := b_nx f; ny := b_ny f;
        sizepix_x := sizepix_x; sizepix_y := sizepix_y;
        nfreq := nfreq; freq := fr; nwav := nfreq; wav := wv;
        stokes := match b_iformat f with
                  | Intensity => false
                  | StokesIQUV => true
                  end |}.

(** The binary file that holds the numbers of a formatted file in the same
    order. *)
Definition binary_of (f : ImageFile) : BinaryFile :=
  {| b_iformat := f_iformat f; b_nx := f_nx f; b_ny := f_ny f;
     b_nfreq := f_nfreq f;
     b_words := f_sizepix_x f :: f_sizepix_y f ::
                take (f_nfreq f) (f_wav f) ++ concat (f_pixels f) |}.

(** A binary total-intensity file of 2 x 3 pixels and one wavelength, the
    pixel values 0 to 5. *)
Definition small_binary_file : BinaryFile :=
  {| b_iformat := Intensity; b_nx := 2; b_ny := 3; b_nfreq := 1;
     b_words := [1; 1; 10; 0; 1; 2; 3; 4; 5] |}.

(** A binary Stokes file of 2 x 1 pixels and one wavelength. *)
Definition small_binary_stokes : BinaryFile :=
  {| b_iformat := StokesIQUV; b_nx := 2; b_ny := 1; b_nfreq := 1;
     b_words := [1; 1; 10; 0; 1; 2; 3; 4; 5; 6; 7] |}.

(** ** Auxiliary definitions for getPSF *)

(** The pixel scale [getPSF] works with: [pscale], or 1 in both directions
    when it is not given. *)
Definition psf_scale (pscale : option (R * R)) : R * R :=
  match pscale with
  | Some (dx, dy) => (dx, dy)
  | None => (1, 1)
  end.

(** ** Auxiliary definitions on the memo of deepcopy *)

(** The memo of a running [deepcopy] pairs different objects with different
    copies, and every copy is in the store. *)
Definition memo_inv (st : gmap loc loc * heap) : Prop :=
  (forall a b t, st.1 !! a = Some t -> st.1 !! b = Some t -> a = b) /\
  (forall a t, st.1 !! a = Some t -> is_Some (st.2 !! t)).

(** The array attributes of an instance other than [image]. *)
Definition side_fields : list (radmc3dImage -> loc) :=
  [o_imageJyppix; o_x; o_y; o_freq; o_wav].

(** ** makeImage *)

(** A piece of the command line that [makeImage] builds: literal text, or a
    number together with the conversion the source applies to it.  (The
    digits that [str] and the [%] formats produce are not modelled.) *)
Inductive piece : Type :=
  | Text (s : string)
  | Str (x : R)        (* [str(x)] *)
  | StrInt (x : R)     (* [str(int(x))] *)
  | Fmt5e (x : R)      (* ["%.5e" % x] *)
  | FmtD (x : R).      (* ["%d" % x] *)

(** The keyword arguments of [makeImage]; [None] is Python's [None]. *)
Record makeImage_args : Type := {
  a_npix : option R;
  a_incl : option R;
  a_wav : option R;
  a_sizeau : option R;
  a_phi : option R;
  a_posang : option R;
  a_pointau : option (list R);
  a_fluxcons : bool;
  a_nostar : bool;
  a_noscat : bool;
  a_widthkms : option R;
  a_linenlam : option R;
  a_vkms : option R;
  a_iline : option R;
  a_lambdarange : option (list R);
  a_nlam : option R
}.

(** What a call has done when it returns: its return value and the command
    lines it has run through the shell, in order. *)
Record outcome : Type := {
  code : Z;
  ran : list (list piece)
}.

(** [return -1] after an error message: nothing has been run. *)
Definition refused : result outcome := Ok {| code := (-1)%Z; ran := [] |}.

(** Truth value of an optional number in [if x:]: [None] and 0 are false. *)
Definition truthy (x : option R) : bool :=
  match x with
  | Some v => negb (bool_decide (v = 0))
  | None => false
  end.

Definition makeImage (a : makeImage_args) : result outcome :=
  match a_npix a with
  | None => refused
  | Some npix =>
  match a_incl a with
  | None => refused
  | Some incl =>
  if (match a_wav a with
      | None => bool_decide (a_lambdarange a = None) || bool_decide (a_nlam a = None)
      | Some _ => negb (bool_decide (a_lambdarange a = None))
      end)
  then refused
  else if (match a_lambdarange a with
           | Some lr => negb (length lr =? 2)%nat
           | None => false
           end)
  then refused
  else
  match a_sizeau a with
  | None => refused
  | Some sizeau =>
    let com := [Text "radmc3d image"; Text " npix "; StrInt npix;
                Text " incl "; Str incl; Text " sizeau "; Str sizeau] in
    com ← match a_wav a with
          | Some wav => Ok (com ++ [Text " lambda "; Str wav])
          | None =>
              lr ← of_option TypeError (a_lambdarange a);
              l0 ← of_option IndexError (lr !! 0%nat);
              l1 ← of_option IndexError (lr !! 1%nat);
              nlam ← of_option TypeError (a_nlam a);
              Ok (com ++ [Text " lambdarange "; Str l0; Text " "; Str l1;
                          Text " nlam "; StrInt nlam])
          end;
    let com := match a_phi a with
               | Some phi => com ++ [Text " phi "; Str phi]
               | None => com
               end in
    let com := match a_posang a with
               | Some posang => com ++ [Text " posang "; Str posang]
               | None => com
               end in
    match a_pointau a with
    | Some pointau =>
        if negb (length pointau =? 3)%nat then refused
        else
          (* [str(posang[0])]: [posang] is a number or [None], and neither
             can be subscripted *)
          Err TypeError
    | None =>
        let com := com ++ [Text " pointau 0.0  0.0  0.0"] in
        let com := if a_fluxcons a then com ++ [Text " fluxcons"] else com in
        if truthy (a_widthkms a) && truthy (a_vkms a) then refused
        else
          let com := match a_widthkms a with
                     | Some w => if truthy (a_widthkms a)
                                 then com ++ [Text " widthkms "; Fmt5e w] else com
                     | None => com
                     end in
          let com := match a_vkms a with
                     | Some v => if truthy (a_vkms a)
                                 then com ++ [Text " vkms "; Fmt5e v] else com
                     | None => com
                     end in
          let com := match a_linenlam a with
                     | Some n => if truthy (a_linenlam a)
                                 then com ++ [Text " linenlam "; FmtD n] else com
                     | None => com
                     end in
          let com := match a_iline a with
                     | Some n => if truthy (a_iline a)
                                 then com ++ [Text " iline "; FmtD n] else com
                     | None => com
                     end in
          Ok {| code := 0%Z; ran := [com] |}
    end
  end end end.

(** The call of the docstring without [pointau]:
    [makeImage(npix=100, incl=60.0, wav=10.0, sizeau=300., phi=0., posang=15.)]. *)
Definition docstring_call : makeImage_args :=
  {| a_npix := Some 100; a_incl := Some 60; a_wav := Some 10;
     a_sizeau := Some 300; a_phi := Some 0; a_posang := Some 15;
     a_pointau := None; a_fluxcons := true; a_nostar := false;
     a_noscat := false; a_widthkms := None; a_linenlam := None;
     a_vkms := None; a_iline := None; a_lambdarange := None; a_nlam := None |}.

(** ** radmc3dImage.writeFits: the data to be written *)

(** The value of [stokes.strip().upper()] (other names are not modelled). *)
Inductive stokes_choice : Set :=
  | ChooseI | ChooseQ | ChooseU | ChooseV | ChoosePI.

(** [istokes] (lines 270-273); it is not set for ['PI']. *)
Definition istokes_of (s : stokes_choice) : option nat :=
  match s with
  | ChooseI => Some 0%nat
  | ChooseQ => Some 1%nat
  | ChooseU => Some 2%nat
  | ChooseV => Some 3%nat
  | ChoosePI => None
  end.

(** The unit conversion (lines 315-322): to Jy/pixel for an image that has
    not been convolved ([fwhm] is empty), to Jy/beam otherwise. *)
Definition fits_conv (self : ImageCube) (fwhm : list R) (dpc : R) : R :=
  if (length fwhm =? 0)%nat
  then sizepix_x self * sizepix_y self / (dpc * pc_cm) ^ 2 * 1e23
  else 1e23.

(** [self.image[items] * conv] *)
Definition fits_plane (self : ImageCube) (conv : R) (items : list sub)
  : result (ndarray R) :=
  p ← getitem (image self) items;
  Ok (nd_map (fun v => v * conv) p).

(** [sqrt(self.image[q_items]**2 + self.image[u_items]**2) * conv] *)
Definition fits_polarised (self : ImageCube) (conv : R)
    (q_items u_items : list sub) : result (ndarray R) :=
  q ← getitem (image self) q_items;
  u ← getitem (image self) u_items;
  s ← nd_zip Rplus (nd_map (fun v => v ^ 2) q) (nd_map (fun v => v ^ 2) u);
  Ok (nd_map (fun v => sqrt v * conv) s).

(** The array [data] that [writeFits] hands to the FITS library (lines
    324-359, run once the coordinates are decoded); [fwhm] is the attribute
    [self.fwhm]. *)
Definition fits_data (self : ImageCube) (fwhm : list R) (dpc : R)
    (casa : bool) (st : stokes_choice) : result (ndarray R) :=
  let conv := fits_conv self fwhm dpc in
  if casa then
    let data := full 0 [1%nat; nfreq self; ny self; nx self] in
    if (nfreq self =? 1)%nat then
      p ← fits_plane self conv [All; All];
      setitem data [At 0%nat; At 0%nat; All; All] p
    else
      for_range (nfreq self) (fun inu data =>
        p ← fits_plane self conv [All; All; At inu];
        setitem data [At inu; At 0%nat; All; All] p) data
  else
    let data := full 0 [nfreq self; ny self; nx self] in
    if stokes self then
      match istokes_of st with
      | Some istokes =>
          if (nfreq self =? 1)%nat then
            p ← fits_plane self conv [All; All; At istokes];
            setitem data [At 0%nat; All; All] p
          else
            for_range (nfreq self) (fun inu data =>
              p ← fits_plane self conv [All; All; At istokes; At inu];
              setitem data [At inu; All; All] p) data
      | None =>
          if (nfreq self =? 1)%nat then
            p ← fits_polarised self conv [All; All; At 1%nat] [All; All; At 2%nat];
            setitem data [At 0%nat; All; All] p
          else
            for_range (nfreq self) (fun inu data =>
              p ← fits_polarised self conv [All; All; At 1%nat; At inu]
                                           [All; All; At 2%nat; At inu];
              setitem data [At inu; All; All] p) data
      end
    else
      if (nfreq self =? 1)%nat then
        p ← fits_plane self conv [All; All; At 0%nat];
        setitem data [At 0%nat; All; All] p
      else
        for_range (nfreq self) (fun inu data =>
          p ← fits_plane self conv [All; All; At inu];
          setitem data [At inu; All; All] p) data.

(** A total-intensity cube of 2 x 3 pixels and one channel. *)
Definition oblong_cube : ImageCube :=
  {| image := full 1 [2%nat; 3%nat; 1%nat];
     imageJyppix := full 1 [2%nat; 3%nat; 1%nat];
     im_x := nd_map (fun a => (a + 0.5 - INR (2 / 2)) * 1) (arange 2);
     im_y := nd_map (fun a => (a + 0.5 - INR (3 / 2)) * 1) (arange 3);
     nx := 2; ny := 3; sizepix_x := 1; sizepix_y := 1;
     nfreq := 1; freq := nd_map (fun w => 2.99792458e10 / w * 1e4) (array1 [1]);
     nwav := 1; wav := array1 [1]; stokes := false |}.

(** ** Auxiliary definitions for the convolution *)

(** The factor [exp(sg*2*pi*i*k*j/n)] of a discrete Fourier sum. *)
Definition root (sg : R) (n k j : nat) : C :=
  Ccis (sg * 2 * PI * (INR k * INR j / INR n)).

(** One-dimensional discrete Fourier sum with sign [sg] in the exponent. *)
Definition dft1 (sg : R) (n : nat) (f : nat -> C) (k : nat) : C :=
  Csum n (fun j => Cmul (f j) (root sg n k j)).

(** The circular convolution of two planes of [n1] x [n2] numbers at
    [(a, b)]: indices are taken modulo the extent of their axis. *)
Definition circular_convolution (n1 n2 : nat) (p f : nat -> nat -> R)
    (a b : nat) : R :=
  sum_upto Rplus 0 n1 (fun j1 => sum_upto Rplus 0 n2 (fun j2 =>
    p j1 j2 * f ((a + n1 - j1) mod n1)%nat ((b + n2 - j2) mod n2)%nat)).

(** ** Auxiliary definitions for the closure-phase loop *)

(** What the triangles hold once the loop has passed them. *)
Definition triangles_done (self : ImageCube) (bl pa : ndarray R)
    (dpc : option R) (k : nat) (res : ClosureRes) : Prop :=
  forall itri, (itri < k)%nat ->
    exists tbl tpa dum,
      getitem bl [At itri; All] = Ok tbl /\
      getitem pa [At itri; All] = Ok tpa /\
      getVisibility self tbl tpa dpc = Ok dum /\
      forall iwav, (iwav < nwav self)%nat ->
        (forall j, (j < 3)%nat ->
           at_ (c_phase res) [itri; j; iwav] = at_ (v_phase dum) [j; iwav]) /\
        at_ (c_cp res) [itri; iwav] =
          spec_closure_phase (at_ (v_phase dum) [0%nat; iwav])
                             (at_ (v_phase dum) [1%nat; iwav])
                             (at_ (v_phase dum) [2%nat; iwav]).

(** * Properties *)

(** ** The error monad and loops *)

Lemma bind_Ok {A B} (m : result A) (k : A -> result B) (b : B) :
  m ≫= k = Ok b <-> exists a, m = Ok a /\ k a = Ok b.
Proof.
  destruct m as [a|e]; cbn; split.
  - intros H. exists a. auto.
  - intros (a' & [= <-] & H). exact H.
  - discriminate.
  - intros (a' & [=] & _).
Qed.

Lemma bind_Ok_l {A B} (m : result A) (k : A -> result B) (a : A) :
  m = Ok a -> m ≫= k = k a.
Proof. intros ->. reflexivity. Qed.

Lemma bind_Err_l {A B} (m : result A) (k : A -> result B) (e : pyerr) :
  m = Err e -> m ≫= k = Err e.
Proof. intros ->. reflexivity. Qed.

(** Splits a hypothesis [x ← m; k = Ok b] into its two steps. *)
Ltac bind_split H :=
  let a := fresh "a" in
  let Ha := fresh "E" in
  apply bind_Ok in H; destruct H as (a & Ha & H).

Tactic Notation "bind_name" hyp(H) ident(a) ident(Ha) :=
  apply bind_Ok in H; destruct H as (a & Ha & H).

Lemma for_each_app {S} (body : nat -> S -> result S) (l1 l2 : list nat) (s : S) :
  for_each body (l1 ++ l2) s = for_each body l1 s ≫= for_each body l2.
Proof.
  revert s. induction l1 as [|i l1 IH]; intros s; cbn; [reflexivity|].
  destruct (body i s) as [s'|e]; cbn; [apply IH | reflexivity].
Qed.

Lemma for_range_S {S} (n : nat) (body : nat -> S -> result S) (s : S) :
  for_range (Datatypes.S n) body s = for_range n body s ≫= body n.
Proof.
  unfold for_range. rewrite seq_S, for_each_app. cbn.
  destruct (for_each body (seq 0 n) s) as [s'|e]; cbn; [|reflexivity].
  destruct (body n s'); reflexivity.
Qed.

Lemma for_range_0 {S} (body : nat -> S -> result S) (s : S) :
  for_range 0 body s = Ok s.
Proof. reflexivity. Qed.

(** Invariant rule: whatever the loop returns satisfies the invariant. *)
Lemma for_range_inv {S} (P : nat -> S -> Prop) (n : nat)
    (body : nat -> S -> result S) (s r : S) :
  P 0%nat s ->
  (forall i s s', (i < n)%nat -> P i s -> body i s = Ok s' -> P (Datatypes.S i) s') ->
  for_range n body s = Ok r -> P n r.
Proof.
  intros H0 Hstep. revert r.
  induction n as [|n IH]; intros r.
  - rewrite for_range_0. intros [= <-]. exact H0.
  - rewrite for_range_S. intros H. bind_split H.
    apply (Hstep n a r); [lia | | exact H].
    apply IH; [|exact E]. intros i s1 s2 Hi. apply Hstep. lia.
Qed.

(** Total-correctness rule: a body that cannot fail under the invariant makes
    the loop return. *)
Lemma for_range_total {S} (P : nat -> S -> Prop) (n : nat)
    (body : nat -> S -> result S) (s : S) :
  P 0%nat s ->
  (forall i s, (i < n)%nat -> P i s -> exists s', body i s = Ok s' /\ P (Datatypes.S i) s') ->
  exists r, for_range n body s = Ok r /\ P n r.
Proof.
  intros H0 Hstep.
  induction n as [|n IH].
  - exists s. split; [reflexivity | exact H0].
  - destruct IH as (r & Hr & HP).
    { intros i s1 Hi. apply Hstep. lia. }
    destruct (Hstep n r) as (r' & Hb & HP'); [lia | exact HP |].
    exists r'. split; [|exact HP'].
    rewrite for_range_S, Hr. exact Hb.
Qed.

(** A body that fails at pass [i] under the invariant makes the loop fail. *)
Lemma for_range_fails {S} (P : nat -> S -> Prop) (n k : nat) (e : pyerr)
    (body : nat -> S -> result S) (s : S) :
  (k < n)%nat ->
  P 0%nat s ->
  (forall i s, (i < k)%nat -> P i s -> exists s', body i s = Ok s' /\ P (Datatypes.S i) s') ->
  (forall s, P k s -> body k s = Err e) ->
  for_range n body s = Err e.
Proof.
  intros Hk H0 Hstep Hfail.
  destruct (for_range_total P k body s H0 Hstep) as (r & Hr & HP).
  unfold for_range in *.
  replace n with (k + Datatypes.S (n - k - 1))%nat by lia.
  rewrite seq_app, for_each_app, Hr.
  cbn [seq for_each mbind result_bind Nat.add].
  rewrite (Hfail r HP). reflexivity.
Qed.

(** ** Complex arithmetic *)

Lemma Cmul_conj (z : C) :
  Cmul z (Cconj z) = (Cre z * Cre z + Cim z * Cim z, 0).
Proof.
  destruct z as [a b]. unfold Cmul, Cconj, Cre, Cim. cbn [fst snd].
  f_equal; lra.
Qed.

Lemma Cabs_real_nonneg (a : R) : 0 <= a -> Cabs (a, 0) = a.
Proof.
  intros Ha. unfold Cabs, Cre, Cim. cbn [fst snd].
  replace (a * a + 0 * 0) with (a * a) by lra.
  apply sqrt_square, Ha.
Qed.

(** [sqrt(abs(dum * conj(dum)))] is the modulus of [dum]. *)
Lemma amplitude_modulus (z : C) :
  sqrt (Cabs (Cmul z (Cconj z))) = sqrt (Cre z ^ 2 + Cim z ^ 2).
Proof.
  rewrite Cmul_conj, Cabs_real_nonneg by nra.
  f_equal. lra.
Qed.

Lemma item_Ok {A} (a : ndarray A) idx v :
  item a idx = Ok v <-> in_bounds idx (shape a) = true /\ v = at_ a idx.
Proof.
  unfold item. destruct (in_bounds idx (shape a)); split.
  - intros [= <-]. auto.
  - intros [_ ->]. reflexivity.
  - discriminate.
  - intros [[=] _].
Qed.

Lemma item_in {A} (a : ndarray A) idx :
  in_bounds idx (shape a) = true -> item a idx = Ok (at_ a idx).
Proof. unfold item. intros ->. reflexivity. Qed.

Lemma in_bounds_length idx shp :
  in_bounds idx shp = true -> length idx = length shp.
Proof.
  revert shp. induction idx as [|i idx IH]; intros [|n shp]; cbn; try discriminate; auto.
  intros H. apply andb_prop in H as [_ H]. f_equal. auto.
Qed.

Lemma sub_fits_At ids shp :
  length ids = length shp -> sub_fits (map At ids) shp = in_bounds ids shp.
Proof.
  revert shp. induction ids as [|i ids IH]; intros [|n shp]; cbn; try discriminate; auto.
  intros [= H]. rewrite IH by exact H. reflexivity.
Qed.

Lemma sub_selects_At ids idx :
  length idx = length ids ->
  sub_selects (map At ids) idx = true <-> idx = ids.
Proof.
  revert idx. induction ids as [|i ids IH]; intros [|j idx]; cbn; try discriminate.
  - intros _. split; auto.
  - intros [= H]. rewrite andb_true_iff, Nat.eqb_eq, IH by exact H.
    split; [intros [-> ->]; reflexivity | intros [= -> ->]; auto].
Qed.

Lemma setitem_scalar_At {A} (a : ndarray A) ids x :
  in_bounds ids (shape a) = true ->
  exists a', setitem_scalar a (map At ids) x = Ok a' /\
    shape a' = shape a /\ at_ a' ids = x /\
    forall idx, idx <> ids -> at_ a' idx = at_ a idx.
Proof.
  intros Hin. unfold setitem_scalar.
  rewrite sub_fits_At, Hin by (apply in_bounds_length; exact Hin).
  eexists. split; [reflexivity|]. cbn [shape at_]. split; [reflexivity|]. split.
  - rewrite Hin. cbn. 
    destruct (sub_selects (map At ids) ids) eqn:E; [reflexivity|].
    assert (sub_selects (map At ids) ids = true) by (apply sub_selects_At; reflexivity).
    congruence.
  - intros idx Hne.
    destruct (in_bounds idx (shape a)) eqn:E1; [|reflexivity]. cbn.
    destruct (sub_selects (map At ids) idx) eqn:E2; [|reflexivity].
    exfalso. apply Hne. apply sub_selects_At; [|exact E2].
    apply in_bounds_length in E1, Hin. congruence.
Qed.

Lemma setitem_scalar_At_inv {A} (a a' : ndarray A) ids x :
  length ids = length (shape a) ->
  setitem_scalar a (map At ids) x = Ok a' ->
  in_bounds ids (shape a) = true /\
  shape a' = shape a /\ at_ a' ids = x /\
  forall idx, idx <> ids -> at_ a' idx = at_ a idx.
Proof.
  intros Hlen H.
  assert (Hin : in_bounds ids (shape a) = true).
  { unfold setitem_scalar in H. rewrite sub_fits_At in H by exact Hlen.
    destruct (in_bounds ids (shape a)); [reflexivity | discriminate]. }
  split; [exact Hin|].
  destruct (setitem_scalar_At a ids x Hin) as (a2 & E & P).
  rewrite E in H. injection H as <-. exact P.
Qed.

Lemma bdim_refl n : bdim n n = Some n.
Proof. unfold bdim. rewrite Nat.eqb_refl. reflexivity. Qed.

Lemma bshape_rev_refl s : bshape_rev s s = Some s.
Proof.
  induction s as [|n s IH]; cbn; [reflexivity|].
  rewrite bdim_refl, IH. reflexivity.
Qed.

Lemma broadcast_shapes_refl s : broadcast_shapes s s = Some s.
Proof. unfold broadcast_shapes. rewrite bshape_rev_refl, rev_involutive. reflexivity. Qed.

Lemma bproj_id s idx : in_bounds idx s = true -> bproj s idx = idx.
Proof.
  intros H. unfold bproj.
  rewrite (in_bounds_length _ _ H), Nat.sub_diag. cbn [drop].
  revert s H. induction idx as [|i idx IH]; intros [|n s]; cbn; try discriminate; auto.
  intros H. apply andb_prop in H as [Hi H]. apply Nat.ltb_lt in Hi.
  rewrite IH by exact H.
  destruct (Nat.eqb_spec n 1); [|reflexivity].
  f_equal. lia.
Qed.

Lemma strip_leading_ones_0 s : strip_leading_ones 0 s = s.
Proof. destruct s; reflexivity. Qed.

Lemma assignable_refl t : assignable t t = true.
Proof.
  unfold assignable. rewrite Nat.sub_diag, strip_leading_ones_0.
  rewrite broadcast_shapes_refl, bool_decide_eq_true_2 by reflexivity.
  rewrite andb_true_r. apply Nat.leb_le. lia.
Qed.

Lemma sub_position_in_bounds items : forall shp t idx,
  sub_shape items shp = Ok t ->
  in_bounds idx shp = true ->
  sub_selects items idx = true ->
  in_bounds (sub_position items idx) t = true.
Proof.
  induction items as [|it items IH]; intros shp t idx Hs Hin Hsel.
  - cbn in *. simplify_eq. destruct idx; exact Hin.
  - destruct shp as [|n shp]; [destruct it; discriminate|].
    destruct idx as [|j idx]; [discriminate|].
    cbn -[Nat.ltb] in Hin. apply andb_prop in Hin as [Hj Hin].
    destruct it as [|i|k m]; cbn -[Nat.ltb] in *.
    + destruct (sub_shape items shp) as [t'|] eqn:E; [|discriminate].
      cbn in Hs. simplify_eq. cbn -[Nat.ltb]. rewrite Hj. cbn. eapply IH; eauto.
    + destruct (i <? n)%nat; [|discriminate].
      apply andb_prop in Hsel as [_ Hsel]. eapply IH; eauto.
    + discriminate.
Qed.

Lemma setitem_same {A} (a v : ndarray A) items t :
  sub_shape items (shape a) = Ok t ->
  shape v = t ->
  exists a', setitem a items v = Ok a' /\
    shape a' = shape a /\
    (forall idx, in_bounds idx (shape a) = true -> sub_selects items idx = true ->
       at_ a' idx = at_ v (sub_position items idx)) /\
    (forall idx, sub_selects items idx = false -> at_ a' idx = at_ a idx).
Proof.
  intros Hs Hv. unfold setitem. rewrite Hs. cbn [mbind result_bind].
  rewrite Hv, assignable_refl.
  eexists. split; [reflexivity|]. cbn [shape at_].
  split; [reflexivity|]. split.
  - intros idx Hin Hsel. rewrite Hin, Hsel. cbn [andb].
    rewrite Nat.sub_diag, strip_leading_ones_0, Nat.sub_diag. cbn [repeat app].
    rewrite bproj_id; [reflexivity|].
    eapply sub_position_in_bounds; eauto.
  - intros idx Hsel. rewrite Hsel, andb_false_r. reflexivity.
Qed.

Lemma setitem_shape {A} (a v a' : ndarray A) items :
  setitem a items v = Ok a' -> shape a' = shape a.
Proof.
  unfold setitem. intros H. bind_split H.
  destruct (assignable _ _); [|discriminate]. injection H as <-. reflexivity.
Qed.

Lemma setitem_scalar_shape {A} (a a' : ndarray A) items x :
  setitem_scalar a items x = Ok a' -> shape a' = shape a.
Proof.
  unfold setitem_scalar. destruct (sub_fits _ _); [|discriminate].
  intros [= <-]. reflexivity.
Qed.

Lemma getitem_Ok {A} (a : ndarray A) items t :
  sub_shape items (shape a) = Ok t ->
  getitem a items = Ok (NdArray t (fun idx => at_ a (sub_index items idx))).
Proof. intros H. unfold getitem. rewrite H. reflexivity. Qed.

(** ** Python's modulo *)

Lemma pymod_range (a m : R) : 0 < m -> 0 <= pymod a m < m.
Proof.
  intros Hm. unfold pymod.
  destruct (base_Int_part (a / m)) as [H1 H2].
  set (k := IZR (Int_part (a / m))) in *.
  assert (Ha : a = a / m * m) by (field; lra).
  split.
  - apply Rmult_le_compat_r with (r := m) in H1; lra.
  - assert (a / m < k + 1) by lra.
    apply Rmult_lt_compat_r with (r := m) in H; lra.
Qed.

Lemma pymod_small (a m : R) : 0 <= a < m -> pymod a m = a.
Proof.
  intros [H0 Hm]. unfold pymod.
  replace (Int_part (a / m)) with 0%Z; [lra|].
  apply Int_part_spec. cbn.
  assert (0 <= a / m < 1).
  { split.
    - apply Rmult_le_pos; [lra|]. left. apply Rinv_0_lt_compat. lra.
    - apply Rmult_lt_reg_r with m; [lra|]. unfold Rdiv. rewrite Rmult_assoc, Rinv_l; lra. }
  lra.
Qed.

Lemma mask_count_pos n (m : nat -> bool) j :
  (j < n)%nat -> m j = true -> (0 < mask_count (Mask n m))%nat.
Proof.
  intros Hj Hm. unfold mask_count.
  assert (Hin : j ∈ filter (fun j => m j = true) (seq 0 n)).
  { apply list_elem_of_filter. split; [exact Hm|]. apply elem_of_seq. lia. }
  destruct (filter _ _); [inversion Hin | cbn; lia].
Qed.

Lemma sum_upto_3 (f : nat -> R) :
  sum_upto Rplus 0 3 f = f 0%nat + f 1%nat + f 2%nat.
Proof. cbn. lra. Qed.

Lemma spec_closure_phase_range p0 p1 p2 :
  -180 < spec_closure_phase p0 p1 p2 <= 180.
Proof.
  unfold spec_closure_phase.
  pose proof (pymod_range ((p0 + p1 + p2) / PI * 180) 360 ltac:(lra)) as H.
  cbv zeta. case_bool_decide; lra.
Qed.

(** Storing the result of one triangle: the three-axis arrays. *)
Lemma store_triangle {A} (a v : ndarray A) (itri ntri nwav : nat) :
  (itri < ntri)%nat ->
  shape a = [ntri; 3%nat; nwav] -> shape v = [3%nat; nwav] ->
  exists a', setitem a [At itri; All; All] v = Ok a' /\
             shape a' = [ntri; 3%nat; nwav].
Proof.
  intros Hi Ha Hv.
  destruct (setitem_same a v [At itri; All; All] [3%nat; nwav]) as (a' & E & Hs & _).
  - rewrite Ha. cbn -[Nat.ltb]. apply Nat.ltb_lt in Hi. rewrite Hi. reflexivity.
  - exact Hv.
  - exists a'. split; [exact E | congruence].
Qed.

Lemma closure_store_cp (itri ntri nwav : nat) (dum : VisRes) (res : ClosureRes) :
  (itri < ntri)%nat ->
  vis_shaped 3 nwav dum ->
  closure_shaped ntri nwav res ->
  exists res', closure_store itri dum res = Ok res' /\
    forall iwav, (iwav < nwav)%nat ->
      at_ (c_cp res') [itri; iwav] =
      spec_closure_phase (at_ (v_phase dum) [0%nat; iwav])
                         (at_ (v_phase dum) [1%nat; iwav])
                         (at_ (v_phase dum) [2%nat; iwav]).
Proof.
  intros Hi [Du Dv Dvis Damp Dph] [Ru Rv Rvis Ramp Rph Rcp].
  pose proof Hi as Hib. apply Nat.ltb_lt in Hib.
  unfold closure_store.
  destruct (store_triangle (c_u res) (v_u dum) itri ntri nwav Hi Ru Du) as (u & -> & _).
  destruct (store_triangle (c_v res) (v_v dum) itri ntri nwav Hi Rv Dv) as (v & -> & _).
  destruct (store_triangle (c_vis res) (v_vis dum) itri ntri nwav Hi Rvis Dvis) as (vis & -> & _).
  destruct (store_triangle (c_amp res) (v_amp dum) itri ntri nwav Hi Ramp Damp) as (amp & -> & _).
  destruct (store_triangle (c_phase res) (v_phase dum) itri ntri nwav Hi Rph Dph) as (ph & -> & _).
  cbn [mbind result_bind].
  unfold nd_sum0. rewrite Dph. cbn [mbind result_bind].
  set (s := NdArray [nwav] _).
  destruct (setitem_same (c_cp res) (nd_map (fun a => pymod (a / PI * 180) 360) s)
              [At itri; All] [nwav]) as (cp & -> & Hcs & Hsel & _).
  { rewrite Rcp. cbn -[Nat.ltb]. rewrite Hib. reflexivity. }
  { reflexivity. }
  cbn [mbind result_bind].
  rewrite (getitem_Ok cp [At itri; All] [nwav])
    by (rewrite Hcs, Rcp; cbn -[Nat.ltb]; rewrite Hib; reflexivity).
  cbn [mbind result_bind]. unfold mask_of. cbn [shape mbind result_bind at_].
  set (m := fun j : nat => Rltb 180 (at_ cp (sub_index [At itri; All] [j]))).
  assert (Hcpv : forall iwav, (iwav < nwav)%nat ->
            at_ cp [itri; iwav] =
            pymod ((at_ (v_phase dum) [0%nat; iwav] + at_ (v_phase dum) [1%nat; iwav]
                    + at_ (v_phase dum) [2%nat; iwav]) / PI * 180) 360).
  { intros iwav Hw. rewrite Hsel.
    - cbn [sub_position nd_map at_]. subst s. cbn [at_].
      rewrite sum_upto_3. reflexivity.
    - rewrite Rcp. cbn -[Nat.ltb]. rewrite Hib.
      apply Nat.ltb_lt in Hw. rewrite Hw. reflexivity.
    - cbn. rewrite Nat.eqb_refl. reflexivity. }
  assert (Hm : forall iwav, (iwav < nwav)%nat ->
            (if m iwav then at_ cp [itri; iwav] - 360 else at_ cp [itri; iwav]) =
            spec_closure_phase (at_ (v_phase dum) [0%nat; iwav])
              (at_ (v_phase dum) [1%nat; iwav]) (at_ (v_phase dum) [2%nat; iwav])).
  { intros iwav Hw. unfold spec_closure_phase. cbv zeta.
    rewrite <- (Hcpv iwav Hw). subst m. cbn [sub_index]. unfold Rltb.
    do 2 case_bool_decide; lra. }
  destruct (0 <? mask_count (Mask nwav m))%nat eqn:Hc.
  - unfold modify. rewrite Hcs, Rcp.
    cbn -[Nat.ltb]. rewrite Hib, Nat.eqb_refl. cbn [andb mbind result_bind].
    eexists. split; [reflexivity|]. cbn [c_cp at_].
    intros iwav Hw. rewrite <- (Hm iwav Hw).
    pose proof Hw as Hwb. apply Nat.ltb_lt in Hwb.
    cbn -[Nat.ltb]. rewrite Hib, Hwb, Nat.eqb_refl. cbn [andb]. rewrite andb_true_r. reflexivity.
  - cbn [mbind result_bind]. eexists. split; [reflexivity|]. cbn [c_cp].
    intros iwav Hw. rewrite <- (Hm iwav Hw).
    destruct (m iwav) eqn:Hmi; [|reflexivity].
    apply Nat.ltb_ge in Hc.
    pose proof (mask_count_pos nwav m iwav Hw Hmi). lia.
Qed.

(** ** getPSF *)

Lemma ln2_pos : 0 < ln 2.
Proof. pose proof ln_lt_2. lra. Qed.

Lemma ln2_lt_1 : ln 2 < 1.
Proof.
  rewrite <- (ln_exp 1). apply ln_increasing; [lra|].
  pose proof (exp_ineq1 1 ltac:(lra)). lra.
Qed.

Lemma psf_sigma_pos (fw : R) : 0 < fw -> 0 < psf_sigma fw.
Proof.
  intros H. unfold psf_sigma.
  apply Rdiv_lt_0_compat; [exact H|].
  apply Rmult_lt_0_compat; [lra|].
  apply sqrt_lt_R0. pose proof ln2_pos. lra.
Qed.

Lemma exp_le_1 (t : R) : t <= 0 -> exp t <= 1.
Proof.
  intros [H| ->]; [|rewrite exp_0; lra].
  left. rewrite <- exp_0. apply exp_increasing, H.
Qed.

Lemma gauss_le_1 x y sx sy s c ix iy :
  0 < sx -> 0 < sy -> gauss x y sx sy s c ix iy <= 1.
Proof.
  intros Hx Hy. unfold gauss. cbv zeta. apply exp_le_1.
  set (xx := c * at_ x [ix] - s * at_ y [iy]).
  set (yy := s * at_ x [ix] + c * at_ y [iy]).
  pose proof (pow2_ge_0 (xx / sx)). pose proof (pow2_ge_0 (yy / sy)).
  unfold Rdiv in *. lra.
Qed.

Lemma gauss_origin x y sx sy s c ix iy :
  at_ x [ix] = 0 -> at_ y [iy] = 0 -> gauss x y sx sy s c ix iy = 1.
Proof.
  intros Hx Hy. unfold gauss. cbv zeta. rewrite Hx, Hy.
  rewrite <- exp_0. f_equal. unfold Rdiv. lra.
Qed.

Lemma psf_kernel_spec (nx ny : nat) (x y : ndarray R) (sx sy s c : R) :
  shape x = [nx] -> shape y = [ny] ->
  exists k, psf_kernel nx ny x y sx sy s c = Ok k /\
    shape k = [nx; ny] /\
    forall ix iy, (ix < nx)%nat -> (iy < ny)%nat ->
      at_ k [ix; iy] = gauss x y sx sy s c ix iy.
Proof.
  intros Hx Hy. unfold psf_kernel.
  destruct (for_range_total
    (fun i k => shape k = [nx; ny] /\
       forall ix iy, (ix < i)%nat -> (iy < ny)%nat ->
         at_ k [ix; iy] = gauss x y sx sy s c ix iy)
    nx
    (fun ix psf => for_range ny (fun iy psf =>
        xi ← item x [ix]; yi ← item y [iy];
        let xx := c * xi - s * yi in
        let yy := s * xi + c * yi in
        setitem_scalar psf [At ix; At iy]
          (exp (-0.5 * xx * xx / sx / sx - 0.5 * yy * yy / sy / sy))) psf)
    (full 0 [nx; ny])) as (k & Hk & Hs & Hv).
  - split; [reflexivity|]. intros; lia.
  - intros i k Hi [Hs Hv].
    destruct (for_range_total
      (fun j k' => shape k' = [nx; ny] /\
         (forall ix iy, (ix < i)%nat -> (iy < ny)%nat ->
            at_ k' [ix; iy] = gauss x y sx sy s c ix iy) /\
         forall iy, (iy < j)%nat -> at_ k' [i; iy] = gauss x y sx sy s c i iy)
      ny
      (fun iy psf =>
        xi ← item x [i]; yi ← item y [iy];
        let xx := c * xi - s * yi in
        let yy := s * xi + c * yi in
        setitem_scalar psf [At i; At iy]
          (exp (-0.5 * xx * xx / sx / sx - 0.5 * yy * yy / sy / sy)))
      k) as (k' & Hk' & Hs' & Hv1 & Hv2).
    + split; [exact Hs|]. split; [exact Hv|]. intros; lia.
    + intros j k1 Hj (Hs1 & Hv1 & Hv2).
      rewrite (item_in x [i]), (item_in y [j]).
      2:{ rewrite Hy. cbn -[Nat.ltb]. apply Nat.ltb_lt in Hj. rewrite Hj. reflexivity. }
      2:{ rewrite Hx. cbn -[Nat.ltb]. apply Nat.ltb_lt in Hi. rewrite Hi. reflexivity. }
      cbn [mbind result_bind]. cbv zeta.
      destruct (setitem_scalar_At k1 [i; j]
        (exp (-0.5 * (c * at_ x [i] - s * at_ y [j]) * (c * at_ x [i] - s * at_ y [j]) / sx / sx
              - 0.5 * (s * at_ x [i] + c * at_ y [j]) * (s * at_ x [i] + c * at_ y [j]) / sy / sy)))
        as (k2 & E & Hs2 & Hat & Hother).
      { rewrite Hs1. cbn -[Nat.ltb]. apply Nat.ltb_lt in Hi, Hj. rewrite Hi, Hj. reflexivity. }
      exists k2. split; [exact E|]. split; [congruence|]. split.
      * intros ix iy Hix Hiy. rewrite Hother; [apply Hv1; assumption|].
        intros [= -> ->]. lia.
      * intros iy Hiy. destruct (Nat.eq_dec iy j) as [->|Hne].
        -- rewrite Hat. reflexivity.
        -- rewrite Hother; [apply Hv2; lia|]. intros [= ->]. lia.
    + exists k'. split; [exact Hk'|]. split; [exact Hs'|].
      intros ix iy Hix Hiy. destruct (Nat.eq_dec ix i) as [->|Hne].
      * apply Hv2, Hiy.
      * apply Hv1; [lia | exact Hiy].
  - exists k. auto.
Qed.

Lemma psf_norm_inv (sx sy : R) :
  0 < sx -> 0 < sy -> 1 / psf_norm sx sy = 2 * PI * sx * sy.
Proof.
  intros Hx Hy. unfold psf_norm. pose proof PI_RGT_0. field. nra.
Qed.

Lemma psf_norm_pos (sx sy : R) : 0 < sx -> 0 < sy -> 0 < psf_norm sx sy.
Proof.
  intros Hx Hy. unfold psf_norm. pose proof PI_RGT_0.
  apply Rdiv_lt_0_compat; [lra|].
  apply Rmult_lt_0_compat; [|exact Hy].
  apply Rmult_lt_0_compat; [lra | exact Hx].
Qed.

Lemma arange_centre (n : nat) (d : R) :
  at_ (nd_map (fun a => (a - INR (n / 2)) * d) (arange n)) [(n / 2)%nat] = 0.
Proof. cbn [nd_map arange at_]. ring. Qed.

(** What [getPSF] returns for a two-element [fwhm] and a given angle. *)
Lemma getPSF_spec (nx ny : nat) (fx fy p : R) (pscale : option (R * R)) :
  exists r k,
    getPSF nx ny [fx; fy] (Some p) pscale = Ok r /\
    psf_kernel nx ny (psf_x r) (psf_y r) (psf_sigma fx) (psf_sigma fy)
      (sin (p / 180 * PI - PI / 2)) (cos (p / 180 * PI - PI / 2)) = Ok k /\
    shape (psf r) = [nx; ny] /\
    (forall idx, at_ (psf r) idx = at_ k idx / psf_norm (psf_sigma fx) (psf_sigma fy)) /\
    (forall ix iy, (ix < nx)%nat -> (iy < ny)%nat ->
       at_ k [ix; iy] =
       gauss (psf_x r) (psf_y r) (psf_sigma fx) (psf_sigma fy)
         (sin (p / 180 * PI - PI / 2)) (cos (p / 180 * PI - PI / 2)) ix iy) /\
    at_ (psf_x r) [(nx / 2)%nat] = 0 /\ at_ (psf_y r) [(ny / 2)%nat] = 0.
Proof.
  unfold getPSF.
  set (d := match pscale with Some (dx, dy) => (dx, dy) | None => (1, 1) end).
  destruct d as [dx dy].
  cbn [lookup list_lookup of_option mbind result_bind].
  set (x := nd_map (fun a => (a - INR (nx / 2)) * dx) (arange nx)).
  set (y := nd_map (fun a => (a - INR (ny / 2)) * dy) (arange ny)).
  destruct (psf_kernel_spec nx ny x y (psf_sigma fx) (psf_sigma fy)
              (sin (p / 180 * PI - PI / 2)) (cos (p / 180 * PI - PI / 2)))
    as (k & Hk & Hs & Hv); [reflexivity | reflexivity |].
  rewrite Hk. cbn [mbind result_bind].
  eexists. exists k. split; [reflexivity|]. cbn [psf psf_x psf_y].
  split; [exact Hk|]. split; [exact Hs|]. split; [reflexivity|].
  split; [exact Hv|]. split; apply arange_centre.
Qed.

(** ** getVisibility *)

Lemma in_bounds_2 (i j n m : nat) :
  (i < n)%nat -> (j < m)%nat -> in_bounds [i; j] [n; m] = true.
Proof.
  intros Hi Hj. cbn -[Nat.ltb]. apply Nat.ltb_lt in Hi, Hj.
  rewrite Hi, Hj. reflexivity.
Qed.

Lemma in_bounds_1 (i n : nat) : (i < n)%nat -> in_bounds [i] [n] = true.
Proof.
  intros Hi. cbn -[Nat.ltb]. apply Nat.ltb_lt in Hi. rewrite Hi. reflexivity.
Qed.

Ltac vis_proj :=
  unfold set_u, set_v, set_vis, set_amp, set_phase;
  cbn [v_bl v_pa v_nbl v_wav v_nwav v_u v_v v_vis v_amp v_phase].

Lemma vis_store_spec (nbl nwav ibl iwav : nat) (dum : C) (r : VisRes) :
  vis_shaped nbl nwav r -> (ibl < nbl)%nat -> (iwav < nwav)%nat ->
  exists r', vis_store ibl iwav dum r = Ok r' /\
    vis_shaped nbl nwav r' /\
    (v_bl r' = v_bl r /\ v_pa r' = v_pa r /\ v_nbl r' = v_nbl r /\
     v_wav r' = v_wav r /\ v_nwav r' = v_nwav r /\
     v_u r' = v_u r /\ v_v r' = v_v r) /\
    at_ (v_vis r') [ibl; iwav] = dum /\
    at_ (v_amp r') [ibl; iwav] = amp_of dum /\
    at_ (v_phase r') [ibl; iwav] = phase_of dum (amp_of dum) /\
    forall idx, idx <> [ibl; iwav] ->
      at_ (v_vis r') idx = at_ (v_vis r) idx /\
      at_ (v_amp r') idx = at_ (v_amp r) idx /\
      at_ (v_phase r') idx = at_ (v_phase r) idx.
Proof.
  intros [Su Sv Svis Samp Sph] Hi Hw.
  pose proof (in_bounds_2 ibl iwav nbl nwav Hi Hw) as Hin.
  unfold vis_store.
  destruct (setitem_scalar_At (v_vis r) [ibl; iwav] dum) as (vis & E1 & Hs1 & Ha1 & Ho1);
    [rewrite Svis; exact Hin|].
  cbn [map] in E1. rewrite E1. cbn [mbind result_bind].
  vis_proj.
  destruct (setitem_scalar_At (v_amp r) [ibl; iwav] (amp_of dum)) as (amp & E2 & Hs2 & Ha2 & Ho2);
    [rewrite Samp; exact Hin|].
  cbn [map] in E2. unfold amp_of in E2 at 1. rewrite E2. cbn [mbind result_bind].
  vis_proj.
  rewrite (item_in amp [ibl; iwav]) by (rewrite Hs2, Samp; exact Hin).
  cbn [mbind result_bind]. rewrite Ha2.
  destruct (setitem_scalar_At (v_phase r) [ibl; iwav] (acos (Cre dum / amp_of dum)))
    as (ph & E3 & Hs3 & Ha3 & Ho3); [rewrite Sph; exact Hin|].
  cbn [map] in E3. rewrite E3. cbn [mbind result_bind].
  vis_proj.
  unfold phase_of.
  destruct (Rltb (Cim dum) 0) eqn:Hneg.
  - rewrite (item_in ph [ibl; iwav]) by (rewrite Hs3, Sph; exact Hin).
    cbn [mbind result_bind]. rewrite Ha3.
    destruct (setitem_scalar_At ph [ibl; iwav] (2 * PI - acos (Cre dum / amp_of dum)))
      as (ph2 & E4 & Hs4 & Ha4 & Ho4); [rewrite Hs3, Sph; exact Hin|].
    cbn [map] in E4. rewrite E4. cbn [mbind result_bind].
    eexists. split; [reflexivity|]. cbn.
    split; [split; cbn; congruence|].
    split; [repeat split|].
    split; [exact Ha1|]. split; [exact Ha2|]. split; [exact Ha4|].
    intros idx Hne. rewrite Ho1, Ho2, Ho4, Ho3 by exact Hne. auto.
  - eexists. split; [reflexivity|]. cbn.
    split; [split; cbn; congruence|].
    split; [repeat split|].
    split; [exact Ha1|]. split; [exact Ha2|]. split; [exact Ha3|].
    intros idx Hne. rewrite Ho1, Ho2, Ho3 by exact Hne. auto.
Qed.

Lemma vis_store_rel (nbl nwav ibl iwav : nat) (dum : C) (r r' : VisRes) :
  vis_shaped nbl nwav r -> (ibl < nbl)%nat -> (iwav < nwav)%nat ->
  vis_store ibl iwav dum r = Ok r' ->
  vis_shaped nbl nwav r' /\ v_nbl r' = v_nbl r /\ v_nwav r' = v_nwav r /\
  point_rel r' ibl iwav /\
  forall i j, (i, j) <> (ibl, iwav) -> point_rel r i j -> point_rel r' i j.
Proof.
  intros Hs Hi Hw E.
  destruct (vis_store_spec nbl nwav ibl iwav dum r Hs Hi Hw)
    as (r2 & E2 & Hs2 & (_ & _ & Hn & _ & Hnw & _ & _) & Hv & Ha & Hp & Ho).
  rewrite E in E2. injection E2 as <-.
  split; [exact Hs2|]. split; [exact Hn|]. split; [exact Hnw|].
  split.
  - unfold point_rel. rewrite Hv, Ha, Hp. auto.
  - intros i j Hne [R1 R2]. unfold point_rel.
    destruct (Ho [i; j]) as (O1 & O2 & O3); [intros [= -> ->]; congruence|].
    rewrite O1, O2, O3. auto.
Qed.

Lemma getVisibility_points (self : ImageCube) (bl pa : ndarray R)
    (dpc : option R) (r : VisRes) :
  getVisibility self bl pa dpc = Ok r ->
  exists nbl, shape_at bl 0 = Ok nbl /\
    vis_shaped nbl (nwav self) r /\
    forall ibl iwav, (ibl < nbl)%nat -> (iwav < nwav self)%nat ->
      point_rel r ibl iwav.
Proof.
  unfold getVisibility. intros H.
  bind_split H. rename a into nbl. exists nbl. split; [exact E|].
  bind_name H d Ed. do 4 bind_split H. cbn [v_nwav] in H.
  set (l := nd_map (sky_angle d) (im_x self)) in *.
  set (m := nd_map (sky_angle d) (im_y self)) in *.
  apply (for_range_inv
    (fun k r => (vis_shaped nbl (nwav self) r /\ v_nbl r = nbl) /\
       forall ibl iwav, (ibl < nbl)%nat -> (iwav < k)%nat -> point_rel r ibl iwav))
    in H.
  - destruct H as [[Hs _] Hr]. auto.
  - split; [split; [split; reflexivity | reflexivity]|]. intros; lia.
  - clear H. intros i s s' Hi [[Hs Hn] Hdone] Hstep.
    unfold vis_wavelength in Hstep.
    bind_name Hstep u0 Eu0. bind_name Hstep u Eu.
    bind_name Hstep v0 Ev0. bind_name Hstep v Ev.
    revert Hstep. vis_proj. rewrite Hn. intros Hstep.
    apply setitem_shape in Eu, Ev. revert Ev. vis_proj. intros Ev.
    destruct Hs as [Su Sv Svis Samp Sph].
    apply (for_range_inv
      (fun j t => (vis_shaped nbl (nwav self) t /\ v_nbl t = nbl) /\
         (forall ibl iwav, (ibl < nbl)%nat -> (iwav < i)%nat -> point_rel t ibl iwav) /\
         forall ibl, (ibl < j)%nat -> point_rel t ibl i))
      in Hstep.
    + destruct Hstep as [Hs' [H1 H2]]. split; [exact Hs'|].
      intros ibl iwav Hb Hw. destruct (Nat.eq_dec iwav i) as [->|Hne].
      * apply H2, Hb.
      * apply H1; [exact Hb | lia].
    + split; [split; [split; cbn; congruence | reflexivity]|].
      split; [exact Hdone | intros; lia].
    + clear Hstep. intros j t t' Hj [[Ht Htn] [H1 H2]] Hb.
      unfold vis_baseline in Hb. do 2 bind_split Hb. bind_name Hb dum Edum.
      destruct (vis_store_rel nbl (nwav self) j i dum t t' Ht Hj Hi Hb)
        as (Ht' & Hn' & _ & Hrel & Hother).
      split; [split; [exact Ht' | congruence]|]. split.
      * intros ibl iwav Hbl Hw. apply Hother; [|apply H1; assumption].
        intros [= -> ->]. lia.
      * intros ibl Hbl. destruct (Nat.eq_dec ibl j) as [->|Hne]; [exact Hrel|].
        apply Hother; [|apply H2; lia]. intros [= ->]. congruence.
Qed.

Lemma sum_upto_ext {A} (add : A -> A -> A) (zero : A) (n : nat) (f g : nat -> A) :
  (forall i, (i < n)%nat -> f i = g i) ->
  sum_upto add zero n f = sum_upto add zero n g.
Proof.
  induction n as [|n IH]; intros H; cbn; [reflexivity|].
  rewrite IH, H by (intros; try apply H; lia). reflexivity.
Qed.

Lemma bproj_1 (n i : nat) : (i < n)%nat -> bproj [n] [i] = [i].
Proof. intros H. apply bproj_id, in_bounds_1, H. Qed.

(** The loop over [il] on a three-axis image. *)
Lemma vis_rows_spec (self : ImageCube) (l m : ndarray R) (dl dm : R)
    (ibl iwav : nat) (r : VisRes) (nf : nat) :
  shape (image self) = [nx self; ny self; nf] -> (iwav < nf)%nat ->
  shape l = [nx self] -> shape m = [ny self] ->
  in_bounds [ibl; iwav] (shape (v_u r)) = true ->
  in_bounds [ibl; iwav] (shape (v_v r)) = true ->
  for_range (nx self) (vis_row self l m dl dm ibl iwav r) C0 =
  Ok (dft_sum self l m dl dm (at_ (v_u r) [ibl; iwav]) (at_ (v_v r) [ibl; iwav]) iwav).
Proof.
  intros Him Hw Hl Hm Hu Hv. unfold dft_sum.
  set (term := fun il : nat => Cscale (Cscale _ dl) dm).
  destruct (for_range_total
    (fun k dum => dum = sum_upto Cadd C0 k term)
    (nx self) (vis_row self l m dl dm ibl iwav r) C0) as (z & Hz & ->).
  - reflexivity.
  - intros il dum Hil ->. eexists. split; [|reflexivity].
    unfold vis_row.
    rewrite (item_in _ _ Hu), (item_in _ _ Hv).
    rewrite (item_in l [il]) by (rewrite Hl; apply in_bounds_1, Hil).
    cbn [mbind result_bind].
    rewrite (getitem_Ok (image self) [At il; All; At iwav] [ny self]).
    2:{ rewrite Him. cbn -[Nat.ltb]. apply Nat.ltb_lt in Hil, Hw.
        rewrite Hil, Hw. reflexivity. }
    cbn [mbind result_bind]. unfold nd_zip. cbn [nd_map shape].
    rewrite Hm, broadcast_shapes_refl. cbn [mbind result_bind].
    cbn [sum_upto]. f_equal. f_equal. subst term. cbv beta.
    f_equal. f_equal. unfold nd_sumC. cbn [shape at_ sum_over].
    apply sum_upto_ext. intros j Hj.
    rewrite (bproj_1 (ny self) j Hj). cbn [sub_index]. reflexivity.
  - exact Hz.
Qed.

Lemma broadcast_1d (n k : nat) :
  k = n \/ k = 1%nat -> broadcast_shapes [n] [k] = Some [n].
Proof.
  intros [-> | ->]; [apply broadcast_shapes_refl|].
  unfold broadcast_shapes. cbn. unfold bdim.
  destruct (Nat.eqb_spec n 1) as [->|H]; [reflexivity|].
  cbn. reflexivity.
Qed.

Lemma bproj_pa (k n i : nat) :
  k = n \/ k = 1%nat -> (i < n)%nat -> bproj [k] [i] = [pa_index k i].
Proof.
  intros Hk Hi. unfold bproj, pa_index. cbn. reflexivity.
Qed.

Lemma spatial_frequency_spec (f : R -> R) (self : ImageCube) (r : VisRes)
    (iwav n k : nat) :
  shape (v_bl r) = [n] -> shape (v_pa r) = [k] -> k = n \/ k = 1%nat ->
  shape (wav self) = [nwav self] -> (iwav < nwav self)%nat ->
  exists a, spatial_frequency f self r iwav = Ok a /\ shape a = [n] /\
    forall i, (i < n)%nat ->
      at_ a [i] = at_ (v_bl r) [i] * f (at_ (v_pa r) [pa_index k i]) * 1e6
                  / at_ (wav self) [iwav].
Proof.
  intros Hb Hp Hk Hwv Hw. unfold spatial_frequency, nd_zip.
  cbn [nd_map shape]. rewrite Hb, Hp, (broadcast_1d n k Hk).
  cbn [mbind result_bind].
  rewrite (item_in (wav self) [iwav]) by (rewrite Hwv; apply in_bounds_1, Hw).
  cbn [mbind result_bind]. eexists. split; [reflexivity|].
  split; [reflexivity|]. intros i Hi. cbn [nd_map at_].
  rewrite (bproj_1 n i Hi), (bproj_pa k n i Hk Hi). reflexivity.
Qed.

(** Assignment of a column, [a[:, iwav] = v]. *)
Lemma set_column (a v : ndarray R) (n nw iwav : nat) :
  shape a = [n; nw] -> shape v = [n] -> (iwav < nw)%nat ->
  exists a', setitem a [All; At iwav] v = Ok a' /\ shape a' = [n; nw] /\
    (forall i, (i < n)%nat -> at_ a' [i; iwav] = at_ v [i]) /\
    (forall i j, j <> iwav -> at_ a' [i; j] = at_ a [i; j]).
Proof.
  intros Ha Hv Hw.
  destruct (setitem_same a v [All; At iwav] [n]) as (a' & E & Hs & Hsel & Hoth).
  - rewrite Ha. cbn -[Nat.ltb]. apply Nat.ltb_lt in Hw. rewrite Hw. reflexivity.
  - exact Hv.
  - exists a'. split; [exact E|]. split; [congruence|]. split.
    + intros i Hi. rewrite Hsel; [reflexivity | |].
      * rewrite Ha. apply in_bounds_2; assumption.
      * cbn. rewrite Nat.eqb_refl. reflexivity.
    + intros i j Hne. apply Hoth. cbn.
      destruct (Nat.eqb_spec iwav j); [congruence | reflexivity].
Qed.

Section visibility_run.
Variables (self : ImageCube) (bl pa : ndarray R) (d : R) (n k : nat).
Hypothesis Hlay : loader_layout self.
Hypothesis Hst : stokes self = false.
Hypothesis Hnx : (2 <= nx self)%nat.
Hypothesis Hny : (2 <= ny self)%nat.
Hypothesis Hbl : shape bl = [n].
Hypothesis Hpa : shape pa = [k].
Hypothesis Hk : k = n \/ k = 1%nat.

Let l := nd_map (sky_angle d) (im_x self).
Let m := nd_map (sky_angle d) (im_y self).
Let dl := at_ l [1%nat] - at_ l [0%nat].
Let dm := at_ m [1%nat] - at_ m [0%nat].

Let u_val (ibl iwav : nat) : R :=
  at_ bl [ibl] * cos (at_ pa [pa_index k ibl]) * 1e6 / at_ (wav self) [iwav].
Let v_val (ibl iwav : nat) : R :=
  at_ bl [ibl] * sin (at_ pa [pa_index k ibl]) * 1e6 / at_ (wav self) [iwav].

Let header (r : VisRes) : Prop :=
  v_bl r = bl /\ v_pa r = pa /\ v_nbl r = n /\ vis_shaped n (nwav self) r.

Let uv_ok (r : VisRes) (ibl iwav : nat) : Prop :=
  at_ (v_u r) [ibl; iwav] = u_val ibl iwav /\
  at_ (v_v r) [ibl; iwav] = v_val ibl iwav.

Let vis_ok (r : VisRes) (ibl iwav : nat) : Prop :=
  at_ (v_vis r) [ibl; iwav] =
  dft_sum self l m dl dm (u_val ibl iwav) (v_val ibl iwav) iwav.

Lemma vis_baseline_run (iwav ibl : nat) (r : VisRes) :
  (iwav < nwav self)%nat -> (ibl < n)%nat ->
  header r -> uv_ok r ibl iwav ->
  exists r', vis_baseline self l m dl dm iwav ibl r = Ok r' /\
    header r' /\ v_u r' = v_u r /\ v_v r' = v_v r /\
    vis_ok r' ibl iwav /\
    forall idx, idx <> [ibl; iwav] -> at_ (v_vis r') idx = at_ (v_vis r) idx.
Proof using All.
  intros Hw Hi (Hb & Hp & Hn & Hs) [Hu Hv].
  destruct Hlay as [Lim Lx Ly Lw Lnw]. rewrite Hst in Lim.
  unfold vis_baseline, shape_at, len_.
  rewrite Lim. cbn [lookup list_lookup of_option mbind result_bind].
  assert (Sl : shape l = [nx self]) by exact Lx.
  rewrite Sl. cbn [mbind result_bind].
  rewrite (vis_rows_spec self l m dl dm ibl iwav r (nfreq self)); cycle 1.
  { exact Lim. } { lia. } { exact Lx. } { exact Ly. }
  { rewrite (vs_u _ _ _ Hs). apply in_bounds_2; assumption. }
  { rewrite (vs_v _ _ _ Hs). apply in_bounds_2; assumption. }
  cbn [mbind result_bind]. rewrite Hu, Hv.
  destruct (vis_store_spec n (nwav self) ibl iwav
              (dft_sum self l m dl dm (u_val ibl iwav) (v_val ibl iwav) iwav)
              r Hs Hi Hw)
    as (r' & E & Hs' & (F1 & F2 & F3 & _ & _ & F6 & F7) & Hvis & _ & _ & Hoth).
  exists r'. split; [exact E|].
  split; [unfold header;
          split; [congruence | split; [congruence | split; [congruence | exact Hs']]]|].
  split; [exact F6|]. split; [exact F7|]. split; [exact Hvis|].
  intros idx Hne. apply Hoth, Hne.
Qed.

Lemma vis_wavelength_run (iwav : nat) (r : VisRes) :
  (iwav < nwav self)%nat ->
  header r ->
  (forall ibl j, (ibl < n)%nat -> (j < iwav)%nat -> uv_ok r ibl j /\ vis_ok r ibl j) ->
  exists r', vis_wavelength self l m dl dm iwav r = Ok r' /\
    header r' /\
    forall ibl j, (ibl < n)%nat -> (j < S iwav)%nat -> uv_ok r' ibl j /\ vis_ok r' ibl j.
Proof using All.
  intros Hw (Hb & Hp & Hn & Hs) Hdone.
  pose proof (lay_wav _ Hlay) as Lw.
  unfold vis_wavelength.
  destruct (spatial_frequency_spec cos self r iwav n k) as (u0 & -> & Su0 & Vu0);
    try congruence.
  cbn [mbind result_bind].
  destruct (set_column (v_u r) u0 n (nwav self) iwav (vs_u _ _ _ Hs) Su0 Hw)
    as (u & -> & Su & Vu & Ou).
  cbn [mbind result_bind].
  destruct (spatial_frequency_spec sin self (set_u r u) iwav n k) as (v0 & -> & Sv0 & Vv0);
    try (vis_proj; congruence).
  cbn [mbind result_bind]. revert Vv0. vis_proj. intros Vv0.
  destruct (set_column (v_v r) v0 n (nwav self) iwav (vs_v _ _ _ Hs) Sv0 Hw)
    as (v & -> & Sv & Vv & Ov).
  cbn [mbind result_bind]. rewrite Hn.
  set (r0 := {| v_bl := v_bl r; v_pa := v_pa r; v_nbl := n; v_wav := v_wav r;
                v_nwav := v_nwav r; v_u := u; v_v := v; v_vis := v_vis r;
                v_amp := v_amp r; v_phase := v_phase r |}).
  assert (H0 : header r0).
  { unfold header, r0. cbn. repeat split; try assumption; apply Hs. }
  assert (Huv : forall t, v_u t = u -> v_v t = v ->
            forall ibl j, (ibl < n)%nat -> (j < S iwav)%nat -> uv_ok t ibl j).
  { intros t Etu Etv ibl j Hi Hj. unfold uv_ok. rewrite Etu, Etv.
    destruct (Nat.eq_dec j iwav) as [->|Hne].
    - rewrite Vu, Vv, Vu0, Vv0 by assumption. rewrite Hb, Hp. split; reflexivity.
    - rewrite Ou, Ov by assumption. apply Hdone; [exact Hi | lia]. }
  destruct (for_range_total
    (fun j t => header t /\ v_u t = u /\ v_v t = v /\
       (forall ibl jw, (ibl < n)%nat -> (jw < iwav)%nat -> vis_ok t ibl jw) /\
       forall ibl, (ibl < j)%nat -> vis_ok t ibl iwav)
    n (vis_baseline self l m dl dm iwav) r0) as (r' & E & Hh & Eu & Ev & H1 & H2).
  - split; [exact H0|]. split; [reflexivity|]. split; [reflexivity|].
    split; [|intros; lia]. intros ibl jw Hi Hj. apply Hdone; assumption.
  - intros j t Hj (Hh & Eu & Ev & H1 & H2).
    destruct (vis_baseline_run iwav j t Hw Hj Hh) as (t' & E & Hh' & Eu' & Ev' & Hv & Ho).
    { apply Huv; [assumption | assumption | exact Hj | lia]. }
    exists t'. split; [exact E|]. split; [exact Hh'|].
    split; [congruence|]. split; [congruence|]. split.
    + intros ibl jw Hi Hjw. unfold vis_ok. rewrite Ho; [apply H1; assumption|].
      intros [= -> ->]. lia.
    + intros ibl Hi. destruct (Nat.eq_dec ibl j) as [->|Hne]; [exact Hv|].
      unfold vis_ok. rewrite Ho; [apply H2; lia|]. intros [= ->]. congruence.
  - exists r'. split; [exact E|]. split; [exact Hh|].
    intros ibl j Hi Hj. split; [apply Huv; assumption|].
    destruct (Nat.eq_dec j iwav) as [->|Hne]; [apply H2, Hi|].
    apply H1; [exact Hi | lia].
Qed.

(** On a loaded total-intensity cube with at least two pixels per axis,
    [getVisibility] returns for one-dimensional [bl] and [pa] of equal
    length (or a single position angle), whatever the distance. *)
Lemma getVisibility_run :
  exists r, getVisibility self bl pa (Some d) = Ok r /\
    vis_shaped n (nwav self) r /\
    forall ibl iwav, (ibl < n)%nat -> (iwav < nwav self)%nat ->
      at_ (v_u r) [ibl; iwav] = u_val ibl iwav /\
      at_ (v_v r) [ibl; iwav] = v_val ibl iwav /\
      at_ (v_vis r) [ibl; iwav] =
        dft_sum self l m dl dm (u_val ibl iwav) (v_val ibl iwav) iwav.
Proof using All.
  unfold getVisibility, shape_at. rewrite Hbl.
  cbn [lookup list_lookup of_option mbind result_bind v_nwav].
  fold l m.
  assert (Sl : shape l = [nx self]) by exact (lay_x _ Hlay).
  assert (Sm : shape m = [ny self]) by exact (lay_y _ Hlay).
  rewrite (item_in l [1%nat]), (item_in l [0%nat]),
          (item_in m [1%nat]), (item_in m [0%nat]);
    try (rewrite ?Sl, ?Sm; apply in_bounds_1; lia).
  cbn [mbind result_bind]. fold dl dm.
  destruct (for_range_total
    (fun i r => header r /\
       forall ibl j, (ibl < n)%nat -> (j < i)%nat -> uv_ok r ibl j /\ vis_ok r ibl j)
    (nwav self) (vis_wavelength self l m dl dm)
    {| v_bl := bl; v_pa := pa; v_nbl := n; v_wav := wav self;
       v_nwav := nwav self; v_u := full 0 [n; nwav self];
       v_v := full 0 [n; nwav self]; v_vis := full C0 [n; nwav self];
       v_amp := full 0 [n; nwav self]; v_phase := full 0 [n; nwav self] |})
    as (r & E & Hh & Hv).
  - split; [|intros; lia]. unfold header. cbn. repeat split.
  - intros i r Hi [Hh Hdone]. apply vis_wavelength_run; assumption.
  - exists r. split; [exact E|]. split; [apply Hh|].
    intros ibl iwav Hi Hw. destruct (Hv ibl iwav Hi Hw) as [[Hu Hvv] Hvis].
    auto.
Qed.
End visibility_run.

(** ** Zero baselines *)

Lemma phase_factor_0 : phase_factor 0 = (1, 0).
Proof.
  unfold phase_factor, Cadd, Cmul, RtoC, imu, Cre, Cim. cbn [fst snd].
  rewrite cos_0, sin_0. f_equal; lra.
Qed.

Lemma Csum_real (n : nat) (f : nat -> R) :
  sum_upto Cadd C0 n (fun i => (f i, 0)) = (sum_upto Rplus 0 n f, 0).
Proof.
  induction n as [|n IH]; cbn [sum_upto]; [reflexivity|].
  rewrite IH. unfold Cadd, Cre, Cim. cbn [fst snd]. f_equal. lra.
Qed.

Lemma sum_upto_scale (n : nat) (f : nat -> R) (c : R) :
  sum_upto Rplus 0 n (fun i => f i * c) = sum_upto Rplus 0 n f * c.
Proof.
  induction n as [|n IH]; cbn [sum_upto]; [lra|]. rewrite IH. lra.
Qed.

Lemma dft_sum_zero (self : ImageCube) (l m : ndarray R) (dl dm : R) (iwav : nat) :
  dft_sum self l m dl dm 0 0 iwav = (total_flux self dl dm iwav, 0).
Proof.
  unfold dft_sum, total_flux.
  rewrite (sum_upto_ext Cadd C0 (nx self) _
    (fun il => (sum_upto Rplus 0 (ny self)
                  (fun j => at_ (image self) [il; j; iwav]) * dl * dm, 0))).
  - rewrite Csum_real. f_equal.
    rewrite <- sum_upto_scale, <- sum_upto_scale. reflexivity.
  - intros il _.
    rewrite (sum_upto_ext Cadd C0 (ny self) _
      (fun j => (at_ (image self) [il; j; iwav], 0))).
    + rewrite Csum_real. unfold Cscale, Cre, Cim. cbn [fst snd]. f_equal. lra.
    + intros j _.
      replace (2 * PI * (0 * at_ l [il] + 0 * at_ m [j])) with 0 by lra.
      rewrite phase_factor_0. unfold Cmul, RtoC, Cre, Cim. cbn [fst snd].
      f_equal; lra.
Qed.

Lemma amp_of_real_pos (a : R) : 0 < a -> amp_of (a, 0) = a.
Proof.
  intros Ha. unfold amp_of. rewrite amplitude_modulus.
  unfold Cre, Cim. cbn [fst snd].
  replace (a ^ 2 + 0 ^ 2) with (a * a) by lra.
  apply sqrt_square. lra.
Qed.

Lemma phase_of_real_pos (a : R) : 0 < a -> phase_of (a, 0) a = 0.
Proof.
  intros Ha. unfold phase_of, Rltb, Cre, Cim. cbn [fst snd].
  rewrite bool_decide_eq_false_2 by lra.
  replace (a / a) with 1 by (field; lra). apply acos_1.
Qed.

Lemma sky_angle_step (d a b : R) :
  0 < d -> a < b -> 0 < sky_angle d b - sky_angle d a.
Proof.
  intros Hd Hab. unfold sky_angle.
  replace (b / 1.496e13 / d / 3600 / 180 * PI - a / 1.496e13 / d / 3600 / 180 * PI)
    with ((b - a) * (PI / (1.496e13 * d * 3600 * 180))).
  - apply Rmult_lt_0_compat; [lra|].
    apply Rdiv_lt_0_compat; [apply PI_RGT_0|].
    assert (H1 : 0 < 1.496e13) by lra. set (c := 1.496e13) in *. clearbody c.
    assert (0 < c * d) by (apply Rmult_lt_0_compat; lra). lra.
  - assert (H1 : 1.496e13 <> 0) by lra. set (c := 1.496e13) in *. clearbody c.
    field. split; [exact H1 | lra].
Qed.

(** A run on baselines that are all of length zero. *)
Lemma zero_baseline_run (self : ImageCube) (bl pa : ndarray R) (d : R) (n k : nat) :
  loader_layout self -> stokes self = false ->
  (2 <= nx self)%nat -> (2 <= ny self)%nat ->
  shape bl = [n] -> shape pa = [k] -> k = n \/ k = 1%nat ->
  (forall i, at_ bl [i] = 0) ->
  let dl := sky_angle d (at_ (im_x self) [1%nat]) - sky_angle d (at_ (im_x self) [0%nat]) in
  let dm := sky_angle d (at_ (im_y self) [1%nat]) - sky_angle d (at_ (im_y self) [0%nat]) in
  (forall iwav, (iwav < nwav self)%nat -> 0 < total_flux self dl dm iwav) ->
  exists r, getVisibility self bl pa (Some d) = Ok r /\
    vis_shaped n (nwav self) r /\
    forall ibl iwav, (ibl < n)%nat -> (iwav < nwav self)%nat ->
      at_ (v_u r) [ibl; iwav] = 0 /\
      at_ (v_v r) [ibl; iwav] = 0 /\
      at_ (v_vis r) [ibl; iwav] = (total_flux self dl dm iwav, 0) /\
      at_ (v_amp r) [ibl; iwav] = total_flux self dl dm iwav /\
      at_ (v_phase r) [ibl; iwav] = 0.
Proof.
  intros Hlay Hst Hnx Hny Hbl Hpa Hk Hz dl dm Hflux.
  destruct (getVisibility_run self bl pa d n k Hlay Hst Hnx Hny Hbl Hpa Hk)
    as (r & E & Hs & Hv).
  exists r. split; [exact E|]. split; [exact Hs|].
  destruct (getVisibility_points self bl pa (Some d) r E) as (n' & En & _ & Hrel).
  unfold shape_at in En. rewrite Hbl in En. cbn in En. injection En as <-.
  intros ibl iwav Hi Hw.
  destruct (Hv ibl iwav Hi Hw) as (Hu & Hvv & Hvis).
  rewrite Hz in Hu, Hvv, Hvis.
  assert (Hu0 : at_ (v_u r) [ibl; iwav] = 0) by (rewrite Hu; unfold Rdiv; ring).
  assert (Hv0 : at_ (v_v r) [ibl; iwav] = 0) by (rewrite Hvv; unfold Rdiv; ring).
  assert (Hvis0 : at_ (v_vis r) [ibl; iwav] = (total_flux self dl dm iwav, 0)).
  { rewrite Hvis.
    replace (0 * cos (at_ pa [pa_index k ibl]) * 1e6 / at_ (wav self) [iwav])
      with 0 by (unfold Rdiv; ring).
    replace (0 * sin (at_ pa [pa_index k ibl]) * 1e6 / at_ (wav self) [iwav])
      with 0 by (unfold Rdiv; ring).
    apply dft_sum_zero. }
  destruct (Hrel ibl iwav Hi Hw) as [Ha Hp].
  rewrite Hvis0 in Ha, Hp.
  rewrite amp_of_real_pos in Ha, Hp by (apply Hflux, Hw).
  rewrite phase_of_real_pos in Hp by (apply Hflux, Hw).
  auto.
Qed.

(** ** The uniform cube *)

Lemma uniform_cube_layout (w : R) : loader_layout (uniform_cube w).
Proof. split; reflexivity. Qed.

Lemma uniform_cube_x (w : R) :
  at_ (im_x (uniform_cube w)) [0%nat] < at_ (im_x (uniform_cube w)) [1%nat].
Proof.
  cbn [uniform_cube im_x nd_map arange at_].
  change (4 / 2)%nat with 2%nat. cbn [INR]. lra.
Qed.

Lemma uniform_cube_y (w : R) :
  at_ (im_y (uniform_cube w)) [0%nat] < at_ (im_y (uniform_cube w)) [1%nat].
Proof. exact (uniform_cube_x w). Qed.

Lemma uniform_cube_flux (w dl dm : R) :
  total_flux (uniform_cube w) dl dm 0 = 16 * dl * dm.
Proof. unfold total_flux. cbn. lra. Qed.

Lemma uniform_cube_intensity (w : R) (iwav : nat) :
  0 < sum_upto Rplus 0 (nx (uniform_cube w)) (fun il =>
        sum_upto Rplus 0 (ny (uniform_cube w)) (fun j =>
          at_ (image (uniform_cube w)) [il; j; iwav])).
Proof. cbn. lra. Qed.


Lemma column_cube_layout : loader_layout column_cube.
Proof. split; reflexivity. Qed.

(** With the visibility routine reached through its real name, the
    degenerate triangle on the uniform cube has closure phase 0. *)
Lemma closure_phase_resolved (w p0 p1 p2 d : R) :
  0 < d ->
  exists res,
    getClosurePhase_via "getVisibility" (uniform_cube w)
      (array2 3 [[0; 0; 0]]) (array2 3 [[p0; p1; p2]]) (Some d) = Ok res /\
    at_ (c_cp res) [0%nat; 0%nat] = 0.
Proof.
  intros Hd.
  set (tbl := NdArray [3%nat] (fun idx =>
                at_ (array2 3 [[0; 0; 0]]) (sub_index [At 0; All] idx))).
  set (tpa := NdArray [3%nat] (fun idx =>
                at_ (array2 3 [[p0; p1; p2]]) (sub_index [At 0; All] idx))).
  destruct (zero_baseline_run (uniform_cube w) tbl tpa d 3 3) as (r & E & Hs & Hv).
  - apply uniform_cube_layout.
  - reflexivity.
  - cbn; lia.
  - cbn; lia.
  - reflexivity.
  - reflexivity.
  - left; reflexivity.
  - intros i. subst tbl. cbn [at_ sub_index array2 nth].
    destruct i as [|[|[|[|i]]]]; reflexivity.
  - intros iwav Hw. cbn [uniform_cube nwav] in Hw.
    replace iwav with 0%nat by lia. rewrite uniform_cube_flux.
    pose proof (sky_angle_step d _ _ Hd (uniform_cube_x w)).
    pose proof (sky_angle_step d _ _ Hd (uniform_cube_y w)).
    nra.
  - set (res0 := {| c_bl := array2 3 [[0; 0; 0]]; c_pa := array2 3 [[p0; p1; p2]];
        c_ntri := 1; c_nbl := 3; c_nwav := 1; c_wav := wav (uniform_cube w);
        c_u := full 0 [1%nat; 3%nat; 1%nat]; c_v := full 0 [1%nat; 3%nat; 1%nat];
        c_vis := full C0 [1%nat; 3%nat; 1%nat];
        c_amp := full 0 [1%nat; 3%nat; 1%nat];
        c_phase := full 0 [1%nat; 3%nat; 1%nat];
        c_cp := full 0 [1%nat; 1%nat] |}).
    destruct (closure_store_cp 0 1 1 r res0) as (res & Eres & Hcp).
    + lia.
    + exact Hs.
    + split; reflexivity.
    + exists res. split.
      * unfold getClosurePhase_via.
        change (shape_at (array2 3 [[0; 0; 0]]) 0) with (Ok (A:=nat) 1%nat).
        cbn [mbind result_bind of_option].
        change (item _ [1%nat]) with
          (Ok (at_ (nd_map (sky_angle d) (im_x (uniform_cube w))) [1%nat])).
        cbn [mbind result_bind].
        change (item _ [0%nat]) with
          (Ok (at_ (nd_map (sky_angle d) (im_x (uniform_cube w))) [0%nat])).
        cbn [mbind result_bind].
        change (for_range (c_ntri _) ?b ?s) with (for_range 1 b res0).
        rewrite for_range_S, for_range_0. cbn [mbind result_bind].
        unfold closure_triangle.
        change (radmc3dImage_getattr "getVisibility")
          with (Ok (A:=visibility_routine) getVisibility).
        cbn [mbind result_bind].
        change (getitem (c_bl res0) [At 0; All]) with (Ok tbl).
        change (getitem (c_pa res0) [At 0; All]) with (Ok tpa).
        cbn [mbind result_bind]. rewrite E. cbn [mbind result_bind].
        exact Eres.
      * rewrite (Hcp 0%nat) by lia.
        destruct (Hv 0%nat 0%nat) as (_ & _ & _ & _ & H0); [lia | cbn; lia |].
        destruct (Hv 1%nat 0%nat) as (_ & _ & _ & _ & H1); [lia | cbn; lia |].
        destruct (Hv 2%nat 0%nat) as (_ & _ & _ & _ & H2); [lia | cbn; lia |].
        rewrite H0, H1, H2. unfold spec_closure_phase. cbv zeta.
        replace ((0 + 0 + 0) / PI * 180) with 0 by (unfold Rdiv; ring).
        rewrite pymod_small by lra. case_bool_decide; lra.
Qed.

(** ** Sequences of different lengths *)

Lemma vis_wavelength_mismatch (self : ImageCube) (l m : ndarray R) (dl dm : R)
    (iwav n k : nat) (r : VisRes) :
  shape (v_bl r) = [n] -> shape (v_pa r) = [k] ->
  k <> n -> k <> 1%nat ->
  shape (wav self) = [nwav self] -> (iwav < nwav self)%nat ->
  shape (v_u r) = [n; nwav self] ->
  vis_wavelength self l m dl dm iwav r = Err ValueError.
Proof.
  intros Hb Hp Hkn Hk1 Hwv Hw Hu.
  unfold vis_wavelength, spatial_frequency, nd_zip. cbn [nd_map shape].
  rewrite Hb, Hp. unfold broadcast_shapes. cbn [rev app bshape_rev]. unfold bdim.
  destruct (Nat.eqb_spec n k) as [->|_]; [congruence|].
  destruct (Nat.eqb_spec k 1) as [->|_]; [congruence|].
  destruct (Nat.eqb_spec n 1) as [->|Hn1]; [|reflexivity].
  cbn [rev app mbind result_bind].
  rewrite (item_in (wav self) [iwav]) by (rewrite Hwv; apply in_bounds_1, Hw).
  cbn [mbind result_bind]. unfold setitem. rewrite Hu.
  cbn -[Nat.ltb assignable]. apply Nat.ltb_lt in Hw. rewrite Hw.
  cbn [mbind result_bind nd_map shape].
  unfold assignable. cbn [length Nat.sub strip_leading_ones Nat.leb andb].
  unfold broadcast_shapes. cbn [rev app bshape_rev]. unfold bdim.
  destruct (Nat.eqb_spec k 1) as [->|_]; [congruence|].
  cbn [rev app Nat.eqb]. rewrite bool_decide_eq_false_2 by congruence.
  reflexivity.
Qed.

Lemma getVisibility_mismatch (self : ImageCube) (bl pa : ndarray R) (d : R)
    (n k : nat) :
  loader_layout self -> (2 <= nx self)%nat -> (2 <= ny self)%nat ->
  shape bl = [n] -> shape pa = [k] ->
  k <> n -> k <> 1%nat -> (0 < nwav self)%nat ->
  getVisibility self bl pa (Some d) = Err ValueError.
Proof.
  intros Hlay Hnx Hny Hbl Hpa Hkn Hk1 Hnw.
  unfold getVisibility, shape_at. rewrite Hbl.
  cbn [lookup list_lookup of_option mbind result_bind v_nwav].
  set (l := nd_map (sky_angle d) (im_x self)).
  set (m := nd_map (sky_angle d) (im_y self)).
  assert (Sl : shape l = [nx self]) by exact (lay_x _ Hlay).
  assert (Sm : shape m = [ny self]) by exact (lay_y _ Hlay).
  rewrite (item_in l [1%nat]), (item_in l [0%nat]),
          (item_in m [1%nat]), (item_in m [0%nat]);
    try (rewrite ?Sl, ?Sm; apply in_bounds_1; lia).
  cbn [mbind result_bind].
  apply (for_range_fails
    (fun _ r => shape (v_bl r) = [n] /\ shape (v_pa r) = [k] /\
                shape (v_u r) = [n; nwav self]) _ 0).
  - exact Hnw.
  - cbn. auto.
  - intros; lia.
  - intros r (Hb & Hp & Hu).
    apply (vis_wavelength_mismatch self l m _ _ 0 n k r); try assumption.
    apply (lay_wav _ Hlay).
Qed.

Lemma getVisibility_no_wavelength (self : ImageCube) (bl pa : ndarray R) (d : R)
    (n : nat) :
  loader_layout self -> (2 <= nx self)%nat -> (2 <= ny self)%nat ->
  shape bl = [n] -> nwav self = 0%nat ->
  exists r, getVisibility self bl pa (Some d) = Ok r.
Proof.
  intros Hlay Hnx Hny Hbl Hnw.
  unfold getVisibility, shape_at. rewrite Hbl.
  cbn [lookup list_lookup of_option mbind result_bind v_nwav].
  set (l := nd_map (sky_angle d) (im_x self)).
  set (m := nd_map (sky_angle d) (im_y self)).
  assert (Sl : shape l = [nx self]) by exact (lay_x _ Hlay).
  assert (Sm : shape m = [ny self]) by exact (lay_y _ Hlay).
  rewrite (item_in l [1%nat]), (item_in l [0%nat]),
          (item_in m [1%nat]), (item_in m [0%nat]);
    try (rewrite ?Sl, ?Sm; apply in_bounds_1; lia).
  cbn [mbind result_bind]. rewrite Hnw. eexists. reflexivity.
Qed.

(** ** The store and deepcopy *)

Lemma alloc_spec (v : pyobj) (h : heap) :
  ((alloc v h).1 ∉ dom h) /\ (alloc v h).2 = <[(alloc v h).1 := v]> h.
Proof. unfold alloc. cbn. split; [apply is_fresh | reflexivity]. Qed.

Lemma alloc_fresh_lookup (v : pyobj) (h : heap) : h !! (alloc v h).1 = None.
Proof. apply not_elem_of_dom. apply alloc_spec. Qed.

Lemma copy_inv_init (h : heap) : copy_inv h (∅, h).
Proof.
  split; [reflexivity|]. intros l l' H. cbn in H. rewrite lookup_empty in H.
  discriminate.
Qed.

Lemma copy_ref_inv (h0 : heap) (l l' : loc) (st st' : gmap loc loc * heap) :
  copy_inv h0 st ->
  copy_ref l st = Ok (l', st') ->
  copy_inv h0 st' /\ st.2 ⊆ st'.2 /\
  (l' ∉ dom h0) /\ is_Some (st'.2 !! l') /\
  forall v, h0 !! l = Some v -> st'.2 !! l' = Some v.
Proof.
  intros [Hsub Hmemo] H. unfold copy_ref in H.
  destruct (st.1 !! l) as [l1|] eqn:Em.
  - injection H as <- <-.
    destruct (Hmemo l l1 Em) as (Hf & Hs & Hv).
    split; [split; assumption|]. split; [reflexivity|]. auto.
  - destruct (st.2 !! l) as [v1|] eqn:El; [|discriminate].
    assert (Hnew : st.2 !! fresh (dom st.2) = None)
      by (apply not_elem_of_dom, is_fresh).
    assert (Hv1 : l' = fresh (dom st.2) /\
                  st' = (<[l := fresh (dom st.2)]> st.1, <[fresh (dom st.2) := v1]> st.2)).
    { destruct v1; cbn in H; try discriminate; injection H as <- <-; auto. }
    destruct Hv1 as [-> ->]. clear H. cbn [fst snd].
    assert (Hgrow : st.2 ⊆ <[fresh (dom st.2) := v1]> st.2)
      by (apply insert_subseteq, Hnew).
    assert (Hf0 : fresh (dom st.2) ∉ dom h0).
    { intros Hin. apply elem_of_dom in Hin as [v Hv].
      pose proof (lookup_weaken _ _ _ _ Hv Hsub) as Hv'. congruence. }
    split; [split|].
    + etransitivity; eassumption.
    + intros l2 l2' Hl2. cbn [fst snd] in Hl2 |- *.
      destruct (decide (l = l2)) as [->|Hne].
      * rewrite lookup_insert_eq in Hl2. injection Hl2 as <-.
        split; [exact Hf0|]. rewrite lookup_insert_eq.
        split; [eauto|]. intros v Hv.
        pose proof (lookup_weaken _ _ _ _ Hv Hsub). congruence.
      * rewrite lookup_insert_ne in Hl2 by exact Hne.
        destruct (Hmemo l2 l2' Hl2) as (Hf & [v2 Hs] & Hv).
        split; [exact Hf|].
        split; [exists v2; eapply lookup_weaken; eassumption|].
        intros v Hh0. eapply lookup_weaken; [apply Hv, Hh0 | exact Hgrow].
    + split; [exact Hgrow|]. split; [exact Hf0|].
      rewrite lookup_insert_eq. split; [eauto|].
      intros v Hv. pose proof (lookup_weaken _ _ _ _ Hv Hsub). congruence.
Qed.

Lemma copy_ref_total (h0 : heap) (l : loc) (st : gmap loc loc * heap) (v : pyobj) :
  copy_inv h0 st ->
  h0 !! l = Some v -> (forall o, v <> ObjImage o) ->
  exists l' st', copy_ref l st = Ok (l', st').
Proof.
  intros [Hsub _] Hv Hni. unfold copy_ref.
  destruct (st.1 !! l); [eauto|].
  rewrite (lookup_weaken _ _ _ _ Hv Hsub).
  destruct v; try (eexists _, _; reflexivity).
  exfalso. eapply Hni. reflexivity.
Qed.

(** One step of [deepcopy], in a form that chains. *)
Lemma copy_ref_step (h0 : heap) (l l' : loc) (st st' : gmap loc loc * heap) :
  copy_inv h0 st ->
  copy_ref l st = Ok (l', st') ->
  copy_inv h0 st' /\ st.2 ⊆ st'.2 /\
  (l' ∉ dom h0) /\
  forall hf, st'.2 ⊆ hf ->
    is_Some (hf !! l') /\ forall v, h0 !! l = Some v -> hf !! l' = Some v.
Proof.
  intros Hi H.
  destruct (copy_ref_inv h0 l l' st st' Hi H) as (Hi' & Hg & Hf & [v0 Hs] & Hv).
  split; [exact Hi'|]. split; [exact Hg|]. split; [exact Hf|].
  intros hf Hsub. split.
  - exists v0. eapply lookup_weaken; eassumption.
  - intros v Hl. eapply lookup_weaken; [apply Hv, Hl | exact Hsub].
Qed.

Lemma deepcopy_inv (self res : loc) (h h' : heap) :
  deepcopy self h = Ok (res, h') ->
  exists o o',
    h !! self = Some (ObjImage o) /\
    h ⊆ h' /\
    h' !! res = Some (ObjImage o') /\
    same_scalars o o' /\ o_pa o' = o_pa o /\ o_dpc o' = o_dpc o /\
    Forall (fun l => l ∉ dom h) (cube_locs res o') /\
    Forall (fun f : radmc3dImage -> loc =>
              f o' <> res /\ is_Some (h' !! f o') /\
              forall v, h !! f o = Some v -> h' !! f o' = Some v) ref_fields.
Proof.
  unfold deepcopy. intros H.
  bind_name H o Eo.
  assert (Hself : h !! self = Some (ObjImage o)).
  { unfold read_image in Eo. destruct (h !! self) as [[]|]; try discriminate.
    injection Eo as ->. reflexivity. }
  bind_name H p1 E1. destruct p1 as [l1 st1].
  bind_name H p2 E2. destruct p2 as [l2 st2].
  bind_name H p3 E3. destruct p3 as [l3 st3].
  bind_name H p4 E4. destruct p4 as [l4 st4].
  bind_name H p5 E5. destruct p5 as [l5 st5].
  bind_name H p6 E6. destruct p6 as [l6 st6].
  bind_name H p7 E7. destruct p7 as [l7 st7].
  bind_name H p8 E8. destruct p8 as [l8 st8].
  destruct (copy_ref_step h _ _ _ _ (copy_inv_init h) E1) as (I1 & G1 & F1 & V1).
  destruct (copy_ref_step h _ _ _ _ I1 E2) as (I2 & G2 & F2 & V2).
  destruct (copy_ref_step h _ _ _ _ I2 E3) as (I3 & G3 & F3 & V3).
  destruct (copy_ref_step h _ _ _ _ I3 E4) as (I4 & G4 & F4 & V4).
  destruct (copy_ref_step h _ _ _ _ I4 E5) as (I5 & G5 & F5 & V5).
  destruct (copy_ref_step h _ _ _ _ I5 E6) as (I6 & G6 & F6 & V6).
  destruct (copy_ref_step h _ _ _ _ I6 E7) as (I7 & G7 & F7 & V7).
  destruct (copy_ref_step h _ _ _ _ I7 E8) as (I8 & G8 & F8 & V8).
  cbn [fst snd] in *.
  injection H as <- <-.
  set (hf := st8.2) in *.
  set (r := fresh (dom hf)).
  assert (Hr : hf !! r = None) by (apply not_elem_of_dom, is_fresh).
  assert (Hlast : hf ⊆ <[r := ObjImage
              {| o_image := l1; o_imageJyppix := l2; o_x := l3; o_y := l4;
                 o_nx := o_nx o; o_ny := o_ny o; o_sizepix_x := o_sizepix_x o;
                 o_sizepix_y := o_sizepix_y o; o_nfreq := o_nfreq o;
                 o_freq := l5; o_nwav := o_nwav o; o_wav := l6;
                 o_stokes := o_stokes o; o_psf := l7; o_fwhm := l8;
                 o_pa := o_pa o; o_dpc := o_dpc o |}]> hf)
    by (apply insert_subseteq, Hr).
  assert (S7 : st7.2 ⊆ hf) by exact G8.
  assert (S6 : st6.2 ⊆ hf) by (etransitivity; eassumption).
  assert (S5 : st5.2 ⊆ hf) by (etransitivity; eassumption).
  assert (S4 : st4.2 ⊆ hf) by (etransitivity; eassumption).
  assert (S3 : st3.2 ⊆ hf) by (etransitivity; eassumption).
  assert (S2 : st2.2 ⊆ hf) by (etransitivity; eassumption).
  assert (S1 : st1.2 ⊆ hf) by (etransitivity; eassumption).
  assert (S0 : h ⊆ hf) by (etransitivity; eassumption).
  assert (Hr0 : r ∉ dom h).
  { intros Hin. apply elem_of_dom in Hin as [v Hv].
    pose proof (lookup_weaken _ _ _ _ Hv S0). congruence. }
  assert (Hfield : forall l0 l,
            (forall hf', hf ⊆ hf' ->
               is_Some (hf' !! l) /\ forall v, h !! l0 = Some v -> hf' !! l = Some v) ->
            l <> r /\
            is_Some (<[r := ObjImage
              {| o_image := l1; o_imageJyppix := l2; o_x := l3; o_y := l4;
                 o_nx := o_nx o; o_ny := o_ny o; o_sizepix_x := o_sizepix_x o;
                 o_sizepix_y := o_sizepix_y o; o_nfreq := o_nfreq o;
                 o_freq := l5; o_nwav := o_nwav o; o_wav := l6;
                 o_stokes := o_stokes o; o_psf := l7; o_fwhm := l8;
                 o_pa := o_pa o; o_dpc := o_dpc o |}]> hf !! l) /\
            forall v, h !! l0 = Some v ->
              <[r := ObjImage
              {| o_image := l1; o_imageJyppix := l2; o_x := l3; o_y := l4;
                 o_nx := o_nx o; o_ny := o_ny o; o_sizepix_x := o_sizepix_x o;
                 o_sizepix_y := o_sizepix_y o; o_nfreq := o_nfreq o;
                 o_freq := l5; o_nwav := o_nwav o; o_wav := l6;
                 o_stokes := o_stokes o; o_psf := l7; o_fwhm := l8;
                 o_pa := o_pa o; o_dpc := o_dpc o |}]> hf !! l = Some v).
  { intros l0 l Hl.
    destruct (Hl hf ltac:(reflexivity)) as [[v0 Hs] _].
    split; [intros ->; congruence|]. apply Hl. exact Hlast. }
  eexists o, _. split; [exact Hself|].
  split; [etransitivity; eassumption|].
  split; [apply lookup_insert_eq|].
  split; [repeat split|]. split; [reflexivity|]. split; [reflexivity|].
  split.
  - unfold cube_locs. cbn [o_image o_imageJyppix o_x o_y o_freq o_wav o_psf o_fwhm].
    repeat (constructor; [assumption|]). constructor.
  - unfold ref_fields.
    constructor; [apply Hfield; intros hf' Hsub; apply V1; etransitivity; [exact S1 | exact Hsub]|].
    constructor; [apply Hfield; intros hf' Hsub; apply V2; etransitivity; [exact S2 | exact Hsub]|].
    constructor; [apply Hfield; intros hf' Hsub; apply V3; etransitivity; [exact S3 | exact Hsub]|].
    constructor; [apply Hfield; intros hf' Hsub; apply V4; etransitivity; [exact S4 | exact Hsub]|].
    constructor; [apply Hfield; intros hf' Hsub; apply V5; etransitivity; [exact S5 | exact Hsub]|].
    constructor; [apply Hfield; intros hf' Hsub; apply V6; etransitivity; [exact S6 | exact Hsub]|].
    constructor; [apply Hfield; intros hf' Hsub; apply V7; etransitivity; [exact S7 | exact Hsub]|].
    constructor; [apply Hfield; intros hf' Hsub; apply V8; exact Hsub|].
    constructor.
Qed.

Lemma deepcopy_total (self : loc) (h : heap) (o : radmc3dImage) :
  h !! self = Some (ObjImage o) -> image_ok h o ->
  exists res h', deepcopy self h = Ok (res, h').
Proof.
  intros Hself [K1 K2 K3 K4 K5 K6 K7 K8].
  unfold deepcopy, read_image. rewrite Hself. cbn [mbind result_bind].
  assert (Hni : forall (l : loc), (exists a, h !! l = Some (ObjArray a)) ->
            exists v, h !! l = Some v /\ forall o1, v <> ObjImage o1).
  { intros l [a Ha]. exists (ObjArray a). split; [exact Ha | discriminate]. }
  pose proof (copy_inv_init h) as I0.
  destruct (Hni _ K1) as (v1 & Hv1 & N1).
  destruct (copy_ref_total h _ _ v1 I0 Hv1 N1) as (l1 & st1 & E1).
  rewrite E1. cbn [mbind result_bind].
  destruct (copy_ref_inv h _ _ _ _ I0 E1) as (I1 & _).
  destruct (Hni _ K2) as (v2 & Hv2 & N2).
  destruct (copy_ref_total h _ _ v2 I1 Hv2 N2) as (l2 & st2 & E2).
  rewrite E2. cbn [mbind result_bind].
  destruct (copy_ref_inv h _ _ _ _ I1 E2) as (I2 & _).
  destruct (Hni _ K3) as (v3 & Hv3 & N3).
  destruct (copy_ref_total h _ _ v3 I2 Hv3 N3) as (l3 & st3 & E3).
  rewrite E3. cbn [mbind result_bind].
  destruct (copy_ref_inv h _ _ _ _ I2 E3) as (I3 & _).
  destruct (Hni _ K4) as (v4 & Hv4 & N4).
  destruct (copy_ref_total h _ _ v4 I3 Hv4 N4) as (l4 & st4 & E4).
  rewrite E4. cbn [mbind result_bind].
  destruct (copy_ref_inv h _ _ _ _ I3 E4) as (I4 & _).
  destruct (Hni _ K5) as (v5 & Hv5 & N5).
  destruct (copy_ref_total h _ _ v5 I4 Hv5 N5) as (l5 & st5 & E5).
  rewrite E5. cbn [mbind result_bind].
  destruct (copy_ref_inv h _ _ _ _ I4 E5) as (I5 & _).
  destruct (Hni _ K6) as (v6 & Hv6 & N6).
  destruct (copy_ref_total h _ _ v6 I5 Hv6 N6) as (l6 & st6 & E6).
  rewrite E6. cbn [mbind result_bind].
  destruct (copy_ref_inv h _ _ _ _ I5 E6) as (I6 & _).
  assert (K7' : exists v, h !! o_psf o = Some v /\ forall o1, v <> ObjImage o1).
  { destruct K7 as [K7|[a K7]]; eexists; (split; [exact K7 | discriminate]). }
  destruct K7' as (v7 & Hv7 & N7).
  destruct (copy_ref_total h _ _ v7 I6 Hv7 N7) as (l7 & st7 & E7).
  rewrite E7. cbn [mbind result_bind].
  destruct (copy_ref_inv h _ _ _ _ I6 E7) as (I7 & _).
  destruct K8 as [fw K8].
  destruct (copy_ref_total h (o_fwhm o) st7 (ObjList fw) I7 K8 ltac:(discriminate))
    as (l8 & st8 & E8).
  rewrite E8. cbn [mbind result_bind].
  eexists _, _. reflexivity.
Qed.

(** ** Reading a cube through the store *)

Lemma read_array_Ok (h : heap) (l : loc) (a : ndarray R) :
  read_array h l = Ok a <-> h !! l = Some (ObjArray a).
Proof.
  unfold read_array. destruct (h !! l) as [[]|]; split; intros H;
    try discriminate; try (injection H as ->; reflexivity).
Qed.

Lemma read_image_Ok (h : heap) (l : loc) (o : radmc3dImage) :
  read_image h l = Ok o <-> h !! l = Some (ObjImage o).
Proof.
  unfold read_image. destruct (h !! l) as [[]|]; split; intros H;
    try discriminate; try (injection H as ->; reflexivity).
Qed.

Lemma read_list_Ok (h : heap) (l : loc) (a : list R) :
  read_list h l = Ok a <-> h !! l = Some (ObjList a).
Proof.
  unfold read_list. destruct (h !! l) as [[]|]; split; intros H;
    try discriminate; try (injection H as ->; reflexivity).
Qed.

(** What a successful [cube_value] says about the store. *)
Lemma cube_value_inv (h : heap) (self : loc) (c : ImageCube) :
  cube_value h self = Ok c ->
  exists o, h !! self = Some (ObjImage o) /\
    h !! o_image o = Some (ObjArray (image c)) /\
    h !! o_imageJyppix o = Some (ObjArray (imageJyppix c)) /\
    h !! o_x o = Some (ObjArray (im_x c)) /\
    h !! o_y o = Some (ObjArray (im_y c)) /\
    h !! o_freq o = Some (ObjArray (freq c)) /\
    h !! o_wav o = Some (ObjArray (wav c)) /\
    nx c = o_nx o /\ ny c = o_ny o /\
    sizepix_x c = o_sizepix_x o /\ sizepix_y c = o_sizepix_y o /\
    nfreq c = o_nfreq o /\ nwav c = o_nwav o /\ stokes c = o_stokes o.
Proof.
  unfold cube_value. intros H.
  bind_name H o Eo. bind_name H im Eim. bind_name H jy Ejy.
  bind_name H x Ex. bind_name H y Ey. bind_name H fr Efr. bind_name H wv Ewv.
  injection H as <-. cbn.
  apply read_image_Ok in Eo.
  apply read_array_Ok in Eim, Ejy, Ex, Ey, Efr, Ewv.
  exists o. repeat split; assumption.
Qed.

(** The value of a cube depends only on the objects in [source_locs]. *)
Lemma cube_value_frame (h h2 : heap) (self : loc) (c : ImageCube) :
  cube_value h self = Ok c ->
  (forall o, h !! self = Some (ObjImage o) ->
     Forall (fun l => h2 !! l = h !! l) (source_locs self o)) ->
  cube_value h2 self = Ok c.
Proof.
  intros Hc Hsame.
  destruct (cube_value_inv h self c Hc)
    as (o & Ho & H1 & H2 & H3 & H4 & H5 & H6 & _).
  specialize (Hsame o Ho). unfold source_locs in Hsame.
  rewrite !Forall_cons in Hsame.
  destruct Hsame as (S0 & S1 & S2 & S3 & S4 & S5 & S6 & _).
  rewrite <- Hc. unfold cube_value, read_image, read_array.
  rewrite S0, Ho. cbn [mbind result_bind].
  rewrite S1, S2, S3, S4, S5, S6. reflexivity.
Qed.

Lemma cube_value_weaken (h h2 : heap) (self : loc) (c : ImageCube) :
  cube_value h self = Ok c -> h ⊆ h2 -> cube_value h2 self = Ok c.
Proof.
  intros Hc Hsub. apply (cube_value_frame h h2 self c Hc).
  intros o Ho.
  destruct (cube_value_inv h self c Hc) as (o1 & Ho1 & H1 & H2 & H3 & H4 & H5 & H6 & _).
  assert (o1 = o) as -> by congruence.
  unfold source_locs.
  repeat (constructor; [erewrite (lookup_weaken h h2) by eassumption; congruence|]).
  constructor.
Qed.

(** A write to an object outside the old store leaves the source cube as it
    was. *)
Lemma cube_value_write_fresh (h h' : heap) (self l : loc) (v : pyobj) (c : ImageCube) :
  cube_value h self = Ok c -> h ⊆ h' -> l ∉ dom h ->
  cube_value (<[l := v]> h') self = Ok c.
Proof.
  intros Hc Hsub Hl. apply (cube_value_frame h _ self c Hc).
  intros o Ho.
  destruct (cube_value_inv h self c Hc) as (o1 & Ho1 & H1 & H2 & H3 & H4 & H5 & H6 & _).
  assert (o1 = o) as -> by congruence.
  assert (Hne : forall l0 v0, h !! l0 = Some v0 -> <[l := v]> h' !! l0 = h !! l0).
  { intros l0 v0 H0. rewrite lookup_insert_ne.
    - rewrite H0. eapply lookup_weaken; eassumption.
    - intros ->. apply Hl. apply elem_of_dom. eauto. }
  unfold source_locs.
  repeat (constructor; [eapply Hne; eassumption|]). constructor.
Qed.

(** A write to a list object leaves the source cube as it was: its data
    attributes are arrays. *)
Lemma cube_value_write_list (h h' : heap) (self l : loc) (v : pyobj)
    (c : ImageCube) (fw : list R) :
  cube_value h self = Ok c -> h ⊆ h' -> h !! l = Some (ObjList fw) ->
  cube_value (<[l := v]> h') self = Ok c.
Proof.
  intros Hc Hsub Hl. apply (cube_value_frame h _ self c Hc).
  intros o Ho.
  destruct (cube_value_inv h self c Hc) as (o1 & Ho1 & H1 & H2 & H3 & H4 & H5 & H6 & _).
  assert (o1 = o) as -> by congruence.
  assert (Hne : forall l0 v0, h !! l0 = Some v0 -> (forall fw0, v0 <> ObjList fw0) ->
            <[l := v]> h' !! l0 = h !! l0).
  { intros l0 v0 H0 Hn. rewrite lookup_insert_ne.
    - rewrite H0. eapply lookup_weaken; eassumption.
    - intros ->. rewrite Hl in H0. injection H0 as <-. eapply Hn. reflexivity. }
  unfold source_locs.
  repeat (constructor; [eapply Hne; [eassumption | discriminate]|]). constructor.
Qed.

(** ** cmask *)

Lemma cmask_row_writes (o r : radmc3dImage) (crad : R) (tail : list sub)
    (ix : nat) (hc hc' : heap) :
  cmask_row o r crad tail ix hc = Ok hc' ->
  exists img', hc' = <[o_image r := ObjArray img']> hc.
Proof.
  unfold cmask_row. intros H.
  bind_name H y Ey. bind_name H x Ex. bind_name H xi Exi.
  bind_name H ii Eii. bind_name H img Eimg. bind_name H img' Eimg'.
  injection H as <-. eauto.
Qed.

Lemma cmask_rows_frame (o r : radmc3dImage) (crad : R) (tail : list sub)
    (n : nat) (h1 h' : heap) :
  for_range n (cmask_row o r crad tail) h1 = Ok h' ->
  forall l, l <> o_image r -> h' !! l = h1 !! l.
Proof.
  intros H.
  apply (for_range_inv (fun _ hc => forall l, l <> o_image r -> hc !! l = h1 !! l)
           n (cmask_row o r crad tail) h1 h'); [| |exact H].
  - reflexivity.
  - intros i s s' _ Hs Hrow l Hl.
    destruct (cmask_row_writes _ _ _ _ _ _ _ Hrow) as [img' ->].
    rewrite lookup_insert_ne by congruence. apply Hs, Hl.
Qed.

Lemma cmask_rows (o r : radmc3dImage) (crad : R) (tail : list sub) (h1 : heap)
    (x y img0 : ndarray R) (nx0 ny0 : nat) (rest0 : list nat) :
  o_image r <> o_x o -> o_image r <> o_y o ->
  h1 !! o_x o = Some (ObjArray x) -> h1 !! o_y o = Some (ObjArray y) ->
  h1 !! o_image r = Some (ObjArray img0) ->
  shape x = [nx0] -> shape y = [ny0] -> shape img0 = nx0 :: ny0 :: rest0 ->
  sub_fits tail rest0 = true ->
  (forall rest, in_bounds rest rest0 = true -> sub_selects tail rest = true) ->
  exists h' img',
    for_range nx0 (cmask_row o r crad tail) h1 = Ok h' /\
    h' !! o_image r = Some (ObjArray img') /\
    shape img' = shape img0 /\
    forall ix iy rest, in_bounds (ix :: iy :: rest) (shape img0) = true ->
      at_ img' (ix :: iy :: rest) =
      if Rleb (sqrt (at_ y [iy] ^ 2 + at_ x [ix] ^ 2)) crad then 0
      else at_ img0 (ix :: iy :: rest).
Proof.
  intros Nx Ny Hx Hy Himg Sx Sy Simg Hfit Hsel.
  destruct (for_range_total
    (fun i hc =>
       (forall l, l <> o_image r -> hc !! l = h1 !! l) /\
       exists img, hc !! o_image r = Some (ObjArray img) /\
         shape img = shape img0 /\
         forall ix iy rest, in_bounds (ix :: iy :: rest) (shape img0) = true ->
           at_ img (ix :: iy :: rest) =
           if (ix <? i)%nat && Rleb (sqrt (at_ y [iy] ^ 2 + at_ x [ix] ^ 2)) crad
           then 0 else at_ img0 (ix :: iy :: rest))
    nx0 (cmask_row o r crad tail) h1) as (h' & E & Hfr & img' & Hl & Hs & Hv).
  - split; [reflexivity|]. exists img0. split; [exact Himg|]. split; [reflexivity|].
    intros ix iy rest _. cbn. reflexivity.
  - intros i hc Hi (Hfr & img & Hl & Hs & Hv).
    unfold cmask_row, read_array.
    rewrite (Hfr (o_y o)), Hy by congruence. cbn [mbind result_bind].
    rewrite (Hfr (o_x o)), Hx by congruence. cbn [mbind result_bind].
    rewrite (item_in x [i]) by (rewrite Sx; apply in_bounds_1, Hi).
    cbn [mbind result_bind]. unfold mask_of. cbn [nd_map shape]. rewrite Sy.
    cbn [mbind result_bind]. rewrite Hl. cbn [mbind result_bind].
    unfold setitem_scalar. rewrite Hs, Simg.
    cbn -[Nat.ltb pow]. pose proof Hi as Hib. apply Nat.ltb_lt in Hib.
    rewrite Hib, Nat.eqb_refl, Hfit. cbn [andb mbind result_bind].
    eexists. split; [reflexivity|]. split.
    + intros l Hne. rewrite lookup_insert_ne by congruence. apply Hfr, Hne.
    + eexists. split; [apply lookup_insert_eq|]. cbn [shape at_].
      split; [congruence|].
      intros ix iy rest Hin.
      pose proof Hin as Hin'. cbn -[Nat.ltb pow] in Hin'.
      apply andb_prop in Hin' as [_ Hin']. apply andb_prop in Hin' as [_ Hrest].
      change (in_bounds (ix :: iy :: rest) (nx0 :: ny0 :: rest0))
        with ((ix <? nx0)%nat && ((iy <? ny0)%nat && in_bounds rest rest0)).
      rewrite Hin. cbn [andb]. rewrite (Hsel rest Hrest), andb_true_r.
      rewrite Hv by (rewrite Simg; exact Hin).
      destruct (Nat.eqb_spec i ix) as [<-|Hne].
      * cbn [andb]. rewrite Nat.ltb_irrefl.
        replace (i <? S i)%nat with true by (symmetry; apply Nat.ltb_lt; lia).
        cbn [andb]. destruct (Rleb _ crad); reflexivity.
      * cbn [andb].
        replace (ix <? S i)%nat with (ix <? i)%nat; [reflexivity|].
        destruct (Nat.ltb_spec ix i), (Nat.ltb_spec ix (S i)); try reflexivity; lia.
  - exists h', img'. split; [exact E|]. split; [exact Hl|]. split; [exact Hs|].
    intros ix iy rest Hin. rewrite (Hv ix iy rest Hin).
    rewrite Simg in Hin. cbn -[Nat.ltb] in Hin. apply andb_prop in Hin as [Hix _].
    rewrite Hix. reflexivity.
Qed.

Lemma not_in_dom_ne (h : heap) (l l' : loc) (v : pyobj) :
  l ∉ dom h -> h !! l' = Some v -> l <> l'.
Proof. intros Hl Hv ->. apply Hl. apply elem_of_dom. eauto. Qed.

(** Whatever [cmask] returns is a new cube; the old store is unchanged. *)
Lemma cmask_inv (im res : loc) (rad : R) (au arcsec : bool) (dpc : option R)
    (h h' : heap) :
  cmask im rad au arcsec dpc h = Ok (Some res, h') ->
  exists o', h ⊆ h' /\ h' !! res = Some (ObjImage o') /\
    Forall (fun l => l ∉ dom h) (cube_locs res o').
Proof.
  unfold cmask. destruct (au && arcsec); [discriminate|]. intros H.
  bind_name H o Eo. bind_name H crad Ec. bind_name H p Ed. destruct p as [res1 h1].
  bind_name H r Er. bind_name H h2 Eloop. injection H as -> ->.
  destruct (deepcopy_inv im res h h1 Ed)
    as (o0 & o' & Ho & Hsub & Hres & _ & _ & _ & Hfresh & Hfields).
  apply read_image_Ok in Er. assert (r = o') as -> by congruence.
  assert (Hfr : forall l, l <> o_image o' -> h' !! l = h1 !! l).
  { destruct (negb (o_nfreq o =? 1)%nat);
      eapply cmask_rows_frame; exact Eloop. }
  unfold ref_fields in Hfields. rewrite !Forall_cons in Hfields.
  destruct Hfields as ((Hne & _) & _).
  pose proof Hfresh as Hfresh'. unfold cube_locs in Hfresh'.
  rewrite !Forall_cons in Hfresh'. destruct Hfresh' as (_ & Himg & _).
  exists o'. split; [|split; [|exact Hfresh]].
  - apply map_subseteq_spec. intros l v Hl.
    rewrite Hfr by (intros ->; apply Himg, elem_of_dom; eauto).
    eapply lookup_weaken; eassumption.
  - rewrite Hfr by congruence. exact Hres.
Qed.

Lemma cmask_spec (im : loc) (rad : R) (au arcsec : bool) (dpc : option R)
    (h : heap) (o : radmc3dImage) (c : ImageCube) (crad : R) :
  h !! im = Some (ObjImage o) -> image_ok h o ->
  cube_value h im = Ok c -> loader_layout c ->
  au && arcsec = false ->
  mask_radius rad au arcsec dpc (sizepix_x c) = Ok crad ->
  exists res h' o' img',
    cmask im rad au arcsec dpc h = Ok (Some res, h') /\
    h' !! res = Some (ObjImage o') /\
    h' !! o_image o' = Some (ObjArray img') /\
    shape img' = shape (image c) /\
    forall ix iy rest, in_bounds (ix :: iy :: rest) (shape (image c)) = true ->
      at_ img' (ix :: iy :: rest) =
      if Rleb (sqrt (at_ (im_y c) [iy] ^ 2 + at_ (im_x c) [ix] ^ 2)) crad then 0
      else at_ (image c) (ix :: iy :: rest).
Proof.
  intros Ho Hok Hc Hlay Hflags Hrad.
  destruct (cube_value_inv h im c Hc)
    as (o1 & Ho1 & Him & _ & Hx & Hy & _ & _ & Enx & Eny & Esx & _ & Enf & _ & Est).
  assert (o1 = o) as -> by congruence.
  destruct (deepcopy_total im h o Ho Hok) as (res & h1 & Ed).
  destruct (deepcopy_inv im res h h1 Ed)
    as (o0 & o' & Ho0 & Hsub & Hres & _ & _ & _ & Hfresh & Hfields).
  assert (o0 = o) as -> by congruence.
  unfold ref_fields in Hfields. rewrite !Forall_cons in Hfields.
  destruct Hfields as ((Hne & _ & Hcopy) & _).
  unfold cube_locs in Hfresh. rewrite !Forall_cons in Hfresh.
  destruct Hfresh as (_ & Himg & _).
  destruct Hlay as [Lim Lx Ly _ _].
  set (rest0 := if stokes c then [4%nat; nfreq c] else [nfreq c]).
  assert (Simg : shape (image c) = o_nx o :: ny c :: rest0).
  { rewrite Lim, <- Enx. subst rest0. destruct (stokes c); reflexivity. }
  assert (Hrows : forall tail,
            sub_fits tail rest0 = true ->
            (forall rest, in_bounds rest rest0 = true -> sub_selects tail rest = true) ->
            exists h' img',
              for_range (o_nx o) (cmask_row o o' crad tail) h1 = Ok h' /\
              h' !! o_image o' = Some (ObjArray img') /\
              shape img' = shape (image c) /\
              forall ix iy rest, in_bounds (ix :: iy :: rest) (shape (image c)) = true ->
                at_ img' (ix :: iy :: rest) =
                if Rleb (sqrt (at_ (im_y c) [iy] ^ 2 + at_ (im_x c) [ix] ^ 2)) crad
                then 0 else at_ (image c) (ix :: iy :: rest)).
  { intros tail Hfit Hsel.
    apply (cmask_rows o o' crad tail h1 (im_x c) (im_y c) (image c)
             (o_nx o) (ny c) rest0); try assumption.
    - eapply not_in_dom_ne; eassumption.
    - eapply not_in_dom_ne; eassumption.
    - eapply lookup_weaken; eassumption.
    - eapply lookup_weaken; eassumption.
    - apply Hcopy, Him.
    - rewrite Lx, Enx. reflexivity. }
  assert (Hframe : forall tail h', for_range (o_nx o) (cmask_row o o' crad tail) h1 = Ok h' ->
            h' !! res = Some (ObjImage o')).
  { intros tail h' E. rewrite (cmask_rows_frame _ _ _ _ _ _ _ E) by congruence.
    exact Hres. }
  unfold cmask. rewrite Hflags.
  rewrite (proj2 (read_image_Ok h im o) Ho). cbn [mbind result_bind].
  rewrite <- Esx, Hrad. cbn [mbind result_bind].
  rewrite Ed. cbn [mbind result_bind].
  rewrite (proj2 (read_image_Ok h1 res o') Hres). cbn [mbind result_bind].
  destruct (negb (o_nfreq o =? 1)%nat).
  - destruct (Hrows [All]) as (h' & img' & E & Hl & Hs & Hv).
    + subst rest0. destruct (stokes c); reflexivity.
    + intros rest Hr. subst rest0.
      destruct (stokes c), rest; cbn in Hr |- *; congruence.
    + rewrite E. cbn [mbind result_bind].
      exists res, h', o', img'. split; [reflexivity|].
      split; [eapply Hframe; exact E|]. auto.
  - destruct (Hrows []) as (h' & img' & E & Hl & Hs & Hv).
    + reflexivity.
    + reflexivity.
    + rewrite E. cbn [mbind result_bind].
      exists res, h', o', img'. split; [reflexivity|].
      split; [eapply Hframe; exact E|]. auto.
Qed.

(** ** Filling an array plane by plane *)

Lemma for_range_ext {S} (n : nat) (f g : nat -> S -> result S) (s : S) :
  (forall i s, (i < n)%nat -> f i s = g i s) ->
  for_range n f s = for_range n g s.
Proof.
  intros H. induction n as [|n IH]; [reflexivity|].
  rewrite !for_range_S, IH by (intros; apply H; lia).
  destruct (for_range n g s) as [s'|e]; cbn; [apply H; lia | reflexivity].
Qed.

(** A loop that computes a plane per pass and assigns it to its own part of
    the array. *)
Lemma fill_loop (n : nat) (items : nat -> list sub)
    (plane : nat -> result (ndarray R)) (c0 : ndarray R) (t : list nat) :
  (forall i, (i < n)%nat -> sub_shape (items i) (shape c0) = Ok t) ->
  (forall i, (i < n)%nat -> exists p, plane i = Ok p /\ shape p = t) ->
  (forall i j idx, (i < n)%nat -> (j < n)%nat -> i <> j ->
     sub_selects (items i) idx = true -> sub_selects (items j) idx = false) ->
  exists c,
    for_range n (fun i c => p ← plane i; setitem c (items i) p) c0 = Ok c /\
    shape c = shape c0 /\
    (forall i idx, (i < n)%nat -> in_bounds idx (shape c0) = true ->
       sub_selects (items i) idx = true ->
       exists p, plane i = Ok p /\ at_ c idx = at_ p (sub_position (items i) idx)) /\
    (forall idx, (forall i, (i < n)%nat -> sub_selects (items i) idx = false) ->
       at_ c idx = at_ c0 idx).
Proof.
  intros Hshape Hplane Hdisj.
  destruct (for_range_total
    (fun k c => shape c = shape c0 /\
       (forall i idx, (i < k)%nat -> in_bounds idx (shape c0) = true ->
          sub_selects (items i) idx = true ->
          exists p, plane i = Ok p /\ at_ c idx = at_ p (sub_position (items i) idx)) /\
       (forall idx, (forall i, (i < k)%nat -> sub_selects (items i) idx = false) ->
          at_ c idx = at_ c0 idx))
    n (fun i c => p ← plane i; setitem c (items i) p) c0) as (c & E & H).
  - split; [reflexivity|]. split; [intros; lia | reflexivity].
  - intros k c Hk (Hs & Hdone & Hrest).
    destruct (Hplane k Hk) as (p & Ep & Sp). rewrite Ep. cbn [mbind result_bind].
    destruct (setitem_same c p (items k) t) as (c' & E & Hs' & Hsel & Hoth).
    { rewrite Hs. apply Hshape, Hk. }
    { exact Sp. }
    exists c'. split; [exact E|]. split; [congruence|]. split.
    + intros i idx Hi Hin Hsi. destruct (Nat.eq_dec i k) as [->|Hne].
      * exists p. split; [exact Ep|]. apply Hsel; [rewrite Hs; exact Hin | exact Hsi].
      * destruct (Hdone i idx ltac:(lia) Hin Hsi) as (q & Eq & Hq).
        exists q. split; [exact Eq|]. rewrite Hoth; [exact Hq|].
        apply (Hdisj i k idx); try lia. exact Hsi.
    + intros idx Hnone. rewrite Hoth by (apply Hnone; lia).
      apply Hrest. intros i Hi. apply Hnone. lia.
  - exists c. split; [exact E|]. exact H.
Qed.

(** ** convolve_plane on a plane of the shape of the PSF *)

Lemma fft2_2d (a : ndarray C) (n1 n2 : nat) :
  shape a = [n1; n2] -> exists b, fft2 a = Ok b /\ shape b = [n1; n2].
Proof.
  intros Hs. unfold fft2. rewrite Hs. cbn [split_last2 rev app].
  eexists. split; [reflexivity|]. reflexivity.
Qed.

Lemma ifft2_2d (a : ndarray C) (n1 n2 : nat) :
  shape a = [n1; n2] -> exists b, ifft2 a = Ok b /\ shape b = [n1; n2].
Proof.
  intros Hs. unfold ifft2. rewrite Hs. cbn [split_last2 rev app].
  eexists. split; [reflexivity|]. reflexivity.
Qed.

Lemma convolve_plane_2d (f_psf : ndarray C) (imag : ndarray R) (n1 n2 : nat) :
  shape f_psf = [n1; n2] -> shape imag = [n1; n2] ->
  exists p, convolve_plane f_psf imag = Ok p /\ shape p = [n1; n2].
Proof.
  intros Hf Hi. unfold convolve_plane.
  destruct (fft2_2d (nd_map RtoC imag) n1 n2 Hi) as (fi & -> & Sfi).
  cbn [mbind result_bind]. unfold nd_zip. rewrite Hf, Sfi, broadcast_shapes_refl.
  cbn [mbind result_bind].
  destruct (ifft2_2d (NdArray [n1; n2] (fun idx =>
              Cmul (at_ f_psf (bproj [n1; n2] idx)) (at_ fi (bproj [n1; n2] idx))))
              n1 n2 eq_refl) as (g & -> & Sg).
  cbn [mbind result_bind]. eexists. split; [reflexivity|]. exact Sg.
Qed.

(** ** convolve_cube on the loader's layouts *)

Lemma in_bounds_3 (i j k n m p : nat) :
  (i < n)%nat -> (j < m)%nat -> (k < p)%nat -> in_bounds [i; j; k] [n; m; p] = true.
Proof.
  intros Hi Hj Hk. cbn -[Nat.ltb]. apply Nat.ltb_lt in Hi, Hj, Hk.
  rewrite Hi, Hj, Hk. reflexivity.
Qed.

Lemma in_bounds_4 (i j k l n m p q : nat) :
  (i < n)%nat -> (j < m)%nat -> (k < p)%nat -> (l < q)%nat ->
  in_bounds [i; j; k; l] [n; m; p; q] = true.
Proof.
  intros Hi Hj Hk Hl. cbn -[Nat.ltb]. apply Nat.ltb_lt in Hi, Hj, Hk, Hl.
  rewrite Hi, Hj, Hk, Hl. reflexivity.
Qed.

Lemma convolve_cube_intensity (h : heap) (o : radmc3dImage) (f_psf : ndarray C)
    (img : ndarray R) :
  o_stokes o = false ->
  h !! o_image o = Some (ObjArray img) ->
  shape img = [o_nx o; o_ny o; o_nfreq o] ->
  shape f_psf = [o_nx o; o_ny o] ->
  exists cimage, convolve_cube h o f_psf = Ok cimage /\
    shape cimage = [o_nx o; o_ny o; o_nfreq o] /\
    forall ix iy ifreq, (ix < o_nx o)%nat -> (iy < o_ny o)%nat ->
      (ifreq < o_nfreq o)%nat ->
      exists imag p, getitem img [All; All; At ifreq] = Ok imag /\
        convolve_plane f_psf imag = Ok p /\
        at_ cimage [ix; iy; ifreq] = at_ p [ix; iy].
Proof.
  intros Hst Himg Simg Sf. unfold convolve_cube. rewrite Hst.
  set (plane := fun i : nat => imag ← getitem img [All; All; At i];
                               convolve_plane f_psf imag).
  rewrite (for_range_ext _ _
    (fun i c => p ← plane i; setitem c [All; All; At i] p)).
  2:{ intros i c _. unfold read_array. rewrite Himg. cbn [mbind result_bind].
      subst plane. cbv beta.
      destruct (getitem img [All; All; At i]) as [imag|]; [|reflexivity].
      cbn [mbind result_bind].
      destruct (convolve_plane f_psf imag); reflexivity. }
  assert (Hget : forall i, (i < o_nfreq o)%nat ->
            exists imag, getitem img [All; All; At i] = Ok imag /\
                         shape imag = [o_nx o; o_ny o]).
  { intros i Hi. rewrite (getitem_Ok img _ [o_nx o; o_ny o]).
    - eexists. split; reflexivity.
    - rewrite Simg. cbn -[Nat.ltb]. apply Nat.ltb_lt in Hi. rewrite Hi. reflexivity. }
  destruct (fill_loop (o_nfreq o) (fun i => [All; All; At i]) plane
              (full 0 [o_nx o; o_ny o; o_nfreq o]) [o_nx o; o_ny o])
    as (c & E & Hs & Hv & _).
  - intros i Hi. cbn -[Nat.ltb]. apply Nat.ltb_lt in Hi. rewrite Hi. reflexivity.
  - intros i Hi. destruct (Hget i Hi) as (imag & Eg & Sg).
    destruct (convolve_plane_2d f_psf imag _ _ Sf Sg) as (p & Ep & Sp).
    exists p. subst plane. cbv beta. rewrite Eg. cbn [mbind result_bind]. auto.
  - intros i j idx _ _ Hne Hsel.
    destruct idx as [|a [|b [|k idx]]]; cbn in Hsel |- *; try discriminate.
    rewrite andb_true_r in Hsel. apply Nat.eqb_eq in Hsel. subst k.
    rewrite andb_true_r. apply Nat.eqb_neq. congruence.
  - exists c. split; [exact E|]. split; [exact Hs|].
    intros ix iy ifreq Hx Hy Hf.
    destruct (Hv ifreq [ix; iy; ifreq] Hf) as (p & Ep & Hp).
    + apply in_bounds_3; assumption.
    + cbn. rewrite Nat.eqb_refl. reflexivity.
    + subst plane. cbv beta in Ep.
      destruct (Hget ifreq Hf) as (imag & Eg & _). rewrite Eg in Ep.
      cbn [mbind result_bind] in Ep.
      exists imag, p. split; [exact Eg|]. split; [exact Ep|]. exact Hp.
Qed.

Lemma convolve_cube_stokes (h : heap) (o : radmc3dImage) (f_psf : ndarray C)
    (img : ndarray R) :
  o_stokes o = true -> o_nfreq o <> 1%nat ->
  h !! o_image o = Some (ObjArray img) ->
  shape img = [o_nx o; o_ny o; 4%nat; o_nfreq o] ->
  shape f_psf = [o_nx o; o_ny o] ->
  exists cimage, convolve_cube h o f_psf = Ok cimage /\
    shape cimage = [o_nx o; o_ny o; 4%nat; o_nfreq o] /\
    forall ix iy istokes ifreq, (ix < o_nx o)%nat -> (iy < o_ny o)%nat ->
      (istokes < 4)%nat -> (ifreq < o_nfreq o)%nat ->
      exists imag p, getitem img [All; All; At istokes; At ifreq] = Ok imag /\
        convolve_plane f_psf imag = Ok p /\
        at_ cimage [ix; iy; istokes; ifreq] = at_ p [ix; iy].
Proof.
  intros Hst Hnf Himg Simg Sf. unfold convolve_cube. rewrite Hst.
  destruct (Nat.eqb_spec (o_nfreq o) 1) as [|_]; [congruence|].
  set (plane := fun ifreq istokes : nat =>
                  imag ← getitem img [All; All; At istokes; At ifreq];
                  convolve_plane f_psf imag).
  assert (Hget : forall ifreq istokes, (ifreq < o_nfreq o)%nat -> (istokes < 4)%nat ->
            exists imag, getitem img [All; All; At istokes; At ifreq] = Ok imag /\
                         shape imag = [o_nx o; o_ny o]).
  { intros i s Hi Hs4. rewrite (getitem_Ok img _ [o_nx o; o_ny o]).
    - eexists. split; reflexivity.
    - rewrite Simg. cbn -[Nat.ltb]. apply Nat.ltb_lt in Hi, Hs4.
      rewrite Hi, Hs4. reflexivity. }
  destruct (for_range_total
    (fun k c => shape c = [o_nx o; o_ny o; 4%nat; o_nfreq o] /\
       forall ix iy istokes ifreq, (ix < o_nx o)%nat -> (iy < o_ny o)%nat ->
         (istokes < 4)%nat -> (ifreq < k)%nat ->
         exists imag p, getitem img [All; All; At istokes; At ifreq] = Ok imag /\
           convolve_plane f_psf imag = Ok p /\
           at_ c [ix; iy; istokes; ifreq] = at_ p [ix; iy])
    (o_nfreq o)
    (fun ifreq cimage => for_range 4 (fun istokes cimage =>
        img ← read_array h (o_image o);
        imag ← getitem img [All; All; At istokes; At ifreq];
        p ← convolve_plane f_psf imag;
        setitem cimage [All; All; At istokes; At ifreq] p) cimage)
    (full 0 [o_nx o; o_ny o; 4%nat; o_nfreq o])) as (c & E & Hs & Hv).
  - split; [reflexivity|]. intros; lia.
  - intros k c Hk (Hs & Hdone).
    rewrite (for_range_ext _ _
      (fun i c => p ← plane k i; setitem c [All; All; At i; At k] p)).
    2:{ intros i c1 _. unfold read_array. rewrite Himg. cbn [mbind result_bind].
        subst plane. cbv beta.
        destruct (getitem img [All; All; At i; At k]) as [imag|]; [|reflexivity].
        cbn [mbind result_bind].
        destruct (convolve_plane f_psf imag); reflexivity. }
    destruct (fill_loop 4 (fun i => [All; All; At i; At k]) (plane k) c
                [o_nx o; o_ny o]) as (c' & E' & Hs' & Hv' & Ho').
    + intros i Hi. rewrite Hs. cbn -[Nat.ltb]. apply Nat.ltb_lt in Hi, Hk.
      rewrite Hi, Hk. reflexivity.
    + intros i Hi. destruct (Hget k i Hk Hi) as (imag & Eg & Sg).
      destruct (convolve_plane_2d f_psf imag _ _ Sf Sg) as (p & Ep & Sp).
      exists p. subst plane. cbv beta. rewrite Eg. cbn [mbind result_bind]. auto.
    + intros i j idx _ _ Hne Hsel.
      destruct idx as [|a [|b [|s [|f idx]]]]; cbn in Hsel |- *;
        rewrite ?andb_false_r in Hsel; try discriminate.
      apply andb_prop in Hsel as [Hsel _]. apply Nat.eqb_eq in Hsel. subst s.
      destruct (Nat.eqb_spec j i); [congruence | reflexivity].
    + exists c'. split; [exact E'|]. split; [congruence|].
      intros ix iy istokes ifreq Hx Hy Hs4 Hf.
      destruct (Nat.eq_dec ifreq k) as [->|Hne].
      * destruct (Hv' istokes [ix; iy; istokes; k] Hs4) as (p & Ep & Hp).
        -- rewrite Hs. apply in_bounds_4; assumption.
        -- cbn. rewrite !Nat.eqb_refl. reflexivity.
        -- subst plane. cbv beta in Ep.
           destruct (Hget k istokes Hk Hs4) as (imag & Eg & _). rewrite Eg in Ep.
           cbn [mbind result_bind] in Ep.
           exists imag, p. split; [exact Eg|]. split; [exact Ep|]. exact Hp.
      * rewrite Ho'; [apply Hdone; try assumption; lia|].
        intros i _. cbn. destruct (Nat.eqb_spec k ifreq); [congruence|].
        rewrite andb_false_r. reflexivity.
  - exists c. split; [exact E|]. split; [exact Hs|]. exact Hv.
Qed.

(** ** imConv *)

(** Everything a returned [imConv] has done. *)
Lemma imConv_inv (self fwhm res : loc) (pa : option R) (dpc : R) (h h' : heap) :
  imConv self fwhm pa dpc h = Ok (res, h') ->
  exists o fw f0 f1 dum f_psf cimage o',
    h !! self = Some (ObjImage o) /\
    h !! fwhm = Some (ObjList fw) /\
    fw !! 0%nat = Some f0 /\ fw !! 1%nat = Some f1 /\
    getPSF (o_nx o) (o_ny o) fw pa
      (Some (o_sizepix_x o / au_cm / dpc, o_sizepix_y o / au_cm / dpc)) = Ok dum /\
    fft2 (nd_map RtoC (psf dum)) = Ok f_psf /\
    convolve_cube h o f_psf = Ok cimage /\
    h ⊆ h' /\
    h' !! res = Some (ObjImage o') /\
    same_scalars o o' /\
    h' !! o_image o' =
      Some (ObjArray (nd_map (fun a =>
              a * beam_factor (o_sizepix_x o) (o_sizepix_y o) dpc f0 f1) cimage)) /\
    h' !! o_imageJyppix o' =
      Some (ObjArray (nd_map (fun a => a * 1e23) (nd_map (fun a =>
              a * beam_factor (o_sizepix_x o) (o_sizepix_y o) dpc f0 f1) cimage))) /\
    h' !! o_psf o' = Some (ObjArray (psf dum)) /\
    o_fwhm o' = fwhm /\ o_pa o' = pa /\ o_dpc o' = dpc /\
    Forall (fun l => l ∉ dom h)
      [res; o_image o'; o_imageJyppix o'; o_x o'; o_y o'; o_freq o'; o_wav o';
       o_psf o'] /\
    Forall (fun f : radmc3dImage -> loc =>
              forall v, h !! f o = Some v -> h' !! f o' = Some v)
      [o_x; o_y; o_freq; o_wav].
Proof.
  unfold imConv. intros H.
  bind_name H o Eo. bind_name H fw Efw. bind_name H dum Edum.
  bind_name H f_psf Ef. bind_name H cimage Ec. bind_name H p Ed.
  destruct p as [res1 h1].
  bind_name H r Er. bind_name H fw' Efw'. bind_name H f0 E0. bind_name H f1 E1.
  apply read_image_Ok in Eo. apply read_list_Ok in Efw, Efw'.
  apply read_image_Ok in Er.
  destruct (deepcopy_inv self res1 h h1 Ed)
    as (o0 & oc & Ho & Hsub & Hres & Hsc & _ & _ & Hfresh & Hfields).
  assert (o0 = o) as -> by congruence.
  assert (r = oc) as -> by congruence.
  assert (fw' = fw) as ->.
  { pose proof (lookup_weaken _ _ _ _ Efw Hsub). congruence. }
  set (conv := beam_factor (o_sizepix_x oc) (o_sizepix_y oc) dpc f0 f1) in *.
  set (new_image := nd_map (fun a => a * conv) cimage) in *.
  set (l_image := fresh (dom h1)) in *.
  set (h2 := <[l_image := ObjArray new_image]> h1) in *.
  set (l_jy := fresh (dom h2)) in *.
  set (h3 := <[l_jy := ObjArray (nd_map (fun a => a * 1e23) new_image)]> h2) in *.
  set (l_psf := fresh (dom h3)) in *.
  set (h4 := <[l_psf := ObjArray (psf dum)]> h3) in *.
  cbn [alloc fst snd] in H. fold l_image h2 l_jy h3 l_psf h4 in H.
  injection H as <- <-.
  assert (N1 : h1 !! l_image = None) by (apply not_elem_of_dom, is_fresh).
  assert (N2 : h2 !! l_jy = None) by (apply not_elem_of_dom, is_fresh).
  assert (N3 : h3 !! l_psf = None) by (apply not_elem_of_dom, is_fresh).
  assert (S12 : h1 ⊆ h2) by (apply insert_subseteq, N1).
  assert (S23 : h2 ⊆ h3) by (apply insert_subseteq, N2).
  assert (S34 : h3 ⊆ h4) by (apply insert_subseteq, N3).
  assert (S14 : h1 ⊆ h4) by (do 2 (etransitivity; [eassumption|]); exact S34).
  assert (S04 : h ⊆ h4) by (etransitivity; eassumption).
  unfold cube_locs in Hfresh. rewrite !Forall_cons in Hfresh.
  destruct Hfresh as (Fres & _ & _ & Fx & Fy & Ffr & Fwv & _).
  unfold ref_fields in Hfields. rewrite !Forall_cons in Hfields.
  destruct Hfields as (_ & _ & (Nx & Sx & Vx) & (Ny & Sy & Vy) & (Nfr & Sfr & Vfr)
                       & (Nwv & Swv & Vwv) & _).
  assert (Hold : forall l v, h4 !! l = Some v -> l <> res1 ->
            <[res1 := ObjImage
                {| o_image := l_image; o_imageJyppix := l_jy;
                   o_x := o_x oc; o_y := o_y oc; o_nx := o_nx oc; o_ny := o_ny oc;
                   o_sizepix_x := o_sizepix_x oc; o_sizepix_y := o_sizepix_y oc;
                   o_nfreq := o_nfreq oc; o_freq := o_freq oc;
                   o_nwav := o_nwav oc; o_wav := o_wav oc; o_stokes := o_stokes oc;
                   o_psf := l_psf; o_fwhm := fwhm; o_pa := pa; o_dpc := dpc |}]> h4 !! l
            = Some v).
  { intros l v Hl Hne. rewrite lookup_insert_ne by congruence. exact Hl. }
  assert (D1 : l_image <> res1) by (intros E; rewrite E in N1; congruence).
  assert (D2 : l_jy <> res1).
  { intros E. rewrite E in N2. pose proof (lookup_weaken _ _ _ _ Hres S12). congruence. }
  assert (D3 : l_psf <> res1).
  { intros E. rewrite E in N3.
    pose proof (lookup_weaken _ _ _ _ Hres (transitivity S12 S23)). congruence. }
  assert (Fh1 : forall l, h1 !! l = None -> l ∉ dom h).
  { intros l Hl Hin. apply elem_of_dom in Hin as [v Hv].
    pose proof (lookup_weaken _ _ _ _ Hv Hsub). congruence. }
  destruct Hsc as (C1 & C2 & C3 & C4 & C5 & C6 & C7).
  exists o, fw, f0, f1, dum, f_psf, cimage.
  eexists. split; [exact Eo|]. split; [exact Efw|].
  split; [destruct (fw !! 0%nat); [injection E0 as ->; reflexivity | discriminate]|].
  split; [destruct (fw !! 1%nat); [injection E1 as ->; reflexivity | discriminate]|].
  split; [exact Edum|]. split; [exact Ef|]. split; [exact Ec|].
  split.
  { apply map_subseteq_spec. intros l v Hl. apply Hold.
    - eapply lookup_weaken; eassumption.
    - intros ->. apply Fres, elem_of_dom. eauto. }
  split; [apply lookup_insert_eq|].
  split; [repeat split; assumption|].
  cbn [o_image o_imageJyppix o_psf o_fwhm o_pa o_dpc o_x o_y o_freq o_wav].
  split.
  { apply Hold; [|exact D1]. subst conv new_image. rewrite <- C3, <- C4.
    eapply lookup_weaken; [|exact (transitivity S23 S34)]. apply lookup_insert_eq. }
  split.
  { apply Hold; [|exact D2]. subst conv new_image. rewrite <- C3, <- C4.
    eapply lookup_weaken; [|exact S34]. apply lookup_insert_eq. }
  split; [apply Hold; [apply lookup_insert_eq | exact D3]|].
  split; [reflexivity|]. split; [reflexivity|]. split; [reflexivity|].
  split.
  { repeat (constructor; [|]); try assumption; try constructor.
    - apply Fh1, N1.
    - apply Fh1. destruct (h1 !! l_jy) eqn:E; [|reflexivity].
      pose proof (lookup_weaken _ _ _ _ E S12). congruence.
    - apply Fh1. destruct (h1 !! l_psf) eqn:E; [|reflexivity].
      pose proof (lookup_weaken _ _ _ _ E (transitivity S12 S23)). congruence. }
  repeat (constructor; [|]); try constructor; intros v Hv; apply Hold;
    try assumption; eapply lookup_weaken; try exact S14; eauto.
Qed.

Lemma imConv_total (self fwhm : loc) (p dpc fx fy : R) (h : heap)
    (o : radmc3dImage) (c : ImageCube) :
  h !! self = Some (ObjImage o) -> image_ok h o ->
  cube_value h self = Ok c -> loader_layout c ->
  h !! fwhm = Some (ObjList [fx; fy]) ->
  ~ (stokes c = true /\ nfreq c = 1%nat) ->
  exists res h', imConv self fwhm (Some p) dpc h = Ok (res, h').
Proof.
  intros Ho Hok Hc Hlay Hfw Hns.
  destruct (cube_value_inv h self c Hc)
    as (o1 & Ho1 & Him & _ & _ & _ & _ & _ & Enx & Eny & _ & _ & Enf & _ & Est).
  assert (o1 = o) as -> by congruence.
  unfold imConv.
  rewrite (proj2 (read_image_Ok _ _ _) Ho). cbn [mbind result_bind].
  rewrite (proj2 (read_list_Ok _ _ _) Hfw). cbn [mbind result_bind].
  destruct (getPSF_spec (o_nx o) (o_ny o) fx fy p
              (Some (o_sizepix_x o / au_cm / dpc, o_sizepix_y o / au_cm / dpc)))
    as (dum & k & -> & _ & Spsf & _).
  cbn [mbind result_bind].
  destruct (fft2_2d (nd_map RtoC (psf dum)) (o_nx o) (o_ny o) Spsf) as (f_psf & -> & Sf).
  cbn [mbind result_bind].
  assert (Hcube : exists cimage, convolve_cube h o f_psf = Ok cimage).
  { pose proof (lay_image _ Hlay) as Lim. rewrite Enx, Eny, Enf, Est in Lim.
    destruct (o_stokes o) eqn:Hst.
    - destruct (convolve_cube_stokes h o f_psf (image c)) as (ci & E & _);
        try assumption.
      + intros E1. apply Hns. split; [congruence | congruence].
      + eauto.
    - destruct (convolve_cube_intensity h o f_psf (image c)) as (ci & E & _);
        try assumption. eauto. }
  destruct Hcube as (cimage & ->). cbn [mbind result_bind].
  destruct (deepcopy_total self h o Ho Hok) as (res & h1 & Ed).
  rewrite Ed. cbn [mbind result_bind].
  destruct (deepcopy_inv self res h h1 Ed) as (o0 & oc & _ & Hsub & Hres & _).
  rewrite (proj2 (read_image_Ok _ _ _) Hres). cbn [mbind result_bind].
  rewrite (proj2 (read_list_Ok _ _ _) (lookup_weaken _ _ _ _ Hfw Hsub)).
  cbn [mbind result_bind lookup list_lookup of_option].
  eexists _, _. reflexivity.
Qed.

(** ** readImage and load_image *)

Lemma for_range_shape {A} (n : nat) (body : nat -> ndarray A -> result (ndarray A))
    (a r : ndarray A) :
  (forall i a a', body i a = Ok a' -> shape a' = shape a) ->
  for_range n body a = Ok r -> shape r = shape a.
Proof.
  intros Hb H.
  apply (for_range_inv (fun _ x => shape x = shape a) n body a r); [reflexivity| |exact H].
  intros i s s' _ Hs E. rewrite (Hb i s s' E). exact Hs.
Qed.

Lemma read_intensity_shape (f : ImageFile) (img : ndarray R) :
  read_intensity f = Ok img -> shape img = [f_nx f; f_ny f; f_nfreq f].
Proof.
  unfold read_intensity. intros H.
  apply for_range_shape in H; [exact H|].
  intros iwav a a' H1. apply for_range_shape in H1; [exact H1|].
  intros ix b b' H2. apply for_range_shape in H2; [exact H2|].
  intros iy d d' H3. bind_name H3 ln El.
  destruct ln as [|v [|]]; try discriminate.
  apply setitem_scalar_shape in H3. exact H3.
Qed.

Lemma read_stokes_shape (f : ImageFile) (img : ndarray R) :
  read_stokes f = Ok img -> shape img = [f_nx f; f_ny f; 4%nat; f_nfreq f].
Proof.
  unfold read_stokes. intros H.
  apply for_range_shape in H; [exact H|].
  intros iwav a a' H1. apply for_range_shape in H1; [exact H1|].
  intros ix b b' H2. apply for_range_shape in H2; [exact H2|].
  intros iy d d' H3. cbv zeta in H3.
  bind_name H3 d0 E0. bind_name H3 i0 S0.
  bind_name H3 d1 E1. bind_name H3 i1 S1.
  bind_name H3 d2 E2. bind_name H3 i2 S2.
  bind_name H3 d3 E3.
  apply setitem_scalar_shape in H3, S0, S1, S2. congruence.
Qed.

Lemma readImage_layout (f : ImageFile) (c : ImageCube) :
  readImage f = Ok c -> loader_layout c.
Proof.
  unfold readImage. intros H. bind_name H wv Ewv. bind_name H img Eimg.
  injection H as <-.
  assert (Swv : shape wv = [f_nfreq f]).
  { destruct (f_nfreq f <=? length (f_wav f))%nat eqn:E; [|discriminate].
    injection Ewv as <-. cbn [array1 shape]. rewrite length_take.
    apply Nat.leb_le in E. f_equal. lia. }
  split; cbn; try reflexivity; try exact Swv.
  destruct (f_iformat f).
  - apply read_intensity_shape, Eimg.
  - apply read_stokes_shape, Eimg.
Qed.

Lemma load_image_spec (f : ImageFile) (h h' : heap) (im : loc) :
  load_image f h = Ok (im, h') ->
  exists o c, readImage f = Ok c /\
    h' !! im = Some (ObjImage o) /\ image_ok h' o /\ cube_value h' im = Ok c /\
    exists fw, h' !! o_fwhm o = Some (ObjList fw).
Proof.
  unfold load_image. intros H. bind_name H c Ec.
  cbn [alloc] in H.
  set (l1 := fresh (dom h)) in *. set (h1 := <[l1 := ObjDict]> h) in *.
  set (l2 := fresh (dom h1)) in *. set (h2 := <[l2 := ObjList []]> h1) in *.
  set (l3 := fresh (dom h2)) in *. set (h3 := <[l3 := ObjArray (wav c)]> h2) in *.
  set (l4 := fresh (dom h3)) in *. set (h4 := <[l4 := ObjArray (freq c)]> h3) in *.
  set (l5 := fresh (dom h4)) in *. set (h5 := <[l5 := ObjArray (image c)]> h4) in *.
  set (l6 := fresh (dom h5)) in *. set (h6 := <[l6 := ObjArray (imageJyppix c)]> h5) in *.
  set (l7 := fresh (dom h6)) in *. set (h7 := <[l7 := ObjArray (im_x c)]> h6) in *.
  set (l8 := fresh (dom h7)) in *. set (h8 := <[l8 := ObjArray (im_y c)]> h7) in *.
  set (l9 := fresh (dom h8)) in *.
  injection H as <- <-.
  assert (N1 : h !! l1 = None) by (apply not_elem_of_dom, is_fresh).
  assert (N2 : h1 !! l2 = None) by (apply not_elem_of_dom, is_fresh).
  assert (N3 : h2 !! l3 = None) by (apply not_elem_of_dom, is_fresh).
  assert (N4 : h3 !! l4 = None) by (apply not_elem_of_dom, is_fresh).
  assert (N5 : h4 !! l5 = None) by (apply not_elem_of_dom, is_fresh).
  assert (N6 : h5 !! l6 = None) by (apply not_elem_of_dom, is_fresh).
  assert (N7 : h6 !! l7 = None) by (apply not_elem_of_dom, is_fresh).
  assert (N8 : h7 !! l8 = None) by (apply not_elem_of_dom, is_fresh).
  assert (N9 : h8 !! l9 = None) by (apply not_elem_of_dom, is_fresh).
  assert (G1 : h1 ⊆ h2) by (apply insert_subseteq, N2).
  assert (G2 : h2 ⊆ h3) by (apply insert_subseteq, N3).
  assert (G3 : h3 ⊆ h4) by (apply insert_subseteq, N4).
  assert (G4 : h4 ⊆ h5) by (apply insert_subseteq, N5).
  assert (G5 : h5 ⊆ h6) by (apply insert_subseteq, N6).
  assert (G6 : h6 ⊆ h7) by (apply insert_subseteq, N7).
  assert (G7 : h7 ⊆ h8) by (apply insert_subseteq, N8).
  set (obj := ObjImage _).
  assert (G8 : h8 ⊆ <[l9 := obj]> h8) by (apply insert_subseteq, N9).
  assert (T7 : h7 ⊆ <[l9 := obj]> h8) by (etransitivity; eassumption).
  assert (T6 : h6 ⊆ <[l9 := obj]> h8) by (etransitivity; eassumption).
  assert (T5 : h5 ⊆ <[l9 := obj]> h8) by (etransitivity; eassumption).
  assert (T4 : h4 ⊆ <[l9 := obj]> h8) by (etransitivity; eassumption).
  assert (T3 : h3 ⊆ <[l9 := obj]> h8) by (etransitivity; eassumption).
  assert (T2 : h2 ⊆ <[l9 := obj]> h8) by (etransitivity; eassumption).
  assert (T1 : h1 ⊆ <[l9 := obj]> h8) by (etransitivity; eassumption).
  assert (L1 : <[l9 := obj]> h8 !! l1 = Some ObjDict)
    by (eapply lookup_weaken; [apply lookup_insert_eq | exact T1]).
  assert (L2 : <[l9 := obj]> h8 !! l2 = Some (ObjList []))
    by (eapply lookup_weaken; [apply lookup_insert_eq | exact T2]).
  assert (L3 : <[l9 := obj]> h8 !! l3 = Some (ObjArray (wav c)))
    by (eapply lookup_weaken; [apply lookup_insert_eq | exact T3]).
  assert (L4 : <[l9 := obj]> h8 !! l4 = Some (ObjArray (freq c)))
    by (eapply lookup_weaken; [apply lookup_insert_eq | exact T4]).
  assert (L5 : <[l9 := obj]> h8 !! l5 = Some (ObjArray (image c)))
    by (eapply lookup_weaken; [apply lookup_insert_eq | exact T5]).
  assert (L6 : <[l9 := obj]> h8 !! l6 = Some (ObjArray (imageJyppix c)))
    by (eapply lookup_weaken; [apply lookup_insert_eq | exact T6]).
  assert (L7 : <[l9 := obj]> h8 !! l7 = Some (ObjArray (im_x c)))
    by (eapply lookup_weaken; [apply lookup_insert_eq | exact T7]).
  assert (L8 : <[l9 := obj]> h8 !! l8 = Some (ObjArray (im_y c)))
    by (eapply lookup_weaken; [apply lookup_insert_eq | exact G8]).
  subst obj. change (fresh (dom h8)) with l9. clearbody l9 h8.
  eexists _, c. split; [exact Ec|].
  split; [apply lookup_insert_eq|].
  split.
  { constructor; cbv beta iota delta [o_image o_imageJyppix o_x o_y o_freq o_wav
                                       o_psf o_fwhm].
    - exists (image c). exact L5.
    - exists (imageJyppix c). exact L6.
    - exists (im_x c). exact L7.
    - exists (im_y c). exact L8.
    - exists (freq c). exact L4.
    - exists (wav c). exact L3.
    - left. exact L1.
    - exists []. exact L2. }
  split; [|cbv beta iota delta [o_fwhm]; exists []; exact L2].
  unfold cube_value, read_image, read_array. rewrite lookup_insert_eq.
  cbv beta iota delta [mbind result_bind o_image o_imageJyppix o_x o_y o_freq
    o_wav o_nx o_ny o_sizepix_x o_sizepix_y o_nfreq o_nwav o_stokes].
  rewrite L5. cbv beta iota. rewrite L6. cbv beta iota. rewrite L7. cbv beta iota.
  rewrite L8. cbv beta iota. rewrite L4. cbv beta iota. rewrite L3. cbv beta iota.
  destruct c; reflexivity.
Qed.

(** ** readImage returns on a well-formed file *)

Lemma read_intensity_total (f : ImageFile) :
  (forall iwav ix iy, (iwav < f_nfreq f)%nat -> (ix < f_nx f)%nat ->
     (iy < f_ny f)%nat ->
     exists a, f_pixels f !! ((iwav * f_nx f + ix) * f_ny f + iy)%nat = Some [a]) ->
  exists img, read_intensity f = Ok img.
Proof.
  intros Hpix. unfold read_intensity.
  destruct (for_range_total
    (fun _ img => shape img = [f_nx f; f_ny f; f_nfreq f])
    (f_nfreq f)
    (fun iwav img => for_range (f_nx f) (fun ix img =>
       for_range (f_ny f) (fun iy img =>
         ln ← pixel_line f iwav ix iy;
         match ln with
         | [a] => setitem_scalar img [At ix; At iy; At iwav] a
         | _ => Err ValueError
         end) img) img)
    (full 0 [f_nx f; f_ny f; f_nfreq f])) as (img & E & _); [reflexivity| |eauto].
  intros iwav img Hw Hs.
  apply (for_range_total (fun _ img => shape img = [f_nx f; f_ny f; f_nfreq f]));
    [exact Hs|].
  intros ix img1 Hx Hs1.
  apply (for_range_total (fun _ img => shape img = [f_nx f; f_ny f; f_nfreq f]));
    [exact Hs1|].
  intros iy img2 Hy Hs2.
  destruct (Hpix iwav ix iy Hw Hx Hy) as (a & Ha).
  unfold pixel_line. rewrite Ha. cbn [of_option mbind result_bind].
  destruct (setitem_scalar_At img2 [ix; iy; iwav] a) as (img3 & E & Hs3 & _).
  { rewrite Hs2. apply in_bounds_3; assumption. }
  exists img3. split; [exact E | congruence].
Qed.

Lemma read_stokes_total (f : ImageFile) :
  (forall iwav ix iy, (iwav < f_nfreq f)%nat -> (ix < f_nx f)%nat ->
     (iy < f_ny f)%nat ->
     exists a b c d,
       f_pixels f !! ((iwav * f_nx f + ix) * f_ny f + iy)%nat = Some [a; b; c; d]) ->
  exists img, read_stokes f = Ok img.
Proof.
  intros Hpix. unfold read_stokes.
  set (P := fun (_ : nat) (img : ndarray R) =>
              shape img = [f_nx f; f_ny f; 4%nat; f_nfreq f]).
  destruct (for_range_total P (f_nfreq f)
    (fun iwav img => for_range (f_nx f) (fun ix img =>
       for_range (f_ny f) (fun iy img =>
         let dum := split_line f iwav ix iy in
         d0 ← of_option IndexError (dum !! 0%nat);
         img ← setitem_scalar img [At ix; At iy; At 0%nat; At iwav] d0;
         d1 ← of_option IndexError (dum !! 1%nat);
         img ← setitem_scalar img [At ix; At iy; At 1%nat; At iwav] d1;
         d2 ← of_option IndexError (dum !! 2%nat);
         img ← setitem_scalar img [At ix; At iy; At 2%nat; At iwav] d2;
         d3 ← of_option IndexError (dum !! 3%nat);
         setitem_scalar img [At ix; At iy; At 3%nat; At iwav] d3) img) img)
    (full 0 [f_nx f; f_ny f; 4%nat; f_nfreq f])) as (img & E & _);
    [reflexivity| |eauto].
  intros iwav img Hw Hs. unfold P in *.
  apply (for_range_total (fun _ img => shape img = [f_nx f; f_ny f; 4%nat; f_nfreq f]));
    [exact Hs|].
  intros ix img1 Hx Hs1.
  apply (for_range_total (fun _ img => shape img = [f_nx f; f_ny f; 4%nat; f_nfreq f]));
    [exact Hs1|].
  intros iy img2 Hy Hs2.
  destruct (Hpix iwav ix iy Hw Hx Hy) as (a & b & c & d & Ha).
  unfold split_line. rewrite Ha. cbv zeta.
  cbn [of_option mbind result_bind lookup list_lookup].
  destruct (setitem_scalar_At img2 [ix; iy; 0%nat; iwav] a) as (i0 & E0 & S0 & _).
  { rewrite Hs2. apply in_bounds_4; try assumption; lia. }
  cbn [map] in E0. rewrite E0. cbn [mbind result_bind].
  destruct (setitem_scalar_At i0 [ix; iy; 1%nat; iwav] b) as (i1 & E1 & S1 & _).
  { rewrite S0, Hs2. apply in_bounds_4; try assumption; lia. }
  cbn [map] in E1. rewrite E1. cbn [mbind result_bind].
  destruct (setitem_scalar_At i1 [ix; iy; 2%nat; iwav] c) as (i2 & E2 & S2 & _).
  { rewrite S1, S0, Hs2. apply in_bounds_4; try assumption; lia. }
  cbn [map] in E2. rewrite E2. cbn [mbind result_bind].
  destruct (setitem_scalar_At i2 [ix; iy; 3%nat; iwav] d) as (i3 & E3 & S3 & _).
  { rewrite S2, S1, S0, Hs2. apply in_bounds_4; try assumption; lia. }
  cbn [map] in E3. exists i3. split; [exact E3 | congruence].
Qed.

Lemma load_image_total (f : ImageFile) (c : ImageCube) (h : heap) :
  readImage f = Ok c -> exists im h', load_image f h = Ok (im, h').
Proof.
  intros E. unfold load_image. rewrite E. cbn [mbind result_bind].
  unfold alloc. eexists _, _. reflexivity.
Qed.

Lemma uniform_file_loads : exists c, readImage uniform_file = Ok c.
Proof.
  destruct (read_intensity_total uniform_file) as (img & E).
  - intros iwav ix iy Hw Hx Hy. exists 1. cbn in Hw, Hx, Hy.
    replace iwav with 0%nat by lia.
    destruct ix as [|[|[|[|ix]]]]; try lia;
      destruct iy as [|[|[|[|iy]]]]; try lia; reflexivity.
  - unfold readImage.
    change (f_nfreq uniform_file <=? length (f_wav uniform_file))%nat with true.
    cbn [mbind result_bind].
    change (f_iformat uniform_file) with Intensity. cbv iota.
    rewrite E. cbn [mbind result_bind]. eexists. reflexivity.
Qed.

Lemma stokes_file_loads :
  exists c, readImage stokes_file = Ok c /\ stokes c = true /\ nfreq c = 1%nat /\
            nx c = 2%nat /\ ny c = 2%nat.
Proof.
  destruct (read_stokes_total stokes_file) as (img & E).
  - intros iwav ix iy Hw Hx Hy. exists 1, 0, 0, 0. cbn in Hw, Hx, Hy.
    replace iwav with 0%nat by lia.
    destruct ix as [|[|ix]]; try lia;
      destruct iy as [|[|iy]]; try lia; reflexivity.
  - unfold readImage.
    change (f_nfreq stokes_file <=? length (f_wav stokes_file))%nat with true.
    cbn [mbind result_bind].
    change (f_iformat stokes_file) with StokesIQUV. cbv iota.
    rewrite E. cbn [mbind result_bind]. eexists. split; [reflexivity|].
    cbn. auto.
Qed.

(** ** imConv on a single-frequency Stokes cube from the loader *)

(** The first pass of the [nfreq == 1] Stokes branch on a four-axis image:
    the selection [image[:,:,istokes]] keeps the frequency axis, and the
    convolved value cannot be assigned to the two-axis target. *)
Lemma stokes_single_plane_fails (h : heap) (o : radmc3dImage)
    (f_psf : ndarray C) (img cimage : ndarray R) (istokes : nat) :
  h !! o_image o = Some (ObjArray img) ->
  shape img = [o_nx o; o_ny o; 4%nat; 1%nat] ->
  shape f_psf = [o_nx o; o_ny o] ->
  shape cimage = [o_nx o; o_ny o; 4%nat] ->
  (2 <= o_nx o)%nat -> (istokes < 4)%nat ->
  (img ← read_array h (o_image o);
   imag ← getitem img [All; All; At istokes];
   p ← convolve_plane f_psf imag;
   setitem cimage [All; All; At istokes] p) = Err ValueError.
Proof.
  intros Himg Simg Sf Sc Hnx Hs4.
  unfold read_array. rewrite Himg. cbn [mbind result_bind].
  rewrite (getitem_Ok img _ [o_nx o; o_ny o; 1%nat]).
  2:{ rewrite Simg. cbn -[Nat.ltb]. apply Nat.ltb_lt in Hs4. rewrite Hs4. reflexivity. }
  cbn [mbind result_bind]. unfold convolve_plane, fft2.
  cbn [nd_map shape split_last2 rev app mbind result_bind].
  unfold nd_zip. cbn [shape]. rewrite Sf.
  unfold broadcast_shapes. cbn [rev app bshape_rev].
  assert (Hb1 : bdim (o_ny o) 1 = Some (o_ny o)).
  { unfold bdim. destruct (Nat.eqb_spec (o_ny o) 1) as [->|]; reflexivity. }
  rewrite Hb1.
  destruct (bdim (o_nx o) (o_nx o)) eqn:Hb0; cycle 1.
  { rewrite bdim_refl in Hb0. discriminate. }
  clear Hb0.
  destruct (bdim (o_nx o) (o_ny o)) as [d|] eqn:Hb2; [|reflexivity].
  cbn [rev app mbind result_bind]. unfold ifft2.
  cbn [shape split_last2 rev app mbind result_bind].
  unfold setitem. rewrite Sc. cbn -[Nat.ltb assignable].
  apply Nat.ltb_lt in Hs4. rewrite Hs4. cbn [mbind result_bind].
  cbn [nd_map ifftshift shape].
  unfold assignable. cbn [length Nat.sub].
  destruct (o_nx o) as [|[|nx2]]; [lia | lia |].
  cbn [strip_leading_ones length Nat.leb andb]. reflexivity.
Qed.

Lemma imConv_stokes_single (self fwhm : loc) (p dpc fx fy : R) (h : heap)
    (c : ImageCube) :
  cube_value h self = Ok c -> loader_layout c ->
  stokes c = true -> nfreq c = 1%nat -> (2 <= nx c)%nat ->
  h !! fwhm = Some (ObjList [fx; fy]) ->
  imConv self fwhm (Some p) dpc h = Err ValueError.
Proof.
  intros Hc Hlay Hst Hnf Hnx Hfw.
  destruct (cube_value_inv h self c Hc)
    as (o & Ho & Him & _ & _ & _ & _ & _ & Enx & Eny & _ & _ & Enf & _ & Est).
  pose proof (lay_image _ Hlay) as Lim. rewrite Hst, Hnf, Enx, Eny in Lim.
  unfold imConv.
  rewrite (proj2 (read_image_Ok _ _ _) Ho). cbn [mbind result_bind].
  rewrite (proj2 (read_list_Ok _ _ _) Hfw). cbn [mbind result_bind].
  destruct (getPSF_spec (o_nx o) (o_ny o) fx fy p
              (Some (o_sizepix_x o / au_cm / dpc, o_sizepix_y o / au_cm / dpc)))
    as (dum & k & -> & _ & Spsf & _).
  cbn [mbind result_bind].
  destruct (fft2_2d (nd_map RtoC (psf dum)) (o_nx o) (o_ny o) Spsf) as (f_psf & -> & Sf).
  cbn [mbind result_bind].
  assert (Hcube : convolve_cube h o f_psf = Err ValueError).
  { unfold convolve_cube. rewrite <- Est, Hst, <- Enf, Hnf. cbn [Nat.eqb].
    apply (for_range_fails
             (fun _ ci => shape ci = [o_nx o; o_ny o; 4%nat]) 4 0).
    - lia.
    - reflexivity.
    - intros; lia.
    - intros ci Sci.
      apply (stokes_single_plane_fails h o f_psf (image c) ci 0); try assumption; lia. }
  rewrite Hcube. reflexivity.
Qed.

(** ** Scenes: a loaded cube and a [fwhm] list *)

Lemma image_ok_weaken (h h' : heap) (o : radmc3dImage) :
  image_ok h o -> h ⊆ h' -> image_ok h' o.
Proof.
  intros [K1 K2 K3 K4 K5 K6 K7 K8] Hsub.
  split.
  - destruct K1 as [a Ka]. exists a. eapply lookup_weaken; eassumption.
  - destruct K2 as [a Ka]. exists a. eapply lookup_weaken; eassumption.
  - destruct K3 as [a Ka]. exists a. eapply lookup_weaken; eassumption.
  - destruct K4 as [a Ka]. exists a. eapply lookup_weaken; eassumption.
  - destruct K5 as [a Ka]. exists a. eapply lookup_weaken; eassumption.
  - destruct K6 as [a Ka]. exists a. eapply lookup_weaken; eassumption.
  - destruct K7 as [K7|[a Ka]]; [left | right; exists a];
      eapply lookup_weaken; eassumption.
  - destruct K8 as [a Ka]. exists a. eapply lookup_weaken; eassumption.
Qed.

Lemma load_scene_spec (f : ImageFile) (fx fy : R) (im fw : loc) (h : heap) :
  load_scene f fx fy = Ok (im, fw, h) ->
  exists o c, readImage f = Ok c /\
    h !! im = Some (ObjImage o) /\ image_ok h o /\ cube_value h im = Ok c /\
    h !! fw = Some (ObjList [fx; fy]).
Proof.
  unfold load_scene. intros H. bind_name H p Ep. destruct p as [im1 h1].
  cbn [alloc] in H. injection H as <- <- <-.
  destruct (load_image_spec f ∅ h1 im1 Ep) as (o & c & Ec & Ho & Hok & Hc & _).
  assert (Hn : h1 !! fresh (dom h1) = None) by (apply not_elem_of_dom, is_fresh).
  assert (Hsub : h1 ⊆ <[fresh (dom h1) := ObjList [fx; fy]]> h1)
    by (apply insert_subseteq, Hn).
  exists o, c. split; [exact Ec|].
  split; [eapply lookup_weaken; eassumption|].
  split; [eapply image_ok_weaken; eassumption|].
  split; [eapply cube_value_weaken; eassumption|].
  apply lookup_insert_eq.
Qed.

Lemma load_scene_total (f : ImageFile) (fx fy : R) (c : ImageCube) :
  readImage f = Ok c -> exists im fw h, load_scene f fx fy = Ok (im, fw, h).
Proof.
  intros E. destruct (load_image_total f c ∅ E) as (im & h1 & E1).
  unfold load_scene. rewrite E1. cbn [mbind result_bind alloc].
  eexists _, _, _. reflexivity.
Qed.

Lemma readImage_header (f : ImageFile) (c : ImageCube) :
  readImage f = Ok c ->
  nx c = f_nx f /\ ny c = f_ny f /\ nfreq c = f_nfreq f /\
  stokes c = match f_iformat f with
             | Intensity => false
             | StokesIQUV => true
             end.
Proof.
  unfold readImage. intros H. bind_name H wv Ewv. bind_name H img Eimg.
  injection H as <-. cbn. auto.
Qed.

(** ** C1: the degenerate triangle on the uniform cube *)

(** C1 (evaluation at the failing input).  On the uniform 4 x 4 cube with one
    wavelength, [getClosurePhase] called with the single triangle
    [bl = [[0, 0, 0]]] does not return closure phases: line 151 looks up
    [self.get_visibility], a name that is bound neither on the instance nor
    on the class (the method is [getVisibility]), and the call ends in
    [AttributeError], for every wavelength, position angles and distance. *)
Theorem C1_closure_phase_attribute_error (w p0 p1 p2 d : R) :
  getClosurePhase (uniform_cube w) (array2 3 [[0; 0; 0]])
    (array2 3 [[p0; p1; p2]]) (Some d) = Err AttributeError.
Proof. reflexivity. Qed.

(** ** The loop of getClosurePhase *)

(** Everything one pass of the loop stores: the phases of the triangle, its
    closure phase, and nothing in the rows of the other triangles. *)
Lemma closure_store_spec (itri ntri nwav : nat) (dum : VisRes) (res : ClosureRes) :
  (itri < ntri)%nat ->
  vis_shaped 3 nwav dum ->
  closure_shaped ntri nwav res ->
  exists res', closure_store itri dum res = Ok res' /\
    closure_shaped ntri nwav res' /\
    c_bl res' = c_bl res /\ c_pa res' = c_pa res /\
    (forall j iwav, (j < 3)%nat -> (iwav < nwav)%nat ->
       at_ (c_phase res') [itri; j; iwav] = at_ (v_phase dum) [j; iwav]) /\
    (forall iwav, (iwav < nwav)%nat ->
       at_ (c_cp res') [itri; iwav] =
       spec_closure_phase (at_ (v_phase dum) [0%nat; iwav])
                          (at_ (v_phase dum) [1%nat; iwav])
                          (at_ (v_phase dum) [2%nat; iwav])) /\
    (forall i idx, i <> itri ->
       at_ (c_phase res') (i :: idx) = at_ (c_phase res) (i :: idx) /\
       at_ (c_cp res') (i :: idx) = at_ (c_cp res) (i :: idx)).
Proof.
  intros Hi [Du Dv Dvis Damp Dph] [Ru Rv Rvis Ramp Rph Rcp].
  pose proof Hi as Hib. apply Nat.ltb_lt in Hib.
  assert (Hsub3 : sub_shape [At itri; All; All] [ntri; 3%nat; nwav] =
                  Ok [3%nat; nwav]).
  { cbn -[Nat.ltb]. rewrite Hib. reflexivity. }
  unfold closure_store.
  destruct (store_triangle (c_u res) (v_u dum) itri ntri nwav Hi Ru Du) as (u & -> & Su).
  destruct (store_triangle (c_v res) (v_v dum) itri ntri nwav Hi Rv Dv) as (v & -> & Sv).
  destruct (store_triangle (c_vis res) (v_vis dum) itri ntri nwav Hi Rvis Dvis)
    as (vis & -> & Svis).
  destruct (store_triangle (c_amp res) (v_amp dum) itri ntri nwav Hi Ramp Damp)
    as (amp & -> & Samp).
  destruct (setitem_same (c_phase res) (v_phase dum) [At itri; All; All] [3%nat; nwav])
    as (ph & -> & Sph & Hphsel & Hphoth).
  { rewrite Rph. exact Hsub3. }
  { exact Dph. }
  cbn [mbind result_bind].
  unfold nd_sum0. rewrite Dph. cbn [mbind result_bind].
  set (s := NdArray [nwav] _).
  destruct (setitem_same (c_cp res) (nd_map (fun a => pymod (a / PI * 180) 360) s)
              [At itri; All] [nwav]) as (cp & -> & Hcs & Hsel & Hoth).
  { rewrite Rcp. cbn -[Nat.ltb]. rewrite Hib. reflexivity. }
  { reflexivity. }
  cbn [mbind result_bind].
  rewrite (getitem_Ok cp [At itri; All] [nwav])
    by (rewrite Hcs, Rcp; cbn -[Nat.ltb]; rewrite Hib; reflexivity).
  cbn [mbind result_bind]. unfold mask_of. cbn [shape mbind result_bind at_].
  set (m := fun j : nat => Rltb 180 (at_ cp (sub_index [At itri; All] [j]))).
  assert (Hcpv : forall iwav, (iwav < nwav)%nat ->
            at_ cp [itri; iwav] =
            pymod ((at_ (v_phase dum) [0%nat; iwav] + at_ (v_phase dum) [1%nat; iwav]
                    + at_ (v_phase dum) [2%nat; iwav]) / PI * 180) 360).
  { intros iwav Hw. rewrite Hsel.
    - cbn [sub_position nd_map at_]. subst s. cbn [at_].
      rewrite sum_upto_3. reflexivity.
    - rewrite Rcp. cbn -[Nat.ltb]. rewrite Hib.
      apply Nat.ltb_lt in Hw. rewrite Hw. reflexivity.
    - cbn. rewrite Nat.eqb_refl. reflexivity. }
  assert (Hm : forall iwav, (iwav < nwav)%nat ->
            (if m iwav then at_ cp [itri; iwav] - 360 else at_ cp [itri; iwav]) =
            spec_closure_phase (at_ (v_phase dum) [0%nat; iwav])
              (at_ (v_phase dum) [1%nat; iwav]) (at_ (v_phase dum) [2%nat; iwav])).
  { intros iwav Hw. unfold spec_closure_phase. cbv zeta.
    rewrite <- (Hcpv iwav Hw). subst m. cbn [sub_index]. unfold Rltb.
    do 2 case_bool_decide; lra. }
  assert (Hphase : forall j iwav, (j < 3)%nat -> (iwav < nwav)%nat ->
            at_ ph [itri; j; iwav] = at_ (v_phase dum) [j; iwav]).
  { intros j iwav Hj Hw. rewrite Hphsel; [reflexivity| |].
    - rewrite Rph. apply in_bounds_3; assumption.
    - cbn. rewrite Nat.eqb_refl. reflexivity. }
  assert (Hphrest : forall i idx, i <> itri ->
            at_ ph (i :: idx) = at_ (c_phase res) (i :: idx)).
  { intros i idx Hne. apply Hphoth. cbn.
    destruct (Nat.eqb_spec itri i); [congruence | reflexivity]. }
  assert (Hcprest : forall i idx, i <> itri ->
            at_ cp (i :: idx) = at_ (c_cp res) (i :: idx)).
  { intros i idx Hne. apply Hoth. cbn.
    destruct (Nat.eqb_spec itri i); [congruence | reflexivity]. }
  destruct (0 <? mask_count (Mask nwav m))%nat eqn:Hc.
  - unfold modify. rewrite Hcs, Rcp.
    cbn -[Nat.ltb]. rewrite Hib, Nat.eqb_refl. cbn [andb mbind result_bind].
    eexists. split; [reflexivity|].
    split; [split; cbn [c_u c_v c_vis c_amp c_phase c_cp shape]; congruence|].
    cbn [c_bl c_pa c_phase c_cp at_].
    split; [reflexivity|]. split; [reflexivity|].
    split; [exact Hphase|]. split.
    + intros iwav Hw. rewrite <- (Hm iwav Hw).
      pose proof Hw as Hwb. apply Nat.ltb_lt in Hwb.
      cbn -[Nat.ltb]. rewrite Hib, Hwb, Nat.eqb_refl. cbn [andb].
      rewrite andb_true_r. reflexivity.
    + intros i idx Hne. split; [apply Hphrest, Hne|].
      rewrite <- (Hcprest i idx Hne).
      cbn -[Nat.ltb in_bounds].
      destruct (Nat.eqb_spec itri i); [congruence|].
      cbn [andb]. rewrite andb_false_r. reflexivity.
  - cbn [mbind result_bind]. eexists. split; [reflexivity|].
    split; [split; cbn [c_u c_v c_vis c_amp c_phase c_cp shape]; congruence|].
    cbn [c_bl c_pa c_phase c_cp].
    split; [reflexivity|]. split; [reflexivity|].
    split; [exact Hphase|]. split.
    + intros iwav Hw. rewrite <- (Hm iwav Hw).
      destruct (m iwav) eqn:Hmi; [|reflexivity].
      apply Nat.ltb_ge in Hc.
      pose proof (mask_count_pos nwav m iwav Hw Hmi). lia.
    + intros i idx Hne. split; [apply Hphrest, Hne | apply Hcprest, Hne].
Qed.

(** The only attribute that is a visibility routine. *)
Lemma radmc3dImage_getattr_Ok (name : string) (f : visibility_routine) :
  radmc3dImage_getattr name = Ok f -> f = getVisibility.
Proof.
  unfold radmc3dImage_getattr. repeat case_bool_decide; congruence.
Qed.

Lemma closure_triangle_step (name : string) (self : ImageCube)
    (bl pa : ndarray R) (dpc : option R) (ntri itri : nat)
    (res res' : ClosureRes) :
  shape bl = [ntri; 3%nat] -> (itri < ntri)%nat ->
  closure_shaped ntri (nwav self) res ->
  c_bl res = bl -> c_pa res = pa ->
  triangles_done self bl pa dpc itri res ->
  closure_triangle name self dpc itri res = Ok res' ->
  closure_shaped ntri (nwav self) res' /\
  c_bl res' = bl /\ c_pa res' = pa /\
  triangles_done self bl pa dpc (S itri) res'.
Proof.
  intros Hbl Hi Hs Ebl Epa Hdone H. unfold closure_triangle in H.
  bind_name H f Ef. apply radmc3dImage_getattr_Ok in Ef. subst f.
  bind_name H tbl Etbl. bind_name H tpa Etpa. bind_name H dum Edum.
  rewrite Ebl in Etbl. rewrite Epa in Etpa.
  assert (Stbl : shape tbl = [3%nat]).
  { unfold getitem in Etbl. rewrite Hbl in Etbl.
    cbn -[Nat.ltb] in Etbl. apply Nat.ltb_lt in Hi. rewrite Hi in Etbl.
    cbn in Etbl. injection Etbl as <-. reflexivity. }
  destruct (getVisibility_points self tbl tpa dpc dum Edum) as (nbl & Enbl & Hv & _).
  unfold shape_at in Enbl. rewrite Stbl in Enbl. cbn in Enbl.
  injection Enbl as <-.
  destruct (closure_store_spec itri ntri (nwav self) dum res Hi Hv Hs)
    as (r & Er & Hs' & Ebl' & Epa' & Hph & Hcp & Hrest).
  rewrite Er in H. injection H as <-.
  split; [exact Hs'|]. split; [congruence|]. split; [congruence|].
  intros i Hlt. destruct (Nat.eq_dec i itri) as [->|Hne].
  - exists tbl, tpa, dum. repeat (split; [assumption|]).
    intros iwav Hw. split; [intros j Hj; apply Hph; assumption | apply Hcp, Hw].
  - destruct (Hdone i ltac:(lia)) as (tb & tp & du & E1 & E2 & E3 & Hold).
    exists tb, tp, du. repeat (split; [assumption|]).
    intros iwav Hw. destruct (Hold iwav Hw) as [Hp Hc].
    split.
    + intros j Hj. destruct (Hrest i [j; iwav] Hne) as [-> _]. apply Hp, Hj.
    + destruct (Hrest i [iwav] Hne) as [_ ->]. exact Hc.
Qed.

(** Whatever the loop returns holds, for every triangle, the phases that
    the visibility routine returned for its three baselines and the closure
    phase of the specification. *)
Lemma getClosurePhase_via_inv (name : string) (self : ImageCube)
    (bl pa : ndarray R) (dpc : option R) (ntri : nat) (res : ClosureRes) :
  shape bl = [ntri; 3%nat] ->
  getClosurePhase_via name self bl pa dpc = Ok res ->
  triangles_done self bl pa dpc ntri res.
Proof.
  intros Hbl H. unfold getClosurePhase_via in H.
  unfold shape_at in H. rewrite Hbl in H.
  cbn [lookup list_lookup of_option mbind result_bind] in H.
  bind_name H d Ed. do 4 bind_split H. cbn [c_ntri] in H.
  apply (for_range_inv
    (fun k r => closure_shaped ntri (nwav self) r /\ c_bl r = bl /\ c_pa r = pa /\
                triangles_done self bl pa dpc k r)) in H.
  - apply H.
  - split; [split; reflexivity|]. split; [reflexivity|]. split; [reflexivity|].
    intros i Hi. lia.
  - intros i s s' Hi (Hs & Ebl & Epa & Hdone) Hstep.
    apply (closure_triangle_step name self bl pa dpc ntri i s s'); assumption.
Qed.

(** As the method is written, a call that returns has passed no triangle. *)
Lemma getClosurePhase_no_triangle (self : ImageCube) (bl pa : ndarray R)
    (dpc : option R) (res : ClosureRes) :
  getClosurePhase self bl pa dpc = Ok res ->
  c_ntri res = 0%nat /\ shape (c_cp res) = [0%nat; nwav self].
Proof.
  unfold getClosurePhase, getClosurePhase_via. intros H.
  bind_name H ntri En. bind_name H d Ed. do 4 bind_split H. cbn [c_ntri] in H.
  destruct ntri as [|n].
  - rewrite for_range_0 in H. injection H as <-. split; reflexivity.
  - exfalso. revert H.
    rewrite (for_range_fails (fun _ _ => True) (S n) 0 AttributeError);
      [discriminate | lia | exact I | intros; lia | reflexivity].
Qed.

Lemma spec_closure_phase_wrap (p0 p1 p2 : R) :
  ((p0 + p1 + p2) / PI * 180 = 200 -> spec_closure_phase p0 p1 p2 = -160) /\
  ((p0 + p1 + p2) / PI * 180 = 180 -> spec_closure_phase p0 p1 p2 = 180).
Proof.
  unfold spec_closure_phase. cbv zeta.
  split; intros ->; rewrite pymod_small by lra; case_bool_decide; lra.
Qed.

(** Lines 152-160 on a dictionary whose three phases add up to 200
    degrees: the closure phase stored is -160. *)
Lemma closure_store_200 :
  exists res', closure_store 0 dum_200 res_empty = Ok res' /\
               at_ (c_cp res') [0%nat; 0%nat] = -160.
Proof.
  destruct (closure_store_cp 0 1 1 dum_200 res_empty) as (res' & E & H).
  - lia.
  - split; reflexivity.
  - split; reflexivity.
  - exists res'. split; [exact E|].
    rewrite (H 0%nat) by lia.
    apply spec_closure_phase_wrap. cbn [dum_200 v_phase at_].
    pose proof PI_RGT_0. field. lra.
Qed.

(** ** C2: the closure phase of a triangle *)

(** C2 (what the method does, and what its loop is written to do).
    [getClosurePhase] never reaches the closure phase: line 151 looks up
    [self.get_visibility], a name that is not bound (the method is
    [getVisibility]), so a call with a triangle raises [AttributeError]
    before lines 152-160 run (first part: on the uniform cube, for every
    triangle, position angles and distance), and a call that returns has
    passed no triangle and returns an empty [cp] array (second part).
    Lines 152-160 do what the specification says (third part): with the
    routine looked up under the name it has, every triangle of every
    returned result holds the three phases that [getVisibility] returns for
    the baselines of the triangle and, for every wavelength, as closure
    phase their sum in degrees modulo 360, less 360 when that exceeds 180;
    the value lies in (-180, 180], a raw sum of exactly 200 degrees gives
    -160 and a raw sum of exactly 180 degrees stays 180. *)
Theorem C2_closure_phase_wrap :
  (forall w b0 b1 b2 p0 p1 p2 d,
     getClosurePhase (uniform_cube w) (array2 3 [[b0; b1; b2]])
       (array2 3 [[p0; p1; p2]]) (Some d) = Err AttributeError) /\
  (forall self bl pa dpc res,
     getClosurePhase self bl pa dpc = Ok res ->
     c_ntri res = 0%nat /\ shape (c_cp res) = [0%nat; nwav self]) /\
  (forall self bl pa dpc ntri res,
     shape bl = [ntri; 3%nat] ->
     getClosurePhase_via "getVisibility" self bl pa dpc = Ok res ->
     forall itri, (itri < ntri)%nat ->
       exists tbl tpa dum,
         getitem bl [At itri; All] = Ok tbl /\
         getitem pa [At itri; All] = Ok tpa /\
         getVisibility self tbl tpa dpc = Ok dum /\
         forall iwav, (iwav < nwav self)%nat ->
           let p0 := at_ (v_phase dum) [0%nat; iwav] in
           let p1 := at_ (v_phase dum) [1%nat; iwav] in
           let p2 := at_ (v_phase dum) [2%nat; iwav] in
           let cp := at_ (c_cp res) [itri; iwav] in
           at_ (c_phase res) [itri; 0%nat; iwav] = p0 /\
           at_ (c_phase res) [itri; 1%nat; iwav] = p1 /\
           at_ (c_phase res) [itri; 2%nat; iwav] = p2 /\
           cp = spec_closure_phase p0 p1 p2 /\
           -180 < cp <= 180 /\
           ((p0 + p1 + p2) / PI * 180 = 200 -> cp = -160) /\
           ((p0 + p1 + p2) / PI * 180 = 180 -> cp = 180)).
Proof.
  split; [|split].
  - intros. reflexivity.
  - apply getClosurePhase_no_triangle.
  - intros self bl pa dpc ntri res Hbl H itri Hi.
    destruct (getClosurePhase_via_inv _ self bl pa dpc ntri res Hbl H itri Hi)
      as (tbl & tpa & dum & E1 & E2 & E3 & Hv).
    exists tbl, tpa, dum. repeat (split; [assumption|]).
    intros iwav Hw. cbv zeta. destruct (Hv iwav Hw) as [Hp Hc].
    rewrite !Hp by lia. rewrite Hc.
    repeat (split; [reflexivity|]).
    split; [apply spec_closure_phase_range|].
    apply spec_closure_phase_wrap.
Qed.

Lemma C2_closure_phase_wrap_witness :
  getClosurePhase (uniform_cube 1) (array2 3 [[10; 20; 30]])
    (array2 3 [[0; 60; 120]]) (Some 140) = Err AttributeError /\
  exists res,
    getClosurePhase_via "getVisibility" (uniform_cube 1)
      (array2 3 [[0; 0; 0]]) (array2 3 [[0; 60; 120]]) (Some 140) = Ok res /\
    -180 < at_ (c_cp res) [0%nat; 0%nat] <= 180.
Proof.
  destruct C2_closure_phase_wrap as (Hfail & _ & Hloop).
  split; [apply Hfail|].
  destruct (closure_phase_resolved 1 0 60 120 140) as (res & E & _); [lra|].
  exists res. split; [exact E|].
  destruct (Hloop (uniform_cube 1) (array2 3 [[0; 0; 0]])
              (array2 3 [[0; 60; 120]]) (Some 140) 1%nat res eq_refl E 0%nat)
    as (tbl & tpa & dum & _ & _ & _ & Hw); [lia|].
  destruct (Hw 0%nat) as (_ & _ & _ & _ & Hr & _); [cbn; lia|].
  exact Hr.
Defined.

(** ** C3: normalisation of the PSF *)

(** C3 (as amended).  For positive [fwhm = (fx, fy)] and position angle 0,
    [getPSF] divides every value of the kernel by
    [1 / (2*pi*sigma_x*sigma_y)], with [sigma = fwhm / (2*sqrt(2*ln 2))] per
    axis.  Before the division the kernel has its peak, exactly 1, at the
    centre pixel [(nx/2, ny/2)]; after it the centre value is
    [2*pi*sigma_x*sigma_y], the reciprocal of the normalisation constant. *)
Theorem C3_psf_normalisation (nx ny : nat) (fx fy : R)
    (pscale : option (R * R)) :
  0 < fx -> 0 < fy -> (0 < nx)%nat -> (0 < ny)%nat ->
  let sigmax := fx / (2 * sqrt (2 * ln 2)) in
  let sigmay := fy / (2 * sqrt (2 * ln 2)) in
  let norm := 1 / (2 * PI * sigmax * sigmay) in
  exists r k,
    getPSF nx ny [fx; fy] (Some 0) pscale = Ok r /\
    psf_kernel nx ny (psf_x r) (psf_y r) sigmax sigmay
      (sin (0 / 180 * PI - PI / 2)) (cos (0 / 180 * PI - PI / 2)) = Ok k /\
    (forall ix iy, (ix < nx)%nat -> (iy < ny)%nat ->
       at_ (psf r) [ix; iy] = at_ k [ix; iy] / norm) /\
    (forall ix iy, (ix < nx)%nat -> (iy < ny)%nat -> at_ k [ix; iy] <= 1) /\
    at_ k [(nx / 2)%nat; (ny / 2)%nat] = 1 /\
    at_ (psf r) [(nx / 2)%nat; (ny / 2)%nat] = 2 * PI * sigmax * sigmay /\
    2 * PI * sigmax * sigmay = 1 / norm.
Proof.
  intros Hfx Hfy Hnx Hny sigmax sigmay norm.
  assert (Esx : sigmax = psf_sigma fx).
  { unfold sigmax, psf_sigma. f_equal. f_equal; [lra|]. f_equal. lra. }
  assert (Esy : sigmay = psf_sigma fy).
  { unfold sigmay, psf_sigma. f_equal. f_equal; [lra|]. f_equal. lra. }
  assert (En : norm = psf_norm (psf_sigma fx) (psf_sigma fy)).
  { unfold norm, psf_norm. rewrite Esx, Esy. reflexivity. }
  pose proof (psf_sigma_pos fx Hfx) as Hsx.
  pose proof (psf_sigma_pos fy Hfy) as Hsy.
  destruct (getPSF_spec nx ny fx fy 0 pscale)
    as (r & k & Hr & Hk & Hs & Hdiv & Hv & Hx0 & Hy0).
  assert (Hc : at_ k [(nx / 2)%nat; (ny / 2)%nat] = 1).
  { rewrite Hv.
    - apply gauss_origin; assumption.
    - apply Nat.div_lt; lia.
    - apply Nat.div_lt; lia. }
  exists r, k. rewrite Esx, Esy, En.
  split; [exact Hr|]. split; [exact Hk|].
  split; [intros; apply Hdiv|].
  split; [intros ix iy Hix Hiy; rewrite Hv by assumption;
          apply gauss_le_1; assumption|].
  split; [exact Hc|].
  rewrite <- psf_norm_inv by assumption.
  split; [|reflexivity].
  rewrite Hdiv, Hc. reflexivity.
Qed.

Lemma C3_psf_normalisation_witness :
  exists r, getPSF 2 2 [4; 4] (Some 0) None = Ok r /\
            at_ (psf r) [1%nat; 1%nat]
            = 2 * PI * (4 / (2 * sqrt (2 * ln 2))) * (4 / (2 * sqrt (2 * ln 2))).
Proof.
  destruct (C3_psf_normalisation 2 2 4 4 None) as (r & k & Hr & _ & _ & _ & _ & Hc & _).
  - lra.
  - lra.
  - lia.
  - lia.
  - exists r. split; [exact Hr | exact Hc].
Defined.

Lemma psf_sigma_4_gt_1 : 1 < psf_sigma 4.
Proof.
  unfold psf_sigma.
  assert (H : sqrt (2.0 * ln 2) < 2).
  { rewrite <- (sqrt_square 2) at 2 by lra.
    apply sqrt_lt_1_alt. pose proof ln2_pos. pose proof ln2_lt_1. lra. }
  assert (H0 : 0 < sqrt (2.0 * ln 2)).
  { apply sqrt_lt_R0. pose proof ln2_pos. lra. }
  apply Rmult_lt_reg_r with (2.0 * sqrt (2.0 * ln 2)); [lra|].
  unfold Rdiv. rewrite Rmult_assoc, Rinv_l by lra. lra.
Qed.

(** Counterexample to C3 as stated: with [fwhm = (4, 4)] on a 2 x 2 grid the
    centre value after the normalisation is not 1, and the peak before the
    division is not the reciprocal of the normalisation constant. *)
Lemma C3_centre_is_not_one :
  exists r k,
    getPSF 2 2 [4; 4] (Some 0) None = Ok r /\
    psf_kernel 2 2 (psf_x r) (psf_y r) (psf_sigma 4) (psf_sigma 4)
      (sin (0 / 180 * PI - PI / 2)) (cos (0 / 180 * PI - PI / 2)) = Ok k /\
    at_ (psf r) [1%nat; 1%nat] <> 1 /\
    at_ k [1%nat; 1%nat] <> 1 / psf_norm (psf_sigma 4) (psf_sigma 4).
Proof.
  destruct (getPSF_spec 2 2 4 4 0 None)
    as (r & k & Hr & Hk & Hs & Hdiv & Hv & Hx0 & Hy0).
  exists r, k. split; [exact Hr|]. split; [exact Hk|].
  assert (Hc : at_ k [1%nat; 1%nat] = 1).
  { rewrite Hv by lia. apply gauss_origin; assumption. }
  pose proof psf_sigma_4_gt_1 as Hs4. pose proof PI_RGT_0 as Hpi.
  pose proof PI2_1 as Hpi2.
  assert (Hbig : 1 < 1 / psf_norm (psf_sigma 4) (psf_sigma 4)).
  { rewrite psf_norm_inv by lra. nra. }
  split.
  - rewrite Hdiv, Hc. lra.
  - rewrite Hc. lra.
Qed.

(** ** C4: the single-frequency Stokes cube *)

(** C4 (evaluation at the failing inputs).  For a Stokes cube with
    [nfreq == 1] in the layout the loader produces (four axes,
    [nx, ny, 4, 1]) and at least two pixels wide, [imConv] does not return:
    its [nfreq == 1] branch selects [image[:,:,istokes]], which still has the
    frequency axis, the transform runs over the last two axes (y and
    frequency) instead of the (x, y) plane, and the call ends in
    [ValueError]. *)
Theorem C4_stokes_single_frequency (self fwhm : loc) (p dpc fx fy : R)
    (h : heap) (c : ImageCube) :
  cube_value h self = Ok c -> loader_layout c ->
  stokes c = true -> nfreq c = 1%nat -> (2 <= nx c)%nat ->
  h !! fwhm = Some (ObjList [fx; fy]) ->
  imConv self fwhm (Some p) dpc h = Err ValueError.
Proof. apply imConv_stokes_single. Qed.

Lemma C4_stokes_single_frequency_witness :
  exists im fw h,
    load_scene stokes_file 1 1 = Ok (im, fw, h) /\
    imConv im fw (Some 0) 1 h = Err ValueError.
Proof.
  destruct stokes_file_loads as (c & Ec & Hst & Hnf & Hnx & Hny).
  destruct (load_scene_total stokes_file 1 1 c Ec) as (im & fw & h & E).
  destruct (load_scene_spec _ _ _ _ _ _ E) as (o & c' & Ec' & Ho & Hok & Hc & Hfw).
  assert (c' = c) as -> by congruence.
  exists im, fw, h. split; [exact E|].
  apply (C4_stokes_single_frequency im fw 0 1 1 1 h c); try assumption.
  - apply (readImage_layout stokes_file), Ec.
  - lia.
Defined.

(** ** C5: a baseline of length zero *)

(** C5 (as amended).  On a total-intensity cube in the loader's layout with
    at least two pixels along each axis, pixel coordinates that increase
    along each axis, nonzero wavelengths and a positive total intensity in
    every channel, [getVisibility] called with a single baseline of length 0
    (any position angle, positive [dpc]) returns, for every wavelength,
    [u = 0], [v = 0], an amplitude equal to the total flux (the sum over the
    pixels of the image values, times [dl], times [dm]) and a phase of 0.
    (The wavelengths are taken nonzero because [u] and [v] divide by them:
    over the reals the quotient is still 0, in float64 it would be nan.) *)
Theorem C5_zero_baseline (self : ImageCube) (p d : R) :
  loader_layout self -> stokes self = false ->
  (2 <= nx self)%nat -> (2 <= ny self)%nat ->
  at_ (im_x self) [0%nat] < at_ (im_x self) [1%nat] ->
  at_ (im_y self) [0%nat] < at_ (im_y self) [1%nat] ->
  (forall iwav, (iwav < nwav self)%nat -> at_ (wav self) [iwav] <> 0) ->
  (forall iwav, (iwav < nwav self)%nat ->
     0 < sum_upto Rplus 0 (nx self) (fun il =>
           sum_upto Rplus 0 (ny self) (fun j => at_ (image self) [il; j; iwav]))) ->
  0 < d ->
  let dl := sky_angle d (at_ (im_x self) [1%nat]) - sky_angle d (at_ (im_x self) [0%nat]) in
  let dm := sky_angle d (at_ (im_y self) [1%nat]) - sky_angle d (at_ (im_y self) [0%nat]) in
  exists r, getVisibility self (array1 [0]) (array1 [p]) (Some d) = Ok r /\
    forall iwav, (iwav < nwav self)%nat ->
      at_ (v_u r) [0%nat; iwav] = 0 /\
      at_ (v_v r) [0%nat; iwav] = 0 /\
      at_ (v_amp r) [0%nat; iwav] = total_flux self dl dm iwav /\
      at_ (v_phase r) [0%nat; iwav] = 0.
Proof.
  intros Hlay Hst Hnx Hny Hx Hy _ Hint Hd dl dm.
  destruct (zero_baseline_run self (array1 [0]) (array1 [p]) d 1 1)
    as (r & E & _ & Hv); try assumption; try reflexivity.
  - left; reflexivity.
  - intros [|[|i]]; reflexivity.
  - intros iwav Hw. unfold total_flux.
    pose proof (sky_angle_step d _ _ Hd Hx).
    pose proof (sky_angle_step d _ _ Hd Hy).
    specialize (Hint iwav Hw).
    apply Rmult_lt_0_compat; [apply Rmult_lt_0_compat|]; assumption.
  - exists r. split; [exact E|]. intros iwav Hw.
    destruct (Hv 0%nat iwav) as (Hu & Hvv & _ & Ha & Hp); [lia | exact Hw |].
    auto.
Qed.

Lemma C5_zero_baseline_witness :
  exists r, getVisibility (uniform_cube 1) (array1 [0]) (array1 [0]) (Some 1) = Ok r /\
    at_ (v_u r) [0%nat; 0%nat] = 0 /\
    at_ (v_phase r) [0%nat; 0%nat] = 0.
Proof.
  destruct (C5_zero_baseline (uniform_cube 1) 0 1) as (r & E & H).
  - apply uniform_cube_layout.
  - reflexivity.
  - cbn; lia.
  - cbn; lia.
  - apply uniform_cube_x.
  - apply uniform_cube_y.
  - intros iwav Hw. cbn in Hw. replace iwav with 0%nat by lia. cbn. lra.
  - intros iwav _. apply uniform_cube_intensity.
  - lra.
  - exists r. split; [exact E|].
    destruct (H 0%nat) as (Hu & _ & _ & Hp); [cbn; lia|]. auto.
Defined.

(** Counterexample to C5 as stated: on a cube that is one pixel wide, whose
    only channel has total intensity 2, the call with one baseline of length
    0 raises [IndexError] (at [l[1]]) instead of returning an amplitude. *)
Lemma C5_one_pixel_wide :
  (forall iwav, (iwav < nwav column_cube)%nat ->
     0 < sum_upto Rplus 0 (nx column_cube) (fun il =>
           sum_upto Rplus 0 (ny column_cube) (fun j =>
             at_ (image column_cube) [il; j; iwav]))) /\
  getVisibility column_cube (array1 [0]) (array1 [0]) (Some 1) = Err IndexError.
Proof.
  split; [|reflexivity]. intros iwav _. cbn. lra.
Qed.

(** ** C6: amplitude and phase *)



(** ** C7: no validation of the distance and of the sequence lengths *)

(** C7 (as amended).  [getVisibility] validates neither argument.  On a
    loaded total-intensity cube with at least two pixels per axis and
    one-dimensional [bl] (length [n]) and [pa] (length [k]): with a negative
    [dpc] and [k = n] it returns a result; with [k <> n] it returns a result
    when [k = 1] (the single position angle is used for every baseline) or
    when the cube has no wavelength, and raises [ValueError] (numpy cannot
    broadcast the two arrays) when [k <> 1] and there is a wavelength. *)
Theorem C7_no_argument_validation (self : ImageCube) (bl pa : ndarray R)
    (d : R) (n k : nat) :
  loader_layout self -> stokes self = false ->
  (2 <= nx self)%nat -> (2 <= ny self)%nat ->
  shape bl = [n] -> shape pa = [k] ->
  (d < 0 -> k = n -> exists r, getVisibility self bl pa (Some d) = Ok r) /\
  (k <> n -> k = 1%nat -> exists r, getVisibility self bl pa (Some d) = Ok r) /\
  (k <> n -> nwav self = 0%nat ->
     exists r, getVisibility self bl pa (Some d) = Ok r) /\
  (k <> n -> k <> 1%nat -> (0 < nwav self)%nat ->
     getVisibility self bl pa (Some d) = Err ValueError).
Proof.
  intros Hlay Hst Hnx Hny Hbl Hpa.
  split; [|split; [|split]].
  - intros _ Hk.
    destruct (getVisibility_run self bl pa d n k) as (r & E & _); auto.
    exists r. exact E.
  - intros _ Hk.
    destruct (getVisibility_run self bl pa d n k) as (r & E & _); auto.
    exists r. exact E.
  - intros _ Hnw. apply (getVisibility_no_wavelength self bl pa d n); assumption.
  - intros Hkn Hk1 Hnw.
    apply (getVisibility_mismatch self bl pa d n k); assumption.
Qed.

Lemma C7_no_argument_validation_witness :
  (exists r, getVisibility (uniform_cube 1) (array1 [1]) (array1 [0]) (Some (-1)) = Ok r) /\
  getVisibility (uniform_cube 1) (array1 [1; 2; 3]) (array1 [0; 0]) (Some 1)
  = Err ValueError.
Proof.
  split.
  - destruct (C7_no_argument_validation (uniform_cube 1) (array1 [1]) (array1 [0])
                (-1) 1 1) as (H & _).
    + apply uniform_cube_layout.
    + reflexivity.
    + cbn; lia.
    + cbn; lia.
    + reflexivity.
    + reflexivity.
    + apply H; [lra | reflexivity].
  - destruct (C7_no_argument_validation (uniform_cube 1) (array1 [1; 2; 3])
                (array1 [0; 0]) 1 3 2) as (_ & _ & _ & H).
    + apply uniform_cube_layout.
    + reflexivity.
    + cbn; lia.
    + cbn; lia.
    + reflexivity.
    + reflexivity.
    + apply H; [lia | lia | cbn; lia].
Defined.

(** Counterexample to C7 as stated: a negative distance is accepted, and so
    are three baselines given with one position angle; both calls return a
    result. *)
Lemma C7_bad_arguments_accepted :
  -1 <= 0 /\
  (exists r, getVisibility (uniform_cube 1) (array1 [1]) (array1 [0])
               (Some (-1)) = Ok r) /\
  length [1; 2; 3] <> length [0] /\
  (exists r, getVisibility (uniform_cube 1) (array1 [1; 2; 3]) (array1 [0])
               (Some 1) = Ok r).
Proof.
  split; [lra|]. split; [|split; [cbn; lia|]].
  - destruct (getVisibility_run (uniform_cube 1) (array1 [1]) (array1 [0]) (-1) 1 1)
      as (r & E & _);
      [apply uniform_cube_layout | reflexivity | cbn; lia | cbn; lia
      | reflexivity | reflexivity | left; reflexivity |].
    exists r. exact E.
  - destruct (getVisibility_run (uniform_cube 1) (array1 [1; 2; 3]) (array1 [0]) 1 3 1)
      as (r & E & _);
      [apply uniform_cube_layout | reflexivity | cbn; lia | cbn; lia
      | reflexivity | reflexivity | right; reflexivity |].
    exists r. exact E.
Qed.

(** ** Arithmetic of complex numbers and of finite sums *)

Ltac C_eq :=
  apply injective_projections;
  unfold Cmul, Cadd, Cscale, Cconj, RtoC, C0, Cre, Cim;
  cbn [fst snd]; try ring.

Lemma Cadd_0_l (a : C) : Cadd C0 a = a.
Proof. C_eq. Qed.

Lemma Cadd_0_r (a : C) : Cadd a C0 = a.
Proof. C_eq. Qed.

Lemma Cmul_assoc (a b c : C) : Cmul a (Cmul b c) = Cmul (Cmul a b) c.
Proof. C_eq. Qed.

Lemma Cmul_0_l (a : C) : Cmul C0 a = C0.
Proof. C_eq. Qed.

Lemma Cmul_0_r (a : C) : Cmul a C0 = C0.
Proof. C_eq. Qed.

Lemma Cmul_add_distr_l (a b c : C) :
  Cmul a (Cadd b c) = Cadd (Cmul a b) (Cmul a c).
Proof. C_eq. Qed.

Lemma Cmul_add_distr_r (a b c : C) :
  Cmul (Cadd a b) c = Cadd (Cmul a c) (Cmul b c).
Proof. C_eq. Qed.

Lemma Cscale_mul (a : C) (k : R) : Cscale a k = Cmul a (RtoC k).
Proof. C_eq. Qed.

Lemma Csum_S (n : nat) (f : nat -> C) :
  Csum (S n) f = Cadd (Csum n f) (f n).
Proof. reflexivity. Qed.

Lemma Csum_ext (n : nat) (f g : nat -> C) :
  (forall i, (i < n)%nat -> f i = g i) -> Csum n f = Csum n g.
Proof. apply sum_upto_ext. Qed.

Lemma Csum_zero (n : nat) : Csum n (fun _ => C0) = C0.
Proof.
  induction n as [|n IH]; [reflexivity|].
  rewrite Csum_S, IH. apply Cadd_0_l.
Qed.

Lemma Csum_add (n : nat) (f g : nat -> C) :
  Csum n (fun i => Cadd (f i) (g i)) = Cadd (Csum n f) (Csum n g).
Proof.
  induction n as [|n IH]; [symmetry; apply Cadd_0_l|].
  rewrite !Csum_S, IH. C_eq.
Qed.

Lemma Csum_mul_l (n : nat) (c : C) (f : nat -> C) :
  Cmul c (Csum n f) = Csum n (fun i => Cmul c (f i)).
Proof.
  induction n as [|n IH]; [apply Cmul_0_r|].
  rewrite !Csum_S, <- IH. apply Cmul_add_distr_l.
Qed.

Lemma Csum_mul_r (n : nat) (c : C) (f : nat -> C) :
  Cmul (Csum n f) c = Csum n (fun i => Cmul (f i) c).
Proof.
  induction n as [|n IH]; [apply Cmul_0_l|].
  rewrite !Csum_S, <- IH. apply Cmul_add_distr_r.
Qed.

Lemma Csum_const (n : nat) (c : C) : Csum n (fun _ => c) = Cscale c (INR n).
Proof.
  induction n as [|n IH]; [cbn [Csum sum_upto INR]; C_eq|].
  rewrite Csum_S, IH, S_INR. C_eq.
Qed.

(** The order of two finite sums can be exchanged. *)
Lemma Csum_swap (n m : nat) (f : nat -> nat -> C) :
  Csum n (fun i => Csum m (fun j => f i j)) =
  Csum m (fun j => Csum n (fun i => f i j)).
Proof.
  induction n as [|n IH].
  - cbn [Csum sum_upto]. symmetry. apply Csum_zero.
  - rewrite Csum_S, IH, <- Csum_add. apply Csum_ext. intros j _.
    rewrite Csum_S. reflexivity.
Qed.

(** A sum with a single term that is not zero. *)
Lemma Csum_single (n k : nat) (f : nat -> C) :
  (k < n)%nat ->
  Csum n (fun i => if (i =? k)%nat then f i else C0) = f k.
Proof.
  induction n as [|n IH]; [lia|]. intros Hk.
  rewrite Csum_S. destruct (Nat.eqb_spec n k) as [->|Hne].
  - rewrite (Csum_ext _ _ (fun _ => C0)).
    + rewrite Csum_zero. apply Cadd_0_l.
    + intros i Hi. destruct (Nat.eqb_spec i k); [lia | reflexivity].
  - rewrite IH by lia. apply Cadd_0_r.
Qed.

(** ** Roots of unity *)

Lemma Ccis_add (x y : R) : Ccis (x + y) = Cmul (Ccis x) (Ccis y).
Proof.
  unfold Ccis, Cmul, Cre, Cim. cbn [fst snd].
  rewrite cos_plus, sin_plus. f_equal; ring.
Qed.

Lemma Ccis_0 : Ccis 0 = RtoC 1.
Proof. unfold Ccis, RtoC. rewrite cos_0, sin_0. reflexivity. Qed.

Lemma sin_PI_Z (m : Z) : sin (IZR m * PI) = 0.
Proof. apply sin_eq_0_1. exists m. reflexivity. Qed.

Lemma Ccis_2PI_Z (m : Z) : Ccis (2 * PI * IZR m) = RtoC 1.
Proof.
  unfold Ccis, RtoC.
  replace (2 * PI * IZR m) with (2 * (IZR m * PI)) by ring.
  rewrite cos_2a_sin, sin_2a, sin_PI_Z. f_equal; ring.
Qed.

Lemma Ccis_eq_1 (t : R) :
  Ccis t = RtoC 1 -> exists q : Z, t = 2 * PI * IZR q.
Proof.
  unfold Ccis, RtoC. intros [= Hc Hs].
  destruct (sin_eq_0_0 t Hs) as (k & ->).
  destruct (Z.Even_or_Odd k) as [[q ->]|[q ->]].
  - exists q. rewrite mult_IZR. ring.
  - exfalso.
    replace (IZR (2 * q + 1) * PI) with (2 * PI * IZR q + PI) in Hc
      by (rewrite plus_IZR, mult_IZR; ring).
    rewrite neg_cos in Hc.
    pose proof (Ccis_2PI_Z q) as H. unfold Ccis, RtoC in H.
    injection H as H _. lra.
Qed.

(** The geometric sum of the powers of [exp(i*t)]. *)
Lemma Ccis_geometric (n : nat) (t : R) :
  Cmul (Csum n (fun k => Ccis (INR k * t))) (Cadd (Ccis t) (RtoC (-1))) =
  Cadd (Ccis (INR n * t)) (RtoC (-1)).
Proof.
  induction n as [|n IH].
  - cbn [Csum sum_upto INR]. rewrite Rmult_0_l, Ccis_0. C_eq.
  - rewrite Csum_S, Cmul_add_distr_r, IH, S_INR.
    replace ((INR n + 1) * t) with (INR n * t + t) by ring.
    rewrite Ccis_add. C_eq.
Qed.

Lemma Cmul_cancel_r (z w : C) : Cmul z w = C0 -> w <> C0 -> z = C0.
Proof.
  destruct z as [a b], w as [c d]. unfold Cmul, C0, Cre, Cim. cbn [fst snd].
  intros [= H1 H2] Hw.
  assert (Hn : 0 < c * c + d * d).
  { destruct (Req_dec c 0) as [->|Hc]; [|nra].
    destruct (Req_dec d 0) as [->|Hd]; [congruence | nra]. }
  assert (Ha : a * (c * c + d * d) = 0).
  { replace (a * (c * c + d * d))
      with (c * (a * c - b * d) + d * (a * d + b * c)) by ring.
    rewrite H1, H2. ring. }
  assert (Hb : b * (c * c + d * d) = 0).
  { replace (b * (c * c + d * d))
      with (c * (a * d + b * c) - d * (a * c - b * d)) by ring.
    rewrite H1, H2. ring. }
  apply Rmult_integral in Ha, Hb.
  f_equal; lra.
Qed.

(** The sum of the n-th roots of unity [exp(2*pi*i*k*m/n)], [k < n]: [n]
    when [n] divides [m], else 0. *)
Lemma roots_of_unity (n : nat) (m : Z) :
  (0 < n)%nat ->
  Csum n (fun k => Ccis (INR k * (2 * PI * IZR m / INR n))) =
  if (m mod Z.of_nat n =? 0)%Z then RtoC (INR n) else C0.
Proof.
  intros Hn.
  assert (Hn0 : INR n <> 0) by (apply not_0_INR; lia).
  set (t := 2 * PI * IZR m / INR n).
  destruct (Z.eqb_spec (m mod Z.of_nat n) 0) as [Hd|Hd].
  - apply Z.mod_divide in Hd; [|lia]. destruct Hd as (q & ->).
    rewrite (Csum_ext _ _ (fun _ => RtoC 1)).
    + rewrite Csum_const. C_eq.
    + intros k _. subst t. rewrite <- (Ccis_2PI_Z (Z.of_nat k * q)).
      f_equal. rewrite !mult_IZR, <- !INR_IZR_INZ. field. exact Hn0.
  - apply (Cmul_cancel_r _ (Cadd (Ccis t) (RtoC (-1)))).
    + rewrite Ccis_geometric.
      replace (INR n * t) with (2 * PI * IZR m) by (subst t; field; exact Hn0).
      rewrite Ccis_2PI_Z. C_eq.
    + intros H. apply Hd.
      assert (H1 : Ccis t = RtoC 1).
      { apply injective_projections.
        - apply (f_equal fst) in H. unfold Cadd, RtoC, C0, Cre, Cim in *.
          cbn [fst snd] in *. lra.
        - apply (f_equal snd) in H. unfold Cadd, RtoC, C0, Cre, Cim in *.
          cbn [fst snd] in *. lra. }
      destruct (Ccis_eq_1 t H1) as (q & Hq). subst t.
      assert (Hm : IZR m = IZR (q * Z.of_nat n)).
      { rewrite mult_IZR, <- INR_IZR_INZ.
        pose proof PI_RGT_0.
        apply (Rmult_eq_reg_l (2 * PI)); [|lra].
        rewrite <- Rmult_assoc, <- Hq. field. exact Hn0. }
      apply eq_IZR in Hm. rewrite Hm. apply Z.mod_mul. lia.
Qed.

(** ** The convolution theorem *)

(** The index that pairs with [j] in a circular convolution at [a]. *)
Lemma shift_index (n a j l : nat) :
  (a < n)%nat -> (j < n)%nat -> (l < n)%nat ->
  ((Z.of_nat a - Z.of_nat j - Z.of_nat l) mod Z.of_nat n =? 0)%Z =
  (l =? (a + n - j) mod n)%nat.
Proof.
  intros Ha Hj Hl.
  assert (Hl0 : ((a + n - j) mod n = if (j <=? a)%nat then a - j else n + a - j)%nat).
  { destruct (Nat.leb_spec j a) as [Hle|Hgt]; symmetry.
    - apply (Nat.mod_unique _ _ 1%nat); lia.
    - apply (Nat.mod_unique _ _ 0%nat); lia. }
  rewrite Hl0.
  destruct (Z.eqb_spec ((Z.of_nat a - Z.of_nat j - Z.of_nat l) mod Z.of_nat n) 0)
    as [Hd|Hd].
  - apply Z.mod_divide in Hd; [|lia]. destruct Hd as (q & Hq).
    assert (Hq' : (q = 0 \/ q = -1)%Z) by nia.
    symmetry. apply Nat.eqb_eq.
    destruct (Nat.leb_spec j a); destruct Hq' as [-> | ->]; lia.
  - symmetry. apply Nat.eqb_neq. intros E. apply Hd.
    destruct (Nat.leb_spec j a).
    + replace (Z.of_nat a - Z.of_nat j - Z.of_nat l)%Z with 0%Z by lia.
      apply Z.mod_0_l. lia.
    + replace (Z.of_nat a - Z.of_nat j - Z.of_nat l)%Z
        with (-1 * Z.of_nat n)%Z by lia.
      apply Z.mod_mul. lia.
Qed.

(** The three factors that meet in the transform of a product. *)
Lemma root_product (n a j l k : nat) :
  (0 < n)%nat ->
  Cmul (Cmul (root (-1) n k j) (root (-1) n k l)) (root 1 n a k) =
  Ccis (INR k *
        (2 * PI * IZR (Z.of_nat a - Z.of_nat j - Z.of_nat l) / INR n)).
Proof.
  intros Hn. assert (Hn0 : INR n <> 0) by (apply not_0_INR; lia).
  unfold root. rewrite <- !Ccis_add. f_equal.
  rewrite !minus_IZR, <- !INR_IZR_INZ. field. exact Hn0.
Qed.

(** Transforming, multiplying and transforming back is convolving: the
    one-dimensional case, before the division by [n]. *)
Lemma dft1_convolution (n : nat) (f g : nat -> C) (a : nat) :
  (a < n)%nat ->
  Csum n (fun k =>
    Cmul (Cmul (dft1 (-1) n f k) (dft1 (-1) n g k)) (root 1 n a k)) =
  Cscale (Csum n (fun j => Cmul (f j) (g ((a + n - j) mod n)%nat))) (INR n).
Proof.
  intros Ha. assert (Hn : (0 < n)%nat) by lia.
  set (m := fun j l : nat => (Z.of_nat a - Z.of_nat j - Z.of_nat l)%Z).
  (* every term as a double sum *)
  rewrite (Csum_ext _ _ (fun k => Csum n (fun j => Csum n (fun l =>
    Cmul (Cmul (f j) (g l))
         (Ccis (INR k * (2 * PI * IZR (m j l) / INR n))))))).
  2:{ intros k _. unfold dft1.
      rewrite Csum_mul_r, Csum_mul_r. apply Csum_ext. intros j _.
      set (B := Csum n (fun l => Cmul (g l) (root (-1) n k l))).
      transitivity (Cmul B (Cmul (Cmul (f j) (root (-1) n k j)) (root 1 n a k)));
        [C_eq|].
      subst B. rewrite Csum_mul_r. apply Csum_ext. intros l _.
      subst m. cbv beta. rewrite <- (root_product n a j l k Hn).
      C_eq. }
  (* the sum over [k] moved inside *)
  rewrite Csum_swap.
  rewrite (Csum_ext _ _ (fun j =>
    Cscale (Cmul (f j) (g ((a + n - j) mod n)%nat)) (INR n))).
  2:{ intros j Hj. rewrite Csum_swap.
      rewrite (Csum_ext _ _ (fun l =>
        if (l =? (a + n - j) mod n)%nat
        then Cscale (Cmul (f j) (g l)) (INR n) else C0)).
      - rewrite Csum_single; [reflexivity|].
        apply Nat.mod_upper_bound. lia.
      - intros l Hl. rewrite <- Csum_mul_l, roots_of_unity by exact Hn.
        subst m. cbv beta. rewrite (shift_index n a j l Ha Hj Hl).
        destruct (l =? (a + n - j) mod n)%nat; C_eq. }
  rewrite Cscale_mul, Csum_mul_r. apply Csum_ext. intros j _.
  apply Cscale_mul.
Qed.

(** A two-dimensional Fourier sum is a one-dimensional sum of
    one-dimensional sums. *)
Lemma dft2_nested (sg : R) (n1 n2 : nat) (f : nat -> nat -> C) (k1 k2 : nat) :
  dft2 sg n1 n2 f k1 k2 =
  dft1 sg n1 (fun j1 => dft1 sg n2 (f j1) k2) k1.
Proof.
  unfold dft2, dft1. apply Csum_ext. intros j1 _.
  rewrite Csum_mul_r. apply Csum_ext. intros j2 _.
  unfold root. rewrite <- Cmul_assoc, <- Ccis_add. do 2 f_equal. ring.
Qed.

(** The convolution theorem for two planes: the inverse transform of the
    product of the transforms is the circular convolution. *)
Lemma dft2_convolution (n1 n2 : nat) (f g : nat -> nat -> C) (a b : nat) :
  (a < n1)%nat -> (b < n2)%nat ->
  Cscale
    (dft2 1 n1 n2
       (fun k1 k2 => Cmul (dft2 (-1) n1 n2 f k1 k2) (dft2 (-1) n1 n2 g k1 k2))
       a b)
    (/ (INR n1 * INR n2)) =
  Csum n1 (fun j1 => Csum n2 (fun j2 =>
    Cmul (f j1 j2) (g ((a + n1 - j1) mod n1)%nat ((b + n2 - j2) mod n2)%nat))).
Proof.
  intros Ha Hb.
  assert (H1 : INR n1 <> 0) by (apply not_0_INR; lia).
  assert (H2 : INR n2 <> 0) by (apply not_0_INR; lia).
  set (fh := fun k2 j1 => dft1 (-1) n2 (f j1) k2).
  set (gh := fun k2 j1 => dft1 (-1) n2 (g j1) k2).
  rewrite dft2_nested. unfold dft1 at 1.
  (* the sum over [k1] is a one-dimensional convolution for every [k2] *)
  rewrite (Csum_ext _ _ (fun k1 => Csum n2 (fun k2 =>
    Cmul (Cmul (Cmul (dft1 (-1) n1 (fh k2) k1) (dft1 (-1) n1 (gh k2) k1))
               (root 1 n1 a k1))
         (root 1 n2 b k2)))).
  2:{ intros k1 _. unfold dft1 at 1. rewrite Csum_mul_r.
      apply Csum_ext. intros k2 _. rewrite !dft2_nested.
      subst fh gh. cbv beta. C_eq. }
  rewrite Csum_swap.
  rewrite (Csum_ext _ _ (fun k2 => Csum n1 (fun j1 =>
    Cscale (Cmul (Cmul (fh k2 j1) (gh k2 ((a + n1 - j1) mod n1)%nat))
                 (root 1 n2 b k2)) (INR n1)))).
  2:{ intros k2 _. rewrite <- Csum_mul_r, dft1_convolution by exact Ha.
      rewrite Cscale_mul, Csum_mul_r, Csum_mul_r. apply Csum_ext. intros j1 _.
      C_eq. }
  (* and the sum over [k2] is one for every [j1] *)
  rewrite Csum_swap.
  rewrite (Csum_ext _ _ (fun j1 => Cscale (Csum n2 (fun j2 =>
    Cmul (f j1 j2) (g ((a + n1 - j1) mod n1)%nat ((b + n2 - j2) mod n2)%nat)))
    (INR n1 * INR n2))).
  2:{ intros j1 _.
      rewrite (Csum_ext _ _ (fun k2 =>
        Cmul (Cmul (Cmul (dft1 (-1) n2 (f j1) k2)
                         (dft1 (-1) n2 (g ((a + n1 - j1) mod n1)%nat) k2))
                   (root 1 n2 b k2)) (RtoC (INR n1)))).
      - rewrite <- Csum_mul_r, dft1_convolution by exact Hb. C_eq.
      - intros k2 _. subst fh gh. cbv beta. C_eq. }
  rewrite (Csum_ext _ _ (fun j1 => Cmul (Csum n2 (fun j2 =>
    Cmul (f j1 j2) (g ((a + n1 - j1) mod n1)%nat ((b + n2 - j2) mod n2)%nat)))
    (RtoC (INR n1 * INR n2)))) by (intros; apply Cscale_mul).
  rewrite <- Csum_mul_r.
  apply injective_projections;
    unfold Cmul, Cscale, RtoC, Cre, Cim; cbn [fst snd]; field; auto.
Qed.

Lemma Cabs_real (x : R) : Cabs (RtoC x) = Rabs x.
Proof.
  unfold Cabs, RtoC, Cre, Cim. cbn [fst snd].
  replace (x * x + 0 * 0) with (Rsqr x) by (unfold Rsqr; ring).
  apply sqrt_Rsqr_abs.
Qed.

(** The convolution theorem for planes of real numbers. *)
Lemma dft2_convolution_real (n1 n2 : nat) (p f : nat -> nat -> R) (a b : nat) :
  (a < n1)%nat -> (b < n2)%nat ->
  Cscale
    (dft2 1 n1 n2
       (fun k1 k2 =>
          Cmul (dft2 (-1) n1 n2 (fun j1 j2 => RtoC (p j1 j2)) k1 k2)
               (dft2 (-1) n1 n2 (fun j1 j2 => RtoC (f j1 j2)) k1 k2))
       a b)
    (/ (INR n1 * INR n2)) =
  RtoC (circular_convolution n1 n2 p f a b).
Proof.
  intros Ha Hb. rewrite dft2_convolution by assumption.
  unfold circular_convolution, RtoC.
  rewrite <- Csum_real. apply Csum_ext. intros j1 _.
  rewrite <- Csum_real. apply Csum_ext. intros j2 _.
  unfold Cmul, Cre, Cim. cbn [fst snd]. f_equal; ring.
Qed.

(** ** The value of a convolved pixel *)

Lemma dft2_ext (sg : R) (n1 n2 : nat) (f g : nat -> nat -> C) (k1 k2 : nat) :
  (forall j1 j2, (j1 < n1)%nat -> (j2 < n2)%nat -> f j1 j2 = g j1 j2) ->
  dft2 sg n1 n2 f k1 k2 = dft2 sg n1 n2 g k1 k2.
Proof.
  intros H. unfold dft2. apply Csum_ext. intros j1 H1.
  apply Csum_ext. intros j2 H2. rewrite H by assumption. reflexivity.
Qed.

(** [abs(ifftshift(ifft2(fft2(psf) * fft2(imag))))] at pixel [(ix, iy)] is
    the absolute value of the circular convolution of [psf] and [imag] at
    the pixel shifted by half the extent of each axis. *)
Lemma convolve_plane_value (kernel imag : ndarray R) (f_psf : ndarray C)
    (p : ndarray R) (n1 n2 ix iy : nat) :
  shape kernel = [n1; n2] -> shape imag = [n1; n2] ->
  fft2 (nd_map RtoC kernel) = Ok f_psf ->
  convolve_plane f_psf imag = Ok p ->
  (ix < n1)%nat -> (iy < n2)%nat ->
  at_ p [ix; iy] =
  Rabs (circular_convolution n1 n2
          (fun j1 j2 => at_ kernel [j1; j2]) (fun a b => at_ imag [a; b])
          ((ix + n1 / 2) mod n1) ((iy + n2 / 2) mod n2)).
Proof.
  intros Hk Hi Hf Hp Hx Hy.
  unfold fft2 in Hf. cbn [nd_map shape] in Hf. rewrite Hk in Hf.
  cbn [split_last2 rev app] in Hf. injection Hf as <-.
  unfold convolve_plane, fft2 in Hp. cbn [nd_map shape] in Hp. rewrite Hi in Hp.
  cbn [split_last2 rev app mbind result_bind] in Hp.
  unfold nd_zip in Hp. cbn [shape] in Hp. rewrite broadcast_shapes_refl in Hp.
  cbn [mbind result_bind] in Hp.
  unfold ifft2 in Hp. cbn [shape split_last2 rev app mbind result_bind] in Hp.
  injection Hp as <-.
  assert (Ha : ((ix + n1 / 2) mod n1 < n1)%nat) by (apply Nat.mod_upper_bound; lia).
  assert (Hb : ((iy + n2 / 2) mod n2 < n2)%nat) by (apply Nat.mod_upper_bound; lia).
  cbn [nd_map ifftshift at_ shape zip_with split_last2 rev app].
  rewrite <- Cabs_real. f_equal.
  rewrite <- (dft2_convolution_real n1 n2) by assumption.
  f_equal. apply dft2_ext. intros j1 j2 H1 H2.
  rewrite (bproj_id [n1; n2] [j1; j2]) by (apply in_bounds_2; assumption).
  cbn [at_ split_last2 rev app nd_map]. reflexivity.
Qed.

(** The planes of [cimage] of a total-intensity cube, pixel by pixel. *)
Lemma convolved_pixel_intensity (h : heap) (o : radmc3dImage)
    (kernel : ndarray R) (f_psf : ndarray C) (img cimage : ndarray R) :
  o_stokes o = false ->
  h !! o_image o = Some (ObjArray img) ->
  shape img = [o_nx o; o_ny o; o_nfreq o] ->
  shape kernel = [o_nx o; o_ny o] ->
  fft2 (nd_map RtoC kernel) = Ok f_psf ->
  convolve_cube h o f_psf = Ok cimage ->
  forall ix iy ifreq, (ix < o_nx o)%nat -> (iy < o_ny o)%nat ->
    (ifreq < o_nfreq o)%nat ->
    at_ cimage [ix; iy; ifreq] =
    Rabs (circular_convolution (o_nx o) (o_ny o)
            (fun j1 j2 => at_ kernel [j1; j2])
            (fun a b => at_ img [a; b; ifreq])
            ((ix + o_nx o / 2) mod o_nx o) ((iy + o_ny o / 2) mod o_ny o)).
Proof.
  intros Hst Himg Simg Sk Ef Ec ix iy ifreq Hx Hy Hf.
  assert (Sf : shape f_psf = [o_nx o; o_ny o]).
  { destruct (fft2_2d (nd_map RtoC kernel) _ _ Sk) as (f' & Ef' & Sf'). congruence. }
  destruct (convolve_cube_intensity h o f_psf img Hst Himg Simg Sf)
    as (ci & Eci & _ & Hv).
  assert (ci = cimage) as -> by congruence.
  destruct (Hv ix iy ifreq Hx Hy Hf) as (imag & p & Eg & Ep & ->).
  set (plane := NdArray [o_nx o; o_ny o]
                  (fun idx => at_ img (sub_index [All; All; At ifreq] idx))).
  assert (Ei : imag = plane).
  { rewrite (getitem_Ok img _ [o_nx o; o_ny o]) in Eg; [injection Eg as <-; reflexivity|].
    rewrite Simg. cbn -[Nat.ltb]. apply Nat.ltb_lt in Hf. rewrite Hf. reflexivity. }
  subst imag.
  rewrite (convolve_plane_value kernel plane f_psf p (o_nx o) (o_ny o) ix iy
             Sk eq_refl Ef Ep Hx Hy).
  reflexivity.
Qed.

(** The same for the planes of a Stokes cube with several frequencies. *)
Lemma convolved_pixel_stokes (h : heap) (o : radmc3dImage)
    (kernel : ndarray R) (f_psf : ndarray C) (img cimage : ndarray R) :
  o_stokes o = true -> o_nfreq o <> 1%nat ->
  h !! o_image o = Some (ObjArray img) ->
  shape img = [o_nx o; o_ny o; 4%nat; o_nfreq o] ->
  shape kernel = [o_nx o; o_ny o] ->
  fft2 (nd_map RtoC kernel) = Ok f_psf ->
  convolve_cube h o f_psf = Ok cimage ->
  forall ix iy istokes ifreq, (ix < o_nx o)%nat -> (iy < o_ny o)%nat ->
    (istokes < 4)%nat -> (ifreq < o_nfreq o)%nat ->
    at_ cimage [ix; iy; istokes; ifreq] =
    Rabs (circular_convolution (o_nx o) (o_ny o)
            (fun j1 j2 => at_ kernel [j1; j2])
            (fun a b => at_ img [a; b; istokes; ifreq])
            ((ix + o_nx o / 2) mod o_nx o) ((iy + o_ny o / 2) mod o_ny o)).
Proof.
  intros Hst Hnf Himg Simg Sk Ef Ec ix iy istokes ifreq Hx Hy Hs Hf.
  assert (Sf : shape f_psf = [o_nx o; o_ny o]).
  { destruct (fft2_2d (nd_map RtoC kernel) _ _ Sk) as (f' & Ef' & Sf'). congruence. }
  destruct (convolve_cube_stokes h o f_psf img Hst Hnf Himg Simg Sf)
    as (ci & Eci & _ & Hv).
  assert (ci = cimage) as -> by congruence.
  destruct (Hv ix iy istokes ifreq Hx Hy Hs Hf) as (imag & p & Eg & Ep & ->).
  set (plane := NdArray [o_nx o; o_ny o]
                  (fun idx => at_ img (sub_index [All; All; At istokes; At ifreq] idx))).
  assert (Ei : imag = plane).
  { rewrite (getitem_Ok img _ [o_nx o; o_ny o]) in Eg; [injection Eg as <-; reflexivity|].
    rewrite Simg. cbn -[Nat.ltb]. apply Nat.ltb_lt in Hf, Hs.
    rewrite Hf, Hs. reflexivity. }
  subst imag.
  rewrite (convolve_plane_value kernel plane f_psf p (o_nx o) (o_ny o) ix iy
             Sk eq_refl Ef Ep Hx Hy).
  reflexivity.
Qed.

(** ** C8: the cube returned by imConv *)



(** ** C9: derived cubes are independent of their source *)

(** C9.  A returned [imConv] or [cmask] has changed no object of the store it
    was called in, so every data attribute of the source cube ([image],
    [imageJyppix], [x], [y], [nx], [ny], [sizepix_x], [sizepix_y], [freq],
    [wav], [stokes]) reads as before.  The returned instance and the arrays
    it refers to are new objects, and whatever is later written to the
    instance or to an object it refers to leaves the data attributes of the
    source as they were.  ([imConv] stores the caller's [fwhm] list itself in
    the result; [cmask] copies it as well.) *)
Theorem C9_derived_cubes_independent :
  (forall self fwhm pa dpc h res h' c,
     imConv self fwhm pa dpc h = Ok (res, h') ->
     cube_value h self = Ok c ->
     h ⊆ h' /\ cube_value h' self = Ok c /\
     exists o', h' !! res = Some (ObjImage o') /\
       Forall (fun l => l ∉ dom h)
         [res; o_image o'; o_imageJyppix o'; o_x o'; o_y o'; o_freq o';
          o_wav o'; o_psf o'] /\
       o_fwhm o' = fwhm /\
       forall l v, l ∈ cube_locs res o' ->
         cube_value (<[l := v]> h') self = Ok c) /\
  (forall im rad au arcsec dpc h res h' c,
     cmask im rad au arcsec dpc h = Ok (Some res, h') ->
     cube_value h im = Ok c ->
     h ⊆ h' /\ cube_value h' im = Ok c /\
     exists o', h' !! res = Some (ObjImage o') /\
       Forall (fun l => l ∉ dom h) (cube_locs res o') /\
       forall l v, l ∈ cube_locs res o' ->
         cube_value (<[l := v]> h') im = Ok c).
Proof.
  split.
  - intros self fwhm pa dpc h res h' c H Hc.
    destruct (imConv_inv self fwhm res pa dpc h h' H)
      as (o & fw & f0 & f1 & dum & f_psf & cimage & o' & Ho & Hfw & _ & _ & _
          & _ & _ & Hsub & Hres & _ & _ & _ & _ & Efw & _ & _ & Hfresh & _).
    split; [exact Hsub|].
    split; [eapply cube_value_weaken; eassumption|].
    exists o'. split; [exact Hres|]. split; [exact Hfresh|]. split; [exact Efw|].
    intros l v Hl. unfold cube_locs in Hl.
    rewrite !Forall_cons in Hfresh.
    destruct Hfresh as (F1 & F2 & F3 & F4 & F5 & F6 & F7 & F8 & _).
    rewrite !elem_of_cons in Hl.
    destruct Hl as [->|[->|[->|[->|[->|[->|[->|[->|[->|Hl]]]]]]]]];
      try (apply (cube_value_write_fresh h h'); assumption).
    + rewrite Efw. apply (cube_value_write_list h h' _ _ _ _ fw); assumption.
    + inversion Hl.
  - intros im rad au arcsec dpc h res h' c H Hc.
    destruct (cmask_inv im res rad au arcsec dpc h h' H) as (o' & Hsub & Hres & Hfresh).
    split; [exact Hsub|].
    split; [eapply cube_value_weaken; eassumption|].
    exists o'. split; [exact Hres|]. split; [exact Hfresh|].
    intros l v Hl. apply (cube_value_write_fresh h h'); try assumption.
    rewrite Forall_forall in Hfresh. apply Hfresh, Hl.
Qed.

Lemma C9_derived_cubes_independent_witness :
  exists im fw h res h' c,
    load_scene uniform_file 1 1 = Ok (im, fw, h) /\
    imConv im fw (Some 0) 1 h = Ok (res, h') /\
    cube_value h im = Ok c /\ cube_value h' im = Ok c /\
    cube_value (<[res := ObjDict]> h') im = Ok c.
Proof.
  destruct uniform_file_loads as (c & Ec).
  destruct (load_scene_total uniform_file 1 1 c Ec) as (im & fw & h & E).
  destruct (load_scene_spec _ _ _ _ _ _ E) as (o & c' & Ec' & Ho & Hok & Hc & Hfw).
  assert (c' = c) as -> by congruence.
  destruct (imConv_total im fw 0 1 1 1 h o c Ho Hok Hc (readImage_layout _ _ Ec) Hfw)
    as (res & h' & Er).
  { intros [Hst _]. destruct (readImage_header _ _ Ec) as (_ & _ & _ & Hs).
    rewrite Hs in Hst. discriminate Hst. }
  destruct C9_derived_cubes_independent as [Hconv _].
  destruct (Hconv im fw (Some 0) 1 h res h' c Er Hc)
    as (_ & Hc' & o' & _ & _ & _ & Hw).
  exists im, fw, h, res, h', c.
  split; [exact E|]. split; [exact Er|]. split; [exact Hc|]. split; [exact Hc'|].
  apply Hw. unfold cube_locs. apply elem_of_cons. left. reflexivity.
Defined.

(** ** C10: the coronographic mask *)

(** C10 (as amended).  When [au] and [arcsec] are not both set (and [dpc] is
    given if [arcsec] is set), [cmask] applied to a cube in the loader's
    layout returns a new cube in which pixel [(ix, iy)] of every channel is
    0.0 when [sqrt(x[ix]^2 + y[iy]^2) <= crad] and keeps its value otherwise,
    where [crad] is [rad*1.496e13] if [au] is set, [rad*1.496e13*dpc] if
    [arcsec] is set and [rad*sizepix_x] otherwise.  When both [au] and
    [arcsec] are set no cube is returned: the result is [None] and the store
    is unchanged. *)
Theorem C10_cmask (im : loc) (rad d : R) (au arcsec : bool) (dpc : option R)
    (h : heap) (o : radmc3dImage) (c : ImageCube) :
  h !! im = Some (ObjImage o) -> image_ok h o ->
  cube_value h im = Ok c -> loader_layout c ->
  (arcsec = true -> dpc = Some d) ->
  (au && arcsec = true -> cmask im rad au arcsec dpc h = Ok (None, h)) /\
  (au && arcsec = false ->
   let crad := if au then rad * 1.496e13
               else if arcsec then rad * 1.496e13 * d
               else rad * sizepix_x c in
   exists res h' o' img',
     cmask im rad au arcsec dpc h = Ok (Some res, h') /\
     h' !! res = Some (ObjImage o') /\
     h' !! o_image o' = Some (ObjArray img') /\
     shape img' = shape (image c) /\
     forall ix iy rest, in_bounds (ix :: iy :: rest) (shape (image c)) = true ->
       at_ img' (ix :: iy :: rest) =
       if bool_decide (sqrt (at_ (im_x c) [ix] ^ 2 + at_ (im_y c) [iy] ^ 2) <= crad)
       then 0 else at_ (image c) (ix :: iy :: rest)).
Proof.
  intros Ho Hok Hc Hlay Hdpc. split.
  - intros Hboth. unfold cmask. rewrite Hboth. reflexivity.
  - intros Hflags crad.
    destruct (cmask_spec im rad au arcsec dpc h o c crad Ho Hok Hc Hlay Hflags)
      as (res & h' & o' & img' & E & Hres & Himg & Hs & Hv).
    { unfold mask_radius, crad. destruct au; [reflexivity|].
      destruct arcsec; [|reflexivity].
      rewrite (Hdpc eq_refl). reflexivity. }
    exists res, h', o', img'. split; [exact E|]. split; [exact Hres|].
    split; [exact Himg|]. split; [exact Hs|].
    intros ix iy rest Hin. rewrite (Hv ix iy rest Hin). unfold Rleb.
    rewrite (Rplus_comm (at_ (im_y c) [iy] ^ 2)). reflexivity.
Qed.

Lemma C10_cmask_witness :
  exists im fw h res h',
    load_scene uniform_file 1 1 = Ok (im, fw, h) /\
    cmask im 1 true false None h = Ok (Some res, h').
Proof.
  destruct uniform_file_loads as (c & Ec).
  destruct (load_scene_total uniform_file 1 1 c Ec) as (im & fw & h & E).
  destruct (load_scene_spec _ _ _ _ _ _ E) as (o & c' & Ec' & Ho & Hok & Hc & Hfw).
  assert (c' = c) as -> by congruence.
  destruct (C10_cmask im 1 1 true false None h o c Ho Hok Hc
              (readImage_layout _ _ Ec)) as [_ Hmask].
  { discriminate. }
  destruct (Hmask eq_refl) as (res & h' & _ & _ & Er & _).
  exists im, fw, h, res, h'. split; [exact E | exact Er].
Defined.

(** Counterexample to C10 as stated: with both [au] and [arcsec] set, [cmask]
    on the loaded uniform cube returns [None], not a cube. *)
Lemma C10_both_units_no_cube :
  exists im fw h,
    load_scene uniform_file 1 1 = Ok (im, fw, h) /\
    cmask im 1 true true (Some 1) h = Ok (None, h).
Proof.
  destruct uniform_file_loads as (c & Ec).
  destruct (load_scene_total uniform_file 1 1 c Ec) as (im & fw & h & E).
  exists im, fw, h. split; [exact E | reflexivity].
Qed.

(** ** getMomentMap *)

Lemma velocity_map_spec (self : ImageCube) (v : ndarray R) :
  shape v = [nfreq self] ->
  exists vmap, velocity_map self v = Ok vmap /\
    shape vmap = [nx self; ny self; nfreq self] /\
    forall i j k, (i < nx self)%nat -> (j < ny self)%nat -> (k < nfreq self)%nat ->
      at_ vmap [i; j; k] = at_ v [k].
Proof.
  intros Hv. unfold velocity_map.
  destruct (for_range_total
    (fun n vm => shape vm = [nx self; ny self; nfreq self] /\
       forall i j k, (i < nx self)%nat -> (j < ny self)%nat -> (k < n)%nat ->
         at_ vm [i; j; k] = at_ v [k])
    (nfreq self)
    (fun ifreq vmap => vi ← item v [ifreq]; setitem_scalar vmap [All; All; At ifreq] vi)
    (full 0 [nx self; ny self; nfreq self])) as (vm & E & Hs & Hval).
  - split; [reflexivity|]. intros; lia.
  - intros n vm Hn [Hs Hval].
    rewrite item_in by (rewrite Hv; apply in_bounds_1; exact Hn).
    cbn [mbind result_bind]. unfold setitem_scalar. rewrite Hs.
    cbn [sub_fits]. apply Nat.ltb_lt in Hn as Hn'. rewrite Hn'. cbn [andb].
    eexists. split; [reflexivity|]. cbn [shape at_]. split; [reflexivity|].
    intros i j k Hi Hj Hk.
    rewrite in_bounds_3 by (try assumption; lia). cbn [sub_selects andb].
    destruct (Nat.eqb_spec n k) as [->|Hne]; cbn [andb]; [reflexivity|].
    apply Hval; try assumption. lia.
  - exists vm. split; [exact E|]. split; [exact Hs|].
    intros i j k Hi Hj Hk. apply Hval; assumption.
Qed.

Lemma nd_zip_same {A B D} (f : A -> B -> D) (a : ndarray A) (b : ndarray B) :
  shape a = shape b ->
  exists c, nd_zip f a b = Ok c /\ shape c = shape a /\
    forall idx, in_bounds idx (shape a) = true ->
      at_ c idx = f (at_ a idx) (at_ b idx).
Proof.
  intros Hs. unfold nd_zip. rewrite <- Hs, broadcast_shapes_refl.
  eexists. split; [reflexivity|]. split; [reflexivity|].
  intros idx Hin. cbn [at_]. rewrite bproj_id by exact Hin. reflexivity.
Qed.

Lemma tail_axis2_3d {A} (a : ndarray A) (n1 n2 n3 : nat) :
  shape a = [n1; n2; n3] ->
  exists b, tail_axis2 a = Ok b /\ shape b = [n1; n2; (n3 - 1)%nat] /\
    forall i j k, at_ b [i; j; k] = at_ a [i; j; S k].
Proof.
  intros H. unfold tail_axis2. rewrite H.
  eexists. split; [reflexivity|]. split; reflexivity.
Qed.

Lemma init_axis2_3d {A} (a : ndarray A) (n1 n2 n3 : nat) :
  shape a = [n1; n2; n3] ->
  exists b, init_axis2 a = Ok b /\ shape b = [n1; n2; (n3 - 1)%nat] /\
    forall idx, at_ b idx = at_ a idx.
Proof.
  intros H. unfold init_axis2. rewrite H.
  eexists. split; [reflexivity|]. split; reflexivity.
Qed.

(** What [getMomentMap] returns on a cube with a three-axis image. *)
Lemma getMomentMap_run (self : ImageCube) (moment : nat) (nu0 wav0 nu : R) :
  shape (image self) = [nx self; ny self; nfreq self] ->
  shape (freq self) = [nfreq self] ->
  rest_frequency nu0 wav0 = Some nu ->
  exists m, getMomentMap self moment nu0 wav0 = Ok (Some m) /\
    shape m = [nx self; ny self] /\
    forall ix iy, (ix < nx self)%nat -> (iy < ny self)%nat ->
      at_ m [ix; iy] = moment_sum self moment nu ix iy.
Proof.
  intros Him Hfr Hnu. unfold getMomentMap. rewrite Hnu.
  unfold ndim. rewrite Him. cbn [length Nat.eqb negb].
  set (v := nd_map (fun f => 2.99792458e10 * (nu - f) / nu / 1e5) (freq self)).
  destruct (velocity_map_spec self v) as (vmap & -> & Svm & Hvm); [exact Hfr|].
  cbn [mbind result_bind].
  destruct (nd_zip_same Rmult (image self) (nd_map (fun a => a ^ moment) vmap))
    as (y & -> & Sy & Hy); [cbn [nd_map shape]; congruence|].
  cbn [mbind result_bind].
  rewrite Him in Sy, Hy.
  destruct (tail_axis2_3d vmap _ _ _ Svm) as (v1 & -> & Sv1 & Hv1).
  destruct (init_axis2_3d vmap _ _ _ Svm) as (v0 & -> & Sv0 & Hv0).
  cbn [mbind result_bind].
  destruct (nd_zip_same Rminus v1 v0) as (dv & -> & Sdv & Hdv); [congruence|].
  destruct (tail_axis2_3d y _ _ _ Sy) as (y1 & -> & Sy1 & Hy1).
  destruct (init_axis2_3d y _ _ _ Sy) as (y0 & -> & Sy0 & Hy0).
  cbn [mbind result_bind].
  destruct (nd_zip_same Rplus y1 y0) as (sy & -> & Ssy & Hsy); [congruence|].
  cbn [mbind result_bind].
  destruct (nd_zip_same Rmult dv sy) as (p & -> & Sp & Hp); [congruence|].
  cbn [mbind result_bind].
  unfold nd_sum2. cbn [nd_map shape]. rewrite Sp, Sdv, Sv1.
  eexists. split; [reflexivity|]. cbn [shape at_]. split; [reflexivity|].
  intros ix iy Hix Hiy. unfold moment_sum.
  apply sum_upto_ext. intros k Hk.
  assert (Hin : in_bounds [ix; iy; k] [nx self; ny self; (nfreq self - 1)%nat] = true)
    by (apply in_bounds_3; assumption).
  cbn [nd_map at_].
  rewrite Hp by (rewrite Sdv, Sv1; exact Hin).
  rewrite Hdv by (rewrite Sv1; exact Hin).
  rewrite Hsy by (rewrite Sy1; exact Hin).
  rewrite Hv1, Hv0, Hy1, Hy0.
  rewrite !Hy by (apply in_bounds_3; try assumption; lia).
  cbn [nd_map at_].
  rewrite !Hvm by (try assumption; lia).
  reflexivity.
Qed.

Lemma rest_frequency_given (nu0 wav0 : R) :
  nu0 <> 0 -> rest_frequency nu0 wav0 = Some nu0.
Proof.
  intros H. unfold rest_frequency. rewrite bool_decide_eq_false_2 by exact H.
  reflexivity.
Qed.

(** The trapezoidal sum of a spectrum that is flat at a pixel telescopes. *)
Lemma moment_sum_flat (self : ImageCube) (nu : R) (ix iy : nat) (a : R) :
  (forall k, (k < nfreq self)%nat -> at_ (image self) [ix; iy; k] = a) ->
  moment_sum self 0 nu ix iy =
  a * (channel_velocity self nu (nfreq self - 1) - channel_velocity self nu 0).
Proof.
  intros Hflat. unfold moment_sum.
  assert (H : forall n, (n < nfreq self)%nat \/ n = 0%nat ->
    sum_upto Rplus 0 n (fun k =>
      (channel_velocity self nu (S k) - channel_velocity self nu k) *
      (at_ (image self) [ix; iy; S k] * channel_velocity self nu (S k) ^ 0 +
       at_ (image self) [ix; iy; k] * channel_velocity self nu k ^ 0) * 0.5)
    = a * (channel_velocity self nu n - channel_velocity self nu 0)).
  { induction n as [|n IH]; intros Hn; cbn [sum_upto]; [lra|].
    rewrite IH by lia. rewrite !Hflat by lia. cbn [pow]. lra. }
  apply H. lia.
Qed.

(** X1.  Moment map, the value.  On a cube whose image has the three axes
    [nx, ny, nfreq] and whose [freq] has [nfreq] entries, [getMomentMap] with
    a rest frequency (given as [nu0], or else as the rest wavelength [wav0])
    returns an [nx] x [ny] map: at each pixel the trapezoidal integral over
    the channel velocities [v = c*(nu0 - freq)/nu0/1e5] of
    [image * v**moment]. *)
Theorem getMomentMap_trapezoid (self : ImageCube) (moment : nat)
    (nu0 wav0 nu : R) :
  shape (image self) = [nx self; ny self; nfreq self] ->
  shape (freq self) = [nfreq self] ->
  rest_frequency nu0 wav0 = Some nu ->
  exists m, getMomentMap self moment nu0 wav0 = Ok (Some m) /\
    shape m = [nx self; ny self] /\
    forall ix iy, (ix < nx self)%nat -> (iy < ny self)%nat ->
      at_ m [ix; iy] =
      sum_upto Rplus 0 (nfreq self - 1) (fun k =>
        let v0 := 2.99792458e10 * (nu - at_ (freq self) [k]) / nu / 1e5 in
        let v1 := 2.99792458e10 * (nu - at_ (freq self) [S k]) / nu / 1e5 in
        (v1 - v0) *
        (at_ (image self) [ix; iy; S k] * v1 ^ moment +
         at_ (image self) [ix; iy; k] * v0 ^ moment) * 0.5).
Proof. apply getMomentMap_run. Qed.

Lemma getMomentMap_trapezoid_witness :
  exists m, getMomentMap two_channel_cube 1 1 0 = Ok (Some m) /\
            at_ m [0%nat; 0%nat] = 2.99792458e10 / 1e5 * (- 0.5 * 2.99792458e10 / 1e5).
Proof.
  destruct (getMomentMap_trapezoid two_channel_cube 1 1 0 1) as (m & E & _ & H).
  - reflexivity.
  - reflexivity.
  - apply rest_frequency_given. lra.
  - exists m. split; [exact E|].
    rewrite (H 0%nat 0%nat) by (cbn; lia).
    cbn [two_channel_cube nfreq Nat.sub sum_upto freq image at_ array1 nth pow].
    lra.
Defined.

(** X2.  Moment map, no result.  [getMomentMap] returns [None] when neither a
    rest frequency nor a rest wavelength is given, and for every cube whose
    image does not have exactly three axes: in particular for every Stokes
    cube that [readImage] returns, whatever the arguments. *)
Theorem getMomentMap_none (self : ImageCube) (moment : nat) (nu0 wav0 : R) :
  (nu0 = 0 /\ wav0 = 0) \/ ndim (image self) <> 3%nat \/
  (exists f, readImage f = Ok self /\ f_iformat f = StokesIQUV) ->
  getMomentMap self moment nu0 wav0 = Ok None.
Proof.
  intros H. unfold getMomentMap.
  destruct (rest_frequency nu0 wav0) as [nu|] eqn:E; [|reflexivity].
  destruct H as [[H0 H1]|H].
  - unfold rest_frequency in E. rewrite !bool_decide_eq_true_2 in E by assumption.
    discriminate E.
  - assert (Hd : ndim (image self) <> 3%nat).
    { destruct H as [H|(f & Hf & Hfmt)]; [exact H|].
      pose proof (readImage_layout f self Hf) as Hlay.
      destruct (readImage_header f self Hf) as (_ & _ & _ & Hs).
      rewrite Hfmt in Hs. unfold ndim. rewrite (lay_image _ Hlay), Hs.
      cbn. lia. }
    apply Nat.eqb_neq in Hd. rewrite Hd. reflexivity.
Qed.

Lemma getMomentMap_none_witness :
  getMomentMap two_channel_cube 0 0 0 = Ok None /\
  exists c, readImage stokes_file = Ok c /\ getMomentMap c 0 1 0 = Ok None.
Proof.
  split.
  - apply getMomentMap_none. left. split; reflexivity.
  - destruct stokes_file_loads as (c & Ec & _).
    exists c. split; [exact Ec|].
    apply getMomentMap_none. right. right. exists stokes_file.
    split; [exact Ec | reflexivity].
Defined.

(** X3.  Moment map of a flat spectrum.  Where the intensity of a pixel is the
    same [a] in every channel, the zeroth moment is [a] times the velocity
    difference between the last and the first channel; with a single channel
    the map is zero. *)
Theorem getMomentMap_flat_spectrum (self : ImageCube) (nu0 wav0 nu : R)
    (ix iy : nat) (a : R) :
  shape (image self) = [nx self; ny self; nfreq self] ->
  shape (freq self) = [nfreq self] ->
  rest_frequency nu0 wav0 = Some nu ->
  (ix < nx self)%nat -> (iy < ny self)%nat ->
  (forall k, (k < nfreq self)%nat -> at_ (image self) [ix; iy; k] = a) ->
  exists m, getMomentMap self 0 nu0 wav0 = Ok (Some m) /\
    at_ m [ix; iy] =
      a * (2.99792458e10 * (nu - at_ (freq self) [(nfreq self - 1)%nat]) / nu / 1e5
           - 2.99792458e10 * (nu - at_ (freq self) [0%nat]) / nu / 1e5) /\
    (nfreq self = 1%nat -> at_ m [ix; iy] = 0).
Proof.
  intros Him Hfr Hnu Hix Hiy Hflat.
  destruct (getMomentMap_run self 0 nu0 wav0 nu Him Hfr Hnu) as (m & E & _ & Hm).
  exists m. split; [exact E|].
  rewrite (Hm ix iy Hix Hiy), (moment_sum_flat self nu ix iy a Hflat).
  split; [reflexivity|].
  intros ->. cbn [Nat.sub]. lra.
Qed.

Lemma getMomentMap_flat_spectrum_witness :
  exists m, getMomentMap (uniform_cube 1) 0 1 0 = Ok (Some m) /\
            at_ m [2%nat; 3%nat] = 0.
Proof.
  destruct (getMomentMap_flat_spectrum (uniform_cube 1) 1 0 1 2 3 1)
    as (m & E & _ & H).
  - reflexivity.
  - reflexivity.
  - apply rest_frequency_given. lra.
  - cbn; lia.
  - cbn; lia.
  - intros k _. reflexivity.
  - exists m. split; [exact E | apply H; reflexivity].
Defined.

(** ** readImage: what the loops store *)

(** Every error of a loop is an error of its body. *)
Lemma for_range_err {S} (P : nat -> S -> Prop) (Q : pyerr -> Prop) (n : nat)
    (body : nat -> S -> result S) (s : S) (e : pyerr) :
  P 0%nat s ->
  (forall i s s', (i < n)%nat -> P i s -> body i s = Ok s' -> P (Datatypes.S i) s') ->
  (forall i s e, (i < n)%nat -> P i s -> body i s = Err e -> Q e) ->
  for_range n body s = Err e -> Q e.
Proof.
  intros H0 Hstep Herr. induction n as [|n IH]; [discriminate|].
  rewrite for_range_S.
  destruct (for_range n body s) as [r|e'] eqn:E; cbn [mbind result_bind].
  - intros Hb. apply (Herr n r e); [lia | | exact Hb].
    apply (for_range_inv P n body s r); [exact H0 | | exact E].
    intros i s1 s2 Hi. apply Hstep. lia.
  - intros [= ->]. apply IH; [| |reflexivity].
    + intros i s1 s2 Hi. apply Hstep. lia.
    + intros i s1 e1 Hi. apply Herr. lia.
Qed.

Lemma intensity_read_row (f : ImageFile) (iwav ix : nat) (img : ndarray R) :
  intensity_read f iwav ix (f_ny f) img -> intensity_read f iwav (S ix) 0 img.
Proof.
  intros [Hs H]. split; [exact Hs|].
  intros w x y Hw Hx Hy Hb. apply H; try assumption.
  unfold read_before in *. lia.
Qed.

Lemma intensity_read_plane (f : ImageFile) (iwav : nat) (img : ndarray R) :
  intensity_read f iwav (f_nx f) 0 img -> intensity_read f (S iwav) 0 0 img.
Proof.
  intros [Hs H]. split; [exact Hs|].
  intros w x y Hw Hx Hy Hb. apply H; try assumption.
  unfold read_before in *. lia.
Qed.

(** One pass of the innermost loop of the total-intensity reader. *)
Lemma intensity_pixel_step (f : ImageFile) (iwav ix iy : nat) (img img' : ndarray R) :
  (iwav < f_nfreq f)%nat -> (ix < f_nx f)%nat -> (iy < f_ny f)%nat ->
  intensity_read f iwav ix iy img ->
  (ln ← pixel_line f iwav ix iy;
   match ln with
   | [a] => setitem_scalar img [At ix; At iy; At iwav] a
   | _ => Err ValueError
   end) = Ok img' ->
  intensity_read f iwav ix (S iy) img'.
Proof.
  intros Hw Hx Hy [Hs Hv] H. bind_name H ln El.
  destruct ln as [|a [|]]; try discriminate.
  unfold pixel_line in El. fold (line_no f iwav ix iy) in El.
  destruct (f_pixels f !! line_no f iwav ix iy) as [l|] eqn:E; [|discriminate].
  injection El as ->.
  apply (setitem_scalar_At_inv img img' [ix; iy; iwav] a) in H as (_ & Hs' & Ha & Ho);
    [|rewrite Hs; reflexivity].
  split; [congruence|].
  intros w x y Hw' Hx' Hy' Hb.
  destruct (decide ([x; y; w] = [ix; iy; iwav])) as [[= -> -> ->]|Hne].
  - rewrite Ha. exact E.
  - rewrite Ho by exact Hne. apply Hv; try assumption.
    unfold read_before in *.
    destruct Hb as [Hb|[Hb|(-> & -> & Hb)]]; [lia | lia |].
    right; right. split; [reflexivity|]. split; [reflexivity|].
    assert (y <> iy) by (intros ->; apply Hne; reflexivity). lia.
Qed.

Lemma intensity_pixel_err (f : ImageFile) (iwav ix iy : nat) (img : ndarray R)
    (e : pyerr) :
  (iwav < f_nfreq f)%nat -> (ix < f_nx f)%nat -> (iy < f_ny f)%nat ->
  shape img = [f_nx f; f_ny f; f_nfreq f] ->
  (ln ← pixel_line f iwav ix iy;
   match ln with
   | [a] => setitem_scalar img [At ix; At iy; At iwav] a
   | _ => Err ValueError
   end) = Err e ->
  e = ValueError.
Proof.
  intros Hw Hx Hy Hs. unfold pixel_line.
  destruct (f_pixels f !! _) as [l|]; cbn [of_option mbind result_bind];
    [|intros [= <-]; reflexivity].
  destruct l as [|a [|]]; try (intros [= <-]; reflexivity).
  destruct (setitem_scalar_At img [ix; iy; iwav] a) as (img' & E & _).
  { rewrite Hs. apply in_bounds_3; assumption. }
  cbn [map] in E. rewrite E. discriminate.
Qed.

(** Whatever the total-intensity reader returns holds, pixel by pixel, the
    numbers of the file, and the file had them all. *)
Lemma read_intensity_inv (f : ImageFile) (img : ndarray R) :
  read_intensity f = Ok img ->
  forall iwav ix iy, (iwav < f_nfreq f)%nat -> (ix < f_nx f)%nat ->
    (iy < f_ny f)%nat ->
    f_pixels f !! line_no f iwav ix iy = Some [at_ img [ix; iy; iwav]].
Proof.
  unfold read_intensity. intros H.
  assert (HP : intensity_read f (f_nfreq f) 0 0 img).
  { apply (for_range_inv (fun n img => intensity_read f n 0 0 img)) in H;
      [exact H | |].
    - split; [reflexivity|]. intros w x y _ _ _ Hb.
      unfold read_before in Hb. lia.
    - intros iwav a a' Hw Ha H1. apply intensity_read_plane.
      apply (for_range_inv (fun n img => intensity_read f iwav n 0 img)) in H1;
        [exact H1 | exact Ha |].
      intros ix b b' Hx Hb H2. apply intensity_read_row.
      apply (for_range_inv (fun n img => intensity_read f iwav ix n img)) in H2;
        [exact H2 | exact Hb |].
      intros iy d d' Hy Hd H3.
      apply (intensity_pixel_step f iwav ix iy d d'); assumption. }
  intros iwav ix iy Hw Hx Hy. apply HP; try assumption.
  left. exact Hw.
Qed.

(** The total-intensity reader raises nothing but [ValueError]. *)
Lemma read_intensity_err (f : ImageFile) (e : pyerr) :
  read_intensity f = Err e -> e = ValueError.
Proof.
  unfold read_intensity.
  apply (for_range_err (fun n img => intensity_read f n 0 0 img)
           (fun e => e = ValueError)).
  - split; [reflexivity|]. intros w x y _ _ _ Hb. unfold read_before in Hb. lia.
  - intros iwav a a' Hw Ha H1. apply intensity_read_plane.
    apply (for_range_inv (fun n img => intensity_read f iwav n 0 img)) in H1;
      [exact H1 | exact Ha |].
    intros ix b b' Hx Hb H2. apply intensity_read_row.
    apply (for_range_inv (fun n img => intensity_read f iwav ix n img)) in H2;
      [exact H2 | exact Hb |].
    intros iy d d' Hy Hd H3.
    apply (intensity_pixel_step f iwav ix iy d d'); assumption.
  - intros iwav a e1 Hw Ha.
    apply (for_range_err (fun n img => intensity_read f iwav n 0 img)
             (fun e => e = ValueError)); [exact Ha| |].
    + intros ix b b' Hx Hb H2. apply intensity_read_row.
      apply (for_range_inv (fun n img => intensity_read f iwav ix n img)) in H2;
        [exact H2 | exact Hb |].
      intros iy d d' Hy Hd H3.
      apply (intensity_pixel_step f iwav ix iy d d'); assumption.
    + intros ix b e2 Hx Hb.
      apply (for_range_err (fun n img => intensity_read f iwav ix n img)
               (fun e => e = ValueError)); [exact Hb| |].
      * intros iy d d' Hy Hd H3.
        apply (intensity_pixel_step f iwav ix iy d d'); assumption.
      * intros iy d e3 Hy [Hs _]. apply intensity_pixel_err; assumption.
Qed.

(** The header part of [readImage]. *)
Lemma readImage_parts (f : ImageFile) (c : ImageCube) :
  readImage f = Ok c ->
  (f_nfreq f <= length (f_wav f))%nat /\
  (match f_iformat f with
   | Intensity => read_intensity f
   | StokesIQUV => read_stokes f
   end) = Ok (image c) /\
  wav c = array1 (take (f_nfreq f) (f_wav f)) /\
  freq c = nd_map (fun w => 2.99792458e10 / w * 1e4) (wav c) /\
  imageJyppix c =
    nd_map (fun a => a * (f_sizepix_x f * f_sizepix_y f / 3.08572e18 ^ 2 * 1e23))
           (image c) /\
  im_x c = nd_map (fun a => (a + 0.5 - INR (f_nx f / 2)) * f_sizepix_x f)
                  (arange (f_nx f)) /\
  im_y c = nd_map (fun a => (a + 0.5 - INR (f_ny f / 2)) * f_sizepix_y f)
                  (arange (f_ny f)) /\
  sizepix_x c = f_sizepix_x f /\ sizepix_y c = f_sizepix_y f /\
  nwav c = f_nfreq f.
Proof.
  unfold readImage. intros H. bind_name H wv Ewv. bind_name H img Eimg.
  injection H as <-. cbn.
  destruct (f_nfreq f <=? length (f_wav f))%nat eqn:E; [|discriminate].
  injection Ewv as <-. apply Nat.leb_le in E.
  repeat split; try reflexivity; assumption.
Qed.

Lemma readImage_total (f : ImageFile) (img : ndarray R) :
  (f_nfreq f <= length (f_wav f))%nat ->
  (match f_iformat f with
   | Intensity => read_intensity f
   | StokesIQUV => read_stokes f
   end) = Ok img ->
  exists c, readImage f = Ok c /\ image c = img.
Proof.
  intros Hw Himg. unfold readImage.
  apply Nat.leb_le in Hw. rewrite Hw. cbn [mbind result_bind].
  rewrite Himg. cbn [mbind result_bind]. eexists. split; reflexivity.
Qed.

Lemma readImage_err (f : ImageFile) (e : pyerr) :
  readImage f = Err e ->
  (f_nfreq f <= length (f_wav f))%nat ->
  (match f_iformat f with
   | Intensity => read_intensity f
   | StokesIQUV => read_stokes f
   end) = Err e.
Proof.
  unfold readImage. intros H Hw. apply Nat.leb_le in Hw. rewrite Hw in H.
  cbn [mbind result_bind] in H.
  destruct (match f_iformat f with
            | Intensity => read_intensity f
            | StokesIQUV => read_stokes f
            end) as [img|e']; [discriminate|].
  cbn [mbind result_bind] in H. injection H as ->. reflexivity.
Qed.

Lemma readImage_short_header (f : ImageFile) :
  ~ (f_nfreq f <= length (f_wav f))%nat -> readImage f = Err ValueError.
Proof.
  intros H. unfold readImage.
  destruct (f_nfreq f <=? length (f_wav f))%nat eqn:E; [|reflexivity].
  apply Nat.leb_le in E. contradiction.
Qed.

Lemma stokes_read_row (f : ImageFile) (iwav ix : nat) (img : ndarray R) :
  stokes_read f iwav ix (f_ny f) img -> stokes_read f iwav (S ix) 0 img.
Proof.
  intros [Hs H]. split; [exact Hs|].
  intros w x y Hw Hx Hy Hb. apply H; try assumption.
  unfold read_before in *. lia.
Qed.

Lemma stokes_read_plane (f : ImageFile) (iwav : nat) (img : ndarray R) :
  stokes_read f iwav (f_nx f) 0 img -> stokes_read f (S iwav) 0 0 img.
Proof.
  intros [Hs H]. split; [exact Hs|].
  intros w x y Hw Hx Hy Hb. apply H; try assumption.
  unfold read_before in *. lia.
Qed.

(** One pass of the innermost loop of the Stokes reader. *)
Lemma stokes_pixel_step (f : ImageFile) (iwav ix iy : nat) (img img' : ndarray R) :
  (iwav < f_nfreq f)%nat -> (ix < f_nx f)%nat -> (iy < f_ny f)%nat ->
  stokes_read f iwav ix iy img ->
  (let dum := split_line f iwav ix iy in
   d0 ← of_option IndexError (dum !! 0%nat);
   img ← setitem_scalar img [At ix; At iy; At 0%nat; At iwav] d0;
   d1 ← of_option IndexError (dum !! 1%nat);
   img ← setitem_scalar img [At ix; At iy; At 1%nat; At iwav] d1;
   d2 ← of_option IndexError (dum !! 2%nat);
   img ← setitem_scalar img [At ix; At iy; At 2%nat; At iwav] d2;
   d3 ← of_option IndexError (dum !! 3%nat);
   setitem_scalar img [At ix; At iy; At 3%nat; At iwav] d3) = Ok img' ->
  stokes_read f iwav ix (S iy) img'.
Proof.
  intros Hw Hx Hy [Hs Hv] H. cbv zeta in H.
  unfold split_line in H. fold (line_no f iwav ix iy) in H.
  destruct (f_pixels f !! line_no f iwav ix iy) as [dum|] eqn:E;
    [|cbn in H; discriminate H]. cbv iota in H.
  bind_name H d0 E0. bind_name H i0 S0.
  bind_name H d1 E1. bind_name H i1 S1.
  bind_name H d2 E2. bind_name H i2 S2.
  bind_name H d3 E3.
  destruct dum as [|a [|b [|c [|d rest]]]]; try discriminate.
  cbn in E0, E1, E2, E3. simplify_eq.
  apply (setitem_scalar_At_inv img i0 [ix; iy; 0%nat; iwav]) in S0
    as (_ & Hs0 & Ha0 & Ho0); [|rewrite Hs; reflexivity].
  apply (setitem_scalar_At_inv i0 i1 [ix; iy; 1%nat; iwav]) in S1
    as (_ & Hs1 & Ha1 & Ho1); [|rewrite Hs0, Hs; reflexivity].
  apply (setitem_scalar_At_inv i1 i2 [ix; iy; 2%nat; iwav]) in S2
    as (_ & Hs2 & Ha2 & Ho2); [|rewrite Hs1, Hs0, Hs; reflexivity].
  apply (setitem_scalar_At_inv i2 img' [ix; iy; 3%nat; iwav]) in H
    as (_ & Hs3 & Ha3 & Ho3); [|rewrite Hs2, Hs1, Hs0, Hs; reflexivity].
  split; [congruence|].
  intros w x y Hw' Hx' Hy' Hb.
  destruct (decide ((x, y, w) = (ix, iy, iwav))) as [[= -> -> ->]|Hne].
  - exists rest. rewrite E. f_equal.
    rewrite Ha3.
    rewrite (Ho3 [ix; iy; 2%nat; iwav]), Ha2 by congruence.
    rewrite (Ho3 [ix; iy; 1%nat; iwav]), (Ho2 [ix; iy; 1%nat; iwav]), Ha1 by congruence.
    rewrite (Ho3 [ix; iy; 0%nat; iwav]), (Ho2 [ix; iy; 0%nat; iwav]),
            (Ho1 [ix; iy; 0%nat; iwav]), Ha0 by congruence.
    reflexivity.
  - assert (Hk : forall k, at_ img' [x; y; k; w] = at_ img [x; y; k; w]).
    { intros k. rewrite Ho3, Ho2, Ho1, Ho0; [reflexivity| | | |];
        intros [= -> -> _ ->]; apply Hne; reflexivity. }
    rewrite !Hk. apply Hv; try assumption.
    unfold read_before in *.
    destruct Hb as [Hb|[Hb|(-> & -> & Hb)]]; [lia | lia |].
    right; right. split; [reflexivity|]. split; [reflexivity|].
    assert (y <> iy) by (intros ->; apply Hne; reflexivity). lia.
Qed.

(** Whatever the Stokes reader returns holds, pixel by pixel, the first four
    numbers of the lines of the file. *)
Lemma read_stokes_inv (f : ImageFile) (img : ndarray R) :
  read_stokes f = Ok img ->
  forall iwav ix iy, (iwav < f_nfreq f)%nat -> (ix < f_nx f)%nat ->
    (iy < f_ny f)%nat ->
    exists rest,
      f_pixels f !! line_no f iwav ix iy =
      Some (at_ img [ix; iy; 0%nat; iwav] :: at_ img [ix; iy; 1%nat; iwav] ::
            at_ img [ix; iy; 2%nat; iwav] :: at_ img [ix; iy; 3%nat; iwav] :: rest).
Proof.
  unfold read_stokes. intros H.
  assert (HP : stokes_read f (f_nfreq f) 0 0 img).
  { apply (for_range_inv (fun n img => stokes_read f n 0 0 img)) in H;
      [exact H | |].
    - split; [reflexivity|]. intros w x y _ _ _ Hb.
      unfold read_before in Hb. lia.
    - intros iwav a a' Hw Ha H1. apply stokes_read_plane.
      apply (for_range_inv (fun n img => stokes_read f iwav n 0 img)) in H1;
        [exact H1 | exact Ha |].
      intros ix b b' Hx Hb H2. apply stokes_read_row.
      apply (for_range_inv (fun n img => stokes_read f iwav ix n img)) in H2;
        [exact H2 | exact Hb |].
      intros iy d d' Hy Hd H3.
      apply (stokes_pixel_step f iwav ix iy d d'); assumption. }
  intros iwav ix iy Hw Hx Hy. apply HP; try assumption.
  left. exact Hw.
Qed.

Lemma stokes_file_ok_total (f : ImageFile) :
  stokes_file_ok f -> exists img, read_stokes f = Ok img.
Proof.
  intros [_ Hpix]. unfold read_stokes.
  destruct (for_range_total
    (fun _ img => shape img = [f_nx f; f_ny f; 4%nat; f_nfreq f])
    (f_nfreq f)
    (fun iwav img => for_range (f_nx f) (fun ix img =>
       for_range (f_ny f) (fun iy img =>
         let dum := split_line f iwav ix iy in
         d0 ← of_option IndexError (dum !! 0%nat);
         img ← setitem_scalar img [At ix; At iy; At 0%nat; At iwav] d0;
         d1 ← of_option IndexError (dum !! 1%nat);
         img ← setitem_scalar img [At ix; At iy; At 1%nat; At iwav] d1;
         d2 ← of_option IndexError (dum !! 2%nat);
         img ← setitem_scalar img [At ix; At iy; At 2%nat; At iwav] d2;
         d3 ← of_option IndexError (dum !! 3%nat);
         setitem_scalar img [At ix; At iy; At 3%nat; At iwav] d3) img) img)
    (full 0 [f_nx f; f_ny f; 4%nat; f_nfreq f])) as (img & E & _);
    [reflexivity| |eauto].
  intros iwav img Hw Hs.
  apply (for_range_total (fun _ img => shape img = [f_nx f; f_ny f; 4%nat; f_nfreq f]));
    [exact Hs|].
  intros ix img1 Hx Hs1.
  apply (for_range_total (fun _ img => shape img = [f_nx f; f_ny f; 4%nat; f_nfreq f]));
    [exact Hs1|].
  intros iy img2 Hy Hs2.
  destruct (Hpix iwav ix iy Hw Hx Hy) as (a & b & c & d & rest & Ha).
  unfold split_line. fold (line_no f iwav ix iy). rewrite Ha. cbv zeta.
  cbn [of_option mbind result_bind lookup list_lookup].
  destruct (setitem_scalar_At img2 [ix; iy; 0%nat; iwav] a) as (i0 & E0 & S0 & _).
  { rewrite Hs2. apply in_bounds_4; try assumption; lia. }
  cbn [map] in E0. rewrite E0. cbn [mbind result_bind].
  destruct (setitem_scalar_At i0 [ix; iy; 1%nat; iwav] b) as (i1 & E1 & S1 & _).
  { rewrite S0, Hs2. apply in_bounds_4; try assumption; lia. }
  cbn [map] in E1. rewrite E1. cbn [mbind result_bind].
  destruct (setitem_scalar_At i1 [ix; iy; 2%nat; iwav] c) as (i2 & E2 & S2 & _).
  { rewrite S1, S0, Hs2. apply in_bounds_4; try assumption; lia. }
  cbn [map] in E2. rewrite E2. cbn [mbind result_bind].
  destruct (setitem_scalar_At i2 [ix; iy; 3%nat; iwav] d) as (i3 & E3 & S3 & _).
  { rewrite S2, S1, S0, Hs2. apply in_bounds_4; try assumption; lia. }
  cbn [map] in E3. exists i3. split; [exact E3 | congruence].
Qed.

(** A Stokes file that ends before a pixel line the loops reach: the
    subscript [dum[0]] of the empty token list raises [IndexError]. *)
Lemma read_stokes_missing_line (f : ImageFile) :
  (0 < f_nfreq f)%nat -> (0 < f_nx f)%nat -> (0 < f_ny f)%nat ->
  f_pixels f = [] ->
  read_stokes f = Err IndexError.
Proof.
  intros Hw Hx Hy Hp. unfold read_stokes.
  apply (for_range_fails (fun _ _ => True) _ 0%nat);
    [exact Hw | exact I | intros; lia |].
  intros img _.
  apply (for_range_fails (fun _ _ => True) _ 0%nat);
    [exact Hx | exact I | intros; lia |].
  intros img1 _.
  apply (for_range_fails (fun _ _ => True) _ 0%nat);
    [exact Hy | exact I | intros; lia |].
  intros img2 _. unfold split_line. rewrite Hp. reflexivity.
Qed.

Lemma uniform_file_ok : intensity_file_ok uniform_file.
Proof.
  split; [cbn; lia|].
  intros iwav ix iy Hw Hx Hy. exists 1. cbn in Hw, Hx, Hy.
  replace iwav with 0%nat by lia.
  destruct ix as [|[|[|[|ix]]]]; try lia;
    destruct iy as [|[|[|[|iy]]]]; try lia; reflexivity.
Qed.

Lemma stokes_file_wf : stokes_file_ok stokes_file.
Proof.
  split; [cbn; lia|].
  intros iwav ix iy Hw Hx Hy. exists 1, 0, 0, 0, []. cbn in Hw, Hx, Hy.
  replace iwav with 0%nat by lia.
  destruct ix as [|[|ix]]; try lia;
    destruct iy as [|[|iy]]; try lia; reflexivity.
Qed.

Lemma truncated_file_not_ok : ~ intensity_file_ok truncated_file.
Proof.
  intros [_ H]. destruct (H 0%nat 1%nat 0%nat) as (a & Ha); cbn; try lia.
  discriminate Ha.
Qed.

Lemma intensity_file_ok_total (f : ImageFile) :
  intensity_file_ok f -> exists img, read_intensity f = Ok img.
Proof. intros [_ H]. apply read_intensity_total. exact H. Qed.

(** Half of an even and of an odd number of pixels (Python 2 integer
    division in [self.nx/2]). *)
Lemma INR_half_even (n : nat) : Nat.even n = true -> INR (n / 2) = INR n / 2.
Proof.
  intros H. apply Nat.even_spec in H as [k ->].
  replace (2 * k / 2)%nat with k by (symmetry; rewrite Nat.mul_comm; apply Nat.div_mul; lia).
  rewrite mult_INR. cbn [INR]. lra.
Qed.

Lemma INR_half_odd (n : nat) : Nat.odd n = true -> INR (n / 2) = (INR n - 1) / 2.
Proof.
  intros H. apply Nat.odd_spec in H as [k ->].
  replace ((2 * k + 1) / 2)%nat with k.
  - rewrite plus_INR, mult_INR. cbn [INR]. lra.
  - symmetry. rewrite Nat.mul_comm, Nat.div_add_l by lia. cbn. lia.
Qed.

(** The pixel-centre grid [((arange(n) + 0.5) - n/2) * d]. *)
Lemma grid_spec (n : nat) (d : R) (i : nat) :
  (i < n)%nat ->
  let g := nd_map (fun a => (a + 0.5 - INR (n / 2)) * d) (arange n) in
  at_ g [i] = (INR i + 0.5 - INR (n / 2)) * d /\
  ((S i < n)%nat -> at_ g [S i] - at_ g [i] = d) /\
  (Nat.even n = true -> at_ g [(n - 1 - i)%nat] = - at_ g [i]) /\
  (Nat.odd n = true -> at_ g [(n - 1 - i)%nat] = d - at_ g [i]).
Proof.
  intros Hi g. unfold g. cbn [nd_map arange at_].
  split; [reflexivity|]. split; [|split].
  - intros _. rewrite S_INR. lra.
  - intros He. rewrite (INR_half_even n He), !minus_INR by lia. cbn [INR]. lra.
  - intros Ho. rewrite (INR_half_odd n Ho), !minus_INR by lia. cbn [INR]. lra.
Qed.

(** ** readImage: the cube of a formatted file *)

(** X4.  Total-intensity files, the pixels.  On a total-intensity file with the
    announced wavelength lines and one number on every pixel line the loops
    reach, [readImage] returns a cube with a three-axis image
    [nx, ny, nfreq] in which [image[ix, iy, iwav]] is the number on pixel line
    [(iwav*nx + ix)*ny + iy] (the lines are consumed with [iy] running
    fastest), and [imageJyppix] is that image times
    [sizepix_x*sizepix_y/pc**2*1e23]. *)
Theorem readImage_intensity_pixels (f : ImageFile) :
  f_iformat f = Intensity -> intensity_file_ok f ->
  exists c, readImage f = Ok c /\ stokes c = false /\
    shape (image c) = [f_nx f; f_ny f; f_nfreq f] /\
    shape (imageJyppix c) = [f_nx f; f_ny f; f_nfreq f] /\
    forall iwav ix iy, (iwav < f_nfreq f)%nat -> (ix < f_nx f)%nat ->
      (iy < f_ny f)%nat ->
      f_pixels f !! ((iwav * f_nx f + ix) * f_ny f + iy)%nat
        = Some [at_ (image c) [ix; iy; iwav]] /\
      at_ (imageJyppix c) [ix; iy; iwav]
        = at_ (image c) [ix; iy; iwav] *
          (f_sizepix_x f * f_sizepix_y f / 3.08572e18 ^ 2 * 1e23).
Proof.
  intros Hfmt Hok.
  destruct (intensity_file_ok_total f Hok) as (img & Eimg).
  destruct (readImage_total f img) as (c & Ec & Eim).
  { apply Hok. }
  { rewrite Hfmt. exact Eimg. }
  exists c. split; [exact Ec|].
  destruct (readImage_header f c Ec) as (_ & _ & _ & Hs). rewrite Hfmt in Hs.
  destruct (readImage_parts f c Ec) as (_ & _ & _ & _ & Ejy & _).
  pose proof (read_intensity_shape f img Eimg) as Himg.
  split; [exact Hs|]. rewrite Ejy, Eim. cbn [nd_map shape at_].
  split; [exact Himg|]. split; [exact Himg|].
  intros iwav ix iy Hw Hx Hy. split; [|reflexivity].
  apply (read_intensity_inv f img Eimg); assumption.
Qed.

Lemma readImage_intensity_pixels_witness :
  exists c, readImage uniform_file = Ok c /\ at_ (image c) [3%nat; 2%nat; 0%nat] = 1.
Proof.
  destruct (readImage_intensity_pixels uniform_file) as (c & Ec & _ & _ & _ & H).
  - reflexivity.
  - apply uniform_file_ok.
  - exists c. split; [exact Ec|].
    destruct (H 0%nat 3%nat 2%nat) as [Hp _]; [cbn; lia | cbn; lia | cbn; lia |].
    cbn in Hp. injection Hp as ->. reflexivity.
Defined.

(** X5.  Total-intensity files, malformed input.  [readImage] returns a cube for
    a total-intensity file exactly when the file has the announced wavelength
    lines and one number on each pixel line the loops reach; for any other
    file (too short, or a pixel line that is empty or holds several numbers)
    it raises [ValueError].  Lines beyond the last pixel are not looked
    at. *)
Theorem readImage_intensity_malformed (f : ImageFile) :
  f_iformat f = Intensity ->
  ((exists c, readImage f = Ok c) <-> intensity_file_ok f) /\
  (~ intensity_file_ok f -> readImage f = Err ValueError).
Proof.
  intros Hfmt.
  assert (Hret : forall c, readImage f = Ok c -> intensity_file_ok f).
  { intros c Ec. destruct (readImage_parts f c Ec) as (Hw & Eimg & _).
    rewrite Hfmt in Eimg. split; [exact Hw|].
    intros iwav ix iy Hi Hx Hy. eexists.
    apply (read_intensity_inv f _ Eimg); assumption. }
  split; [split|].
  - intros (c & Ec). apply (Hret c Ec).
  - intros Hok. destruct (intensity_file_ok_total f Hok) as (img & Eimg).
    destruct (readImage_total f img) as (c & Ec & _);
      [apply Hok | rewrite Hfmt; exact Eimg | eauto].
  - intros Hbad. destruct (readImage f) as [c|e] eqn:E.
    + exfalso. apply Hbad, (Hret c). reflexivity.
    + destruct (le_dec (f_nfreq f) (length (f_wav f))) as [Hw|Hw].
      * apply readImage_err in E; [|exact Hw]. rewrite Hfmt in E.
        apply read_intensity_err in E. congruence.
      * rewrite (readImage_short_header f Hw) in E. exact (eq_sym E).
Qed.

Lemma readImage_intensity_malformed_witness :
  readImage truncated_file = Err ValueError.
Proof.
  destruct (readImage_intensity_malformed truncated_file) as [_ H].
  - reflexivity.
  - apply H, truncated_file_not_ok.
Defined.

(** X6.  Stokes files, the pixels.  On a Stokes file with the announced
    wavelength lines and at least four numbers on every pixel line the loops
    reach, [readImage] returns a cube with a four-axis image
    [nx, ny, 4, nfreq] in which [image[ix, iy, k, iwav]] is the [k]-th number
    on pixel line [(iwav*nx + ix)*ny + iy]; numbers after the fourth are
    ignored. *)
Theorem readImage_stokes_pixels (f : ImageFile) :
  f_iformat f = StokesIQUV -> stokes_file_ok f ->
  exists c, readImage f = Ok c /\ stokes c = true /\
    shape (image c) = [f_nx f; f_ny f; 4%nat; f_nfreq f] /\
    forall iwav ix iy, (iwav < f_nfreq f)%nat -> (ix < f_nx f)%nat ->
      (iy < f_ny f)%nat ->
      exists rest,
        f_pixels f !! ((iwav * f_nx f + ix) * f_ny f + iy)%nat =
        Some (at_ (image c) [ix; iy; 0%nat; iwav] ::
              at_ (image c) [ix; iy; 1%nat; iwav] ::
              at_ (image c) [ix; iy; 2%nat; iwav] ::
              at_ (image c) [ix; iy; 3%nat; iwav] :: rest).
Proof.
  intros Hfmt Hok.
  destruct (stokes_file_ok_total f Hok) as (img & Eimg).
  destruct (readImage_total f img) as (c & Ec & Eim).
  { apply Hok. }
  { rewrite Hfmt. exact Eimg. }
  exists c. split; [exact Ec|].
  destruct (readImage_header f c Ec) as (_ & _ & _ & Hs). rewrite Hfmt in Hs.
  split; [exact Hs|]. rewrite Eim.
  split; [apply read_stokes_shape, Eimg|].
  intros iwav ix iy Hw Hx Hy.
  apply (read_stokes_inv f img Eimg); assumption.
Qed.

Lemma readImage_stokes_pixels_witness :
  exists c, readImage stokes_file = Ok c /\
    at_ (image c) [1%nat; 1%nat; 0%nat; 0%nat] = 1 /\
    at_ (image c) [1%nat; 1%nat; 3%nat; 0%nat] = 0.
Proof.
  destruct (readImage_stokes_pixels stokes_file) as (c & Ec & _ & _ & H).
  - reflexivity.
  - apply stokes_file_wf.
  - exists c. split; [exact Ec|].
    destruct (H 0%nat 1%nat 1%nat) as (rest & Hp); [cbn; lia | cbn; lia | cbn; lia |].
    cbn in Hp. injection Hp as H0 _ _ H3 _. split; congruence.
Defined.

(** X7.  The pixel grid.  The coordinates [x] of a cube that [readImage] returns
    are [(i + 0.5 - nx/2) * sizepix_x] with the integer quotient [nx/2]:
    consecutive pixels are [sizepix_x] apart; for an even [nx] the grid is
    symmetric about 0 ([x[nx-1-i] = -x[i]]), for an odd [nx] it is shifted by
    half a pixel ([x[nx-1-i] = sizepix_x - x[i]]).  The same holds for [y]
    with [ny] and [sizepix_y]. *)
Theorem readImage_grid (f : ImageFile) (c : ImageCube) :
  readImage f = Ok c ->
  shape (im_x c) = [nx c] /\ shape (im_y c) = [ny c] /\
  (forall i, (i < nx c)%nat ->
     at_ (im_x c) [i] = (INR i + 0.5 - INR (nx c / 2)) * sizepix_x c /\
     ((S i < nx c)%nat -> at_ (im_x c) [S i] - at_ (im_x c) [i] = sizepix_x c) /\
     (Nat.even (nx c) = true -> at_ (im_x c) [(nx c - 1 - i)%nat] = - at_ (im_x c) [i]) /\
     (Nat.odd (nx c) = true ->
        at_ (im_x c) [(nx c - 1 - i)%nat] = sizepix_x c - at_ (im_x c) [i])) /\
  (forall i, (i < ny c)%nat ->
     at_ (im_y c) [i] = (INR i + 0.5 - INR (ny c / 2)) * sizepix_y c /\
     ((S i < ny c)%nat -> at_ (im_y c) [S i] - at_ (im_y c) [i] = sizepix_y c) /\
     (Nat.even (ny c) = true -> at_ (im_y c) [(ny c - 1 - i)%nat] = - at_ (im_y c) [i]) /\
     (Nat.odd (ny c) = true ->
        at_ (im_y c) [(ny c - 1 - i)%nat] = sizepix_y c - at_ (im_y c) [i])).
Proof.
  intros Ec.
  pose proof (readImage_layout f c Ec) as Hlay.
  destruct (readImage_header f c Ec) as (Enx & Eny & _).
  destruct (readImage_parts f c Ec) as (_ & _ & _ & _ & _ & Ex & Ey & Esx & Esy & _).
  split; [apply Hlay|]. split; [apply Hlay|].
  rewrite Ex, Ey, Enx, Eny, Esx, Esy.
  split; intros i Hi; apply grid_spec; exact Hi.
Qed.

Lemma readImage_grid_witness :
  exists c, readImage uniform_file = Ok c /\
    at_ (im_x c) [3%nat] = - at_ (im_x c) [0%nat].
Proof.
  destruct uniform_file_loads as (c & Ec).
  exists c. split; [exact Ec|].
  destruct (readImage_grid uniform_file c Ec) as (_ & _ & Hx & _).
  destruct (readImage_header _ _ Ec) as (Enx & _).
  destruct (Hx 0%nat) as (_ & _ & He & _); [rewrite Enx; cbn; lia|].
  rewrite Enx in He. apply He. reflexivity.
Defined.

(** X8.  Wavelengths and frequencies.  A cube that [readImage] returns has
    [nwav = nfreq] wavelengths, the first [nfreq] wavelength lines of the
    file, and [freq = 2.99792458e10 / wav * 1e4] entry by entry, so that
    [freq * wav = 2.99792458e14] wherever the wavelength is not zero. *)
Theorem readImage_wavelengths (f : ImageFile) (c : ImageCube) :
  readImage f = Ok c ->
  nwav c = nfreq c /\ shape (wav c) = [nfreq c] /\ shape (freq c) = [nfreq c] /\
  forall i, (i < nfreq c)%nat ->
    f_wav f !! i = Some (at_ (wav c) [i]) /\
    at_ (freq c) [i] = 2.99792458e10 / at_ (wav c) [i] * 1e4 /\
    (at_ (wav c) [i] <> 0 -> at_ (freq c) [i] * at_ (wav c) [i] = 2.99792458e14).
Proof.
  intros Ec.
  pose proof (readImage_layout f c Ec) as Hlay.
  destruct (readImage_header f c Ec) as (_ & _ & Enf & _).
  destruct (readImage_parts f c Ec) as (Hw & _ & Ewav & Efr & _ & _ & _ & _ & _ & Enw).
  split; [congruence|].
  assert (Sw : shape (wav c) = [nfreq c]).
  { rewrite <- (lay_nwav _ Hlay). apply Hlay. }
  split; [exact Sw|]. rewrite Efr. cbn [nd_map shape at_].
  split; [exact Sw|].
  intros i Hi. split; [|split; [reflexivity|]].
  - rewrite Ewav. cbn [array1 at_]. rewrite Enf in Hi.
    assert (Hl : (i < length (take (f_nfreq f) (f_wav f)))%nat)
      by (rewrite length_take; lia).
    destruct (lookup_lt_is_Some_2 _ _ Hl) as [w Ew].
    rewrite (nth_lookup_Some _ _ 0 _ Ew).
    rewrite lookup_take_lt in Ew by lia. exact Ew.
  - intros Hnz. field. exact Hnz.
Qed.

Lemma readImage_wavelengths_witness :
  exists c, readImage uniform_file = Ok c /\
    at_ (freq c) [0%nat] * at_ (wav c) [0%nat] = 2.99792458e14.
Proof.
  destruct uniform_file_loads as (c & Ec).
  exists c. split; [exact Ec|].
  destruct (readImage_wavelengths uniform_file c Ec) as (_ & _ & _ & H).
  destruct (readImage_header _ _ Ec) as (_ & _ & Enf & _).
  destruct (H 0%nat) as (Hw & _ & Hp); [rewrite Enf; cbn; lia|].
  apply Hp. cbn in Hw. injection Hw as <-. lra.
Defined.

(** ** readImage on binary files *)

Lemma reshape_Ok (l : list R) (shp : list nat) :
  length l = foldr Nat.mul 1%nat shp ->
  reshape l shp = Ok (NdArray shp (fun idx => nth (ravel idx shp 0) l 0)).
Proof. intros H. unfold reshape. apply Nat.eqb_eq in H. rewrite H. reflexivity. Qed.

Lemma reshape_Err (l : list R) (shp : list nat) :
  length l <> foldr Nat.mul 1%nat shp -> reshape l shp = Err ValueError.
Proof. intros H. unfold reshape. apply Nat.eqb_neq in H. rewrite H. reflexivity. Qed.

Lemma nth_drop_plus (n i : nat) (l : list R) :
  nth i (drop n l) 0 = nth (n + i) l 0.
Proof. rewrite !nth_lookup, lookup_drop. reflexivity. Qed.

(** The image a binary total-intensity file is unpacked into. *)
Lemma binary_intensity_image (data : list R) (nfreq ny nx : nat) :
  length data = (nfreq * (ny * nx))%nat ->
  exists img,
    (a ← reshape data [nfreq; ny; nx]; a ← swapaxes a 0 2; swapaxes a 0 1) = Ok img /\
    shape img = [ny; nx; nfreq] /\
    forall iy ix k, at_ img [iy; ix; k] = nth ((k * ny + iy) * nx + ix) data 0.
Proof.
  intros Hlen. rewrite reshape_Ok by (cbn [foldr]; lia).
  cbn [mbind result_bind]. unfold swapaxes, ndim.
  cbn [shape length Nat.ltb Nat.leb andb mbind result_bind].
  eexists. split; [reflexivity|]. cbn [shape at_]. split; [reflexivity|].
  intros iy ix k. cbn. reflexivity.
Qed.

(** The image a binary Stokes file is unpacked into. *)
Lemma binary_stokes_image (data : list R) (nfreq ny nx : nat) :
  length data = (nfreq * (4 * (ny * nx)))%nat ->
  exists img,
    (a ← reshape data [nfreq; 4%nat; ny; nx]; a ← swapaxes a 0 2; swapaxes a 1 3)
      = Ok img /\
    shape img = [ny; nx; nfreq; 4%nat] /\
    forall iy ix k s,
      at_ img [iy; ix; k; s] = nth (((k * 4 + s) * ny + iy) * nx + ix) data 0.
Proof.
  intros Hlen. rewrite reshape_Ok by (cbn [foldr]; lia).
  cbn [mbind result_bind]. unfold swapaxes, ndim.
  cbn [shape length Nat.ltb Nat.leb andb mbind result_bind].
  eexists. split; [reflexivity|]. cbn [shape at_]. split; [reflexivity|].
  intros iy ix k s. cbn. reflexivity.
Qed.

Lemma concat_singletons (l : list (list R)) (p : nat) :
  Forall (fun ln => length ln = 1%nat) l ->
  forall v, l !! p = Some [v] -> nth p (concat l) 0 = v.
Proof.
  intros H. revert p. induction H as [|ln l Hln _ IH]; intros p v Hp; [discriminate|].
  destruct ln as [|a [|]]; try discriminate Hln.
  destruct p as [|p]; cbn in *; [congruence | eauto].
Qed.

Lemma concat_singletons_length (l : list (list R)) :
  Forall (fun ln => length ln = 1%nat) l -> length (concat l) = length l.
Proof.
  induction 1 as [|ln l Hln _ IH]; [reflexivity|].
  cbn. rewrite length_app, Hln, IH. reflexivity.
Qed.

(** What the binary reader returns for a file with the right number of
    words, whatever the format. *)
Lemma readImage_binary_run (f : BinaryFile) (sx sy : R) (rest : list R) :
  b_words f = sx :: sy :: rest ->
  length (drop (b_nfreq f) rest) =
    (b_nfreq f * (match b_iformat f with Intensity => 1 | StokesIQUV => 4 end
                  * (b_ny f * b_nx f)))%nat ->
  exists c, readImage_binary f = Ok c /\
    stokes c = match b_iformat f with Intensity => false | StokesIQUV => true end /\
    nx c = b_nx f /\ ny c = b_ny f /\ nfreq c = b_nfreq f /\ nwav c = b_nfreq f /\
    sizepix_x c = sx /\ sizepix_y c = sy /\
    wav c = array1 (take (b_nfreq f) rest) /\
    freq c = nd_map (fun w => 2.99792458e10 / w * 1e4) (wav c) /\
    imageJyppix c =
      nd_map (fun a => a * (sx * sy / 3.08572e18 ^ 2 * 1e23)) (image c) /\
    im_x c = nd_map (fun a => (a + 0.5 - INR (b_nx f / 2)) * sx) (arange (b_nx f)) /\
    im_y c = nd_map (fun a => (a + 0.5 - INR (b_ny f / 2)) * sy) (arange (b_ny f)) /\
    match b_iformat f with
    | Intensity =>
        shape (image c) = [b_ny f; b_nx f; b_nfreq f] /\
        forall iy ix k,
          at_ (image c) [iy; ix; k] =
          nth ((k * b_ny f + iy) * b_nx f + ix) (drop (b_nfreq f) rest) 0
    | StokesIQUV =>
        shape (image c) = [b_ny f; b_nx f; b_nfreq f; 4%nat] /\
        forall iy ix k s,
          at_ (image c) [iy; ix; k; s] =
          nth (((k * 4 + s) * b_ny f + iy) * b_nx f + ix) (drop (b_nfreq f) rest) 0
    end.
Proof.
  intros Hw Hlen. unfold readImage_binary. rewrite Hw.
  cbn [lookup list_lookup of_option mbind result_bind drop Nat.add].
  destruct (b_iformat f).
  - destruct (binary_intensity_image (drop (b_nfreq f) rest) (b_nfreq f) (b_ny f) (b_nx f))
      as (img & -> & Hs & Hv); [lia|].
    cbn [mbind result_bind]. eexists. split; [reflexivity|]. cbn.
    repeat (split; [reflexivity|]). split; [exact Hs | exact Hv].
  - destruct (binary_stokes_image (drop (b_nfreq f) rest) (b_nfreq f) (b_ny f) (b_nx f))
      as (img & -> & Hs & Hv); [lia|].
    cbn [mbind result_bind]. eexists. split; [reflexivity|]. cbn.
    repeat (split; [reflexivity|]). split; [exact Hs | exact Hv].
Qed.

(** X9.  Binary total-intensity files.  When the float words after the pixel
    sizes and the [nfreq] wavelengths are exactly [nfreq*ny*nx] numbers,
    [readImage] with [binary=True] returns a cube whose image has the axes
    [ny, nx, nfreq] (the two [swapaxes] leave the row index first):
    [image[iy, ix, k]] is data word [(k*ny + iy)*nx + ix], the pixel sizes
    are the first two float words and the wavelengths the next [nfreq]. *)
Theorem readImage_binary_intensity (f : BinaryFile) (sx sy : R) (rest : list R) :
  b_iformat f = Intensity ->
  b_words f = sx :: sy :: rest ->
  length (drop (b_nfreq f) rest) = (b_nfreq f * (b_ny f * b_nx f))%nat ->
  exists c, readImage_binary f = Ok c /\
    stokes c = false /\ nx c = b_nx f /\ ny c = b_ny f /\ nfreq c = b_nfreq f /\
    sizepix_x c = sx /\ sizepix_y c = sy /\
    shape (image c) = [b_ny f; b_nx f; b_nfreq f] /\
    (forall iy ix k, (iy < b_ny f)%nat -> (ix < b_nx f)%nat -> (k < b_nfreq f)%nat ->
       at_ (image c) [iy; ix; k] =
       nth ((k * b_ny f + iy) * b_nx f + ix) (drop (b_nfreq f) rest) 0) /\
    (forall k, (k < b_nfreq f)%nat -> at_ (wav c) [k] = nth k rest 0).
Proof.
  intros Hfmt Hw Hlen.
  destruct (readImage_binary_run f sx sy rest Hw) as (c & Ec & P).
  { rewrite Hfmt. lia. }
  rewrite Hfmt in P.
  destruct P as (Hst & Enx & Eny & Enf & _ & Esx & Esy & Ewav & _ & _ & _ & _ & Hs & Hv).
  exists c. repeat (split; [assumption|]). split.
  - intros iy ix k _ _ _. apply Hv.
  - intros k Hk. rewrite Ewav. cbn [array1 at_].
    rewrite !nth_lookup, lookup_take_lt by exact Hk. reflexivity.
Qed.

Lemma readImage_binary_intensity_witness :
  exists c, readImage_binary small_binary_file = Ok c /\
    shape (image c) = [3%nat; 2%nat; 1%nat] /\
    at_ (image c) [2%nat; 1%nat; 0%nat] = 5.
Proof.
  destruct (readImage_binary_intensity small_binary_file 1 1 [10; 0; 1; 2; 3; 4; 5])
    as (c & Ec & _ & _ & _ & _ & _ & _ & Hs & Hv & _);
    [reflexivity | reflexivity | reflexivity |].
  exists c. split; [exact Ec|]. split; [exact Hs|].
  rewrite Hv by (cbn; lia). reflexivity.
Defined.

(** X10.  Binary Stokes files.  When the data are exactly [nfreq*4*ny*nx] numbers,
    [readImage] with [binary=True] returns a cube whose image has the axes
    [ny, nx, nfreq, 4]: [image[iy, ix, k, s]] is data word
    [((k*4 + s)*ny + iy)*nx + ix].  (The reader of formatted files puts the
    Stokes axis third and the frequency axis last.) *)
Theorem readImage_binary_stokes (f : BinaryFile) (sx sy : R) (rest : list R) :
  b_iformat f = StokesIQUV ->
  b_words f = sx :: sy :: rest ->
  length (drop (b_nfreq f) rest) = (b_nfreq f * (4 * (b_ny f * b_nx f)))%nat ->
  exists c, readImage_binary f = Ok c /\
    stokes c = true /\ nx c = b_nx f /\ ny c = b_ny f /\ nfreq c = b_nfreq f /\
    shape (image c) = [b_ny f; b_nx f; b_nfreq f; 4%nat] /\
    forall iy ix k s, (iy < b_ny f)%nat -> (ix < b_nx f)%nat ->
      (k < b_nfreq f)%nat -> (s < 4)%nat ->
      at_ (image c) [iy; ix; k; s] =
      nth (((k * 4 + s) * b_ny f + iy) * b_nx f + ix) (drop (b_nfreq f) rest) 0.
Proof.
  intros Hfmt Hw Hlen.
  destruct (readImage_binary_run f sx sy rest Hw) as (c & Ec & P).
  { rewrite Hfmt. lia. }
  rewrite Hfmt in P.
  destruct P as (Hst & Enx & Eny & Enf & _ & _ & _ & _ & _ & _ & _ & _ & Hs & Hv).
  exists c. repeat (split; [assumption|]).
  intros iy ix k s0 _ _ _ _. apply Hv.
Qed.

Lemma readImage_binary_stokes_witness :
  exists c, readImage_binary small_binary_stokes = Ok c /\
    shape (image c) = [1%nat; 2%nat; 1%nat; 4%nat] /\
    at_ (image c) [0%nat; 1%nat; 0%nat; 3%nat] = 7.
Proof.
  destruct (readImage_binary_stokes small_binary_stokes 1 1 [10; 0; 1; 2; 3; 4; 5; 6; 7])
    as (c & Ec & _ & _ & _ & _ & Hs & Hv);
    [reflexivity | reflexivity | reflexivity |].
  exists c. split; [exact Ec|]. split; [exact Hs|].
  rewrite Hv by (cbn; lia). reflexivity.
Defined.

(** X11.  Binary files, malformed input.  [readImage] with [binary=True] raises
    [IndexError] when fewer than two float words follow the header, and
    [ValueError] (from [reshape]) when the number of data words is not
    [nfreq*ny*nx], or [nfreq*4*ny*nx] for a Stokes file. *)
Theorem readImage_binary_malformed (f : BinaryFile) :
  ((length (b_words f) < 2)%nat -> readImage_binary f = Err IndexError) /\
  ((2 <= length (b_words f))%nat ->
   length (drop (2 + b_nfreq f) (b_words f)) <>
     (b_nfreq f * (match b_iformat f with Intensity => 1 | StokesIQUV => 4 end
                   * (b_ny f * b_nx f)))%nat ->
   readImage_binary f = Err ValueError).
Proof.
  unfold readImage_binary. split.
  - intros H. destruct (b_words f) as [|a [|b w]]; cbn in H; try lia; reflexivity.
  - intros H Hne. destruct (b_words f) as [|a [|b w]]; cbn in H; try lia.
    cbn [lookup list_lookup of_option mbind result_bind].
    destruct (b_iformat f).
    + rewrite reshape_Err; [reflexivity|]. cbn [foldr]. lia.
    + rewrite reshape_Err; [reflexivity|]. cbn [foldr]. lia.
Qed.

Lemma readImage_binary_malformed_witness :
  readImage_binary {| b_iformat := Intensity; b_nx := 2; b_ny := 2; b_nfreq := 1;
                      b_words := [1; 1; 10; 0; 1; 2] |} = Err ValueError /\
  readImage_binary {| b_iformat := Intensity; b_nx := 2; b_ny := 2; b_nfreq := 1;
                      b_words := [1] |} = Err IndexError.
Proof.
  split.
  - apply readImage_binary_malformed; cbn; lia.
  - apply readImage_binary_malformed; cbn; lia.
Defined.

(** X12.  The two readers agree on square total-intensity images.  For a
    formatted total-intensity file with [nx = ny], [nfreq*nx*ny] pixel lines
    of one number each and its [nfreq] wavelength lines, the binary file that
    holds the same numbers in the same order is read to the same cube: the
    same image, element by element, and the same coordinates, wavelengths,
    frequencies and sizes. *)
Theorem readImage_binary_agrees (f : ImageFile) :
  f_iformat f = Intensity -> f_nx f = f_ny f ->
  (f_nfreq f <= length (f_wav f))%nat ->
  length (f_pixels f) = (f_nfreq f * (f_ny f * f_nx f))%nat ->
  Forall (fun ln => length ln = 1%nat) (f_pixels f) ->
  exists c c', readImage f = Ok c /\ readImage_binary (binary_of f) = Ok c' /\
    shape (image c') = shape (image c) /\
    (forall ix iy k, (ix < f_nx f)%nat -> (iy < f_ny f)%nat -> (k < f_nfreq f)%nat ->
       at_ (image c') [ix; iy; k] = at_ (image c) [ix; iy; k] /\
       at_ (imageJyppix c') [ix; iy; k] = at_ (imageJyppix c) [ix; iy; k]) /\
    im_x c' = im_x c /\ im_y c' = im_y c /\ wav c' = wav c /\ freq c' = freq c /\
    nx c' = nx c /\ ny c' = ny c /\ nfreq c' = nfreq c /\ nwav c' = nwav c /\
    sizepix_x c' = sizepix_x c /\ sizepix_y c' = sizepix_y c /\
    stokes c' = stokes c.
Proof.
  intros Hfmt Hsq Hwav Hlen Hone.
  assert (Hok : intensity_file_ok f).
  { split; [exact Hwav|]. intros iwav ix iy Hw Hx Hy.
    assert (Hp : (line_no f iwav ix iy < length (f_pixels f))%nat).
    { unfold line_no. rewrite Hlen. nia. }
    destruct (lookup_lt_is_Some_2 _ _ Hp) as [ln Eln].
    pose proof (Forall_lookup_1 _ _ _ _ Hone Eln) as H1. cbn beta in H1.
    destruct ln as [|a [|]]; try discriminate H1. exists a. exact Eln. }
  destruct (intensity_file_ok_total f Hok) as (img & Eimg).
  destruct (readImage_total f img) as (c & Ec & Eim);
    [exact Hwav | rewrite Hfmt; exact Eimg |].
  destruct (readImage_parts f c Ec)
    as (_ & _ & Ewav & Efr & Ejy & Ex & Ey & Esx & Esy & Enw).
  destruct (readImage_header f c Ec) as (Enx & Eny & Enf & Est).
  rewrite Hfmt in Est.
  set (W := take (f_nfreq f) (f_wav f)) in *.
  assert (HW : length W = f_nfreq f) by (unfold W; rewrite length_take; lia).
  assert (Hdrop : drop (f_nfreq f) (W ++ concat (f_pixels f)) = concat (f_pixels f)).
  { rewrite <- HW. apply drop_app_length. }
  destruct (readImage_binary_run (binary_of f) (f_sizepix_x f) (f_sizepix_y f)
              (W ++ concat (f_pixels f))) as (c' & Ec' & P); [reflexivity | |].
  { cbn [binary_of b_nfreq b_iformat b_ny b_nx]. rewrite Hfmt, Hdrop.
    rewrite (concat_singletons_length _ Hone). lia. }
  cbn [binary_of b_nfreq b_iformat b_ny b_nx] in P. rewrite Hfmt, Hdrop in P.
  destruct P as (Est' & Enx' & Eny' & Enf' & Enw' & Esx' & Esy' & Ewav' & Efr' & Ejy'
                 & Ex' & Ey' & Hs' & Hv').
  assert (Ew : wav c' = wav c).
  { rewrite Ewav', Ewav. f_equal. rewrite <- HW at 1. apply take_app_length. }
  assert (Hval : forall ix iy k, (ix < f_nx f)%nat -> (iy < f_ny f)%nat ->
            (k < f_nfreq f)%nat -> at_ (image c') [ix; iy; k] = at_ (image c) [ix; iy; k]).
  { intros ix iy k Hx Hy Hk. rewrite Hv'.
    apply (concat_singletons _ _ Hone).
    rewrite Eim. rewrite <- (read_intensity_inv f img Eimg k ix iy Hk Hx Hy).
    unfold line_no. f_equal. rewrite Hsq. reflexivity. }
  exists c, c'. split; [exact Ec|]. split; [exact Ec'|].
  split.
  { rewrite Hs', Eim, (read_intensity_shape f img Eimg), Hsq. reflexivity. }
  split.
  { intros ix iy k Hx Hy Hk. split; [apply Hval; assumption|].
    rewrite Ejy', Ejy. cbn [nd_map at_]. rewrite Hval by assumption. reflexivity. }
  rewrite Ex', Ey', Ex, Ey, Efr', Efr, Ew.
  repeat split; congruence.
Qed.

Lemma readImage_binary_agrees_witness :
  exists c c', readImage uniform_file = Ok c /\
    readImage_binary (binary_of uniform_file) = Ok c' /\
    at_ (image c') [1%nat; 2%nat; 0%nat] = at_ (image c) [1%nat; 2%nat; 0%nat].
Proof.
  destruct (readImage_binary_agrees uniform_file) as (c & c' & Ec & Ec' & _ & H & _).
  - reflexivity.
  - reflexivity.
  - cbn; lia.
  - reflexivity.
  - cbn [uniform_file f_pixels repeat]. repeat constructor.
  - exists c, c'. split; [exact Ec|]. split; [exact Ec'|].
    apply H; cbn; lia.
Defined.

(** ** getPSF: the kernel as a function of its arguments *)

(** The value of every pixel of the PSF in closed form. *)
Lemma getPSF_values (nx ny : nat) (fx fy p : R) (pscale : option (R * R)) :
  exists r, getPSF nx ny [fx; fy] (Some p) pscale = Ok r /\
    shape (psf r) = [nx; ny] /\
    forall ix iy, (ix < nx)%nat -> (iy < ny)%nat ->
      let xi := (INR ix - INR (nx / 2)) * (psf_scale pscale).1 in
      let yi := (INR iy - INR (ny / 2)) * (psf_scale pscale).2 in
      let s := sin (p / 180 * PI - PI / 2) in
      let c := cos (p / 180 * PI - PI / 2) in
      let xx := c * xi - s * yi in
      let yy := s * xi + c * yi in
      at_ (psf r) [ix; iy] =
      exp (-0.5 * xx * xx / psf_sigma fx / psf_sigma fx
           - 0.5 * yy * yy / psf_sigma fy / psf_sigma fy)
      / psf_norm (psf_sigma fx) (psf_sigma fy).
Proof.
  unfold getPSF, psf_scale.
  set (d := match pscale with Some (dx, dy) => (dx, dy) | None => (1, 1) end).
  destruct d as [dx dy].
  cbn [lookup list_lookup of_option mbind result_bind].
  set (x := nd_map (fun a => (a - INR (nx / 2)) * dx) (arange nx)).
  set (y := nd_map (fun a => (a - INR (ny / 2)) * dy) (arange ny)).
  destruct (psf_kernel_spec nx ny x y (psf_sigma fx) (psf_sigma fy)
              (sin (p / 180 * PI - PI / 2)) (cos (p / 180 * PI - PI / 2)))
    as (k & Hk & Hs & Hv); [reflexivity | reflexivity |].
  rewrite Hk. cbn [mbind result_bind].
  eexists. split; [reflexivity|]. cbn [psf nd_map shape at_ fst snd].
  split; [exact Hs|].
  intros ix iy Hx Hy. cbv zeta. rewrite (Hv ix iy Hx Hy). reflexivity.
Qed.

Lemma exp_neg_ln2 : exp (- ln 2) = / 2.
Proof. rewrite exp_Ropp, exp_ln by lra. reflexivity. Qed.

Lemma psf_sigma_sqr (fw : R) :
  psf_sigma fw * psf_sigma fw = fw * fw / (8 * ln 2).
Proof.
  unfold psf_sigma. pose proof ln2_pos as Hl.
  assert (Hq : sqrt (2.0 * ln 2) * sqrt (2.0 * ln 2) = 2 * ln 2).
  { rewrite sqrt_sqrt by lra. lra. }
  assert (Hs : 0 < sqrt (2.0 * ln 2)) by (apply sqrt_lt_R0; lra).
  set (q := sqrt (2.0 * ln 2)) in *.
  replace (fw / (2.0 * q) * (fw / (2.0 * q))) with (fw * fw / (4 * (q * q))).
  - rewrite Hq. f_equal. lra.
  - replace 2.0 with 2 by lra. field. lra.
Qed.

(** X13.  Point symmetry of the PSF.  For every [fwhm], position angle and pixel
    scale the kernel is symmetric under the reflection through the centre
    pixel [(nx/2, ny/2)]: [psf[2*(nx/2) - ix, 2*(ny/2) - iy] = psf[ix, iy]]
    whenever both pixels are on the grid. *)
Theorem getPSF_point_symmetric (nx ny : nat) (fx fy p : R)
    (pscale : option (R * R)) :
  exists r, getPSF nx ny [fx; fy] (Some p) pscale = Ok r /\
    forall ix iy, (ix < nx)%nat -> (iy < ny)%nat ->
      (ix <= 2 * (nx / 2))%nat -> (iy <= 2 * (ny / 2))%nat ->
      (2 * (nx / 2) - ix < nx)%nat -> (2 * (ny / 2) - iy < ny)%nat ->
      at_ (psf r) [(2 * (nx / 2) - ix)%nat; (2 * (ny / 2) - iy)%nat]
      = at_ (psf r) [ix; iy].
Proof.
  destruct (getPSF_values nx ny fx fy p pscale) as (r & Er & _ & Hv).
  exists r. split; [exact Er|].
  intros ix iy Hx Hy Hx2 Hy2 Hrx Hry.
  rewrite (Hv _ _ Hrx Hry), (Hv _ _ Hx Hy). cbv zeta.
  rewrite !minus_INR, !mult_INR by assumption. cbn [INR].
  f_equal. f_equal. lra.
Qed.

Lemma getPSF_point_symmetric_witness :
  exists r, getPSF 3 3 [1; 2] (Some 30) None = Ok r /\
    at_ (psf r) [2%nat; 0%nat] = at_ (psf r) [0%nat; 2%nat].
Proof.
  destruct (getPSF_point_symmetric 3 3 1 2 30 None) as (r & Er & H).
  exists r. split; [exact Er|].
  apply (H 0%nat 2%nat); cbn; lia.
Defined.

(** X14.  The position angle counts modulo 180 degrees: [pa] and [pa + 180] give
    the same kernel. *)
Theorem getPSF_angle_period (nx ny : nat) (fx fy p : R)
    (pscale : option (R * R)) :
  exists r r', getPSF nx ny [fx; fy] (Some p) pscale = Ok r /\
    getPSF nx ny [fx; fy] (Some (p + 180)) pscale = Ok r' /\
    shape (psf r') = shape (psf r) /\
    forall ix iy, (ix < nx)%nat -> (iy < ny)%nat ->
      at_ (psf r') [ix; iy] = at_ (psf r) [ix; iy].
Proof.
  destruct (getPSF_values nx ny fx fy p pscale) as (r & Er & Hs & Hv).
  destruct (getPSF_values nx ny fx fy (p + 180) pscale) as (r' & Er' & Hs' & Hv').
  exists r, r'. split; [exact Er|]. split; [exact Er'|]. split; [congruence|].
  intros ix iy Hx Hy. rewrite (Hv _ _ Hx Hy), (Hv' _ _ Hx Hy). cbv zeta.
  replace ((p + 180) / 180 * PI - PI / 2) with (p / 180 * PI - PI / 2 + PI) by lra.
  rewrite neg_sin, neg_cos. f_equal. f_equal. lra.
Qed.

(** X15.  A circular beam does not depend on the position angle: with
    [fwhm[0] = fwhm[1]] every position angle gives the same kernel. *)
Theorem getPSF_circular (nx ny : nat) (fw p q : R) (pscale : option (R * R)) :
  exists r r', getPSF nx ny [fw; fw] (Some p) pscale = Ok r /\
    getPSF nx ny [fw; fw] (Some q) pscale = Ok r' /\
    forall ix iy, (ix < nx)%nat -> (iy < ny)%nat ->
      at_ (psf r') [ix; iy] = at_ (psf r) [ix; iy].
Proof.
  destruct (getPSF_values nx ny fw fw p pscale) as (r & Er & Hs & Hv).
  destruct (getPSF_values nx ny fw fw q pscale) as (r' & Er' & Hs' & Hv').
  exists r, r'. split; [exact Er|]. split; [exact Er'|].
  intros ix iy Hx Hy. rewrite (Hv _ _ Hx Hy), (Hv' _ _ Hx Hy). cbv zeta.
  set (xi := (INR ix - INR (nx / 2)) * (psf_scale pscale).1).
  set (yi := (INR iy - INR (ny / 2)) * (psf_scale pscale).2).
  set (a := p / 180 * PI - PI / 2). set (b := q / 180 * PI - PI / 2).
  pose proof (sin2_cos2 a) as Ha. pose proof (sin2_cos2 b) as Hb.
  unfold Rsqr in Ha, Hb.
  f_equal. f_equal. unfold Rdiv.
  set (i := / psf_sigma fw).
  transitivity (-0.5 * (xi * xi + yi * yi) * i * i).
  - replace (xi * xi + yi * yi)
      with ((sin b * sin b + cos b * cos b) * (xi * xi + yi * yi)) by (rewrite Hb; lra).
    lra.
  - replace (xi * xi + yi * yi)
      with ((sin a * sin a + cos a * cos a) * (xi * xi + yi * yi)) by (rewrite Ha; lra).
    lra.
Qed.

(** X16.  Full width at half maximum.  With the position angle 90 the first
    [fwhm] is the full width at half maximum along [x]: a pixel of the centre
    row that lies [fwhm[0]/2] from the centre holds half the value of the
    centre pixel. *)
Theorem getPSF_half_maximum (nx ny : nat) (fx fy dx dy : R) (ix : nat) :
  0 < fx -> 0 < fy -> (ix < nx)%nat -> (0 < ny)%nat ->
  (INR ix - INR (nx / 2)) * dx = fx / 2 ->
  exists r, getPSF nx ny [fx; fy] (Some 90) (Some (dx, dy)) = Ok r /\
    at_ (psf r) [ix; (ny / 2)%nat] =
    at_ (psf r) [(nx / 2)%nat; (ny / 2)%nat] / 2.
Proof.
  intros Hfx Hfy Hix Hny Hpos.
  destruct (getPSF_values nx ny fx fy 90 (Some (dx, dy))) as (r & Er & _ & Hv).
  exists r. split; [exact Er|].
  assert (Hcy : (ny / 2 < ny)%nat) by (apply Nat.div_lt; lia).
  assert (Hcx : (nx / 2 < nx)%nat) by (apply Nat.div_lt; lia).
  rewrite (Hv _ _ Hix Hcy), (Hv _ _ Hcx Hcy). cbv zeta. cbn [psf_scale fst snd].
  replace (90 / 180 * PI - PI / 2) with 0 by lra.
  rewrite sin_0, cos_0, Hpos.
  pose proof (psf_sigma_pos fx Hfx) as Hsx.
  pose proof (psf_sigma_sqr fx) as Hsq. pose proof ln2_pos as Hl.
  match goal with
  | |- exp ?a / _ = exp ?b / _ / 2 =>
      replace b with 0 by lra;
      replace a with (- (fx * fx / 8) / (psf_sigma fx * psf_sigma fx))
  end.
  - rewrite Hsq.
    replace (- (fx * fx / 8) / (fx * fx / (8 * ln 2))) with (- ln 2) by (field; lra).
    rewrite exp_neg_ln2, exp_0. lra.
  - unfold Rdiv. rewrite Rinv_mult. lra.
Qed.

Lemma getPSF_half_maximum_witness :
  exists r, getPSF 4 4 [2; 2] (Some 90) (Some (1, 1)) = Ok r /\
    at_ (psf r) [3%nat; 2%nat] = at_ (psf r) [2%nat; 2%nat] / 2.
Proof.
  apply (getPSF_half_maximum 4 4 2 2 1 1 3); try lra; try lia.
  cbn. lra.
Defined.

(** X17.  Missing arguments of [getPSF].  A [fwhm] with fewer than two elements
    raises [IndexError]; with two elements and no position angle
    ([pa=None], the default) the call raises [TypeError]. *)
Theorem getPSF_bad_arguments (nx ny : nat) (fwhm : list R) (pa : option R)
    (pscale : option (R * R)) :
  ((length fwhm < 2)%nat -> getPSF nx ny fwhm pa pscale = Err IndexError) /\
  ((2 <= length fwhm)%nat -> pa = None ->
   getPSF nx ny fwhm pa pscale = Err TypeError).
Proof.
  unfold getPSF. destruct pscale as [[dx dy]|]; split.
  all: try (intros Hl; destruct fwhm as [|f0 [|f1 fw]]; cbn in Hl; try lia; reflexivity).
  all: intros Hl ->; destruct fwhm as [|f0 [|f1 fw]]; cbn in Hl; try lia; reflexivity.
Qed.

Lemma getPSF_bad_arguments_witness :
  getPSF 4 4 [1] (Some 0) None = Err IndexError /\
  getPSF 4 4 [1; 1] None None = Err TypeError.
Proof.
  split.
  - apply getPSF_bad_arguments. cbn. lia.
  - apply getPSF_bad_arguments; [cbn; lia | reflexivity].
Defined.

(** ** getVisibility: conjugation *)

Lemma phase_factor_value (p : R) : phase_factor p = (cos p, - sin p).
Proof. unfold phase_factor, Cadd, Cmul, RtoC, imu, Cre, Cim. cbn. f_equal; lra. Qed.

Lemma phase_factor_neg (p : R) : phase_factor (- p) = Cconj (phase_factor p).
Proof.
  rewrite !phase_factor_value. unfold Cconj, Cre, Cim. cbn.
  rewrite cos_neg, sin_neg. reflexivity.
Qed.

Lemma Cconj_sum (n : nat) (f : nat -> C) :
  Cconj (sum_upto Cadd C0 n f) = sum_upto Cadd C0 n (fun i => Cconj (f i)).
Proof.
  induction n as [|n IH]; cbn [sum_upto].
  - unfold Cconj, C0, Cre, Cim. cbn. f_equal. lra.
  - rewrite <- IH. unfold Cconj, Cadd, Cre, Cim. cbn. f_equal. lra.
Qed.

Lemma Cconj_scale (z : C) (k : R) : Cconj (Cscale z k) = Cscale (Cconj z) k.
Proof. unfold Cconj, Cscale, Cre, Cim. cbn. f_equal. lra. Qed.

Lemma Cconj_mul_real (a : R) (z : C) :
  Cconj (Cmul (RtoC a) z) = Cmul (RtoC a) (Cconj z).
Proof. unfold Cconj, Cmul, RtoC, Cre, Cim. cbn. f_equal; lra. Qed.

Lemma dft_sum_conj (self : ImageCube) (l m : ndarray R) (dl dm uu vv : R)
    (iwav : nat) :
  dft_sum self l m dl dm (- uu) (- vv) iwav
  = Cconj (dft_sum self l m dl dm uu vv iwav).
Proof.
  unfold dft_sum. rewrite Cconj_sum. apply sum_upto_ext. intros il _.
  rewrite !Cconj_scale, Cconj_sum. do 2 f_equal.
  apply sum_upto_ext. intros j _.
  rewrite Cconj_mul_real, <- phase_factor_neg. do 2 f_equal. lra.
Qed.

Lemma amp_of_conj (z : C) : amp_of (Cconj z) = amp_of z.
Proof.
  unfold amp_of. rewrite !amplitude_modulus.
  unfold Cconj, Cre, Cim. cbn. f_equal. lra.
Qed.

(** ** getVisibility: the sampled Fourier transform *)

(** X18.  Spatial frequencies and visibilities.  On a total-intensity cube in the
    loader's layout with at least two pixels per axis, [getVisibility] with
    [n] baselines and as many position angles (or a single one) returns
    [n] x [nwav] arrays in which, for every baseline and wavelength,
    [u = bl*cos(pa)*1e6/wav], [v = bl*sin(pa)*1e6/wav] (the position angle is
    taken in radians) and [vis] is the sum over the pixels of
    [image[il, j, iwav] * exp(-2*pi*i*(u*l[il] + v*m[j])) * dl * dm], with
    [l] and [m] the pixel coordinates as angles and [dl], [dm] the steps
    between the first two pixels. *)
Theorem getVisibility_fourier_sum (self : ImageCube) (bl pa : ndarray R)
    (d : R) (n k : nat) :
  loader_layout self -> stokes self = false ->
  (2 <= nx self)%nat -> (2 <= ny self)%nat ->
  shape bl = [n] -> shape pa = [k] -> k = n \/ k = 1%nat ->
  let l := fun il => at_ (im_x self) [il] / 1.496e13 / d / 3600 / 180 * PI in
  let m := fun j => at_ (im_y self) [j] / 1.496e13 / d / 3600 / 180 * PI in
  let dl := l 1%nat - l 0%nat in
  let dm := m 1%nat - m 0%nat in
  exists r, getVisibility self bl pa (Some d) = Ok r /\
    shape (v_u r) = [n; nwav self] /\ shape (v_v r) = [n; nwav self] /\
    shape (v_vis r) = [n; nwav self] /\
    forall ibl iwav, (ibl < n)%nat -> (iwav < nwav self)%nat ->
      let u := at_ bl [ibl] * cos (at_ pa [if (k =? 1)%nat then 0%nat else ibl])
               * 1e6 / at_ (wav self) [iwav] in
      let v := at_ bl [ibl] * sin (at_ pa [if (k =? 1)%nat then 0%nat else ibl])
               * 1e6 / at_ (wav self) [iwav] in
      at_ (v_u r) [ibl; iwav] = u /\
      at_ (v_v r) [ibl; iwav] = v /\
      at_ (v_vis r) [ibl; iwav] =
        sum_upto Cadd C0 (nx self) (fun il =>
          Cscale (Cscale
            (sum_upto Cadd C0 (ny self) (fun j =>
               let p := 2 * PI * (u * l il + v * m j) in
               Cmul (RtoC (at_ (image self) [il; j; iwav])) (cos p, - sin p)))
            dl) dm).
Proof.
  intros Hlay Hst Hnx Hny Hbl Hpa Hk l m dl dm.
  destruct (getVisibility_run self bl pa d n k Hlay Hst Hnx Hny Hbl Hpa Hk)
    as (r & E & Hs & Hv).
  exists r. split; [exact E|].
  split; [apply Hs|]. split; [apply Hs|]. split; [apply Hs|].
  intros ibl iwav Hi Hw. cbv zeta.
  destruct (Hv ibl iwav Hi Hw) as (Hu & Hvv & Hvis).
  unfold pa_index in *. split; [exact Hu|]. split; [exact Hvv|].
  rewrite Hvis. unfold dft_sum. apply sum_upto_ext. intros il _.
  do 2 f_equal. apply sum_upto_ext. intros j _.
  rewrite phase_factor_value. reflexivity.
Qed.

Lemma getVisibility_fourier_sum_witness :
  exists r, getVisibility (uniform_cube 1) (array1 [2; 3]) (array1 [0]) (Some 1) = Ok r /\
    at_ (v_u r) [1%nat; 0%nat] = 3 * 1e6 /\ at_ (v_v r) [1%nat; 0%nat] = 0.
Proof.
  destruct (getVisibility_fourier_sum (uniform_cube 1) (array1 [2; 3]) (array1 [0])
              1 2 1) as (r & E & _ & _ & _ & H).
  - apply uniform_cube_layout.
  - reflexivity.
  - cbn; lia.
  - cbn; lia.
  - reflexivity.
  - reflexivity.
  - right; reflexivity.
  - exists r. split; [exact E|].
    destruct (H 1%nat 0%nat) as (Hu & Hv & _); [lia | cbn; lia |].
    rewrite Hu, Hv. cbn [Nat.eqb array1 at_ nth uniform_cube wav].
    rewrite cos_0, sin_0. split; lra.
Defined.

(** X19.  Reversing the baselines.  Adding [pi] to every position angle changes
    the sign of [u] and [v], turns every visibility into its complex
    conjugate and leaves the amplitudes as they are. *)
Theorem getVisibility_reversed_baseline (self : ImageCube) (bl pa : ndarray R)
    (d : R) (n k : nat) :
  loader_layout self -> stokes self = false ->
  (2 <= nx self)%nat -> (2 <= ny self)%nat ->
  shape bl = [n] -> shape pa = [k] -> k = n \/ k = 1%nat ->
  exists r r',
    getVisibility self bl pa (Some d) = Ok r /\
    getVisibility self bl (nd_map (fun a => a + PI) pa) (Some d) = Ok r' /\
    forall ibl iwav, (ibl < n)%nat -> (iwav < nwav self)%nat ->
      at_ (v_u r') [ibl; iwav] = - at_ (v_u r) [ibl; iwav] /\
      at_ (v_v r') [ibl; iwav] = - at_ (v_v r) [ibl; iwav] /\
      at_ (v_vis r') [ibl; iwav] = Cconj (at_ (v_vis r) [ibl; iwav]) /\
      at_ (v_amp r') [ibl; iwav] = at_ (v_amp r) [ibl; iwav].
Proof.
  intros Hlay Hst Hnx Hny Hbl Hpa Hk.
  destruct (getVisibility_run self bl pa d n k Hlay Hst Hnx Hny Hbl Hpa Hk)
    as (r & E & Hs & Hv).
  destruct (getVisibility_run self bl (nd_map (fun a => a + PI) pa) d n k
              Hlay Hst Hnx Hny Hbl Hpa Hk) as (r' & E' & Hs' & Hv').
  destruct (getVisibility_points _ _ _ _ _ E) as (nbl & Hn & _ & Hp).
  destruct (getVisibility_points _ _ _ _ _ E') as (nbl' & Hn' & _ & Hp').
  unfold shape_at in Hn, Hn'. rewrite Hbl in Hn, Hn'. cbn in Hn, Hn'.
  injection Hn as <-. injection Hn' as <-.
  exists r, r'. split; [exact E|]. split; [exact E'|].
  intros ibl iwav Hi Hw.
  destruct (Hv ibl iwav Hi Hw) as (Hu & Hvv & Hvis).
  destruct (Hv' ibl iwav Hi Hw) as (Hu' & Hvv' & Hvis').
  cbn [nd_map at_] in Hu', Hvv', Hvis'.
  rewrite neg_cos in Hu', Hvis'. rewrite neg_sin in Hvv', Hvis'.
  assert (Eu : at_ (v_u r') [ibl; iwav] = - at_ (v_u r) [ibl; iwav])
    by (rewrite Hu', Hu; lra).
  assert (Ev : at_ (v_v r') [ibl; iwav] = - at_ (v_v r) [ibl; iwav])
    by (rewrite Hvv', Hvv; lra).
  assert (Evis : at_ (v_vis r') [ibl; iwav] = Cconj (at_ (v_vis r) [ibl; iwav])).
  { rewrite Hvis', Hvis, <- dft_sum_conj. f_equal; lra. }
  split; [exact Eu|]. split; [exact Ev|]. split; [exact Evis|].
  destruct (Hp ibl iwav Hi Hw) as [Ha _]. destruct (Hp' ibl iwav Hi Hw) as [Ha' _].
  rewrite Ha', Ha, Evis. apply amp_of_conj.
Qed.

Lemma getVisibility_reversed_baseline_witness :
  exists r r',
    getVisibility (uniform_cube 1) (array1 [2]) (array1 [0]) (Some 1) = Ok r /\
    getVisibility (uniform_cube 1) (array1 [2]) (nd_map (fun a => a + PI) (array1 [0]))
      (Some 1) = Ok r' /\
    at_ (v_amp r') [0%nat; 0%nat] = at_ (v_amp r) [0%nat; 0%nat].
Proof.
  destruct (getVisibility_reversed_baseline (uniform_cube 1) (array1 [2]) (array1 [0])
              1 1 1) as (r & r' & E & E' & H).
  - apply uniform_cube_layout.
  - reflexivity.
  - cbn; lia.
  - cbn; lia.
  - reflexivity.
  - reflexivity.
  - left; reflexivity.
  - exists r, r'. split; [exact E|]. split; [exact E'|].
    apply (H 0%nat 0%nat); [lia | cbn; lia].
Defined.

(** X20.  The distance is required.  Called without [dpc] (the default [None]),
    [getVisibility] raises [TypeError] for every cube and every baseline
    array with at least one axis, and so does [getClosurePhase]. *)
Theorem visibility_needs_distance (self : ImageCube) (bl pa : ndarray R) :
  shape bl <> [] ->
  getVisibility self bl pa None = Err TypeError /\
  getClosurePhase self bl pa None = Err TypeError.
Proof.
  intros Hbl. unfold getClosurePhase, getClosurePhase_via, getVisibility, shape_at.
  destruct (shape bl) as [|n s]; [contradiction|].
  split; reflexivity.
Qed.

Lemma visibility_needs_distance_witness :
  getVisibility (uniform_cube 1) (array1 [2]) (array1 [0]) None = Err TypeError.
Proof.
  apply (visibility_needs_distance (uniform_cube 1) (array1 [2]) (array1 [0])).
  discriminate.
Defined.

(** X21.  No closure phase is ever returned.  For every cube with at least two
    pixels along each axis, every distance and every array of one or more
    baseline triangles, [getClosurePhase] raises [AttributeError] at its first
    triangle (the lookup of [self.get_visibility]); it returns only for an
    empty array of triangles, and then with empty arrays. *)
Theorem getClosurePhase_outcomes (self : ImageCube) (bl pa : ndarray R)
    (d : R) (ntri : nat) (s : list nat) :
  shape bl = ntri :: s ->
  shape (im_x self) = [nx self] -> shape (im_y self) = [ny self] ->
  (2 <= nx self)%nat -> (2 <= ny self)%nat ->
  ((0 < ntri)%nat -> getClosurePhase self bl pa (Some d) = Err AttributeError) /\
  (ntri = 0%nat ->
   exists r, getClosurePhase self bl pa (Some d) = Ok r /\
     c_ntri r = 0%nat /\ shape (c_cp r) = [0%nat; nwav self]).
Proof.
  intros Hbl Hx Hy Hnx Hny.
  unfold getClosurePhase, getClosurePhase_via, shape_at. rewrite Hbl.
  cbn [lookup list_lookup of_option mbind result_bind c_ntri].
  rewrite !item_in by (cbn [nd_map shape]; rewrite ?Hx, ?Hy; apply in_bounds_1; lia).
  cbn [mbind result_bind]. split.
  - intros Hpos. destruct ntri as [|t]; [lia|].
    unfold for_range. cbn [seq for_each]. reflexivity.
  - intros ->. eexists. split; [reflexivity|]. split; reflexivity.
Qed.

Lemma getClosurePhase_outcomes_witness :
  getClosurePhase (uniform_cube 1) (array2 3 [[1; 2; 3]; [4; 5; 6]])
    (array2 3 [[0; 0; 0]; [0; 0; 0]]) (Some 1) = Err AttributeError.
Proof.
  apply (getClosurePhase_outcomes (uniform_cube 1) _ _ 1 2 [3%nat]);
    try reflexivity; cbn; lia.
Defined.

(** ** deepcopy keeps different objects apart *)

Lemma memo_inv_init (h : heap) : memo_inv (∅, h).
Proof.
  split; intros a; intros; cbn in *; rewrite lookup_empty in *; discriminate.
Qed.

Lemma copy_ref_memo (l l' : loc) (st st' : gmap loc loc * heap) :
  memo_inv st ->
  copy_ref l st = Ok (l', st') ->
  memo_inv st' /\ st'.1 !! l = Some l' /\
  forall a t, st.1 !! a = Some t -> st'.1 !! a = Some t.
Proof.
  intros [Hinj Hdom] H. unfold copy_ref in H.
  destruct (st.1 !! l) as [l1|] eqn:Em.
  - injection H as <- <-. split; [split; assumption|]. split; [exact Em | auto].
  - destruct (st.2 !! l) as [v1|] eqn:El; [|discriminate].
    assert (Hnew : st.2 !! fresh (dom st.2) = None)
      by (apply not_elem_of_dom, is_fresh).
    assert (Hv1 : l' = fresh (dom st.2) /\
                  st' = (<[l := fresh (dom st.2)]> st.1, <[fresh (dom st.2) := v1]> st.2)).
    { destruct v1; cbn in H; try discriminate; injection H as <- <-; auto. }
    destruct Hv1 as [-> ->]. clear H. cbn [fst snd].
    split; [split|split].
    + intros a b t Ha Hb. cbn [fst snd] in *.
      destruct (decide (l = a)) as [<-|Ha']; destruct (decide (l = b)) as [<-|Hb'];
        try reflexivity.
      * rewrite lookup_insert_eq in Ha. injection Ha as <-.
        rewrite lookup_insert_ne in Hb by exact Hb'.
        destruct (Hdom _ _ Hb) as [v Hv]. congruence.
      * rewrite lookup_insert_eq in Hb. injection Hb as <-.
        rewrite lookup_insert_ne in Ha by exact Ha'.
        destruct (Hdom _ _ Ha) as [v Hv]. congruence.
      * rewrite lookup_insert_ne in Ha, Hb by assumption. eapply Hinj; eassumption.
    + intros a t Ha. cbn [fst snd] in *.
      destruct (decide (l = a)) as [<-|Ha'].
      * rewrite lookup_insert_eq in Ha. injection Ha as <-.
        rewrite lookup_insert_eq. eauto.
      * rewrite lookup_insert_ne in Ha by exact Ha'.
        destruct (Hdom _ _ Ha) as [v Hv]. exists v.
        rewrite lookup_insert_ne by congruence. exact Hv.
    + apply lookup_insert_eq.
    + intros a t Ha. rewrite lookup_insert_ne by congruence. exact Ha.
Qed.

(** Attributes that refer to different objects in the source refer to
    different objects in the copy. *)
Lemma deepcopy_distinct (self res : loc) (h h' : heap) (o o' : radmc3dImage) :
  deepcopy self h = Ok (res, h') ->
  h !! self = Some (ObjImage o) -> h' !! res = Some (ObjImage o') ->
  forall f g, f ∈ ref_fields -> g ∈ ref_fields -> f o <> g o -> f o' <> g o'.
Proof.
  unfold deepcopy. intros H Hself Hres.
  rewrite (proj2 (read_image_Ok h self o) Hself) in H. cbn [mbind result_bind] in H.
  bind_name H p1 E1. destruct p1 as [l1 st1].
  bind_name H p2 E2. destruct p2 as [l2 st2].
  bind_name H p3 E3. destruct p3 as [l3 st3].
  bind_name H p4 E4. destruct p4 as [l4 st4].
  bind_name H p5 E5. destruct p5 as [l5 st5].
  bind_name H p6 E6. destruct p6 as [l6 st6].
  bind_name H p7 E7. destruct p7 as [l7 st7].
  bind_name H p8 E8. destruct p8 as [l8 st8].
  destruct (copy_ref_memo _ _ _ _ (memo_inv_init h) E1) as (I1 & M1 & K1).
  destruct (copy_ref_memo _ _ _ _ I1 E2) as (I2 & M2 & K2).
  destruct (copy_ref_memo _ _ _ _ I2 E3) as (I3 & M3 & K3).
  destruct (copy_ref_memo _ _ _ _ I3 E4) as (I4 & M4 & K4).
  destruct (copy_ref_memo _ _ _ _ I4 E5) as (I5 & M5 & K5).
  destruct (copy_ref_memo _ _ _ _ I5 E6) as (I6 & M6 & K6).
  destruct (copy_ref_memo _ _ _ _ I6 E7) as (I7 & M7 & K7).
  destruct (copy_ref_memo _ _ _ _ I7 E8) as (I8 & M8 & K8).
  unfold alloc in H. injection H as <- <-.
  rewrite lookup_insert_eq in Hres. injection Hres as <-.
  assert (Hm : forall f, f ∈ ref_fields ->
            st8.1 !! f o = Some (f
              {| o_image := l1; o_imageJyppix := l2; o_x := l3; o_y := l4;
                 o_nx := o_nx o; o_ny := o_ny o; o_sizepix_x := o_sizepix_x o;
                 o_sizepix_y := o_sizepix_y o; o_nfreq := o_nfreq o;
                 o_freq := l5; o_nwav := o_nwav o; o_wav := l6;
                 o_stokes := o_stokes o; o_psf := l7; o_fwhm := l8;
                 o_pa := o_pa o; o_dpc := o_dpc o |})).
  { intros f Hf. unfold ref_fields in Hf. rewrite !elem_of_cons in Hf.
    destruct Hf as [->|[->|[->|[->|[->|[->|[->|[->|Hf]]]]]]]]; cbn; auto 10.
    inversion Hf. }
  intros f g Hf Hg Hne Heq. apply Hne.
  destruct I8 as [Hinj _]. apply (Hinj _ _ _ (Hm f Hf)).
  rewrite Heq. apply Hm, Hg.
Qed.

(** ** cmask: the whole result *)

Lemma cube_value_intro (h : heap) (l : loc) (o : radmc3dImage)
    (im jy x y fr wv : ndarray R) :
  h !! l = Some (ObjImage o) ->
  h !! o_image o = Some (ObjArray im) ->
  h !! o_imageJyppix o = Some (ObjArray jy) ->
  h !! o_x o = Some (ObjArray x) -> h !! o_y o = Some (ObjArray y) ->
  h !! o_freq o = Some (ObjArray fr) -> h !! o_wav o = Some (ObjArray wv) ->
  cube_value h l =
  Ok {| image := im; imageJyppix := jy; im_x := x; im_y := y;
        nx := o_nx o; ny := o_ny o;
        sizepix_x := o_sizepix_x o; sizepix_y := o_sizepix_y o;
        nfreq := o_nfreq o; freq := fr; nwav := o_nwav o; wav := wv;
        stokes := o_stokes o |}.
Proof.
  intros Hl H1 H2 H3 H4 H5 H6. unfold cube_value, read_image, read_array.
  rewrite Hl. cbn [mbind result_bind].
  rewrite H1, H2, H3, H4, H5, H6. reflexivity.
Qed.

Lemma side_fields_ref (f : radmc3dImage -> loc) :
  f ∈ side_fields -> f ∈ ref_fields.
Proof.
  unfold side_fields, ref_fields. rewrite !elem_of_cons, !elem_of_nil. tauto.
Qed.

(** The cube that [cmask] returns: the masked image and, unchanged, every
    other attribute of the source. *)
Lemma cmask_result (im : loc) (rad : R) (au arcsec : bool) (dpc : option R)
    (h : heap) (o : radmc3dImage) (c : ImageCube) (crad : R) :
  h !! im = Some (ObjImage o) -> image_ok h o ->
  cube_value h im = Ok c -> loader_layout c ->
  au && arcsec = false ->
  mask_radius rad au arcsec dpc (sizepix_x c) = Ok crad ->
  Forall (fun f : radmc3dImage -> loc => f o <> o_image o) side_fields ->
  exists res h' img',
    cmask im rad au arcsec dpc h = Ok (Some res, h') /\
    cube_value h' res =
      Ok {| image := img'; imageJyppix := imageJyppix c;
            im_x := im_x c; im_y := im_y c; nx := nx c; ny := ny c;
            sizepix_x := sizepix_x c; sizepix_y := sizepix_y c;
            nfreq := nfreq c; freq := freq c; nwav := nwav c; wav := wav c;
            stokes := stokes c |} /\
    shape img' = shape (image c) /\
    forall ix iy rest, in_bounds (ix :: iy :: rest) (shape (image c)) = true ->
      at_ img' (ix :: iy :: rest) =
      if Rleb (sqrt (at_ (im_y c) [iy] ^ 2 + at_ (im_x c) [ix] ^ 2)) crad then 0
      else at_ (image c) (ix :: iy :: rest).
Proof.
  intros Ho Hok Hc Hlay Hflags Hrad Hsep.
  destruct (cmask_spec im rad au arcsec dpc h o c crad Ho Hok Hc Hlay Hflags Hrad)
    as (res & h' & o' & img' & E & Hres & Himg & Hs & Hv).
  exists res, h', img'. split; [exact E|]. split; [|split; [exact Hs | exact Hv]].
  destruct (cube_value_inv h im c Hc)
    as (o1 & Ho1 & Him & Hjy & Hx & Hy & Hfr & Hwv & Enx & Eny & Esx & Esy & Enf
        & Enw & Est).
  assert (o1 = o) as -> by congruence.
  pose proof E as E0. unfold cmask in E0. rewrite Hflags in E0.
  bind_name E0 o2 Eo. bind_name E0 crad2 Ec. bind_name E0 p Ed.
  destruct p as [res1 h1].
  bind_name E0 r Er. bind_name E0 h2 Eloop. injection E0 as -> ->.
  destruct (deepcopy_inv im res h h1 Ed)
    as (o0 & o3 & Ho0 & Hsub & Hres1 & Hsc & _ & _ & Hfresh & Hfields).
  assert (o0 = o) as -> by congruence.
  apply read_image_Ok in Er. assert (r = o3) as -> by congruence.
  apply read_image_Ok in Eo. assert (o2 = o) as -> by congruence.
  assert (Hfr' : forall l, l <> o_image o3 -> h' !! l = h1 !! l).
  { destruct (negb (o_nfreq o =? 1)%nat);
      eapply cmask_rows_frame; exact Eloop. }
  unfold ref_fields in Hfields. rewrite !Forall_cons in Hfields.
  destruct Hfields as ((N1 & _ & _) & (_ & _ & C2) & (_ & _ & C3) & (_ & _ & C4)
                       & (_ & _ & C5) & (_ & _ & C6) & _).
  assert (o' = o3) as -> by (rewrite Hfr' in Hres by congruence; congruence).
  assert (Hd : forall f, f ∈ side_fields -> f o3 <> o_image o3).
  { intros f Hf.
    apply (deepcopy_distinct im res h h1 o o3 Ed Ho Hres1).
    - apply side_fields_ref, Hf.
    - unfold ref_fields. apply elem_of_cons. left. reflexivity.
    - rewrite Forall_forall in Hsep. apply Hsep, Hf. }
  assert (Hside : forall f v, f ∈ side_fields -> h1 !! f o3 = Some v ->
            h' !! f o3 = Some v).
  { intros f v Hf Hl. rewrite Hfr' by (apply Hd, Hf). exact Hl. }
  destruct Hsc as (S1 & S2 & S3 & S4 & S5 & S6 & S7).
  rewrite (cube_value_intro h' res o3 img' (imageJyppix c) (im_x c) (im_y c)
             (freq c) (wav c)); try assumption.
  - f_equal. f_equal; congruence.
  - apply (Hside o_imageJyppix); [|apply C2, Hjy].
    unfold side_fields. rewrite !elem_of_cons. auto.
  - apply (Hside o_x); [|apply C3, Hx].
    unfold side_fields. rewrite !elem_of_cons. auto.
  - apply (Hside o_y); [|apply C4, Hy].
    unfold side_fields. rewrite !elem_of_cons. auto.
  - apply (Hside o_freq); [|apply C5, Hfr].
    unfold side_fields. rewrite !elem_of_cons. auto.
  - apply (Hside o_wav); [|apply C6, Hwv].
    unfold side_fields. rewrite !elem_of_cons. auto 10.
Qed.

(** ** The arrays of a loaded cube are separate objects *)

Lemma fresh_ne (h : heap) (l : loc) : l ∈ dom h -> l <> fresh (dom h).
Proof. intros Hl ->. exact (is_fresh (dom h) Hl). Qed.

Lemma load_image_separate (f : ImageFile) (h h' : heap) (im : loc)
    (o : radmc3dImage) :
  load_image f h = Ok (im, h') -> h' !! im = Some (ObjImage o) ->
  Forall (fun g : radmc3dImage -> loc => g o <> o_image o) side_fields.
Proof.
  unfold load_image, alloc. intros H Hres. bind_name H c Ec.
  injection H as <- <-. rewrite lookup_insert_eq in Hres. injection Hres as <-.
  unfold side_fields. cbn [o_image o_imageJyppix o_x o_y o_freq o_wav].
  repeat constructor.
  - apply not_eq_sym, fresh_ne. set_solver.
  - apply not_eq_sym, fresh_ne. set_solver.
  - apply not_eq_sym, fresh_ne. set_solver.
  - apply fresh_ne. set_solver.
  - apply fresh_ne. set_solver.
Qed.

Lemma load_scene_separate (f : ImageFile) (fx fy : R) (im fw : loc) (h : heap)
    (o : radmc3dImage) :
  load_scene f fx fy = Ok (im, fw, h) -> h !! im = Some (ObjImage o) ->
  Forall (fun g : radmc3dImage -> loc => g o <> o_image o) side_fields.
Proof.
  unfold load_scene. intros H Ho. bind_name H p Ep. destruct p as [im1 h1].
  unfold alloc in H. injection H as -> <- <-.
  destruct (load_image_spec f ∅ h1 im Ep) as (o1 & c & _ & Ho1 & _).
  apply (load_image_separate f ∅ h1 im o Ep).
  rewrite lookup_insert_ne in Ho; [exact Ho|].
  apply not_eq_sym, fresh_ne. apply elem_of_dom. eauto.
Qed.

(** No pixel centre of the loader's grid lies at 0. *)
Lemma half_integer_nonzero (i k : nat) : INR i + 0.5 - INR k <> 0.
Proof.
  intros H.
  assert (H2 : INR (2 * i + 1) = INR (2 * k)).
  { rewrite plus_INR, !mult_INR. cbn [INR]. lra. }
  apply INR_eq in H2. lia.
Qed.

Lemma grid_nonzero (n i : nat) (d : R) :
  d <> 0 ->
  at_ (nd_map (fun a => (a + 0.5 - INR (n / 2)) * d) (arange n)) [i] <> 0.
Proof.
  intros Hd. cbn [nd_map arange at_].
  apply Rmult_integral_contrapositive_currified; [apply half_integer_nonzero | exact Hd].
Qed.

Lemma in_bounds_cons2 (idx : list nat) (n m : nat) (s : list nat) :
  in_bounds idx (n :: m :: s) = true ->
  exists ix iy rest, idx = ix :: iy :: rest /\ (ix < n)%nat /\ (iy < m)%nat.
Proof.
  destruct idx as [|ix [|iy rest]]; cbn -[Nat.ltb]; try discriminate.
  - rewrite andb_false_r. discriminate.
  - intros H. apply andb_prop in H as [Hx H]. apply andb_prop in H as [Hy _].
    apply Nat.ltb_lt in Hx, Hy. eauto 6.
Qed.

Lemma loader_image_shape (c : ImageCube) :
  loader_layout c -> exists s, shape (image c) = nx c :: ny c :: s.
Proof.
  intros H. rewrite (lay_image _ H). destruct (stokes c); eauto.
Qed.

(** ** cmask: what the mask leaves alone *)

(** X22.  Only [image] is masked.  In the cube that [cmask] returns every
    attribute other than [image] has the value it has in the source; in
    particular [imageJyppix] is not masked: it keeps the values of the
    source also at the pixels whose [image] value is set to 0. *)
Theorem cmask_masks_image_only (im : loc) (rad : R) (au arcsec : bool)
    (dpc : option R) (h : heap) (o : radmc3dImage) (c : ImageCube) (crad : R) :
  h !! im = Some (ObjImage o) -> image_ok h o ->
  cube_value h im = Ok c -> loader_layout c ->
  au && arcsec = false ->
  mask_radius rad au arcsec dpc (sizepix_x c) = Ok crad ->
  Forall (fun f : radmc3dImage -> loc => f o <> o_image o)
    [o_imageJyppix; o_x; o_y; o_freq; o_wav] ->
  exists res h' c',
    cmask im rad au arcsec dpc h = Ok (Some res, h') /\
    cube_value h' res = Ok c' /\
    imageJyppix c' = imageJyppix c /\
    im_x c' = im_x c /\ im_y c' = im_y c /\ freq c' = freq c /\ wav c' = wav c /\
    nx c' = nx c /\ ny c' = ny c /\ nfreq c' = nfreq c /\ nwav c' = nwav c /\
    sizepix_x c' = sizepix_x c /\ sizepix_y c' = sizepix_y c /\
    stokes c' = stokes c /\
    forall ix iy rest, in_bounds (ix :: iy :: rest) (shape (image c)) = true ->
      sqrt (at_ (im_x c) [ix] ^ 2 + at_ (im_y c) [iy] ^ 2) <= crad ->
      at_ (image c') (ix :: iy :: rest) = 0 /\
      at_ (imageJyppix c') (ix :: iy :: rest) = at_ (imageJyppix c) (ix :: iy :: rest).
Proof.
  intros Ho Hok Hc Hlay Hflags Hrad Hsep.
  destruct (cmask_result im rad au arcsec dpc h o c crad Ho Hok Hc Hlay Hflags Hrad Hsep)
    as (res & h' & img' & E & Hc' & Hs & Hv).
  eexists res, h', _. split; [exact E|]. split; [exact Hc'|].
  cbn [image imageJyppix im_x im_y freq wav nx ny nfreq nwav sizepix_x sizepix_y stokes].
  repeat (split; [reflexivity|]).
  intros ix iy rest Hin Hr. split; [|reflexivity].
  rewrite (Hv ix iy rest Hin). unfold Rleb.
  rewrite bool_decide_eq_true_2; [reflexivity|].
  rewrite Rplus_comm. exact Hr.
Qed.

Lemma cmask_masks_image_only_witness :
  exists im fw h res h' c c',
    load_scene uniform_file 1 1 = Ok (im, fw, h) /\
    cube_value h im = Ok c /\
    cmask im 1 true false None h = Ok (Some res, h') /\
    cube_value h' res = Ok c' /\ imageJyppix c' = imageJyppix c.
Proof.
  destruct uniform_file_loads as (c & Ec).
  destruct (load_scene_total uniform_file 1 1 c Ec) as (im & fw & h & E).
  destruct (load_scene_spec _ _ _ _ _ _ E) as (o & c0 & Ec0 & Ho & Hok & Hc & Hfw).
  assert (c0 = c) as -> by congruence.
  destruct (cmask_masks_image_only im 1 true false None h o c (1 * 1.496e13)
              Ho Hok Hc (readImage_layout _ _ Ec) eq_refl eq_refl
              (load_scene_separate _ _ _ _ _ _ _ E Ho))
    as (res & h' & c' & Em & Hc' & Hjy & _).
  exists im, fw, h, res, h', c, c'. auto.
Defined.

(** X23.  An empty mask.  When the radius is negative no pixel is masked; and on
    a cube read by [readImage] with a nonzero pixel size no pixel is masked
    for the radius 0 either (the default [rad=0.0]), because no pixel centre
    of the loader's grid lies at [x = 0].  The returned image then equals the
    image of the source. *)
Theorem cmask_empty_mask (im : loc) (rad : R) (au arcsec : bool)
    (dpc : option R) (h : heap) (o : radmc3dImage) (c : ImageCube) (crad : R) :
  h !! im = Some (ObjImage o) -> image_ok h o ->
  cube_value h im = Ok c -> loader_layout c ->
  au && arcsec = false ->
  mask_radius rad au arcsec dpc (sizepix_x c) = Ok crad ->
  crad < 0 \/ (crad = 0 /\ sizepix_x c <> 0 /\ exists f, readImage f = Ok c) ->
  exists res h' o' img',
    cmask im rad au arcsec dpc h = Ok (Some res, h') /\
    h' !! res = Some (ObjImage o') /\
    h' !! o_image o' = Some (ObjArray img') /\
    shape img' = shape (image c) /\
    forall idx, in_bounds idx (shape (image c)) = true ->
      at_ img' idx = at_ (image c) idx.
Proof.
  intros Ho Hok Hc Hlay Hflags Hrad Hsmall.
  destruct (cmask_spec im rad au arcsec dpc h o c crad Ho Hok Hc Hlay Hflags Hrad)
    as (res & h' & o' & img' & E & Hres & Himg & Hs & Hv).
  exists res, h', o', img'. repeat (split; [assumption|]).
  intros idx Hin.
  destruct (loader_image_shape c Hlay) as [s Hshape].
  pose proof Hin as Hin'. rewrite Hshape in Hin'.
  destruct (in_bounds_cons2 idx _ _ _ Hin') as (ix & iy & rest & -> & Hx & Hy).
  rewrite (Hv ix iy rest Hin). unfold Rleb.
  rewrite bool_decide_eq_false_2; [reflexivity|].
  intros Hle.
  pose proof (sqrt_pos (at_ (im_y c) [iy] ^ 2 + at_ (im_x c) [ix] ^ 2)) as Hpos.
  destruct Hsmall as [Hneg|(H0 & Hsx & f & Ef)]; [lra|].
  assert (Hsq : sqrt (at_ (im_y c) [iy] ^ 2 + at_ (im_x c) [ix] ^ 2) = 0) by lra.
  apply sqrt_eq_0 in Hsq; [|nra].
  assert (Hx0 : at_ (im_x c) [ix] = 0) by nra.
  destruct (readImage_parts f c Ef) as (_ & _ & _ & _ & _ & Ex & _ & Esx & _).
  rewrite Ex in Hx0. apply grid_nonzero in Hx0; [exact Hx0|]. congruence.
Qed.

Lemma cmask_empty_mask_witness :
  exists im fw h res h',
    load_scene uniform_file 1 1 = Ok (im, fw, h) /\
    cmask im 0 false false None h = Ok (Some res, h').
Proof.
  destruct uniform_file_loads as (c & Ec).
  destruct (load_scene_total uniform_file 1 1 c Ec) as (im & fw & h & E).
  destruct (load_scene_spec _ _ _ _ _ _ E) as (o & c0 & Ec0 & Ho & Hok & Hc & Hfw).
  assert (c0 = c) as -> by congruence.
  destruct (readImage_parts _ _ Ec) as (_ & _ & _ & _ & _ & _ & _ & Esx & _).
  destruct (cmask_empty_mask im 0 false false None h o c 0
              Ho Hok Hc (readImage_layout _ _ Ec) eq_refl)
    as (res & h' & _ & _ & Em & _).
  - cbn [mask_radius]. f_equal. lra.
  - right. split; [reflexivity|]. split; [|eauto].
    rewrite Esx. cbn [uniform_file f_sizepix_x]. lra.
  - exists im, fw, h, res, h'. auto.
Defined.

(** ** makeImage *)

(** Each optional keyword adds to the end of the command line. *)
Lemma extends_app (c0 c r : list piece) :
  (exists r0, c = c0 ++ r0) -> exists r1, c ++ r = c0 ++ r1.
Proof. intros [r0 ->]. exists (r0 ++ r). symmetry. apply app_assoc. Qed.

Lemma extends_opt {A} (c0 c : list piece) (x : option A) (g : A -> list piece) :
  (exists r0, c = c0 ++ r0) ->
  exists r1, match x with Some v => c ++ g v | None => c end = c0 ++ r1.
Proof. intros H. destruct x; [apply extends_app, H | exact H]. Qed.

Lemma extends_opt_if {A} (c0 c : list piece) (x : option A) (b : bool)
    (g : A -> list piece) :
  (exists r0, c = c0 ++ r0) ->
  exists r1, match x with
             | Some v => if b then c ++ g v else c
             | None => c
             end = c0 ++ r1.
Proof. intros H. destruct x, b; try exact H; apply extends_app, H. Qed.

Lemma extends_if (c0 c r : list piece) (b : bool) :
  (exists r0, c = c0 ++ r0) -> exists r1, (if b then c ++ r else c) = c0 ++ r1.
Proof. intros H. destruct b; [apply extends_app, H | exact H]. Qed.

(** X24.  One command or none.  Every call of [makeImage] ends in one of three
    ways: it returns -1 and has run nothing; it raises [TypeError] and has
    run nothing; or it returns 0 and has run exactly one command line, which
    begins with [radmc3d image npix <int(npix)> incl <incl> sizeau <sizeau>].
    The return value 0 does not depend on how the command ends: its exit
    status is not looked at. *)
Theorem makeImage_outcomes (a : makeImage_args) :
  makeImage a = Ok {| code := (-1)%Z; ran := [] |} \/
  makeImage a = Err TypeError \/
  exists npix incl sizeau rest,
    a_npix a = Some npix /\ a_incl a = Some incl /\ a_sizeau a = Some sizeau /\
    makeImage a =
    Ok {| code := 0%Z;
          ran := [[Text "radmc3d image"; Text " npix "; StrInt npix;
                   Text " incl "; Str incl; Text " sizeau "; Str sizeau] ++ rest] |}.
Proof.
  unfold makeImage, refused.
  destruct (a_npix a) as [npix|]; [|auto].
  destruct (a_incl a) as [incl|]; [|auto].
  destruct (match a_wav a with
            | Some _ => negb (bool_decide (a_lambdarange a = None))
            | None => bool_decide (a_lambdarange a = None) || bool_decide (a_nlam a = None)
            end) eqn:Hw; [auto|].
  destruct (match a_lambdarange a with
            | Some lr => negb (length lr =? 2)%nat
            | None => false
            end) eqn:Hl; [auto|].
  destruct (a_sizeau a) as [sizeau|]; [|auto].
  set (com0 := [Text "radmc3d image"; Text " npix "; StrInt npix;
                Text " incl "; Str incl; Text " sizeau "; Str sizeau]).
  assert (Hcom : exists r1,
            match a_wav a with
            | Some wav => Ok (com0 ++ [Text " lambda "; Str wav])
            | None =>
                lr ← of_option TypeError (a_lambdarange a);
                l0 ← of_option IndexError (lr !! 0%nat);
                l1 ← of_option IndexError (lr !! 1%nat);
                nlam ← of_option TypeError (a_nlam a);
                Ok (com0 ++ [Text " lambdarange "; Str l0; Text " "; Str l1;
                             Text " nlam "; StrInt nlam])
            end = Ok (com0 ++ r1)).
  { destruct (a_wav a) as [wav|]; [eauto|].
    destruct (a_lambdarange a) as [lr|]; [|discriminate Hw].
    destruct (a_nlam a) as [nlam|]; [|discriminate Hw].
    destruct lr as [|l0 [|l1 [|]]]; try discriminate Hl.
    cbn. eauto. }
  destruct Hcom as [r1 ->]. cbn [mbind result_bind].
  destruct (a_pointau a) as [p|].
  { destruct (negb (length p =? 3)%nat); auto. }
  destruct (truthy (a_widthkms a) && truthy (a_vkms a)); [auto|].
  right; right. exists npix, incl, sizeau.
  match goal with
  | |- exists rest, _ /\ _ /\ _ /\ Ok {| code := _; ran := [?c] |} = _ =>
      assert (Hext : exists r, c = com0 ++ r)
  end.
  { repeat first [apply extends_opt_if | apply extends_opt | apply extends_if
                 | apply extends_app].
    exists []. symmetry. apply app_nil_r. }
  destruct Hext as [rest ->]. exists rest. repeat split; reflexivity.
Qed.

(** X25.  Refused calls.  [makeImage] returns -1 without running anything when
    [npix], [incl] or [sizeau] is missing; when neither [wav] nor both of
    [lambdarange] and [nlam] are given; when [wav] and [lambdarange] are both
    given; when [lambdarange] does not have two elements; when [pointau] does
    not have three elements; and, without [pointau], when [widthkms] and
    [vkms] are both given and nonzero. *)
Theorem makeImage_refuses (a : makeImage_args) :
  a_npix a = None \/ a_incl a = None \/ a_sizeau a = None \/
  (a_wav a = None /\ (a_lambdarange a = None \/ a_nlam a = None)) \/
  (a_wav a <> None /\ a_lambdarange a <> None) \/
  (exists lr, a_lambdarange a = Some lr /\ length lr <> 2%nat) \/
  (exists p, a_pointau a = Some p /\ length p <> 3%nat) \/
  (a_pointau a = None /\ truthy (a_widthkms a) = true /\ truthy (a_vkms a) = true) ->
  makeImage a = Ok {| code := (-1)%Z; ran := [] |}.
Proof.
  intros H. unfold makeImage, refused.
  destruct (a_npix a) as [npix|]; [|reflexivity].
  destruct (a_incl a) as [incl|]; [|reflexivity].
  destruct (match a_wav a with
            | Some _ => negb (bool_decide (a_lambdarange a = None))
            | None => bool_decide (a_lambdarange a = None) || bool_decide (a_nlam a = None)
            end) eqn:Hw; [reflexivity|].
  destruct (match a_lambdarange a with
            | Some lr => negb (length lr =? 2)%nat
            | None => false
            end) eqn:Hl; [reflexivity|].
  destruct (a_sizeau a) as [sizeau|]; [|reflexivity].
  destruct H as [H|[H|[H|[H|[H|[H|H]]]]]]; try discriminate H.
  - exfalso. destruct H as [Hwav [H|H]]; rewrite Hwav, H in Hw; cbn in Hw;
      [discriminate|].
    rewrite orb_true_r in Hw. discriminate.
  - exfalso. destruct H as [Hwav Hlr]. destruct (a_wav a); [|congruence].
    destruct (a_lambdarange a); [discriminate Hw | congruence].
  - exfalso. destruct H as (lr & Hlr & Hlen). rewrite Hlr in Hl.
    apply Nat.eqb_neq in Hlen. rewrite Hlen in Hl. discriminate.
  - assert (Hcom : forall com0, exists c,
              match a_wav a with
              | Some wav => Ok (com0 ++ [Text " lambda "; Str wav])
              | None =>
                  lr ← of_option TypeError (a_lambdarange a);
                  l0 ← of_option IndexError (lr !! 0%nat);
                  l1 ← of_option IndexError (lr !! 1%nat);
                  nlam ← of_option TypeError (a_nlam a);
                  Ok (com0 ++ [Text " lambdarange "; Str l0; Text " "; Str l1;
                               Text " nlam "; StrInt nlam])
              end = Ok c).
    { intros com0. destruct (a_wav a) as [wav|]; [eauto|].
      destruct (a_lambdarange a) as [lr|]; [|discriminate Hw].
      destruct (a_nlam a) as [nlam|]; [|discriminate Hw].
      destruct lr as [|l0 [|l1 [|]]]; try discriminate Hl.
      cbn. eauto. }
    destruct (Hcom [Text "radmc3d image"; Text " npix "; StrInt npix;
                    Text " incl "; Str incl; Text " sizeau "; Str sizeau]) as [c ->].
    cbn [mbind result_bind].
    destruct H as [(p & -> & Hlen)|(-> & -> & ->)]; [|reflexivity].
    apply Nat.eqb_neq in Hlen. rewrite Hlen. reflexivity.
Qed.

Lemma makeImage_refuses_witness :
  makeImage {| a_npix := Some 100; a_incl := Some 60; a_wav := Some 10;
               a_sizeau := None; a_phi := None; a_posang := None;
               a_pointau := None; a_fluxcons := true; a_nostar := false;
               a_noscat := false; a_widthkms := None; a_linenlam := None;
               a_vkms := None; a_iline := None; a_lambdarange := None;
               a_nlam := None |}
  = Ok {| code := (-1)%Z; ran := [] |}.
Proof. apply makeImage_refuses. right; right; left. reflexivity. Defined.

(** X26.  The image centre cannot be given.  When the basic arguments are in
    order and [pointau] has three elements, [makeImage] raises [TypeError]
    and runs nothing: the three coordinates are read from [posang], a number
    or [None], instead of from [pointau].  The call shown in the docstring is
    such a call. *)
Theorem makeImage_pointau_raises (a : makeImage_args) (npix incl sizeau wav : R)
    (x y z : R) :
  a_npix a = Some npix -> a_incl a = Some incl -> a_sizeau a = Some sizeau ->
  a_wav a = Some wav -> a_lambdarange a = None ->
  a_pointau a = Some [x; y; z] ->
  makeImage a = Err TypeError.
Proof.
  intros H1 H2 H3 H4 H5 H6. unfold makeImage.
  rewrite H1, H2, H3, H4, H5, H6. reflexivity.
Qed.

Lemma makeImage_pointau_raises_witness :
  makeImage {| a_npix := Some 100; a_incl := Some 60; a_wav := Some 10;
               a_sizeau := Some 300; a_phi := Some 0; a_posang := Some 15;
               a_pointau := Some [0; 0; 0]; a_fluxcons := true;
               a_nostar := false; a_noscat := false; a_widthkms := None;
               a_linenlam := None; a_vkms := None; a_iline := None;
               a_lambdarange := None; a_nlam := None |}
  = Err TypeError.
Proof.
  apply (makeImage_pointau_raises _ 100 60 300 10 0 0 0); reflexivity.
Defined.

(** X27.  The command of a continuum image.  With [npix], [incl], [sizeau] and
    [wav] given and no [pointau], [lambdarange] or line options, [makeImage]
    runs [radmc3d image npix .. incl .. sizeau .. lambda ..], then [phi] and
    [posang] when they are given, then [pointau 0.0  0.0  0.0], then
    [fluxcons] when that flag is set, and returns 0.  The keywords [nostar]
    and [noscat] do not appear in the command: they have no effect. *)
Theorem makeImage_continuum_command (a : makeImage_args)
    (npix incl sizeau wav : R) :
  a_npix a = Some npix -> a_incl a = Some incl -> a_sizeau a = Some sizeau ->
  a_wav a = Some wav -> a_lambdarange a = None -> a_pointau a = None ->
  a_widthkms a = None -> a_vkms a = None -> a_linenlam a = None ->
  a_iline a = None ->
  makeImage a =
  Ok {| code := 0%Z;
        ran := [[Text "radmc3d image"; Text " npix "; StrInt npix;
                 Text " incl "; Str incl; Text " sizeau "; Str sizeau;
                 Text " lambda "; Str wav]
                ++ match a_phi a with
                   | Some phi => [Text " phi "; Str phi]
                   | None => []
                   end
                ++ match a_posang a with
                   | Some posang => [Text " posang "; Str posang]
                   | None => []
                   end
                ++ [Text " pointau 0.0  0.0  0.0"]
                ++ (if a_fluxcons a then [Text " fluxcons"] else [])] |}.
Proof.
  intros H1 H2 H3 H4 H5 H6 H7 H8 H9 H10. unfold makeImage.
  rewrite H1, H2, H3, H4, H5, H6, H7, H8, H9, H10.
  cbn [bool_decide_eq_true negb mbind result_bind truthy andb].
  rewrite bool_decide_eq_true_2 by reflexivity. cbn [negb mbind result_bind].
  destruct (a_phi a), (a_posang a), (a_fluxcons a); reflexivity.
Qed.

Lemma makeImage_continuum_command_witness :
  makeImage docstring_call =
  Ok {| code := 0%Z;
        ran := [[Text "radmc3d image"; Text " npix "; StrInt 100;
                 Text " incl "; Str 60; Text " sizeau "; Str 300;
                 Text " lambda "; Str 10; Text " phi "; Str 0;
                 Text " posang "; Str 15; Text " pointau 0.0  0.0  0.0";
                 Text " fluxcons"]] |}.
Proof.
  apply (makeImage_continuum_command docstring_call 100 60 300 10); reflexivity.
Defined.

(** ** writeFits: the data array *)

(** A plane of one shape does not fit the slot of the transposed shape. *)
Lemma assignable_transposed (a b : nat) :
  a <> b -> assignable [a; b] [b; a] = false.
Proof.
  intros Hne.
  assert (E1 : (a =? b)%nat = false) by (apply Nat.eqb_neq; lia).
  assert (E2 : (b =? a)%nat = false) by (apply Nat.eqb_neq; lia).
  unfold assignable, broadcast_shapes.
  cbn [length Nat.sub strip_leading_ones Nat.leb andb rev app bshape_rev].
  unfold bdim. rewrite E1, E2.
  destruct (Nat.eqb_spec a 1) as [Ha|Ha]; destruct (Nat.eqb_spec b 1) as [Hb|Hb];
    cbn [rev app]; try reflexivity;
    apply bool_decide_eq_false_2; intros E; inversion E; lia.
Qed.

(** A value with a third axis does not fit a two-axis slot, unless its
    first axis has extent 1. *)
Lemma assignable_extra_axis (a b c n m : nat) :
  a <> 1%nat -> assignable [a; b; c] [n; m] = false.
Proof.
  intros Ha. unfold assignable.
  cbn [length Nat.sub strip_leading_ones].
  destruct a as [|[|a]]; try contradiction; reflexivity.
Qed.

(** [self.image[:, :, k] * conv] on a three-axis image. *)
Lemma fits_plane_channel (self : ImageCube) (conv : R) (n1 n2 nf k : nat) :
  shape (image self) = [n1; n2; nf] -> (k < nf)%nat ->
  exists p, fits_plane self conv [All; All; At k] = Ok p /\ shape p = [n1; n2] /\
    forall a b, at_ p [a; b] = at_ (image self) [a; b; k] * conv.
Proof.
  intros Hs Hk. unfold fits_plane.
  rewrite (getitem_Ok _ _ [n1; n2]).
  - cbn [mbind result_bind]. eexists. split; [reflexivity|].
    split; reflexivity.
  - rewrite Hs. cbn -[Nat.ltb]. apply Nat.ltb_lt in Hk. rewrite Hk. reflexivity.
Qed.

(** [self.image[:, :, s, k] * conv] on a four-axis image. *)
Lemma fits_plane_stokes (self : ImageCube) (conv : R) (n1 n2 ns nf s k : nat) :
  shape (image self) = [n1; n2; ns; nf] -> (s < ns)%nat -> (k < nf)%nat ->
  exists p, fits_plane self conv [All; All; At s; At k] = Ok p /\
    shape p = [n1; n2] /\
    forall a b, at_ p [a; b] = at_ (image self) [a; b; s; k] * conv.
Proof.
  intros Hs Hi Hk. unfold fits_plane.
  rewrite (getitem_Ok _ _ [n1; n2]).
  - cbn [mbind result_bind]. eexists. split; [reflexivity|].
    split; reflexivity.
  - rewrite Hs. cbn -[Nat.ltb]. apply Nat.ltb_lt in Hi, Hk. rewrite Hi, Hk.
    reflexivity.
Qed.

(** [sqrt(image[:, :, 1, k]**2 + image[:, :, 2, k]**2) * conv] *)
Lemma fits_polarised_channel (self : ImageCube) (conv : R) (n1 n2 nf k : nat) :
  shape (image self) = [n1; n2; 4%nat; nf] -> (k < nf)%nat ->
  exists p, fits_polarised self conv [All; All; At 1%nat; At k]
              [All; All; At 2%nat; At k] = Ok p /\
    shape p = [n1; n2] /\
    forall a b, (a < n1)%nat -> (b < n2)%nat ->
      at_ p [a; b] = sqrt (at_ (image self) [a; b; 1%nat; k] ^ 2 +
                           at_ (image self) [a; b; 2%nat; k] ^ 2) * conv.
Proof.
  intros Hs Hk. unfold fits_polarised.
  assert (Hq : forall s, (s < 4)%nat ->
            sub_shape [All; All; At s; At k] (shape (image self)) = Ok [n1; n2]).
  { intros s Hi. rewrite Hs. cbn -[Nat.ltb]. apply Nat.ltb_lt in Hi, Hk.
    rewrite Hi, Hk. reflexivity. }
  rewrite !(getitem_Ok _ _ [n1; n2]) by (apply Hq; lia).
  cbn [mbind result_bind].
  match goal with
  | |- context [nd_zip Rplus ?q ?u] =>
      destruct (nd_zip_same Rplus q u) as (s & -> & Ss & Hv); [reflexivity|]
  end.
  cbn [mbind result_bind]. eexists. split; [reflexivity|].
  cbn [nd_map shape at_] in *. split; [exact Ss|].
  intros a b Ha Hb. rewrite Hv by (apply in_bounds_2; assumption).
  reflexivity.
Qed.

(** Storing planes of the right shape channel by channel. *)
Lemma fits_fill (n n1 n2 : nat) (plane : nat -> result (ndarray R)) :
  (forall i, (i < n)%nat -> exists p, plane i = Ok p /\ shape p = [n1; n2]) ->
  exists d,
    for_range n (fun inu data => p ← plane inu; setitem data [At inu; All; All] p)
      (full 0 [n; n1; n2]) = Ok d /\
    shape d = [n; n1; n2] /\
    forall inu a b, (inu < n)%nat -> (a < n1)%nat -> (b < n2)%nat ->
      exists p, plane inu = Ok p /\ at_ d [inu; a; b] = at_ p [a; b].
Proof.
  intros Hplane.
  destruct (fill_loop n (fun inu => [At inu; All; All]) plane (full 0 [n; n1; n2])
              [n1; n2]) as (d & E & Hs & Hv & _).
  - intros i Hi. cbn -[Nat.ltb]. apply Nat.ltb_lt in Hi. rewrite Hi. reflexivity.
  - exact Hplane.
  - intros i j idx Hi Hj Hne Hsel. destruct idx as [|k idx]; [discriminate|].
    cbn in Hsel |- *. apply andb_prop in Hsel as [Hk _].
    apply Nat.eqb_eq in Hk. subst k.
    apply Nat.eqb_neq in Hne. rewrite Nat.eqb_sym, Hne. reflexivity.
  - exists d. split; [exact E|]. split; [exact Hs|].
    intros inu a b Hi Ha Hb.
    destruct (Hv inu [inu; a; b] Hi) as (p & Ep & Hp).
    + apply in_bounds_3; assumption.
    + cbn. rewrite Nat.eqb_refl. reflexivity.
    + exists p. split; [exact Ep | exact Hp].
Qed.

(** Storing the only plane of a single-channel cube. *)
Lemma fits_single (n1 n2 : nat) (p : ndarray R) :
  shape p = [n1; n2] ->
  exists d, setitem (full 0 [1%nat; n1; n2]) [At 0%nat; All; All] p = Ok d /\
    shape d = [1%nat; n1; n2] /\
    forall a b, (a < n1)%nat -> (b < n2)%nat -> at_ d [0%nat; a; b] = at_ p [a; b].
Proof.
  intros Hp.
  destruct (setitem_same (full 0 [1%nat; n1; n2]) p [At 0%nat; All; All] [n1; n2])
    as (d & E & Hs & Hv & _); [reflexivity | exact Hp |].
  exists d. split; [exact E|]. split; [exact Hs|].
  intros a b Ha Hb. apply (Hv [0%nat; a; b]).
  - apply in_bounds_3; try assumption. lia.
  - reflexivity.
Qed.

(** X28.  FITS data of a square total-intensity cube.  For a total-intensity cube
    in the loader's layout with [nx = ny] and [casa=False], the array that
    [writeFits] builds has the axes [nfreq, ny, nx] and holds
    [data[inu, a, b] = image[a, b, inu] * conv]: the two image axes are
    copied in their order, not exchanged.  [conv] is
    [sizepix_x*sizepix_y/(dpc*pc)**2*1e23] when [self.fwhm] is empty and
    [1e23] for a convolved image. *)
Theorem writeFits_data_intensity (self : ImageCube) (fwhm : list R) (dpc : R)
    (st : stokes_choice) :
  loader_layout self -> stokes self = false -> nx self = ny self ->
  let conv := if (length fwhm =? 0)%nat
              then sizepix_x self * sizepix_y self / (dpc * 3.0857200e+18) ^ 2 * 1e23
              else 1e23 in
  exists data, fits_data self fwhm dpc false st = Ok data /\
    shape data = [nfreq self; ny self; nx self] /\
    forall inu a b, (inu < nfreq self)%nat -> (a < ny self)%nat -> (b < nx self)%nat ->
      at_ data [inu; a; b] = at_ (image self) [a; b; inu] * conv.
Proof.
  intros Hlay Hst Hsq conv.
  pose proof (lay_image _ Hlay) as Him. rewrite Hst in Him.
  unfold fits_data. rewrite Hst. fold pc_cm in conv.
  change (fits_conv self fwhm dpc) with conv.
  assert (Hplane : forall k, (k < nfreq self)%nat ->
            exists p, fits_plane self conv [All; All; At k] = Ok p /\
              shape p = [ny self; nx self] /\
              forall a b, at_ p [a; b] = at_ (image self) [a; b; k] * conv).
  { intros k Hk.
    destruct (fits_plane_channel self conv _ _ _ k Him Hk) as (p & E & Hs & Hv).
    exists p. split; [exact E|]. split; [rewrite Hs, Hsq; reflexivity | exact Hv]. }
  destruct (Nat.eqb_spec (nfreq self) 1) as [H1|H1].
  - destruct (Hplane 0%nat) as (p & -> & Hs & Hv); [lia|].
    cbn [mbind result_bind]. rewrite H1.
    destruct (fits_single _ _ p Hs) as (d & E & Hd & Hdv).
    exists d. split; [exact E|]. split; [exact Hd|].
    intros inu a b Hi Ha Hb. replace inu with 0%nat by lia.
    rewrite Hdv by assumption. apply Hv.
  - destruct (fits_fill (nfreq self) (ny self) (nx self)
                (fun inu => fits_plane self conv [All; All; At inu]))
      as (d & E & Hd & Hdv).
    { intros i Hi. destruct (Hplane i Hi) as (p & Ep & Hs & _). eauto. }
    exists d. split; [exact E|]. split; [exact Hd|].
    intros inu a b Hi Ha Hb.
    destruct (Hdv inu a b Hi Ha Hb) as (p & Ep & Hp).
    destruct (Hplane inu Hi) as (p' & Ep' & _ & Hv).
    assert (p' = p) as -> by congruence.
    rewrite Hp. apply Hv.
Qed.

Lemma writeFits_data_intensity_witness :
  exists data, fits_data (uniform_cube 1) [] 1 false ChooseI = Ok data /\
    at_ data [0%nat; 1%nat; 2%nat] = 1 * (1e12 * 1e12 / (1 * 3.0857200e+18) ^ 2 * 1e23).
Proof.
  destruct (writeFits_data_intensity (uniform_cube 1) [] 1 ChooseI)
    as (data & E & _ & H).
  - apply uniform_cube_layout.
  - reflexivity.
  - reflexivity.
  - exists data. split; [exact E|].
    rewrite H by (cbn; lia). reflexivity.
Defined.

(** X29.  FITS data that cannot be built.  For a total-intensity cube in the
    loader's layout with at least one channel: with [casa=False] and
    [nx <> ny] the first assignment to [data] raises [ValueError] (an
    [nx] x [ny] plane is assigned to an [ny] x [nx] slot); with [casa=True]
    and at least two pixels along [x] the call raises [ValueError] for a
    single channel or [nx <> ny], and [IndexError] at the second channel
    otherwise (the channel index is used on the axis of extent 1).  In none of
    these cases is there data to write. *)
Theorem writeFits_data_failures (self : ImageCube) (fwhm : list R) (dpc : R)
    (st : stokes_choice) :
  loader_layout self -> stokes self = false -> (1 <= nfreq self)%nat ->
  (nx self <> ny self -> fits_data self fwhm dpc false st = Err ValueError) /\
  ((2 <= nx self)%nat ->
   (nfreq self = 1%nat \/ nx self <> ny self ->
    fits_data self fwhm dpc true st = Err ValueError) /\
   ((2 <= nfreq self)%nat -> nx self = ny self ->
    fits_data self fwhm dpc true st = Err IndexError)).
Proof.
  intros Hlay Hst Hnf.
  pose proof (lay_image _ Hlay) as Him. rewrite Hst in Him.
  set (conv := fits_conv self fwhm dpc).
  assert (Hplane : forall k, (k < nfreq self)%nat ->
            exists p, fits_plane self conv [All; All; At k] = Ok p /\
              shape p = [nx self; ny self]).
  { intros k Hk.
    destruct (fits_plane_channel self conv _ _ _ k Him Hk) as (p & E & Hs & _).
    eauto. }
  assert (Hbad : forall (d p : ndarray R) items,
            shape p = [nx self; ny self] -> nx self <> ny self ->
            sub_shape items (shape d) = Ok [ny self; nx self] ->
            setitem d items p = Err ValueError).
  { intros d p items Hp Hne Hsub. unfold setitem. rewrite Hsub.
    cbn [mbind result_bind]. rewrite Hp, assignable_transposed by exact Hne.
    reflexivity. }
  assert (Hp0 : (0 <? nfreq self)%nat = true) by (apply Nat.ltb_lt; lia).
  split; [|intros Hnx; split].
  - intros Hne. unfold fits_data. rewrite Hst. fold conv.
    destruct (Nat.eqb_spec (nfreq self) 1) as [H1|H1].
    + destruct (Hplane 0%nat) as (p & -> & Hp); [lia|].
      cbn [mbind result_bind]. apply Hbad; try assumption.
      rewrite H1. reflexivity.
    + apply (for_range_fails
               (fun _ d => shape d = [nfreq self; ny self; nx self]) _ 0);
        [lia | reflexivity | intros; lia |].
      intros d Hd. destruct (Hplane 0%nat) as (p & -> & Hp); [lia|].
      cbn [mbind result_bind]. apply Hbad; try assumption.
      rewrite Hd. cbn -[Nat.ltb]. rewrite Hp0. reflexivity.
  - intros [H1|Hne].
    + unfold fits_data. fold conv. rewrite H1. cbn [Nat.eqb].
      unfold fits_plane. rewrite (getitem_Ok _ _ [nx self; ny self; nfreq self])
        by (rewrite Him; reflexivity).
      cbn [mbind result_bind]. unfold setitem.
      cbn [shape full sub_shape Nat.ltb Nat.leb mbind result_bind nd_map].
      rewrite assignable_extra_axis by lia. reflexivity.
    + unfold fits_data. fold conv.
      destruct (Nat.eqb_spec (nfreq self) 1) as [H1|H1].
      * unfold fits_plane. rewrite (getitem_Ok _ _ [nx self; ny self; nfreq self])
          by (rewrite Him; reflexivity).
        cbn [mbind result_bind]. unfold setitem.
        cbn [shape full sub_shape Nat.ltb Nat.leb mbind result_bind nd_map].
        rewrite H1. cbn [Nat.leb mbind result_bind].
        rewrite assignable_extra_axis by lia. reflexivity.
      * apply (for_range_fails
                 (fun _ d => shape d = [1%nat; nfreq self; ny self; nx self]) _ 0);
          [lia | reflexivity | intros; lia |].
        intros d Hd. destruct (Hplane 0%nat) as (p & -> & Hp); [lia|].
        cbn [mbind result_bind]. apply Hbad; try assumption.
        rewrite Hd. cbn -[Nat.ltb]. rewrite Hp0. reflexivity.
  - intros H2 Hsq. unfold fits_data. fold conv.
    destruct (Nat.eqb_spec (nfreq self) 1) as [H1|H1]; [lia|].
    apply (for_range_fails
             (fun _ d => shape d = [1%nat; nfreq self; ny self; nx self]) _ 1);
      [lia | reflexivity | |].
    + intros i d Hi Hd. replace i with 0%nat by lia.
      destruct (Hplane 0%nat) as (p & -> & Hp); [lia|].
      cbn [mbind result_bind].
      destruct (setitem_same d p [At 0%nat; At 0%nat; All; All] [ny self; nx self])
        as (d' & E & Hd' & _).
      * rewrite Hd. cbn -[Nat.ltb]. rewrite Hp0. reflexivity.
      * rewrite Hp, Hsq. reflexivity.
      * exists d'. split; [exact E | congruence].
    + intros d Hd. destruct (Hplane 1%nat) as (p & -> & Hp); [lia|].
      cbn [mbind result_bind]. unfold setitem. rewrite Hd. reflexivity.
Qed.

Lemma writeFits_data_failures_witness :
  fits_data oblong_cube [] 1 false ChooseI = Err ValueError /\
  fits_data (uniform_cube 1) [] 1 true ChooseI = Err ValueError.
Proof.
  split.
  - destruct (writeFits_data_failures oblong_cube [] 1 ChooseI) as [H _].
    + split; reflexivity.
    + reflexivity.
    + cbn; lia.
    + apply H. cbn. lia.
  - destruct (writeFits_data_failures (uniform_cube 1) [] 1 ChooseI) as [_ H].
    + apply uniform_cube_layout.
    + reflexivity.
    + cbn; lia.
    + apply H; [cbn; lia|]. left. reflexivity.
Defined.

(** X30.  FITS data of a Stokes cube.  For a Stokes cube in the loader's layout
    and [casa=False]: with a single frequency and at least two pixels along
    [x] the assignment to [data] raises [ValueError] (the selected plane
    still has the frequency axis); with two or more frequencies and
    [nx = ny], [data[inu, a, b]] is [image[a, b, istokes, inu] * conv] for
    the choices I, Q, U, V and [sqrt(Q**2 + U**2) * conv] for PI. *)
Theorem writeFits_data_stokes (self : ImageCube) (fwhm : list R) (dpc : R)
    (st : stokes_choice) :
  loader_layout self -> stokes self = true ->
  let conv := if (length fwhm =? 0)%nat
              then sizepix_x self * sizepix_y self / (dpc * 3.0857200e+18) ^ 2 * 1e23
              else 1e23 in
  (nfreq self = 1%nat -> (2 <= nx self)%nat ->
   fits_data self fwhm dpc false st = Err ValueError) /\
  ((2 <= nfreq self)%nat -> nx self = ny self ->
   exists data, fits_data self fwhm dpc false st = Ok data /\
     shape data = [nfreq self; ny self; nx self] /\
     forall inu a b, (inu < nfreq self)%nat -> (a < ny self)%nat ->
       (b < nx self)%nat ->
       at_ data [inu; a; b] =
       match st with
       | ChooseI => at_ (image self) [a; b; 0%nat; inu] * conv
       | ChooseQ => at_ (image self) [a; b; 1%nat; inu] * conv
       | ChooseU => at_ (image self) [a; b; 2%nat; inu] * conv
       | ChooseV => at_ (image self) [a; b; 3%nat; inu] * conv
       | ChoosePI => sqrt (at_ (image self) [a; b; 1%nat; inu] ^ 2 +
                           at_ (image self) [a; b; 2%nat; inu] ^ 2) * conv
       end).
Proof.
  intros Hlay Hst conv.
  pose proof (lay_image _ Hlay) as Him. rewrite Hst in Him.
  fold pc_cm in conv. split.
  - intros H1 Hnx. unfold fits_data. rewrite Hst, H1. cbn [Nat.eqb].
    change (fits_conv self fwhm dpc) with conv.
    assert (Hsub : forall s, (s < 4)%nat ->
              sub_shape [All; All; At s] (shape (image self))
              = Ok [nx self; ny self; nfreq self]).
    { intros s Hs. rewrite Him. cbn -[Nat.ltb]. apply Nat.ltb_lt in Hs.
      rewrite Hs. reflexivity. }
    assert (Hfail : forall p : ndarray R, shape p = [nx self; ny self; nfreq self] ->
              setitem (full 0 [1%nat; ny self; nx self]) [At 0%nat; All; All] p
              = Err ValueError).
    { intros p Hp. unfold setitem.
      cbn [shape full sub_shape Nat.ltb Nat.leb mbind result_bind].
      rewrite Hp, assignable_extra_axis by lia. reflexivity. }
    destruct (istokes_of st) as [s|] eqn:Es.
    + assert (Hs : (s < 4)%nat) by (destruct st; cbn in Es; simplify_eq; lia).
      unfold fits_plane. rewrite (getitem_Ok _ _ _ (Hsub s Hs)).
      cbn [mbind result_bind]. apply Hfail. reflexivity.
    + unfold fits_polarised.
      rewrite !(getitem_Ok _ _ [nx self; ny self; nfreq self]) by (apply Hsub; lia).
      cbn [mbind result_bind].
      match goal with
      | |- context [nd_zip Rplus ?q ?u] =>
          destruct (nd_zip_same Rplus q u) as (s & -> & Ss & _); [reflexivity|]
      end.
      cbn [mbind result_bind]. apply Hfail. exact Ss.
  - intros H2 Hsq. unfold fits_data. rewrite Hst.
    change (fits_conv self fwhm dpc) with conv.
    destruct (Nat.eqb_spec (nfreq self) 1) as [H1|_]; [lia|].
    destruct (istokes_of st) as [s|] eqn:Es.
    + assert (Hs : (s < 4)%nat) by (destruct st; cbn in Es; simplify_eq; lia).
      destruct (fits_fill (nfreq self) (ny self) (nx self)
                  (fun inu => fits_plane self conv [All; All; At s; At inu]))
        as (d & E & Hd & Hdv).
      { intros i Hi.
        destruct (fits_plane_stokes self conv _ _ _ _ s i Him Hs Hi) as (p & Ep & Sp & _).
        exists p. split; [exact Ep|]. rewrite Sp, Hsq. reflexivity. }
      exists d. split; [exact E|]. split; [exact Hd|].
      intros inu a b Hi Ha Hb.
      destruct (Hdv inu a b Hi Ha Hb) as (p & Ep & Hp).
      destruct (fits_plane_stokes self conv _ _ _ _ s inu Him Hs Hi) as (p' & Ep' & _ & Hv).
      assert (p' = p) as -> by congruence.
      rewrite Hp, Hv. destruct st; cbn in Es; simplify_eq; reflexivity.
    + destruct (fits_fill (nfreq self) (ny self) (nx self)
                  (fun inu => fits_polarised self conv [All; All; At 1%nat; At inu]
                                [All; All; At 2%nat; At inu]))
        as (d & E & Hd & Hdv).
      { intros i Hi.
        destruct (fits_polarised_channel self conv _ _ _ i Him Hi) as (p & Ep & Sp & _).
        exists p. split; [exact Ep|]. rewrite Sp, Hsq. reflexivity. }
      exists d. split; [exact E|]. split; [exact Hd|].
      intros inu a b Hi Ha Hb.
      destruct (Hdv inu a b Hi Ha Hb) as (p & Ep & Hp).
      destruct (fits_polarised_channel self conv _ _ _ inu Him Hi) as (p' & Ep' & _ & Hv).
      assert (p' = p) as -> by congruence.
      rewrite Hp, Hv by lia. destruct st; cbn in Es; simplify_eq; reflexivity.
Qed.

Lemma writeFits_data_stokes_witness :
  exists c, readImage stokes_file = Ok c /\
    fits_data c [] 1 false ChoosePI = Err ValueError.
Proof.
  destruct stokes_file_loads as (c & Ec & Hst & Hnf & Hnx & Hny).
  exists c. split; [exact Ec|].
  destruct (writeFits_data_stokes c [] 1 ChoosePI (readImage_layout _ _ Ec) Hst)
    as [H _].
  apply H; [exact Hnf | lia].
Defined.
